(** * StarRush: simulation core, shallow embedding and verified properties

    The development follows the TypeScript sources of the game: the
    configuration table, the zustand store holding the Sun economy, the
    entities (Planet, Sun, Triangle, DefenseTriangle), the two object pools,
    the input / AI / combat / production systems, the click handlers, the
    shake animation of a refused request, the win-condition check, the
    context message of the UI, the frame loop and the easing functions of
    AnimationMath.

    Conventions of the embedding.
    - A JavaScript [number] that only ever holds integers in the program
      (HP, ship counts, attack costs, the countdown, millisecond timestamps)
      is a [Z].  A [number] that can be fractional (positions, distances,
      cooldowns, overcharge, the frame delta) is an exact rational [Q].
      The program rounds the result of each operation to a double and the
      model does not: the two agree on whole numbers, and on one
      operation up to its rounding, but what many fractional operations
      add up to can differ in the last digits.  Statements about
      fractional quantities therefore relate the result of one call to
      its arguments, or state what rounding preserves (orderings, bounds,
      values that never rise), or are about frames of whole ticks; the
      statements on the easing curves and on [lerpAngle] are about the
      exact formulas.  Overflow, infinities and NaN are outside the
      model.
    - [Math.sqrt] has no rational counterpart, so the systems that call it
      take it as the section variable [Math_sqrt].
    - [Infinity] used as the initial value of a running minimum, or as an
      absent time span, is [None] in an [option].
    - Objects that are shared by reference (pooled triangles, defence units)
      live in a store indexed by a reference [ref]; the arrays of the program
      hold references, so aliasing is kept.
    - Rendering (PIXI graphics, particles, tweens, alerts, logging) is left
      out, except for what the simulation reads back: the flags
      [container.parent] and [visible], and the position of a planet's
      container, which [shake] writes and [getPosition] reads.
    - [Date.now()] and [Math.random()] are arguments: each function takes
      the values the browser answers during the call. *)

From Stdlib Require Import ZArith QArith Qround Qminmax Lia Lqa Bool.
From stdpp Require Import base option list.

Local Open Scope Z_scope.

(** ** JavaScript numbers *)

Definition Qltb (a b : Q) : bool := negb (Qle_bool b a).
Definition Qleb (a b : Q) : bool := Qle_bool a b.

(** A comparison against a running minimum initialised with [Infinity]. *)
Definition lt_inf (a : Q) (m : option Q) : bool :=
  match m with
  | None => true
  | Some b => Qltb a b
  end.

(** [arr[i] = v] on an array of booleans: in range it overwrites, past the
    end JavaScript extends the array; the holes read as [undefined], which
    every reader of these arrays treats like [false]. *)
Definition js_set (l : list bool) (i : nat) (v : bool) : list bool :=
  if decide (i < length l)%nat then <[i:=v]> l
  else l ++ replicate (i - length l) false ++ [v].

(** [arr[i]] used as a condition: a missing entry is falsy. *)
Definition js_truthy (l : list bool) (i : nat) : bool := default false (l !! i).

(** A reference to a heap-allocated object: its index in the store. *)
Abbreviation ref := nat (only parsing).

(** ** config/GameConfig *)

Inductive Owner := player | ai | neutral.
Inductive PlanetType := generator | fortress | launcher | standard.
Inductive GameMode := classic | quick | timeattack.
Inductive TimeAttackMode := ta30s | ta60s | ta90s | ta120s.

#[global] Instance Owner_eq_dec : EqDecision Owner.
Proof. solve_decision. Defined.
#[global] Instance PlanetType_eq_dec : EqDecision PlanetType.
Proof. solve_decision. Defined.
#[global] Instance GameMode_eq_dec : EqDecision GameMode.
Proof. solve_decision. Defined.

Module GameConfig.

Definition TIME_ATTACK_MODES (m : TimeAttackMode) : Z :=
  match m with ta30s => 30 | ta60s => 60 | ta90s => 90 | ta120s => 120 end.

Record ModeConfig := { duration : Z; majorityThreshold : Z }.

Definition CLASSIC : ModeConfig := {| duration := 120; majorityThreshold := 5 |}.
Definition QUICK : ModeConfig := {| duration := 60; majorityThreshold := 4 |}.
Definition TIME_ATTACK : ModeConfig := {| duration := 60; majorityThreshold := 4 |}.

Definition getMajorityThreshold (mode : GameMode) : Z :=
  if decide (mode = quick) then majorityThreshold QUICK
  else majorityThreshold CLASSIC.

(** The parameter defaults to ['classic'] when the caller passes nothing. *)
Definition getMajorityThreshold_default (mode : option GameMode) : Z :=
  getMajorityThreshold (default classic mode).

Definition SUN_MAX_HP : Z := 3.
Definition ATTACK_COST_BASE : Z := 5.
Definition ATTACK_COST_DISTANCE_MULTIPLIER : Q := 1 # 100.
Definition ATTACK_COST_MIN : Z := 5.
Definition ATTACK_COST_MAX : Z := 15.
Definition SUN_ATTACK_COOLDOWN : Q := 180.
Definition SUN_OVERCHARGE_MULTIPLIER : Q := 2.
Definition SUN_OVERCHARGE_DECAY : Q := 1 # 2.
Definition INITIAL_SHIPS : Z := 10.
Definition TRIANGLE_BASE_SPEED : Q := 200.
Definition SUN_HIT_THRESHOLD : Q := 80.

Record PlanetTypeConfig :=
  { production : Z; speedBonus : option Q; attackCostModifier : Z }.

Definition PLANET_TYPES (t : PlanetType) : PlanetTypeConfig :=
  match t with
  | generator => {| production := 2; speedBonus := None; attackCostModifier := 2 |}
  | fortress => {| production := 1; speedBonus := None; attackCostModifier := -1 |}
  | launcher => {| production := 1; speedBonus := Some (3 # 2); attackCostModifier := 0 |}
  | standard => {| production := 1; speedBonus := None; attackCostModifier := 0 |}
  end.

End GameConfig.

(** ** store/gameStore: the zustand store *)

Module Store.

Record t := mk
  { gameMode : GameMode;
    timeAttackMode : option TimeAttackMode;
    sunHP : Z;
    sunOwner : option Owner;
    sunAttackCooldown : Q;
    sunAIAttackCooldown : Q;
    sunOvercharge : Q;
    lastSunAttackTime : Z;
    lastSunAIAttackTime : Z;
    timer : Z;
    captureTime : Z;
    attacksLaunched : Z;
    planetsConquered : Z }.

Definition initial : t :=
  {| gameMode := classic; timeAttackMode := None;
     sunHP := 3; sunOwner := None;
     sunAttackCooldown := 0; sunAIAttackCooldown := 0; sunOvercharge := 0;
     lastSunAttackTime := 0; lastSunAIAttackTime := 0;
     timer := 120; captureTime := 0;
     attacksLaunched := 0; planetsConquered := 0 |}.

Definition set_sun (hp : Z) (o : option Owner) (s : t) : t :=
  mk (gameMode s) (timeAttackMode s) hp o
     (sunAttackCooldown s) (sunAIAttackCooldown s) (sunOvercharge s)
     (lastSunAttackTime s) (lastSunAIAttackTime s)
     (timer s) (captureTime s) (attacksLaunched s) (planetsConquered s).

Definition set_economy (cd cdAI ov : Q) (lastP lastAI : Z) (s : t) : t :=
  mk (gameMode s) (timeAttackMode s) (sunHP s) (sunOwner s)
     cd cdAI ov lastP lastAI
     (timer s) (captureTime s) (attacksLaunched s) (planetsConquered s).

Definition set_game (tm ct atk conq : Z) (s : t) : t :=
  mk (gameMode s) (timeAttackMode s) (sunHP s) (sunOwner s)
     (sunAttackCooldown s) (sunAIAttackCooldown s) (sunOvercharge s)
     (lastSunAttackTime s) (lastSunAIAttackTime s)
     tm ct atk conq.

Definition damageSun (attacker : Owner) (s : t) : t :=
  if 0 <? sunHP s then
    let newHP := sunHP s - 1 in
    let s1 := set_sun newHP (sunOwner s) s in
    if newHP =? 0 then set_sun (sunHP s1) (Some attacker) s1 else s1
  else s.

Definition captureSun (o : Owner) (s : t) : t := set_sun 0 (Some o) s.

(** One frame of [delta] ticks.  The three subtractions are exact here
    and rounded in the program. *)
Definition updateSunCooldown (delta : Q) (s : t) : t :=
  let newCooldown := Qmax 0 (sunAttackCooldown s - delta) in
  let newAICooldown := Qmax 0 (sunAIAttackCooldown s - delta) in
  let overchargeDecay := (GameConfig.SUN_OVERCHARGE_DECAY * (delta / 60))%Q in
  let newOvercharge := Qmax 0 (sunOvercharge s - overchargeDecay) in
  set_economy newCooldown newAICooldown newOvercharge
              (lastSunAttackTime s) (lastSunAIAttackTime s) s.

Definition canAttackSun (o : Owner) (s : t) : bool :=
  match sunOwner s with
  | Some _ => false
  | None =>
      if decide (o = player) then Qleb (sunAttackCooldown s) 0
      else Qleb (sunAIAttackCooldown s) 0
  end.

Definition getSunAttackCost (s : t) : Z :=
  let baseCost := GameConfig.ATTACK_COST_BASE in
  let overchargeCost :=
    Qfloor (sunOvercharge s * GameConfig.SUN_OVERCHARGE_MULTIPLIER) in
  baseCost + overchargeCost.

(** [timeSinceLastAttack], in seconds; [None] is [Infinity]. *)
Definition timeSinceLastAttack (o : Owner) (now : Z) (s : t) : option Q :=
  if decide (o = player) then
    if 0 <? lastSunAttackTime s
    then Some (inject_Z (now - lastSunAttackTime s) / 1000)%Q else None
  else if decide (o = ai) then
    if 0 <? lastSunAIAttackTime s
    then Some (inject_Z (now - lastSunAIAttackTime s) / 1000)%Q else None
  else None.

(** [now] is the value [Date.now()] returns during the call. *)
Definition registerSunAttack (o : Owner) (now : Z) (s : t) : t :=
  let newOvercharge :=
    match timeSinceLastAttack o now s with
    | Some d =>
        if Qltb d 5
        then (sunOvercharge s + GameConfig.SUN_OVERCHARGE_MULTIPLIER)%Q
        else sunOvercharge s
    | None => sunOvercharge s
    end in
  if decide (o = player) then
    set_economy GameConfig.SUN_ATTACK_COOLDOWN (sunAIAttackCooldown s)
                newOvercharge now (lastSunAIAttackTime s) s
  else
    set_economy (sunAttackCooldown s) GameConfig.SUN_ATTACK_COOLDOWN
                newOvercharge (lastSunAttackTime s) now s.

Definition decrementTimer (s : t) : t :=
  set_game (Z.max 0 (timer s - 1)) (captureTime s)
           (attacksLaunched s) (planetsConquered s) s.

Definition incrementAttacks (s : t) : t :=
  set_game (timer s) (captureTime s) (attacksLaunched s + 1) (planetsConquered s) s.

Definition incrementConquests (s : t) : t :=
  set_game (timer s) (captureTime s) (attacksLaunched s) (planetsConquered s + 1) s.

Definition set_mode (m : GameMode) (ta : option TimeAttackMode) (tm : Z) (s : t) : t :=
  mk m ta (sunHP s) (sunOwner s)
     (sunAttackCooldown s) (sunAIAttackCooldown s) (sunOvercharge s)
     (lastSunAttackTime s) (lastSunAIAttackTime s)
     tm (captureTime s) (attacksLaunched s) (planetsConquered s).

Definition setGameMode (mode : GameMode) (s : t) : t :=
  let duration :=
    if decide (mode = quick) then GameConfig.duration GameConfig.QUICK
    else
      match decide (mode = timeattack), timeAttackMode s with
      | left _, Some m => GameConfig.TIME_ATTACK_MODES m
      | _, _ => GameConfig.duration GameConfig.CLASSIC
      end in
  set_mode mode (timeAttackMode s) duration s.

Definition setTimeAttackMode (mode : option TimeAttackMode) (s : t) : t :=
  match mode with
  | Some m => set_mode timeattack (Some m) (GameConfig.TIME_ATTACK_MODES m) s
  | None => set_mode classic None (GameConfig.duration GameConfig.CLASSIC) s
  end.

(** [reset] and [resetGame]: the Sun, the economy, the countdown and the
    statistics are re-initialised; the mode, the time-attack duration and
    [captureTime] are not written. *)
Definition reset (s : t) : t :=
  let modeConfig :=
    if decide (gameMode s = quick) then GameConfig.QUICK else GameConfig.CLASSIC in
  mk (gameMode s) (timeAttackMode s) 3 None 0 0 0 0 0
     (GameConfig.duration modeConfig) (captureTime s) 0 0.

Definition resetGame (s : t) : t :=
  let modeConfig :=
    if decide (gameMode s = quick) then GameConfig.QUICK else GameConfig.CLASSIC in
  mk (gameMode s) (timeAttackMode s) 3 None 0 0 0 0 0
     (GameConfig.duration modeConfig) (captureTime s) 0 0.

End Store.

(** ** entities/Sun *)

Module Sun.

Record t := mk
  { hp : Z;
    owner : option Owner;
    isAttackable : bool;
    x : Q;
    y : Q }.

Definition create (px py : Q) : t :=
  mk GameConfig.SUN_MAX_HP None false px py.

(** The Sun entity and the store are updated together by [takeDamage]. *)
Definition takeDamage (attacker : Owner) (st : t * Store.t) : bool * (t * Store.t) :=
  let '(s, g) := st in
  if (0 <? hp s) && bool_decide (owner s = None) then
    let s1 := mk (hp s - 1) (owner s) (isAttackable s) (x s) (y s) in
    let g1 := Store.damageSun attacker g in
    if hp s1 =? 0 then
      let s2 := mk (hp s1) (Some attacker) (isAttackable s1) (x s1) (y s1) in
      (true, (s2, Store.captureSun attacker g1))
    else (false, (s1, g1))
  else (false, (s, g)).

Definition setAttackable (canAttack : bool) (s : t) : t :=
  mk (hp s) (owner s) canAttack (x s) (y s).

(** [Sun.update]: the entity copies HP and owner back from the store. *)
Definition update (st : t * Store.t) : t * Store.t :=
  let '(s, g) := st in
  (mk (Store.sunHP g) (Store.sunOwner g) (isAttackable s) (x s) (y s), g).

End Sun.

(** ** entities/DefenseTriangle *)

Module DefenseTriangle.

Record t := mk
  { owner : Owner;
    isActive : bool;
    visible : bool }.

Definition create (o : Owner) : t := mk o true true.

Definition consume (d : t) : t := mk (owner d) false false.

End DefenseTriangle.

(** ** entities/Planet *)

Module Planet.

Record t := mk
  { id : nat;
    owner : Owner;
    type : PlanetType;
    ships : Z;
    x : Q;
    y : Q;
    defenseTriangle : option ref }.

Definition create (px py : Q) (o : Owner) (i : nat) (ty : PlanetType) : t :=
  mk i o ty 0 px py None.

Definition set_ships (n : Z) (p : t) : t :=
  mk (id p) (owner p) (type p) n (x p) (y p) (defenseTriangle p).

Definition set_defense (d : option ref) (p : t) : t :=
  mk (id p) (owner p) (type p) (ships p) (x p) (y p) d.

Definition getProduction (p : t) : Z :=
  let production := GameConfig.production (GameConfig.PLANET_TYPES (type p)) in
  if production =? 0 then 1 else production.

Definition addShips (amount : Z) (p : t) : t := set_ships (ships p + amount) p.

Definition removeShips (amount : Z) (p : t) : bool * t :=
  if amount <=? ships p then (true, set_ships (ships p - amount) p)
  else (false, p).

Definition setOwner (o : Owner) (p : t) : t :=
  mk (id p) o (type p) (ships p) (x p) (y p) (defenseTriangle p).

(** [container.x = nx; container.y = ny]: the position [getPosition]
    answers is the position of the container. *)
Definition set_position (nx ny : Q) (p : t) : t :=
  mk (id p) (owner p) (type p) (ships p) nx ny (defenseTriangle p).

Definition addDefense (d : ref) (p : t) : t := set_defense (Some d) p.

(** [hasDefense] reads the shared defence unit through the reference. *)
Definition hasDefense (defenses : list DefenseTriangle.t) (p : t) : bool :=
  match defenseTriangle p with
  | None => false
  | Some d => default false (DefenseTriangle.isActive <$> defenses !! d)
  end.

(** [consumeDefense] deactivates the shared unit and clears the slot. *)
Definition consumeDefense (defenses : list DefenseTriangle.t) (p : t)
  : list DefenseTriangle.t * t :=
  match defenseTriangle p with
  | Some d =>
      (alter DefenseTriangle.consume d defenses, set_defense None p)
  | None => (defenses, p)
  end.

End Planet.

(** ** utils/AnimationHelper: the shake animation

    [shake(target, intensity, duration)] keeps in its closure the position
    the target has at the call and the clock at the call, and runs the
    closure [animate] once itself; [animate] moves the target and asks the
    browser for another animation frame until [duration] seconds have
    passed, and then puts the target back where the closure found it.  The
    targets of the program are the containers of planets, so [target] is
    the index of a planet and the position written is the one
    [Planet.getPosition] reads. *)

Module Shake.

Record t := mk
  { target : nat;
    originalX : Q;
    originalY : Q;
    intensity : Q;
    duration : Q;
    startTime : Z }.

(** What one run of [animate] reads from the browser: [Date.now()] and,
    while the animation lasts, two values of [Math.random()]. *)
Record Reads := { now : Z; randomX : Q; randomY : Q }.

(** What a call of [shake] reads: [Date.now()] for [startTime], then the
    reads of the first run of [animate]. *)
Record Call := { clock : Z; first : Reads }.

(** One run of [animate]: whether it asked for another animation frame,
    and the planets. *)
Definition animate (a : t) (e : Reads) (planets : list Planet.t) : bool * list Planet.t :=
  let elapsed := (inject_Z (now e - startTime a) / 1000)%Q in
  if Qltb elapsed (duration a) then
    let offsetX := ((randomX e - (1 # 2)) * intensity a)%Q in
    let offsetY := ((randomY e - (1 # 2)) * intensity a)%Q in
    (true,
     alter (Planet.set_position (originalX a + offsetX) (originalY a + offsetY))
           (target a) planets)
  else
    (false,
     alter (Planet.set_position (originalX a) (originalY a)) (target a) planets).

End Shake.

(** ** entities/Triangle: the pooled projectile *)

Module Triangle.

Record t := mk
  { targetX : Q;
    targetY : Q;
    baseSpeed : Q;
    speedMultiplier : Q;
    owner : Owner;
    hasReached : bool;
    totalDistanceSquared : Q;
    traveledDistance : Q;
    isRageMode : bool;
    active : bool;
    x : Q;
    y : Q;
    visible : bool;
    onStage : bool }.

(** [new Triangle()]: the field initialisers; the container is detached. *)
Definition create : t :=
  mk 0 0 GameConfig.TRIANGLE_BASE_SPEED 1 player false 0 0 false false 0 0 true false.

Definition init (startX startY tX tY : Q) (o : Owner) (mult : Q) (tr : t) : t :=
  let dx := (tX - startX)%Q in
  let dy := (tY - startY)%Q in
  mk tX tY (baseSpeed tr) mult o false (dx * dx + dy * dy)%Q 0
     (Qltb 1 mult) true startX startY true (onStage tr).

Definition reset (tr : t) : t :=
  mk (targetX tr) (targetY tr) (baseSpeed tr) (speedMultiplier tr) (owner tr)
     true (totalDistanceSquared tr) (traveledDistance tr) (isRageMode tr)
     false (x tr) (y tr) false false.

Definition set_onStage (b : bool) (tr : t) : t :=
  mk (targetX tr) (targetY tr) (baseSpeed tr) (speedMultiplier tr) (owner tr)
     (hasReached tr) (totalDistanceSquared tr) (traveledDistance tr)
     (isRageMode tr) (active tr) (x tr) (y tr) (visible tr) b.

Definition set_reached (tr : t) : t :=
  mk (targetX tr) (targetY tr) (baseSpeed tr) (speedMultiplier tr) (owner tr)
     true (totalDistanceSquared tr) (traveledDistance tr)
     (isRageMode tr) (active tr) (x tr) (y tr) (visible tr) (onStage tr).

Definition move (nx ny travelled : Q) (tr : t) : t :=
  mk (targetX tr) (targetY tr) (baseSpeed tr) (speedMultiplier tr) (owner tr)
     (hasReached tr) (totalDistanceSquared tr) travelled
     (isRageMode tr) (active tr) nx ny (visible tr) (onStage tr).

Section WithSqrt.
Variable Math_sqrt : Q -> Q.

(** [Triangle.update]: arrival is decided on the squared distance; the
    eased movement needs the square root. *)
Definition update (delta : Q) (tr : t) : t :=
  if hasReached tr || negb (active tr) then tr
  else
    let dx := (targetX tr - x tr)%Q in
    let dy := (targetY tr - y tr)%Q in
    let distanceSquared := (dx * dx + dy * dy)%Q in
    let arrivalThresholdSquared := 25%Q in
    if Qltb distanceSquared arrivalThresholdSquared then set_reached tr
    else
      let distance := Math_sqrt distanceSquared in
      let speed := (baseSpeed tr * speedMultiplier tr)%Q in
      let totalDistance := Math_sqrt (totalDistanceSquared tr) in
      let progress := (traveledDistance tr / totalDistance)%Q in
      let easedSpeed := (speed * (1 - progress * (3 # 10)))%Q in
      let moveDistance := (easedSpeed * delta / 60)%Q in
      let ratio := (moveDistance / distance)%Q in
      move (x tr + dx * ratio)%Q (y tr + dy * ratio)%Q
           (traveledDistance tr + moveDistance)%Q tr.

End WithSqrt.

End Triangle.

(** ** utils/ObjectPool and utils/ParticlePool

    The pooled objects live in a store [heap]; the pool's [pool] array holds
    references into it, so [indexOf] compares identities. *)

(** The acquisition loop shared by both pools:
    [for (i = 0; i < pool.length; i++) if (!active[i]) ...], as the index of
    the first falsy flag among the [n] slots starting at [i]. *)
Fixpoint first_inactive (n i : nat) (active : list bool) : option nat :=
  match n with
  | O => None
  | S n' =>
      if negb (js_truthy active i) then Some i
      else first_inactive n' (S i) active
  end.

(** [pool.indexOf(obj)]: the first index holding the reference. *)
Definition indexOf (pool : list ref) (obj : ref) : option nat :=
  fst <$> list_find (λ r, r = obj) pool.

(** [getActiveCount]: the loop counts the truthy flags. *)
Definition count_active (active : list bool) : nat :=
  length (filter (λ b, b = true) active).

Module ObjectPool.

Record t := mk { pool : list ref; active : list bool }.

Section Generic.
Context {T : Type}.
(** [factory] builds a fresh object, [reset] is the function passed to the
    constructor (the identity when the argument is omitted). *)
Variable factory : T.
Variable reset : T -> T.

(** The constructor pre-allocates [size] objects, all inactive. *)
Fixpoint create_loop (size : nat) (st : list T * t) : list T * t :=
  match size with
  | O => st
  | S k =>
      let '(heap, p) := st in
      create_loop k (heap ++ [factory], mk (pool p ++ [length heap]) (active p ++ [false]))
  end.

Definition create (size : nat) (heap : list T) : list T * t :=
  create_loop size (heap, mk [] []).

(** [acquire(): T | null]; [None] stands for [null] / [undefined]. *)
Definition acquire (st : list T * t) : option ref * (list T * t) :=
  let '(heap, p) := st in
  match first_inactive (length (pool p)) 0 (active p) with
  | Some i => (pool p !! i, (heap, mk (pool p) (js_set (active p) i true)))
  | None =>
      let newObj := length heap in
      (Some newObj,
       (heap ++ [factory], mk (pool p ++ [newObj]) (active p ++ [true])))
  end.

Definition release (obj : ref) (st : list T * t) : list T * t :=
  let '(heap, p) := st in
  match indexOf (pool p) obj with
  | None => st
  | Some index =>
      if negb (js_truthy (active p) index) then st
      else (alter reset obj heap, mk (pool p) (js_set (active p) index false))
  end.

Definition getActiveCount (p : t) : nat := count_active (active p).

Definition getSize (p : t) : nat := length (pool p).

(** [clear]: every active slot is reset and marked inactive, from index 0
    up to [active.length]. *)
Fixpoint clear_loop (n i : nat) (st : list T * t) : list T * t :=
  match n with
  | O => st
  | S n' =>
      let '(heap, p) := st in
      let st' :=
        if js_truthy (active p) i then
          (match pool p !! i with
           | Some r => alter reset r heap
           | None => heap
           end,
           mk (pool p) (js_set (active p) i false))
        else st in
      clear_loop n' (S i) st'
  end.

Definition clear (st : list T * t) : list T * t :=
  clear_loop (length (active (snd st))) 0 st.

End Generic.

End ObjectPool.

Module Particle.

(** The part of a [PIXI.Graphics] particle the pool touches. *)
Record t := mk { visible : bool; alpha : Q; attached : bool }.

Definition create : t := mk false 1 false.

End Particle.

Module ParticlePool.

Record t := mk { pool : list ref; active : list bool }.

Fixpoint create_loop (size : nat) (st : list Particle.t * t) : list Particle.t * t :=
  match size with
  | O => st
  | S k =>
      let '(heap, p) := st in
      create_loop k (heap ++ [Particle.create],
                     mk (pool p ++ [length heap]) (active p ++ [false]))
  end.

Definition create (size : nat) (heap : list Particle.t) : list Particle.t * t :=
  create_loop size (heap, mk [] []).

(** [acquire(): PIXI.Graphics | null]: the found particle is made visible;
    an exhausted pool answers [null]. *)
Definition acquire (st : list Particle.t * t) : option ref * (list Particle.t * t) :=
  let '(heap, p) := st in
  match first_inactive (length (pool p)) 0 (active p) with
  | Some i =>
      let active' := js_set (active p) i true in
      (pool p !! i,
       (match pool p !! i with
        | Some r => alter (λ q, Particle.mk true 1 (Particle.attached q)) r heap
        | None => heap
        end,
        mk (pool p) active'))
  | None => (None, st)
  end.

Definition release (particle : ref) (st : list Particle.t * t) : list Particle.t * t :=
  let '(heap, p) := st in
  match indexOf (pool p) particle with
  | None => st
  | Some index =>
      if negb (js_truthy (active p) index) then st
      else (alter (λ _, Particle.mk false 0 false) particle heap,
            mk (pool p) (js_set (active p) index false))
  end.

Definition getActiveCount (p : t) : nat := count_active (active p).

(** [clear]: every active particle is hidden, detached and marked
    inactive. *)
Fixpoint clear_loop (n i : nat) (st : list Particle.t * t) : list Particle.t * t :=
  match n with
  | O => st
  | S n' =>
      let '(heap, p) := st in
      let st' :=
        if js_truthy (active p) i then
          (match pool p !! i with
           | Some r => alter (λ _, Particle.mk false 0 false) r heap
           | None => heap
           end,
           mk (pool p) (js_set (active p) i false))
        else st in
      clear_loop n' (S i) st'
  end.

Definition clear (st : list Particle.t * t) : list Particle.t * t :=
  clear_loop (length (active (snd st))) 0 st.

End ParticlePool.

(** ** The match: everything the systems share

    [planets] is the array handed to every system; a planet is referred to
    by its index.  [defenses] and [triangles] are the stores of the shared
    [DefenseTriangle] and [Triangle] objects.  The systems are wired as
    [initGame] wires them: the Sun and the triangle pool are always
    present, so the [container.destroy()] branches taken without a pool,
    and the [container.destroyed] test of [updateTriangles], are not
    modelled. *)

Inductive Strategy := aggressive | balanced | defensive.
Inductive DefeatReason := ai_won | timer_out.
Inductive EndScreen := Victory | Defeat (reason : DefeatReason).

#[global] Instance Strategy_eq_dec : EqDecision Strategy.
Proof. solve_decision. Defined.

Module World.

Record t := mk
  { store : Store.t;
    sun : Sun.t;
    planets : list Planet.t;
    defenses : list DefenseTriangle.t;
    triangles : list Triangle.t;
    trianglePool : ObjectPool.t;
    (** [InputManager.triangles] and [InputManager.defenseTriangles] *)
    playerTriangles : list ref;
    inputDefenses : list ref;
    (** [AISystem.triangles], [decisionTimer], [aiStrategy] *)
    aiTriangles : list ref;
    decisionTimer : Q;
    aiStrategy : Strategy;
    (** [ProductionSystem.accumulator] *)
    accumulator : Q;
    (** [setOwner] callbacks handed to [animateColorTransition], not yet run *)
    pendingOwner : list (nat * Owner);
    (** number of times the [onPlayerLostPlanet] callback has fired *)
    planetLostAlerts : nat;
    (** [GameManager.gameOver] and the end screen shown *)
    gameOver : bool;
    endScreen : option EndScreen;
    (** the [animate] closures of [AnimationHelper.shake] that wait for an
        animation frame, in the order in which they asked for it *)
    shakes : list Shake.t }.

Definition set_store (v : Store.t) (w : t) : t :=
  mk v (sun w) (planets w) (defenses w) (triangles w) (trianglePool w)
     (playerTriangles w) (inputDefenses w) (aiTriangles w) (decisionTimer w)
     (aiStrategy w) (accumulator w) (pendingOwner w) (planetLostAlerts w)
     (gameOver w) (endScreen w) (shakes w).

Definition set_sun (v : Sun.t) (w : t) : t :=
  mk (store w) v (planets w) (defenses w) (triangles w) (trianglePool w)
     (playerTriangles w) (inputDefenses w) (aiTriangles w) (decisionTimer w)
     (aiStrategy w) (accumulator w) (pendingOwner w) (planetLostAlerts w)
     (gameOver w) (endScreen w) (shakes w).

Definition set_planets (v : list Planet.t) (w : t) : t :=
  mk (store w) (sun w) v (defenses w) (triangles w) (trianglePool w)
     (playerTriangles w) (inputDefenses w) (aiTriangles w) (decisionTimer w)
     (aiStrategy w) (accumulator w) (pendingOwner w) (planetLostAlerts w)
     (gameOver w) (endScreen w) (shakes w).

Definition set_defenses (v : list DefenseTriangle.t) (w : t) : t :=
  mk (store w) (sun w) (planets w) v (triangles w) (trianglePool w)
     (playerTriangles w) (inputDefenses w) (aiTriangles w) (decisionTimer w)
     (aiStrategy w) (accumulator w) (pendingOwner w) (planetLostAlerts w)
     (gameOver w) (endScreen w) (shakes w).

Definition set_pool (v : list Triangle.t * ObjectPool.t) (w : t) : t :=
  mk (store w) (sun w) (planets w) (defenses w) (fst v) (snd v)
     (playerTriangles w) (inputDefenses w) (aiTriangles w) (decisionTimer w)
     (aiStrategy w) (accumulator w) (pendingOwner w) (planetLostAlerts w)
     (gameOver w) (endScreen w) (shakes w).

Definition set_triangles (v : list Triangle.t) (w : t) : t :=
  set_pool (v, trianglePool w) w.

Definition set_playerTriangles (v : list ref) (w : t) : t :=
  mk (store w) (sun w) (planets w) (defenses w) (triangles w) (trianglePool w)
     v (inputDefenses w) (aiTriangles w) (decisionTimer w)
     (aiStrategy w) (accumulator w) (pendingOwner w) (planetLostAlerts w)
     (gameOver w) (endScreen w) (shakes w).

Definition set_inputDefenses (v : list ref) (w : t) : t :=
  mk (store w) (sun w) (planets w) (defenses w) (triangles w) (trianglePool w)
     (playerTriangles w) v (aiTriangles w) (decisionTimer w)
     (aiStrategy w) (accumulator w) (pendingOwner w) (planetLostAlerts w)
     (gameOver w) (endScreen w) (shakes w).

Definition set_aiTriangles (v : list ref) (w : t) : t :=
  mk (store w) (sun w) (planets w) (defenses w) (triangles w) (trianglePool w)
     (playerTriangles w) (inputDefenses w) v (decisionTimer w)
     (aiStrategy w) (accumulator w) (pendingOwner w) (planetLostAlerts w)
     (gameOver w) (endScreen w) (shakes w).

Definition set_decisionTimer (v : Q) (w : t) : t :=
  mk (store w) (sun w) (planets w) (defenses w) (triangles w) (trianglePool w)
     (playerTriangles w) (inputDefenses w) (aiTriangles w) v
     (aiStrategy w) (accumulator w) (pendingOwner w) (planetLostAlerts w)
     (gameOver w) (endScreen w) (shakes w).

Definition set_accumulator (v : Q) (w : t) : t :=
  mk (store w) (sun w) (planets w) (defenses w) (triangles w) (trianglePool w)
     (playerTriangles w) (inputDefenses w) (aiTriangles w) (decisionTimer w)
     (aiStrategy w) v (pendingOwner w) (planetLostAlerts w)
     (gameOver w) (endScreen w) (shakes w).

Definition set_pendingOwner (v : list (nat * Owner)) (w : t) : t :=
  mk (store w) (sun w) (planets w) (defenses w) (triangles w) (trianglePool w)
     (playerTriangles w) (inputDefenses w) (aiTriangles w) (decisionTimer w)
     (aiStrategy w) (accumulator w) v (planetLostAlerts w)
     (gameOver w) (endScreen w) (shakes w).

Definition set_planetLostAlerts (v : nat) (w : t) : t :=
  mk (store w) (sun w) (planets w) (defenses w) (triangles w) (trianglePool w)
     (playerTriangles w) (inputDefenses w) (aiTriangles w) (decisionTimer w)
     (aiStrategy w) (accumulator w) (pendingOwner w) v
     (gameOver w) (endScreen w) (shakes w).

Definition set_end (over : bool) (scr : option EndScreen) (w : t) : t :=
  mk (store w) (sun w) (planets w) (defenses w) (triangles w) (trianglePool w)
     (playerTriangles w) (inputDefenses w) (aiTriangles w) (decisionTimer w)
     (aiStrategy w) (accumulator w) (pendingOwner w) (planetLostAlerts w)
     over scr (shakes w).

Definition set_shakes (v : list Shake.t) (w : t) : t :=
  mk (store w) (sun w) (planets w) (defenses w) (triangles w) (trianglePool w)
     (playerTriangles w) (inputDefenses w) (aiTriangles w) (decisionTimer w)
     (aiStrategy w) (accumulator w) (pendingOwner w) (planetLostAlerts w)
     (gameOver w) (endScreen w) v.

(** The planets paired with their indices, in array order. *)
Definition indexed (w : t) : list (nat * Planet.t) :=
  zip (seq 0 (length (planets w))) (planets w).

Definition owned_by (o : Owner) (w : t) : list (nat * Planet.t) :=
  filter (λ ip, Planet.owner ip.2 = o) (indexed w).

(** The triangle pool of the match is built with [new Triangle()] as
    factory and [triangle.reset()] as reset function. *)
Definition pool_acquire (w : t) : option ref * t :=
  let '(r, st) := ObjectPool.acquire Triangle.create (triangles w, trianglePool w) in
  (r, set_pool st w).

Definition pool_release (obj : ref) (w : t) : t :=
  set_pool (ObjectPool.release Triangle.reset obj (triangles w, trianglePool w)) w.

End World.

(** A loop that walks an array of references from the last index down to 0
    and splices out the entries for which the body answers [true]:
    [for (i = a.length - 1; i >= 0; i--) { ...; a.splice(i, 1) }]. *)
Fixpoint loop_down {S : Type} (body : ref -> S -> bool * S) (l : list ref) (s : S)
  : list ref * S :=
  match l with
  | [] => ([], s)
  | r :: rest =>
      let '(rest', s1) := loop_down body rest s in
      let '(remove, s2) := body r s1 in
      (if remove then rest' else r :: rest', s2)
  end.

(** The squared distance between two points. *)
Definition dist2 (ax ay bx b_y : Q) : Q :=
  let dx := (bx - ax)%Q in
  let dy := (b_y - ay)%Q in
  (dx * dx + dy * dy)%Q.

(** ** utils/AnimationHelper: shaking a planet *)

Module AnimationHelper.

(** [shake(planet.getContainer(), intensity, duration)]: the closure is
    built from the position of the planet and from the clock, [animate]
    runs once, and the closure joins the ones that wait for an animation
    frame if that run asked for one.  The callers pass a planet of the
    match. *)
Definition shake (target : nat) (intensity duration : Q) (sh : Shake.Call)
    (w : World.t) : World.t :=
  match World.planets w !! target with
  | None => w
  | Some p =>
      let a := Shake.mk target (Planet.x p) (Planet.y p) intensity duration
                        (Shake.clock sh) in
      let '(again, planets) := Shake.animate a (Shake.first sh) (World.planets w) in
      let w1 := World.set_planets planets w in
      if again then World.set_shakes (World.shakes w1 ++ [a]) w1 else w1
  end.

(** One animation frame of the browser: the waiting closures run in the
    order in which they asked for the frame, [reads k] being what the
    [k]-th of them reads; those that ask again wait for the next frame. *)
Definition frame_step (reads : nat → Shake.Reads)
    (acc : nat * list Shake.t * list Planet.t) (a : Shake.t)
  : nat * list Shake.t * list Planet.t :=
  let '(k, waiting, planets) := acc in
  let '(again, planets') := Shake.animate a (reads k) planets in
  (S k, if again then waiting ++ [a] else waiting, planets').

Definition animationFrame (reads : nat → Shake.Reads) (w : World.t) : World.t :=
  let '(_, waiting, planets) :=
    foldl (frame_step reads) (0%nat, [], World.planets w) (World.shakes w) in
  World.set_shakes waiting (World.set_planets planets w).

End AnimationHelper.

(** ** systems/InputManager *)

Module InputManager.

Section WithSqrt.
Variable Math_sqrt : Q -> Q.

Definition calculateAttackCost (sx sy tx ty : Q) (sourcePlanet : option Planet.t) : Z :=
  let dx := (tx - sx)%Q in
  let dy := (ty - sy)%Q in
  let distance := Math_sqrt (dx * dx + dy * dy)%Q in
  let baseCost := GameConfig.ATTACK_COST_BASE in
  let distanceCost := (distance * GameConfig.ATTACK_COST_DISTANCE_MULTIPLIER)%Q in
  let typeModifier :=
    match sourcePlanet with
    | Some p => GameConfig.attackCostModifier (GameConfig.PLANET_TYPES (Planet.type p))
    | None => 0
    end in
  let totalCost := (inject_Z baseCost + distanceCost + inject_Z typeModifier)%Q in
  Z.max GameConfig.ATTACK_COST_MIN
        (Z.min GameConfig.ATTACK_COST_MAX (Qfloor totalCost)).

(** Launching a projectile: acquire from the pool, [init], push on the
    player's list, count the attack. *)
Definition launch (sx sy tx ty : Q) (mult : Q) (w : World.t) : bool * World.t :=
  match World.pool_acquire w with
  | (None, w1) => (false, w1)
  | (Some tr, w1) =>
      let w2 := World.set_triangles
                  (alter (Triangle.init sx sy tx ty player mult) tr (World.triangles w1)) w1 in
      let w3 := World.set_playerTriangles (World.playerTriangles w2 ++ [tr]) w2 in
      (true, World.set_store (Store.incrementAttacks (World.store w3)) w3)
  end.

Definition attackSun (source : nat) (now : Z) (w : World.t) : bool * World.t :=
  match World.planets w !! source with
  | None => (false, w)
  | Some src =>
      let attackCost := Store.getSunAttackCost (World.store w) in
      if Planet.ships src <? attackCost then (false, w)
      else
        let w1 := World.set_store (Store.registerSunAttack player now (World.store w)) w in
        let w2 := World.set_planets
                    (alter (λ p, snd (Planet.removeShips attackCost p)) source (World.planets w1)) w1 in
        launch (Planet.x src) (Planet.y src)
               (Sun.x (World.sun w2)) (Sun.y (World.sun w2)) 1 w2
  end.

Definition handleSunClick (now : Z) (w : World.t) : World.t :=
  match Sun.owner (World.sun w) with
  | Some _ => w
  | None =>
      let state := World.store w in
      if negb (Store.canAttackSun player state) then w
      else
        let playerPlanets := World.owned_by player w in
        let majorityThreshold := GameConfig.getMajorityThreshold (Store.gameMode state) in
        if Z.of_nat (length playerPlanets) <? majorityThreshold then w
        else
          let attackCost := Store.getSunAttackCost state in
          let best :=
            foldl (λ (acc : option nat * option Q) (ip : nat * Planet.t),
                     let distance :=
                       Math_sqrt (dist2 (Sun.x (World.sun w)) (Sun.y (World.sun w))
                                        (Planet.x ip.2) (Planet.y ip.2)) in
                     if (attackCost <=? Planet.ships ip.2) && lt_inf distance acc.2
                     then (Some ip.1, Some distance) else acc)
                  (None, None) playerPlanets in
          match best.1 with
          | Some bestPlanet => snd (attackSun bestPlanet now w)
          | None => w
          end
  end.

Definition findBestPlayerPlanetForAttack (target : Planet.t) (w : World.t) : option nat :=
  let playerPlanets := World.owned_by player w in
  let best :=
    foldl (λ (acc : option nat * option Q) (ip : nat * Planet.t),
             let attackCost :=
               calculateAttackCost (Planet.x ip.2) (Planet.y ip.2)
                                   (Planet.x target) (Planet.y target) (Some ip.2) in
             if attackCost <=? Planet.ships ip.2 then
               let distance :=
                 Math_sqrt (dist2 (Planet.x target) (Planet.y target)
                                  (Planet.x ip.2) (Planet.y ip.2)) in
               let score := (distance * (1 # 2) + inject_Z attackCost)%Q in
               if lt_inf score acc.2 then (Some ip.1, Some score) else acc
             else acc)
          (None, None) playerPlanets in
  best.1.

(** [sh] is what the call of [AnimationHelper.shake] reads when the
    request is refused for lack of ships. *)
Definition defendPlanet (sh : Shake.Call) (planet : nat) (w : World.t) : World.t :=
  match World.planets w !! planet with
  | None => w
  | Some p =>
      let defenseCost := GameConfig.ATTACK_COST_BASE in
      if Planet.ships p <? defenseCost then
        AnimationHelper.shake planet 5 (3 # 10) sh w
      else if Planet.hasDefense (World.defenses w) p then w
      else
        let defense := length (World.defenses w) in
        let w1 := World.set_defenses
                    (World.defenses w ++ [DefenseTriangle.create player]) w in
        let w2 := World.set_planets
                    (alter (λ q, Planet.addDefense defense (snd (Planet.removeShips defenseCost q)))
                           planet (World.planets w1)) w1 in
        World.set_inputDefenses (World.inputDefenses w2 ++ [defense]) w2
  end.

(** [sh] is what the call of [AnimationHelper.shake] reads when the
    attack is refused. *)
Definition attack (sh : Shake.Call) (source target : nat) (w : World.t)
  : bool * World.t :=
  match World.planets w !! source, World.planets w !! target with
  | Some src, Some tgt =>
      let attackCost :=
        calculateAttackCost (Planet.x src) (Planet.y src)
                            (Planet.x tgt) (Planet.y tgt) (Some src) in
      if Planet.ships src <? attackCost then
        (false, AnimationHelper.shake source 5 (3 # 10) sh w)
      else
        let speedMultiplier :=
          if decide (Planet.type src = launcher)
          then default 1%Q (GameConfig.speedBonus (GameConfig.PLANET_TYPES launcher))
          else 1%Q in
        let w1 := World.set_planets
                    (alter (λ p, snd (Planet.removeShips attackCost p)) source (World.planets w)) w in
        launch (Planet.x src) (Planet.y src) (Planet.x tgt) (Planet.y tgt)
               speedMultiplier w1
  | _, _ => (false, w)
  end.

(** The simulation part of [InputManager.update]: the Sun is flagged
    attackable once the player holds the majority, and consumed defence
    units are dropped from the manager's list. *)
Definition update (w : World.t) : World.t :=
  let playerPlanets := World.owned_by player w in
  let majorityThreshold :=
    GameConfig.getMajorityThreshold (Store.gameMode (World.store w)) in
  let canAttackSun := majorityThreshold <=? Z.of_nat (length playerPlanets) in
  let w1 := World.set_sun (Sun.setAttackable canAttackSun (World.sun w)) w in
  World.set_inputDefenses
    (filter (λ d, default false (DefenseTriangle.isActive <$> World.defenses w1 !! d) = true)
            (World.inputDefenses w1)) w1.

End WithSqrt.

End InputManager.

(** ** systems/AISystem *)

Module AISystem.

(** [chooseStrategy], from the value [Math.random()] returned. *)
Definition chooseStrategy (rand : Q) : Strategy :=
  if Qltb rand (3 # 10) then aggressive
  else if Qltb rand (7 # 10) then balanced
  else defensive.

(** [arr[Math.floor(Math.random() * arr.length)]] *)
Definition pick {A : Type} (rand : Q) (l : list A) : option A :=
  l !! Z.to_nat (Qfloor (rand * inject_Z (Z.of_nat (length l)))).

Section WithSqrt.
Variable Math_sqrt : Q -> Q.

Definition calculateAttackCost (sx sy tx ty : Q) (sourcePlanet : option Planet.t) : Z :=
  let dx := (tx - sx)%Q in
  let dy := (ty - sy)%Q in
  let distance := Math_sqrt (dx * dx + dy * dy)%Q in
  let baseCost := GameConfig.ATTACK_COST_BASE in
  let distanceCost := (distance * GameConfig.ATTACK_COST_DISTANCE_MULTIPLIER)%Q in
  let typeModifier :=
    match sourcePlanet with
    | Some p => GameConfig.attackCostModifier (GameConfig.PLANET_TYPES (Planet.type p))
    | None => 0
    end in
  let totalCost := (inject_Z baseCost + distanceCost + inject_Z typeModifier)%Q in
  Z.max GameConfig.ATTACK_COST_MIN
        (Z.min GameConfig.ATTACK_COST_MAX (Qfloor totalCost)).

Definition isPlanetNearSun (p : Planet.t) (w : World.t) : bool :=
  let distance :=
    Math_sqrt (dist2 (Planet.x p) (Planet.y p)
                     (Sun.x (World.sun w)) (Sun.y (World.sun w))) in
  Qltb distance 300.

Definition findStrategicPlanetToDefend (aiPlanets : list (nat * Planet.t)) (w : World.t)
  : option nat :=
  let best :=
    foldl (λ (acc : option nat * Q) (ip : nat * Planet.t),
             if Planet.hasDefense (World.defenses w) ip.2 then acc
             else
               let score :=
                 ((if decide (Planet.type ip.2 = generator) then 3 else 0)
                  + (if isPlanetNearSun ip.2 w then 2 else 0)
                  + inject_Z (Planet.ships ip.2) / 10)%Q in
               if Qltb acc.2 score then (Some ip.1, score) else acc)
          (None, (-1)%Q) aiPlanets in
  best.1.

Definition defendPlanet (planet : nat) (w : World.t) : World.t :=
  match World.planets w !! planet with
  | None => w
  | Some p =>
      if Planet.hasDefense (World.defenses w) p
         || (Planet.ships p <? GameConfig.ATTACK_COST_BASE) then w
      else
        let defense := length (World.defenses w) in
        let w1 := World.set_defenses
                    (World.defenses w ++ [DefenseTriangle.create ai]) w in
        World.set_planets
          (alter (λ q, Planet.addDefense defense
                         (snd (Planet.removeShips GameConfig.ATTACK_COST_BASE q)))
                 planet (World.planets w1)) w1
  end.

Definition findBestPlanetForSunAttack (aiPlanets : list (nat * Planet.t)) (w : World.t)
  : option nat :=
  let attackCost := Store.getSunAttackCost (World.store w) in
  let best :=
    foldl (λ (acc : option nat * option Q) (ip : nat * Planet.t),
             if attackCost <=? Planet.ships ip.2 then
               let distance :=
                 Math_sqrt (dist2 (Sun.x (World.sun w)) (Sun.y (World.sun w))
                                  (Planet.x ip.2) (Planet.y ip.2)) in
               if lt_inf distance acc.2 then (Some ip.1, Some distance) else acc
             else acc)
          (None, None) aiPlanets in
  best.1.

Definition findBestPlanetForAttack (sources : list (nat * Planet.t)) (target : Planet.t)
  : option nat :=
  let best :=
    foldl (λ (acc : option nat * Q) (ip : nat * Planet.t),
             let attackCost :=
               calculateAttackCost (Planet.x ip.2) (Planet.y ip.2)
                                   (Planet.x target) (Planet.y target) (Some ip.2) in
             if attackCost <=? Planet.ships ip.2 then
               let distance :=
                 Math_sqrt (dist2 (Planet.x target) (Planet.y target)
                                  (Planet.x ip.2) (Planet.y ip.2)) in
               let score :=
                 (inject_Z (Planet.ships ip.2) / (distance + inject_Z attackCost + 1))%Q in
               if Qltb acc.2 score then (Some ip.1, score) else acc
             else acc)
          (None, (-1)%Q) sources in
  best.1.

Definition launch (sx sy tx ty : Q) (mult : Q) (w : World.t) : World.t :=
  match World.pool_acquire w with
  | (None, w1) => w1
  | (Some tr, w1) =>
      let w2 := World.set_triangles
                  (alter (Triangle.init sx sy tx ty ai mult) tr (World.triangles w1)) w1 in
      let w3 := World.set_aiTriangles (World.aiTriangles w2 ++ [tr]) w2 in
      World.set_store (Store.incrementAttacks (World.store w3)) w3
  end.

Definition speedMultiplierOf (src : Planet.t) : Q :=
  if decide (Planet.type src = launcher)
  then default 1%Q (GameConfig.speedBonus (GameConfig.PLANET_TYPES launcher))
  else 1%Q.

Definition attackSun (source : nat) (now : Z) (w : World.t) : World.t :=
  match World.planets w !! source with
  | None => w
  | Some src =>
      if negb (Store.canAttackSun ai (World.store w)) then w
      else
        let attackCost := Store.getSunAttackCost (World.store w) in
        if Planet.ships src <? attackCost then w
        else
          let w1 := World.set_store (Store.registerSunAttack ai now (World.store w)) w in
          let w2 := World.set_planets
                      (alter (λ p, snd (Planet.removeShips attackCost p)) source
                             (World.planets w1)) w1 in
          launch (Planet.x src) (Planet.y src)
                 (Sun.x (World.sun w2)) (Sun.y (World.sun w2)) (speedMultiplierOf src) w2
  end.

Definition attackPlanet (source target : nat) (w : World.t) : World.t :=
  match World.planets w !! source, World.planets w !! target with
  | Some src, Some tgt =>
      let attackCost :=
        calculateAttackCost (Planet.x src) (Planet.y src)
                            (Planet.x tgt) (Planet.y tgt) (Some src) in
      if Planet.ships src <? attackCost then w
      else
        let w1 := World.set_planets
                    (alter (λ p, snd (Planet.removeShips attackCost p)) source
                           (World.planets w)) w in
        launch (Planet.x src) (Planet.y src) (Planet.x tgt) (Planet.y tgt)
               (speedMultiplierOf src) w1
  | _, _ => w
  end.

(** One attempt of the strategy block: pick a source for [target] and
    attack; [None] when no source can afford it (the code falls through). *)
Definition tryAttack (aiPlanets : list (nat * Planet.t)) (target : option (nat * Planet.t))
           (w : World.t) : option World.t :=
  match target with
  | None => None
  | Some tgt =>
      match findBestPlanetForAttack aiPlanets tgt.2 with
      | Some source => Some (attackPlanet source tgt.1 w)
      | None => None
      end
  end.

(** [makeDecision]; [rand k] is the value of the [k]-th call of
    [Math.random()] made during the decision, [now] is [Date.now()]. *)
Definition makeDecision (now : Z) (rand : nat -> Q) (w : World.t) : World.t :=
  let aiPlanets := World.owned_by ai w in
  let playerPlanets := World.owned_by player w in
  let neutralPlanets := World.owned_by neutral w in
  if decide (length aiPlanets = 0%nat) then w
  else
    let strategic :=
      if (4 <=? length playerPlanets)%nat
         && negb (bool_decide (World.aiStrategy w = aggressive))
      then
        match findStrategicPlanetToDefend aiPlanets w with
        | Some sp =>
            match World.planets w !! sp with
            | Some p =>
                if negb (Planet.hasDefense (World.defenses w) p)
                   && (GameConfig.ATTACK_COST_BASE <=? Planet.ships p)
                then Some sp else None
            | None => None
            end
        | None => None
        end
      else None in
    match strategic with
    | Some sp => defendPlanet sp w
    | None =>
        let majorityThreshold :=
          GameConfig.getMajorityThreshold (Store.gameMode (World.store w)) in
        let rush :=
          if (majorityThreshold <=? Z.of_nat (length aiPlanets))
             && bool_decide (Sun.owner (World.sun w) = None)
             && Sun.isAttackable (World.sun w)
          then findBestPlanetForSunAttack aiPlanets w else None in
        match rush with
        | Some bestPlanet => attackSun bestPlanet now w
        | None =>
            match World.aiStrategy w with
            | aggressive =>
                match tryAttack aiPlanets (head neutralPlanets) w with
                | Some w' => w'
                | None =>
                    default w (tryAttack aiPlanets (pick (rand 0%nat) playerPlanets) w)
                end
            | defensive =>
                let first :=
                  if (3 <=? length playerPlanets)%nat then
                    let priorityTargets :=
                      filter (λ ip, Planet.type ip.2 = generator
                                    ∨ isPlanetNearSun ip.2 w = true) playerPlanets in
                    let target :=
                      if decide (0 < length priorityTargets)%nat
                      then pick (rand 0%nat) priorityTargets
                      else pick (rand 0%nat) playerPlanets in
                    tryAttack aiPlanets target w
                  else None in
                match first with
                | Some w' => w'
                | None => default w (tryAttack aiPlanets (head neutralPlanets) w)
                end
            | balanced =>
                let first :=
                  if (4 <=? length playerPlanets)%nat
                  then tryAttack aiPlanets (pick (rand 0%nat) playerPlanets) w
                  else None in
                match first with
                | Some w' => w'
                | None =>
                    if decide (0 < length neutralPlanets)%nat
                    then default w (tryAttack aiPlanets (head neutralPlanets) w)
                    else
                      let k := if (4 <=? length playerPlanets)%nat then 1%nat else 0%nat in
                      default w (tryAttack aiPlanets (pick (rand k) playerPlanets) w)
                end
            end
        end
    end.

(** The projectile loop of [AISystem.update]: every AI projectile is
    advanced, and one that has reached its target is spliced out of the
    AI's list. *)
Definition update_body (delta : Q) (r : ref) (w : World.t) : bool * World.t :=
  let w1 := World.set_triangles
              (alter (Triangle.update Math_sqrt delta) r (World.triangles w)) w in
  (default false (Triangle.hasReached <$> World.triangles w1 !! r), w1).

Definition update (delta : Q) (now : Z) (rand : nat -> Q) (w : World.t) : World.t :=
  let w1 := World.set_decisionTimer (World.decisionTimer w + delta)%Q w in
  let w2 :=
    if Qleb 60 (World.decisionTimer w1)
    then makeDecision now rand (World.set_decisionTimer 0 w1)
    else w1 in
  let '(kept, w3) := loop_down (update_body delta) (World.aiTriangles w2) w2 in
  World.set_aiTriangles kept w3.

End WithSqrt.

End AISystem.

(** ** systems/CombatSystem *)

Module CombatSystem.

Definition checkSunHit (tr : Triangle.t) (w : World.t) : bool :=
  match Sun.owner (World.sun w) with
  | Some _ => false
  | None =>
      let distanceSquared :=
        dist2 (Triangle.x tr) (Triangle.y tr)
              (Sun.x (World.sun w)) (Sun.y (World.sun w)) in
      let thresholdSquared :=
        (GameConfig.SUN_HIT_THRESHOLD * GameConfig.SUN_HIT_THRESHOLD)%Q in
      Qltb distanceSquared thresholdSquared
  end.

Definition resolveSunAttack (tr : Triangle.t) (w : World.t) : World.t :=
  let attacker := Triangle.owner tr in
  let '(_, (s, g)) := Sun.takeDamage attacker (World.sun w, World.store w) in
  World.set_store g (World.set_sun s w).

(** The [forEach] that keeps the planet nearest to the projectile: a
    strictly smaller squared distance replaces the running minimum, which
    starts at [Infinity]. *)
Definition closestPlanet (tr : Triangle.t) (planets : list (nat * Planet.t))
  : option nat * option Q :=
  foldl (λ (acc : option nat * option Q) (ip : nat * Planet.t),
           let distanceSquared :=
             dist2 (Triangle.x tr) (Triangle.y tr) (Planet.x ip.2) (Planet.y ip.2) in
           if lt_inf distanceSquared acc.2
           then (Some ip.1, Some distanceSquared) else acc)
        (None, None) planets.

Definition resolveAttack (tr : Triangle.t) (w : World.t) : World.t :=
  let thresholdSquared := (50 * 50)%Q in
  match closestPlanet tr (World.indexed w) with
  | (Some target, Some minDistanceSquared) =>
      if Qltb minDistanceSquared thresholdSquared then
        match World.planets w !! target with
        | None => w
        | Some targetPlanet =>
            let oldOwner := Planet.owner targetPlanet in
            let newOwner := Triangle.owner tr in
            if decide (oldOwner = newOwner) then w
            else if Planet.hasDefense (World.defenses w) targetPlanet
                    && negb (bool_decide (oldOwner = neutral)) then
              let '(ds, p') := Planet.consumeDefense (World.defenses w) targetPlanet in
              World.set_planets (<[target := p']> (World.planets w))
                                (World.set_defenses ds w)
            else
              (* the ownership change is the completion callback of the
                 colour transition: it is queued, not run here *)
              let w1 := World.set_pendingOwner
                          (World.pendingOwner w ++ [(target, newOwner)]) w in
              let w2 :=
                if decide (newOwner = player)
                then World.set_store (Store.incrementConquests (World.store w1)) w1
                else w1 in
              if decide (oldOwner = player)
              then World.set_planetLostAlerts (S (World.planetLostAlerts w2)) w2
              else w2
        end
      else w
  | _ => w
  end.

(** The body of both loops of [CombatSystem.update]: a reached projectile
    is resolved, detached from the stage, released to the pool and
    spliced out of the list it was found in. *)
Definition update_body (r : ref) (w : World.t) : bool * World.t :=
  match World.triangles w !! r with
  | None => (false, w)
  | Some tr =>
      if Triangle.hasReached tr then
        let w1 := if checkSunHit tr w then resolveSunAttack tr w
                  else resolveAttack tr w in
        let w2 := World.set_triangles
                    (alter (Triangle.set_onStage false) r (World.triangles w1)) w1 in
        (true, World.pool_release r w2)
      else (false, w)
  end.

Definition update (w : World.t) : World.t :=
  let '(keptP, w1) := loop_down update_body (World.playerTriangles w) w in
  let w2 := World.set_playerTriangles keptP w1 in
  let '(keptA, w3) := loop_down update_body (World.aiTriangles w2) w2 in
  World.set_aiTriangles keptA w3.

End CombatSystem.

(** ** systems/ProductionSystem *)

Module ProductionSystem.

Definition generateShips (w : World.t) : World.t :=
  World.set_planets
    (map (λ p, if decide (Planet.owner p = neutral) then p
               else Planet.addShips (Planet.getProduction p) p)
         (World.planets w)) w.

(** The accumulator adds up the frame deltas; the sum is exact here and
    rounded in the program, so the two agree on the frame in which
    production fires when the deltas are whole ticks, and can differ by
    a frame when they are not. *)
Definition update (delta : Q) (w : World.t) : World.t :=
  let w1 := World.set_accumulator (World.accumulator w + delta)%Q w in
  if Qleb 60 (World.accumulator w1)
  then generateShips (World.set_accumulator (World.accumulator w1 - 60)%Q w1)
  else w1.

End ProductionSystem.

(** ** systems/GameManager *)

Module GameManager.

Definition showVictory (w : World.t) : World.t := World.set_end true (Some Victory) w.

Definition showDefeat (reason : DefeatReason) (w : World.t) : World.t :=
  World.set_end true (Some (Defeat reason)) w.

Definition countOwned (o : Owner) (w : World.t) : nat :=
  length (filter (λ p, Planet.owner p = o) (World.planets w)).

Definition checkWinCondition (w : World.t) : bool * World.t :=
  if World.gameOver w then (true, w)
  else
    let state := World.store w in
    if decide (Store.sunOwner state = Some player) then
      let w1 :=
        match Store.gameMode state, Store.timeAttackMode state with
        | timeattack, Some m =>
            let elapsed := GameConfig.TIME_ATTACK_MODES m - Store.timer state in
            World.set_store
              (Store.set_game (Store.timer state) elapsed
                              (Store.attacksLaunched state)
                              (Store.planetsConquered state) state) w
        | _, _ => w
        end in
      (true, showVictory w1)
    else if decide (Store.sunOwner state = Some ai) then (true, showDefeat ai_won w)
    else if Store.timer state <=? 0 then
      let playerPlanets := countOwned player w in
      let aiPlanets := countOwned ai w in
      if (aiPlanets <? playerPlanets)%nat then (true, showVictory w)
      else (true, showDefeat timer_out w)
    else (false, w).

End GameManager.

(** ** main: the frame loop *)

Module Main.

(** [setOwner] callbacks whose colour transition has completed run between
    frames, oldest first; [k] of them are due. *)
Definition runOwnerCallbacks (k : nat) (w : World.t) : World.t :=
  let due := take k (World.pendingOwner w) in
  World.set_pendingOwner (drop k (World.pendingOwner w))
    (World.set_planets
       (foldl (λ ps (c : nat * Owner), alter (Planet.setOwner c.2) c.1 ps)
              (World.planets w) due) w).

Section WithSqrt.
Variable Math_sqrt : Q -> Q.

(** [updateTriangles]: projectiles that already reached their target are
    skipped, the others are put on the stage and advanced; none is
    removed here. *)
Definition updateTriangles_body (delta : Q) (r : ref) (w : World.t) : bool * World.t :=
  match World.triangles w !! r with
  | None => (false, w)
  | Some tr =>
      if Triangle.hasReached tr then (false, w)
      else
        (false,
         World.set_triangles
           (alter (λ t, Triangle.update Math_sqrt delta (Triangle.set_onStage true t))
                  r (World.triangles w)) w)
  end.

Definition updateTriangles (playerSide : bool) (delta : Q) (w : World.t) : World.t :=
  snd (loop_down (updateTriangles_body delta)
                 (if playerSide then World.playerTriangles w else World.aiTriangles w) w).

(** [cleanupReachedTriangles]: the safety net after combat. *)
Definition cleanup_body (r : ref) (w : World.t) : bool * World.t :=
  match World.triangles w !! r with
  | None => (false, w)
  | Some tr =>
      if Triangle.hasReached tr then
        let w1 := World.set_triangles
                    (alter (Triangle.set_onStage false) r (World.triangles w)) w in
        (true, World.pool_release r w1)
      else (false, w)
  end.

Definition cleanupReachedTriangles (playerSide : bool) (w : World.t) : World.t :=
  if playerSide then
    let '(kept, w1) := loop_down cleanup_body (World.playerTriangles w) w in
    World.set_playerTriangles kept w1
  else
    let '(kept, w1) := loop_down cleanup_body (World.aiTriangles w) w in
    World.set_aiTriangles kept w1.

(** One call of the ticker callback while the match is being played.
    [delta] is the frame delta, [now] the clock, [rand] the random draws
    of the AI's decision. *)
Definition tick (delta : Q) (now : Z) (rand : nat -> Q) (w : World.t) : World.t :=
  let '(over, w0) := GameManager.checkWinCondition w in
  if over then w0
  else
    let '(s, g) := Sun.update (World.sun w0, World.store w0) in
    let w1 := World.set_store g (World.set_sun s w0) in
    let w2 := ProductionSystem.update delta w1 in
    let w3 := World.set_store (Store.updateSunCooldown delta (World.store w2)) w2 in
    let w4 := AISystem.update Math_sqrt delta now rand w3 in
    let w5 := InputManager.update w4 in
    let w6 := updateTriangles true delta w5 in
    let w7 := updateTriangles false delta w6 in
    let w8 := CombatSystem.update w7 in
    let w9 := cleanupReachedTriangles true w8 in
    cleanupReachedTriangles false w9.

End WithSqrt.

End Main.

(** ** Traces used in the statements *)

(** What can happen to the Sun: a projectile hits it ([Sun.takeDamage]), or
    a frame passes and the entity is synchronised from the store
    ([Sun.update]). *)
Inductive SunEvent := Hit (attacker : Owner) | Sync.

Definition sun_step (st : Sun.t * Store.t) (e : SunEvent) : Sun.t * Store.t :=
  match e with
  | Hit a => snd (Sun.takeDamage a st)
  | Sync => Sun.update st
  end.

Definition sun_run (es : list SunEvent) (st : Sun.t * Store.t) : Sun.t * Store.t :=
  foldl sun_step st es.

(** The Sun as [initGame] builds it, next to the freshly reset store. *)
Definition sun_start (px py : Q) : Sun.t * Store.t := (Sun.create px py, Store.initial).

(** The invariant of the pair (Sun entity, store). *)
Definition sun_inv (st : Sun.t * Store.t) : Prop :=
  0 <= Sun.hp st.1 <= GameConfig.SUN_MAX_HP
  ∧ (0 < Sun.hp st.1 → Sun.owner st.1 = None)
  ∧ (Sun.hp st.1 = 0 → Sun.owner st.1 ≠ None)
  ∧ Store.sunHP st.2 = Sun.hp st.1
  ∧ Store.sunOwner st.2 = Sun.owner st.1.

(** The attack-cost formula as the specification words it: the real-valued
    cost clamped to the interval, read as an integer. *)
Definition typeModifier_spec (ty : PlanetType) : Z :=
  match ty with
  | generator => 2
  | fortress => -1
  | launcher => 0
  | standard => 0
  end.

Definition clampQ (v : Q) (lo hi : Z) : Q := Qmax (inject_Z lo) (Qmin (inject_Z hi) v).

Definition planet_cost_spec (distance : Q) (ty : PlanetType) : Z :=
  Qfloor (clampQ (inject_Z GameConfig.ATTACK_COST_BASE
                  + distance * GameConfig.ATTACK_COST_DISTANCE_MULTIPLIER
                  + inject_Z (typeModifier_spec ty))%Q
                 GameConfig.ATTACK_COST_MIN GameConfig.ATTACK_COST_MAX).

(** A store in which one faction has registered four Sun attacks one
    second apart. *)
Definition overheated_store : Store.t :=
  Store.registerSunAttack player 4000
    (Store.registerSunAttack player 3000
       (Store.registerSunAttack player 2000
          (Store.registerSunAttack player 1000 Store.initial))).

(** A concrete square root for running the model on examples: the integer
    square root of the integer part. *)
Definition isqrt (q : Q) : Q := inject_Z (Z.sqrt (Qfloor q)).

(** A particle pool of one particle, already handed out. *)
Definition full_particle_pool : list Particle.t * ParticlePool.t :=
  snd (ParticlePool.acquire (ParticlePool.create 1 [])).

(** The browser of the examples: the clock stands at 0 and
    [Math.random()] answers 0, which shakes a planet by 2.5 pixels to the
    left and upwards. *)
Definition still_clock : Shake.Call :=
  {| Shake.clock := 0;
     Shake.first := {| Shake.now := 0; Shake.randomX := 0; Shake.randomY := 0 |} |}.

(** The requests that spend ships: the player's and the AI's attacks on a
    planet or on the Sun and their defend actions, a click on the Sun, a
    whole AI decision; [Produce] is a production tick, which only adds.
    The player's attack and defend requests carry what [shake] reads from
    the browser if they are refused. *)
Inductive Request :=
| PlayerAttack (sh : Shake.Call) (source target : nat)
| PlayerAttackSun (source : nat) (now : Z)
| PlayerSunClick (now : Z)
| PlayerDefend (sh : Shake.Call) (planet : nat)
| AIAttack (source target : nat)
| AIAttackSun (source : nat) (now : Z)
| AIDefend (planet : nat)
| AIDecision (now : Z) (rand : nat → Q)
| Produce.

Definition request_step (Math_sqrt : Q → Q) (w : World.t) (r : Request) : World.t :=
  match r with
  | PlayerAttack sh s t => snd (InputManager.attack Math_sqrt sh s t w)
  | PlayerAttackSun s now => snd (InputManager.attackSun s now w)
  | PlayerSunClick now => InputManager.handleSunClick Math_sqrt now w
  | PlayerDefend sh pl => InputManager.defendPlanet sh pl w
  | AIAttack s t => AISystem.attackPlanet Math_sqrt s t w
  | AIAttackSun s now => AISystem.attackSun s now w
  | AIDefend pl => AISystem.defendPlanet pl w
  | AIDecision now rand => AISystem.makeDecision Math_sqrt now rand w
  | Produce => ProductionSystem.generateShips w
  end.

Definition requests_run (Math_sqrt : Q → Q) (rs : list Request) (w : World.t) : World.t :=
  foldl (request_step Math_sqrt) w rs.

Definition ships_nonneg (w : World.t) : Prop :=
  Forall (λ p, 0 <= Planet.ships p) (World.planets w).

(** A match of two planets, with a Sun, an unused pool of two projectiles
    and a fresh store: planet 0 is the player's standard planet at the
    origin holding [n] ships, planet 1 the AI's generator at [(tx, 0)]
    holding 10. *)
Definition duel (n : Z) (tx : Q) : World.t :=
  let '(heap, pool) := ObjectPool.create Triangle.create 2 [] in
  World.mk Store.initial (Sun.create 500 500)
           [Planet.mk 0 player standard n 0 0 None;
            Planet.mk 1 ai generator 10 tx 0 None]
           [] heap pool [] [] [] 0 balanced 0 [] 0 false None [].

(** Scenario C: the AI has defended its planet (ships 10 -> 5), the player
    has launched a projectile at it (ships 10 -> 2), and the projectile
    has arrived on the planet. *)
Definition scenario_C_world : World.t :=
  requests_run isqrt [AIDefend 1; PlayerAttack still_clock 0 1] (duel 10 300).

Definition arrived (tr : Triangle.t) : Triangle.t :=
  Triangle.set_reached
    (Triangle.move (Triangle.targetX tr) (Triangle.targetY tr)
                   (Triangle.traveledDistance tr) tr).

Definition scenario_C_triangle : Triangle.t :=
  arrived (default Triangle.create (World.triangles scenario_C_world !! 0%nat)).

(** The life of the Sun economy in the store: a faction registers a Sun
    attack at clock value [now], or a frame of [delta] ticks passes. *)
Inductive EconomyEvent := Register (o : Owner) (now : Z) | Decay (delta : Q).

Definition economy_step (s : Store.t) (e : EconomyEvent) : Store.t :=
  match e with
  | Register o now => Store.registerSunAttack o now s
  | Decay delta => Store.updateSunCooldown delta s
  end.

Definition economy_run (es : list EconomyEvent) (s : Store.t) : Store.t :=
  foldl economy_step s es.

(** Callers register attacks for the two factions only, and the clock
    [Date.now()] is positive. *)
Definition event_ok (e : EconomyEvent) : Prop :=
  match e with
  | Register o now => o ≠ neutral ∧ 0 < now
  | Decay _ => True
  end.

(** The clock value of the latest Sun attack of faction [f] in a trace. *)
Definition last_attack (f : Owner) (es : list EconomyEvent) : option Z :=
  foldl (λ acc e,
           match e with
           | Register o now => if decide (o = f) then Some now else acc
           | Decay _ => acc
           end) None es.

(** "The time since that faction's previous Sun attack is below 5 seconds". *)
Definition rapid (f : Owner) (es : list EconomyEvent) (now : Z) : Prop :=
  match last_attack f es with
  | Some t => (inject_Z (now - t) / 1000 < 5)%Q
  | None => False
  end.

Definition cooldownOf (f : Owner) (s : Store.t) : Q :=
  if decide (f = player) then Store.sunAttackCooldown s else Store.sunAIAttackCooldown s.

Definition opponent (f : Owner) : Owner := if decide (f = player) then ai else player.

(** The countdown of a match set to [tm]. *)
Definition with_timer (tm : Z) (w : World.t) : World.t :=
  World.set_store
    (Store.set_game tm (Store.captureTime (World.store w))
                    (Store.attacksLaunched (World.store w))
                    (Store.planetsConquered (World.store w)) (World.store w)) w.

(** The majority threshold each mode ends up with. *)
Definition thresholdUsed (mode : GameMode) : Z :=
  match mode with
  | quick => 4
  | classic | timeattack => 5
  end.

(** The part of the store a registered Sun attack writes. *)
Definition sunEconomy (s : Store.t) : Q * Q * Q * Z * Z :=
  (Store.sunAttackCooldown s, Store.sunAIAttackCooldown s, Store.sunOvercharge s,
   Store.lastSunAttackTime s, Store.lastSunAIAttackTime s).

(** A match in mode [mode] in which the player holds four planets with 20
    ships each and the AI one. *)
Definition four_planets (mode : GameMode) : World.t :=
  let '(heap, pool) := ObjectPool.create Triangle.create 2 [] in
  World.mk (Store.mk mode None 3 None 0 0 0 0 0 60 0 0 0) (Sun.create 500 500)
           [Planet.mk 0 player standard 20 300 500 None;
            Planet.mk 1 player standard 20 700 500 None;
            Planet.mk 2 player standard 20 500 300 None;
            Planet.mk 3 player standard 20 500 700 None;
            Planet.mk 4 ai standard 20 800 800 None]
           [] heap pool [] [] [] 0 balanced 0 [] 0 false None [].

(** [n] frames of one tick each, with the clock and the random draws
    held fixed (the AI takes no decision before its timer reaches 60). *)
Definition frames (n : nat) (w : World.t) : World.t :=
  Nat.iter n (Main.tick isqrt 1 0 (λ _, 0%Q)) w.

(** The first projectile of the match, at abscissa [px] on the x axis
    after a flight of [travelled] pixels. *)
Definition in_flight_at (px travelled : Q) (w : World.t) : World.t :=
  World.set_triangles
    (alter (Triangle.move px 0 travelled) 0%nat (World.triangles w)) w.

(** The AI has launched a projectile from its planet at (300, 0) at the
    player's planet at the origin; it is now 9 pixels away from it. *)
Definition ai_projectile_arriving : World.t :=
  in_flight_at 9 291 (requests_run isqrt [AIAttack 1 0] (duel 10 300)).

(** The mirror image: the player's projectile 9 pixels before the AI's
    planet. *)
Definition player_projectile_arriving : World.t :=
  in_flight_at 291 291 (requests_run isqrt [PlayerAttack still_clock 0 1] (duel 10 300)).

(** What is left of projectile 0 and of its pool slot. *)
Definition projectile_status (w : World.t) : option (bool * bool) * bool * nat :=
  ((λ t, (Triangle.hasReached t, Triangle.active t)) <$> World.triangles w !! 0%nat,
   js_truthy (ObjectPool.active (World.trianglePool w)) 0,
   ObjectPool.getActiveCount (World.trianglePool w)).

(** No projectile on the list [l] is flagged reached. *)
Definition none_reached (l : list ref) (w : World.t) : Prop :=
  ∀ r t, r ∈ l → World.triangles w !! r = Some t → Triangle.hasReached t = false.

(** ** Further notions used in the statements *)

(** A pool as its constructor and operations keep it: one flag per slot,
    no object held twice, every object allocated in the store. *)
Definition pool_wf {T : Type} (st : list T * ObjectPool.t) : Prop :=
  length (ObjectPool.active st.2) = length (ObjectPool.pool st.2)
  ∧ NoDup (ObjectPool.pool st.2)
  ∧ Forall (λ r, r < length st.1)%nat (ObjectPool.pool st.2).

(** The object [r] is held by the pool and handed out. *)
Definition in_use (p : ObjectPool.t) (r : ref) : Prop :=
  ∃ i, ObjectPool.pool p !! i = Some r ∧ js_truthy (ObjectPool.active p) i = true.

(** A projectile over the frames of [deltas]: [Triangle.update] once per
    frame. *)
Definition flight (Math_sqrt : Q → Q) (deltas : list Q) (tr : Triangle.t) : Triangle.t :=
  foldl (λ t d, Triangle.update Math_sqrt d t) tr deltas.

(** What a flight is launched with; [update] has no business writing it. *)
Definition flight_plan (tr : Triangle.t) : Q * Q * Q * Q * Owner * Q * bool * bool :=
  (Triangle.targetX tr, Triangle.targetY tr, Triangle.baseSpeed tr,
   Triangle.speedMultiplier tr, Triangle.owner tr,
   Triangle.totalDistanceSquared tr, Triangle.isRageMode tr, Triangle.active tr).

(** The projectiles in flight: the player's list, then the AI's. *)
Definition flights (w : World.t) : list ref :=
  World.playerTriangles w ++ World.aiTriangles w.

(** The projectile [r] of the match has just been launched by [o] from
    [(sx, sy)] towards [(tx, ty)] at speed factor [mult]. *)
Definition launched (o : Owner) (sx sy tx ty mult : Q) (r : ref) (w : World.t) : Prop :=
  ∃ t, World.triangles w !! r = Some t
       ∧ Triangle.owner t = o
       ∧ Triangle.hasReached t = false
       ∧ Triangle.active t = true
       ∧ (Triangle.x t, Triangle.y t) = (sx, sy)
       ∧ (Triangle.targetX t, Triangle.targetY t) = (tx, ty)
       ∧ Triangle.speedMultiplier t = mult
       ∧ Triangle.traveledDistance t = 0%Q.

(** The squared distance from the projectile to a planet, as
    [resolveAttack] computes it. *)
Definition planet_dist2 (tr : Triangle.t) (p : Planet.t) : Q :=
  dist2 (Triangle.x tr) (Triangle.y tr) (Planet.x p) (Planet.y p).

(** The world after the conquest of [target] by the owner of [tr] has
    been recorded: the ownership change is queued, the statistics and the
    planet-lost notification are updated. *)
Definition conquest_recorded (tr : Triangle.t) (target : nat) (oldOwner : Owner)
    (w : World.t) : World.t :=
  let w1 := World.set_pendingOwner
              (World.pendingOwner w ++ [(target, Triangle.owner tr)]) w in
  let w2 := World.set_store
              (Store.set_game (Store.timer (World.store w)) (Store.captureTime (World.store w))
                 (Store.attacksLaunched (World.store w))
                 (Store.planetsConquered (World.store w)
                  + (if decide (Triangle.owner tr = player) then 1 else 0))
                 (World.store w)) w1 in
  World.set_planetLostAlerts
    (World.planetLostAlerts w + (if decide (oldOwner = player) then 1 else 0))%nat w2.

(** A projectile of the player that has arrived on the AI's planet of
    [duel], which has no defence. *)
Definition landed_on_ai_planet : Triangle.t :=
  arrived (Triangle.init 0 0 300 0 player 1 Triangle.create).

(** The play button of the start screen: the store is told the selected
    mode; time attack without a chosen limit falls back to classic. *)
Definition playButton_pointerup (selectedMode : GameMode)
    (selectedTimeAttackMode : option TimeAttackMode) (s : Store.t) : Store.t :=
  match decide (selectedMode = timeattack), selectedTimeAttackMode with
  | left _, Some m => Store.setTimeAttackMode (Some m) s
  | left _, None => Store.setGameMode classic s
  | right _, _ => Store.setGameMode selectedMode s
  end.

(** What [initGame] does to the store: [resetGame] first, and, once the
    systems are built, [setGameMode] with the mode the store holds. *)
Definition initGame_store (s : Store.t) : Store.t :=
  let s1 := Store.resetGame s in
  Store.setGameMode (Store.gameMode s1) s1.

(** The match after [n] firings of the one-second interval timer. *)
Definition after_seconds (n : nat) (w : World.t) : World.t :=
  World.set_store (Nat.iter n Store.decrementTimer (World.store w)) w.

(** The production system over the frames of [deltas]. *)
Definition production_run (deltas : list Q) (w : World.t) : World.t :=
  foldl (λ v d, ProductionSystem.update d v) w deltas.

(** A planet after [k] production ticks. *)
Definition produced (k : nat) (p : Planet.t) : Planet.t :=
  if decide (Planet.owner p = neutral) then p
  else Planet.set_ships (Planet.ships p + Z.of_nat k * Planet.getProduction p) p.

(** From [w] to [w'] no planet has changed hands, and the planets that do
    not belong to [o] are exactly as they were. *)
Definition spends_only (o : Owner) (w w' : World.t) : Prop :=
  Planet.owner <$> World.planets w' = Planet.owner <$> World.planets w
  ∧ ∀ i p, World.planets w !! i = Some p → Planet.owner p ≠ o →
           World.planets w' !! i = Some p.

(** The projectiles on the list [L] are pairwise distinct objects of the
    pool of [w], all handed out. *)
Definition flying (L : list ref) (w : World.t) : Prop :=
  pool_wf (World.triangles w, World.trianglePool w)
  ∧ NoDup L
  ∧ ∀ r, r ∈ L → in_use (World.trianglePool w) r.

Definition flights_wf (w : World.t) : Prop := flying (flights w) w.

(** What the match knows about projectiles. *)
Definition projectiles (w : World.t)
  : list Triangle.t * ObjectPool.t * list ref * list ref :=
  (World.triangles w, World.trianglePool w, World.playerTriangles w, World.aiTriangles w).

(** What can happen during a match: a request of the player or of the AI,
    a frame of the game loop, the completion of [k] colour transitions, or
    an animation frame of the pending shakes. *)
Inductive Step :=
| Req (r : Request)
| Frame (delta : Q) (now : Z) (rand : nat → Q)
| Callbacks (k : nat)
| ShakeFrame (reads : nat → Shake.Reads).

Definition step (Math_sqrt : Q → Q) (w : World.t) (s : Step) : World.t :=
  match s with
  | Req r => request_step Math_sqrt w r
  | Frame delta now rand => Main.tick Math_sqrt delta now rand w
  | Callbacks k => Main.runOwnerCallbacks k w
  | ShakeFrame reads => AnimationHelper.animationFrame reads w
  end.

Definition play (Math_sqrt : Q → Q) (steps : list Step) (w : World.t) : World.t :=
  foldl (step Math_sqrt) w steps.

(** The two lists of projectiles in flight, as the systems hold them. *)
Definition flight_lists (w : World.t) : list ref * list ref :=
  (World.playerTriangles w, World.aiTriangles w).

(** ** systems/InputManager: clicks on planets

    The click state of the input manager: the time and the planet of the
    last click, and the planet selected by a single click. *)
Module PlanetClick.

Record t := mk
  { lastClickTime : Z;
    lastClickedPlanet : option nat;
    selectedPlanet : option nat }.

(** The field initialisers of [InputManager]. *)
Definition initial : t := mk 0 None None.

(** [handlePlanetClick(planet)] for the planet of index [planet], [now]
    being the value of [Date.now()] and [sh] what a call of [shake] reads
    after it.  Selecting and deselecting only highlight planets; the
    alerts are not modelled. *)
Definition handlePlanetClick (Math_sqrt : Q → Q) (now : Z) (sh : Shake.Call)
    (planet : nat) (st : t * World.t) : t * World.t :=
  let '(c, w) := st in
  match World.planets w !! planet with
  | None => st
  | Some p =>
      let isDoubleClick :=
        (now - lastClickTime c <? 300)
        && bool_decide (lastClickedPlanet c = Some planet) in
      let c1 := mk now (Some planet) (selectedPlanet c) in
      if isDoubleClick && bool_decide (Planet.owner p = player) then
        (c1, InputManager.defendPlanet sh planet w)
      else if bool_decide (Planet.owner p = player) then
        if bool_decide (selectedPlanet c1 = Some planet)
        then (mk now (Some planet) None, w)
        else (mk now (Some planet) (Some planet), w)
      else
        match InputManager.findBestPlayerPlanetForAttack Math_sqrt p w with
        | Some sourcePlanet =>
            let '(success, w1) := InputManager.attack Math_sqrt sh sourcePlanet planet w in
            let w2 :=
              if success
              then World.set_store (Store.incrementAttacks (World.store w1)) w1
              else w1 in
            (mk now (Some planet) None, w2)
        | None => (c1, w)
        end
  end.

End PlanetClick.

(** The player's planet [ip] holds the ships an attack on [target] costs. *)
Definition can_afford (Math_sqrt : Q → Q) (target : Planet.t) (ip : nat * Planet.t) : Prop :=
  InputManager.calculateAttackCost Math_sqrt (Planet.x ip.2) (Planet.y ip.2)
    (Planet.x target) (Planet.y target) (Some ip.2) <= Planet.ships ip.2.

(** ** utils/AnimationMath

    The interpolation and easing functions as formulas on exact
    rationals, where the program evaluates them in floating point;
    [easeElastic] and [elasticScale] need [Math.sin] and a fractional
    power and are left out. *)
Module AnimationMath.

Definition lerp (a b t : Q) : Q := (a + (b - a) * t)%Q.

Definition clamp (value min max : Q) : Q := Qmin (Qmax value min) max.

(** [Math.pow(x, 3)] *)
Definition pow3 (x : Q) : Q := (x * x * x)%Q.

Definition easeOut (t : Q) : Q := (1 - pow3 (1 - t))%Q.

Definition easeIn (t : Q) : Q := (t * t * t)%Q.

Definition easeInOut (t : Q) : Q :=
  if Qltb t (1 # 2) then (4 * t * t * t)%Q
  else (1 - pow3 (-2 * t + 2) / 2)%Q.

(** In [7.5625 * (t -= c) * t + d] the second factor reads the updated
    [t]. *)
Definition easeBounce (t : Q) : Q :=
  if Qltb t (1 / (11 # 4)) then ((121 # 16) * t * t)%Q
  else if Qltb t (2 / (11 # 4)) then
    let t := (t - (3 # 2) / (11 # 4))%Q in ((121 # 16) * t * t + (3 # 4))%Q
  else if Qltb t ((5 # 2) / (11 # 4)) then
    let t := (t - (9 # 4) / (11 # 4))%Q in ((121 # 16) * t * t + (15 # 16))%Q
  else
    let t := (t - (21 # 8) / (11 # 4))%Q in ((121 # 16) * t * t + (63 # 64))%Q.

(** The integer part of a quotient, towards zero, and the JavaScript
    remainder [a % n], whose sign is the sign of [a]. *)
Definition Qtrunc (q : Q) : Z := if Qltb q 0 then Qceiling q else Qfloor q.

Definition js_rem (a n : Q) : Q := (a - n * inject_Z (Qtrunc (a / n)))%Q.

Definition lerpAngle (current target t : Q) : Q :=
  let current := js_rem current 360 in
  let target := js_rem target 360 in
  let diff := (target - current)%Q in
  let diff := if Qltb 180 diff then (diff - 360)%Q else diff in
  let diff := if Qltb diff (-180) then (diff + 360)%Q else diff in
  (current + diff * t)%Q.

End AnimationMath.

(** The angle [lerpAngle] turns by when [t] is 1. *)
Definition turn (current target : Q) : Q :=
  (AnimationMath.lerpAngle current target 1 - AnimationMath.js_rem current 360)%Q.

(** A match in which the first projectile, the player's, has arrived 50
    pixels from the centre of the Sun. *)
Definition landed_on_sun : World.t :=
  let w := duel 10 300 in
  World.set_triangles
    (<[0%nat := arrived (Triangle.init 0 0 500 450 player 1 Triangle.create)]>
       (World.triangles w)) w.

(** The distance from the Sun to a planet, as [handleSunClick] computes
    it. *)
Definition sun_distance (Math_sqrt : Q → Q) (w : World.t) (p : Planet.t) : Q :=
  Math_sqrt (dist2 (Sun.x (World.sun w)) (Sun.y (World.sun w)) (Planet.x p) (Planet.y p)).

(** Everything [handleSunClick] asks for before it attacks. *)
Definition sun_click_ready (w : World.t) : Prop :=
  Sun.owner (World.sun w) = None
  ∧ Store.canAttackSun player (World.store w) = true
  ∧ GameConfig.getMajorityThreshold (Store.gameMode (World.store w))
    <= Z.of_nat (length (World.owned_by player w))
  ∧ ∃ ip, ip ∈ World.owned_by player w
          ∧ Store.getSunAttackCost (World.store w) <= Planet.ships ip.2.

(** What the frame loop does to one projectile: [updateTriangles]
    advances it unless it has arrived, putting it on the stage first;
    combat and the clean-up take an arrived projectile off the stage and
    reset it for the pool. *)
Definition advanced (Math_sqrt : Q → Q) (delta : Q) (t : Triangle.t) : Triangle.t :=
  if Triangle.hasReached t then t
  else Triangle.update Math_sqrt delta (Triangle.set_onStage true t).

Definition retired (t : Triangle.t) : Triangle.t :=
  if Triangle.hasReached t then Triangle.reset (Triangle.set_onStage false t) else t.

(** "The projectile is there and has arrived." *)
Definition arrived_at (o : option Triangle.t) : bool :=
  default false (Triangle.hasReached <$> o).

(** The first part of a frame of a running match, up to the AI: the Sun
    entity is synchronised, production and the Sun economy advance. *)
Definition pre_frame (delta : Q) (w : World.t) : World.t :=
  let '(s, g) := Sun.update (World.sun w, World.store w) in
  let w1 := World.set_store g (World.set_sun s w) in
  let w2 := ProductionSystem.update delta w1 in
  World.set_store (Store.updateSunCooldown delta (World.store w2)) w2.

(** Everything a planet holds but its position. *)
Definition planet_record (p : Planet.t) : nat * Owner * PlanetType * Z * option ref :=
  (Planet.id p, Planet.owner p, Planet.type p, Planet.ships p, Planet.defenseTriangle p).

(** [w'] is [w] but for the position of the planet [i], which has moved by
    at most [r] along each axis, and for the shakes that wait for an
    animation frame. *)
Definition displaced (i : nat) (r : Q) (w w' : World.t) : Prop :=
  ∃ p nx ny waiting,
    World.planets w !! i = Some p
    ∧ (Planet.x p - r <= nx)%Q ∧ (nx <= Planet.x p + r)%Q
    ∧ (Planet.y p - r <= ny)%Q ∧ (ny <= Planet.y p + r)%Q
    ∧ w' = World.set_shakes waiting
             (World.set_planets (<[i := Planet.set_position nx ny p]> (World.planets w)) w).

(** [Math.random()] answers a number of [[0, 1)]. *)
Definition unit_random (e : Shake.Reads) : Prop :=
  (0 <= Shake.randomX e)%Q ∧ (Shake.randomX e < 1)%Q
  ∧ (0 <= Shake.randomY e)%Q ∧ (Shake.randomY e < 1)%Q.

(** Frames that last a whole number of ticks, as at a steady frame rate
    (one tick per frame at 60 frames per second): on whole numbers the
    additions and subtractions of the program are exact. *)
Definition whole_frames (ticks : list Z) : list Q := inject_Z <$> ticks.

Definition Zsum (l : list Z) : Z := foldr Z.add 0 l.

(** ** ui/UIManager: the message under the Sun's HP bar

    [UIManager.update] decides what the context message says from the
    store and from the planets the ticker has just handed it; the same
    test on the player's planets decides whether the cost or the cooldown
    of a Sun attack is shown under the HP bar.  The texts themselves are
    not modelled. *)
Module UIManager.

Inductive ContextMessage :=
| CooldownMessage (cooldownSeconds : Z)
| AttackTheSun
| AICanAttack
| LastChance
| Hidden.

Definition contextMessage (w : World.t) : ContextMessage :=
  let state := World.store w in
  let playerPlanets := length (filter (λ p, Planet.owner p = player) (World.planets w)) in
  let aiPlanets := length (filter (λ p, Planet.owner p = ai) (World.planets w)) in
  let majorityThreshold := GameConfig.getMajorityThreshold (Store.gameMode state) in
  if (majorityThreshold <=? Z.of_nat playerPlanets)
     && bool_decide (Store.sunOwner state = None) then
    let cooldownSeconds := Qceiling (Store.sunAttackCooldown state / 60) in
    if 0 <? cooldownSeconds then CooldownMessage cooldownSeconds else AttackTheSun
  else if (majorityThreshold <=? Z.of_nat aiPlanets)
          && bool_decide (Store.sunOwner state = None) then AICanAttack
  else if (Store.sunHP state =? 1) && (Store.timer state <=? 30) then LastChance
  else Hidden.

End UIManager.

(** The context message tells the player about a Sun attack of their
    own. *)
Definition about_player_attack (m : UIManager.ContextMessage) : bool :=
  match m with
  | UIManager.CooldownMessage _ | UIManager.AttackTheSun => true
  | _ => false
  end.

(** Everything a Sun attack asks of a faction apart from the number of
    its planets: nobody owns the Sun, the faction's cooldown has run out,
    and one of its planets holds the cost. *)
Definition sun_attack_possible (o : Owner) (w : World.t) : Prop :=
  Sun.owner (World.sun w) = None
  ∧ Store.canAttackSun o (World.store w) = true
  ∧ ∃ ip, ip ∈ World.owned_by o w
          ∧ Store.getSunAttackCost (World.store w) <= Planet.ships ip.2.

(** * Verified properties *)

(** ** The Sun capture state machine *)

Lemma sun_inv_start px py : sun_inv (sun_start px py).
Proof.
  unfold sun_inv, sun_start; cbn. repeat split; try lia; try done.
Qed.

Lemma takeDamage_inv a st : sun_inv st → sun_inv (Sun.takeDamage a st).2.
Proof.
  destruct st as [s g]. unfold sun_inv, Sun.takeDamage. cbn [fst snd].
  intros (Hr & Hpos & Hzero & Hhp & Hown).
  destruct (Z.ltb_spec 0 (Sun.hp s)) as [Hlt|Hge]; cbn [andb].
  - rewrite (Hpos Hlt). rewrite bool_decide_eq_true_2 by reflexivity.
    cbn [Sun.hp].
    destruct (Z.eqb_spec (Sun.hp s - 1) 0) as [Hz|Hnz]; cbn [fst snd Sun.hp Sun.owner].
    + unfold Store.captureSun, Store.set_sun; cbn. rewrite Hz.
      unfold GameConfig.SUN_MAX_HP in *. repeat split; try lia; try done.
    + unfold Store.damageSun. rewrite Hhp.
      destruct (Z.ltb_spec 0 (Sun.hp s)); [|lia]. cbn zeta.
      destruct (Z.eqb_spec (Sun.hp s - 1) 0); [lia|].
      unfold Store.set_sun; cbn. rewrite Hown, (Hpos Hlt).
      unfold GameConfig.SUN_MAX_HP in *. repeat split; try lia; try done.
  - cbn [fst snd]. repeat split; try lia; try done.
Qed.

Lemma update_inv st : sun_inv st → Sun.update st = st.
Proof.
  destruct st as [s g]. unfold sun_inv, Sun.update. cbn [fst snd].
  intros (_ & _ & _ & -> & ->). by destruct s.
Qed.

Lemma sun_run_inv es : ∀ st, sun_inv st → sun_inv (sun_run es st).
Proof.
  induction es as [|e es IH]; intros st Hst; [done|].
  cbn. apply IH. destruct e; cbn.
  - by apply takeDamage_inv.
  - by rewrite update_inv.
Qed.

Lemma takeDamage_step a st :
  sun_inv st →
  let r := Sun.takeDamage a st in
  Sun.hp r.2.1 <= Sun.hp st.1
  ∧ (0 < Sun.hp st.1 → Sun.hp r.2.1 = Sun.hp st.1 - 1)
  ∧ (0 < Sun.hp st.1 → Sun.hp r.2.1 = 0 →
     Sun.owner r.2.1 = Some a ∧ Store.sunOwner r.2.2 = Some a ∧ r.1 = true)
  ∧ (Sun.owner st.1 ≠ None → r = (false, st)).
Proof.
  destruct st as [s g]. unfold sun_inv, Sun.takeDamage. cbn [fst snd].
  intros (Hr & Hpos & Hzero & Hhp & Hown).
  destruct (Z.ltb_spec 0 (Sun.hp s)) as [Hlt|Hge]; cbn [andb].
  - rewrite (Hpos Hlt). rewrite bool_decide_eq_true_2 by reflexivity.
    cbn [Sun.hp].
    destruct (Z.eqb_spec (Sun.hp s - 1) 0) as [Hz|Hnz]; cbn [fst snd Sun.hp Sun.owner].
    + repeat split; try lia; try done.
    + repeat split; try lia; try done.
  - cbn [fst snd]. repeat split; try lia; try done.
Qed.

Lemma sun_run_monotone more : ∀ st,
  sun_inv st →
  Sun.hp (sun_run more st).1 <= Sun.hp st.1
  ∧ (Sun.owner st.1 ≠ None → sun_run more st = st).
Proof.
  induction more as [|e more IH]; intros st Hinv; [done|].
  unfold sun_run in *. cbn [foldl]. destruct e as [a|]; cbn [sun_step].
  - destruct (takeDamage_step a st Hinv) as (Hle & _ & _ & Hfrozen).
    destruct (IH _ (takeDamage_inv a st Hinv)) as [IHle IHfrozen].
    split; [lia|]. intros Hown. rewrite (Hfrozen Hown) in *.
    by apply IHfrozen.
  - rewrite (update_inv st Hinv). by apply IH.
Qed.

(** C1. From the start of a match, after any sequence of hits on the Sun
    (with frames in between): HP stays in [[0, SUN_MAX_HP]] and the store
    mirrors the entity; while HP > 0 the owner is null; one more
    [takeDamage] never increases HP, the call that brings HP to 0 sets the
    owner to the attacker, and once the owner is set the call changes
    nothing and reports no capture; so over any continuation of the
    sequence HP does not increase, and a captured Sun stays as it is. *)
Theorem C1_sun_state_machine (px py : Q) (es : list SunEvent) :
  let st := sun_run es (sun_start px py) in
  (0 <= Sun.hp st.1 <= GameConfig.SUN_MAX_HP)
  ∧ (0 < Sun.hp st.1 → Sun.owner st.1 = None)
  ∧ (Store.sunHP st.2 = Sun.hp st.1 ∧ Store.sunOwner st.2 = Sun.owner st.1)
  ∧ Sun.update st = st
  ∧ (∀ a : Owner,
      let r := Sun.takeDamage a st in
      Sun.hp r.2.1 <= Sun.hp st.1
      ∧ (0 < Sun.hp st.1 → Sun.hp r.2.1 = 0 →
         Sun.owner r.2.1 = Some a ∧ Store.sunOwner r.2.2 = Some a ∧ r.1 = true)
      ∧ (Sun.owner st.1 ≠ None → r = (false, st)))
  ∧ (∀ more : list SunEvent,
      Sun.hp (sun_run more st).1 <= Sun.hp st.1
      ∧ (Sun.owner st.1 ≠ None → sun_run more st = st)).
Proof.
  intros st.
  assert (Hinv : sun_inv st) by (apply sun_run_inv, sun_inv_start).
  pose proof Hinv as (Hr & Hpos & _ & Hhp & Hown).
  split; [exact Hr|]. split; [exact Hpos|]. split; [by split|].
  split; [by apply update_inv|].
  split; [|intros more; by apply sun_run_monotone].
  intros a r.
  destruct (takeDamage_step a st Hinv) as (H1 & _ & H3 & H4).
  split; [exact H1|]. split; [exact H3|exact H4].
Qed.

(** Scenario A: three hits by the player capture the Sun. *)
Example scenario_A :
  let st := sun_run [Hit player; Sync; Hit player; Sync; Hit player] (sun_start 0 0) in
  Sun.hp st.1 = 0 ∧ Sun.owner st.1 = Some player ∧ Store.sunOwner st.2 = Some player.
Proof. by vm_compute. Qed.

(** ** The cost model *)

Lemma Qltb_lt a b : Qltb a b = true ↔ (a < b)%Q.
Proof.
  unfold Qltb. rewrite negb_true_iff. split.
  - intros H. apply Qnot_le_lt. intros Hle.
    apply Qle_bool_iff in Hle. congruence.
  - intros H. destruct (Qle_bool b a) eqn:E; [|done].
    apply Qle_bool_iff in E. exfalso. by apply (Qlt_not_le a b).
Qed.

Lemma Qleb_le a b : Qleb a b = true ↔ (a <= b)%Q.
Proof. apply Qle_bool_iff. Qed.

Lemma Qfloor_lt_Z (v : Q) (n : Z) : (v < inject_Z n)%Q → Qfloor v < n.
Proof.
  intros H. destruct (Z.lt_ge_cases (Qfloor v) n) as [|Hge]; [done|].
  exfalso. apply (Qlt_not_le v (inject_Z n)); [done|].
  apply Qle_trans with (inject_Z (Qfloor v)); [|apply Qfloor_le].
  by rewrite <- Zle_Qle.
Qed.

Lemma Qfloor_ge_Z (v : Q) (n : Z) : (inject_Z n <= v)%Q → n <= Qfloor v.
Proof. intros H. rewrite <- (Qfloor_Z n). by apply Qfloor_resp_le. Qed.

(** Flooring commutes with clamping to integer bounds. *)
Lemma Qfloor_clamp (v : Q) (lo hi : Z) :
  lo <= hi → Qfloor (clampQ v lo hi) = Z.max lo (Z.min hi (Qfloor v)).
Proof.
  intros Hlh. unfold clampQ.
  destruct (Q.min_spec (inject_Z hi) v) as [[Hlt Hmin]|[Hle Hmin]].
  - (* hi < v *)
    assert (hi <= Qfloor v) by (apply Qfloor_ge_Z; by apply Qlt_le_weak).
    rewrite Z.min_l, Z.max_r by lia.
    destruct (Q.max_spec (inject_Z lo) (Qmin (inject_Z hi) v)) as [[_ Hmax]|[Hle Hmax]];
      rewrite Hmax.
    + rewrite Hmin. apply Qfloor_Z.
    + rewrite Qfloor_Z. apply Z.le_antisymm; [done|].
      rewrite Hmin in Hle. by rewrite Zle_Qle.
  - rewrite Hmin.
    destruct (Q.max_spec (inject_Z lo) v) as [[Hlt Hmax]|[Hle2 Hmax]]; rewrite Hmax.
    + assert (lo <= Qfloor v) by (apply Qfloor_ge_Z; by apply Qlt_le_weak).
      destruct (Qle_lt_or_eq _ _ Hle) as [Hs|He].
      * assert (Qfloor v < hi) by by apply Qfloor_lt_Z. lia.
      * rewrite He, Qfloor_Z. lia.
    + rewrite Qfloor_Z.
      destruct (Qle_lt_or_eq _ _ Hle2) as [Hs|He].
      * assert (Qfloor v < lo) by by apply Qfloor_lt_Z. lia.
      * rewrite He, Qfloor_Z. lia.
Qed.

Lemma attackCostModifier_table ty :
  GameConfig.attackCostModifier (GameConfig.PLANET_TYPES ty) = typeModifier_spec ty.
Proof. by destruct ty. Qed.

Lemma AI_cost_same Math_sqrt sx sy tx ty p :
  AISystem.calculateAttackCost Math_sqrt sx sy tx ty p
  = InputManager.calculateAttackCost Math_sqrt sx sy tx ty p.
Proof. reflexivity. Qed.

Lemma calculateAttackCost_range Math_sqrt sx sy tx ty p :
  GameConfig.ATTACK_COST_MIN
  <= InputManager.calculateAttackCost Math_sqrt sx sy tx ty p
  <= GameConfig.ATTACK_COST_MAX.
Proof.
  unfold InputManager.calculateAttackCost, GameConfig.ATTACK_COST_MIN,
    GameConfig.ATTACK_COST_MAX. cbn zeta. lia.
Qed.

(** C2. The planet attack cost computed by the player's and by the AI's
    system is the clamp of [base + distance * multiplier + typeModifier] to
    [[ATTACK_COST_MIN, ATTACK_COST_MAX]] taken as an integer, with the
    modifiers generator +2, fortress -1, launcher 0, standard 0; the Sun
    attack cost is [base + floor (overcharge * multiplier)] without an upper
    bound: after four registered attacks one second apart the overcharge
    is 6 and the cost exceeds [ATTACK_COST_MAX]. *)
Theorem C2_attack_cost :
  (∀ (Math_sqrt : Q → Q) (sx sy tx ty : Q) (p : Planet.t),
     let distance := Math_sqrt (dist2 sx sy tx ty) in
     let cost := InputManager.calculateAttackCost Math_sqrt sx sy tx ty (Some p) in
     cost = planet_cost_spec distance (Planet.type p)
     ∧ AISystem.calculateAttackCost Math_sqrt sx sy tx ty (Some p) = cost
     ∧ GameConfig.ATTACK_COST_MIN <= cost <= GameConfig.ATTACK_COST_MAX)
  ∧ (∀ s : Store.t,
       Store.getSunAttackCost s
       = GameConfig.ATTACK_COST_BASE
         + Qfloor (Store.sunOvercharge s * GameConfig.SUN_OVERCHARGE_MULTIPLIER))
  ∧ (Store.sunOvercharge overheated_store == 6)%Q
  ∧ GameConfig.ATTACK_COST_MAX < Store.getSunAttackCost overheated_store.
Proof.
  split; [|split; [done|split; [by vm_compute|by vm_compute]]].
  intros Math_sqrt sx sy tx ty p distance cost. split; [|split].
  - subst cost distance. unfold planet_cost_spec.
    rewrite Qfloor_clamp by (by vm_compute).
    unfold InputManager.calculateAttackCost, dist2. cbn zeta.
    by rewrite attackCostModifier_table.
  - apply AI_cost_same.
  - apply calculateAttackCost_range.
Qed.

(** The cost at the four corners of the table, at distance 0 and far away. *)
Example cost_examples :
  let p ty := Planet.mk 0 player ty 10 0 0 None in
  InputManager.calculateAttackCost isqrt 0 0 0 0 (Some (p generator)) = 7
  ∧ InputManager.calculateAttackCost isqrt 0 0 0 0 (Some (p fortress)) = 5
  ∧ InputManager.calculateAttackCost isqrt 0 0 300 400 (Some (p standard)) = 10
  ∧ InputManager.calculateAttackCost isqrt 0 0 3000 4000 (Some (p launcher)) = 15.
Proof. by vm_compute. Qed.

(** ** The object pools *)

Lemma js_truthy_lt (l : list bool) i : js_truthy l i = true → (i < length l)%nat.
Proof.
  unfold js_truthy. destruct (l !! i) eqn:E; [|done].
  intros _. by apply lookup_lt_Some in E.
Qed.

Lemma js_truthy_set_eq (l : list bool) i v :
  (i < length l)%nat → js_truthy (js_set l i v) i = v.
Proof.
  intros H. unfold js_truthy, js_set. rewrite decide_True by done.
  by rewrite list_lookup_insert_eq.
Qed.

Lemma js_truthy_set_ne (l : list bool) i j v :
  (i < length l)%nat → i ≠ j → js_truthy (js_set l i v) j = js_truthy l j.
Proof.
  intros H Hne. unfold js_truthy, js_set. rewrite decide_True by done.
  by rewrite list_lookup_insert_ne.
Qed.

Lemma js_set_length (l : list bool) i v :
  (i < length l)%nat → length (js_set l i v) = length l.
Proof. intros H. unfold js_set. rewrite decide_True by done. apply length_insert. Qed.

(** The loop returns the least inactive index of the scanned range. *)
Lemma first_inactive_Some n : ∀ i l j,
  first_inactive n i l = Some j ↔
  (i <= j < i + n)%nat ∧ js_truthy l j = false
  ∧ ∀ k, (i <= k < j)%nat → js_truthy l k = true.
Proof.
  induction n as [|n IH]; intros i l j; cbn.
  - split; [done|]. intros [? _]. lia.
  - destruct (js_truthy l i) eqn:E; cbn.
    + rewrite IH. split.
      * intros (Hr & Hj & Hk). split; [lia|]. split; [done|].
        intros k Hki. destruct (decide (k = i)) as [->|]; [done|]. apply Hk. lia.
      * intros (Hr & Hj & Hk). assert (j ≠ i) by congruence.
        split; [lia|]. split; [done|]. intros k Hki. apply Hk. lia.
    + split.
      * intros [= <-]. split; [lia|]. split; [done|]. intros k Hk. lia.
      * intros (Hr & Hj & Hk). f_equal.
        destruct (decide (i = j)) as [|Hne]; [done|].
        rewrite Hk in E by lia. done.
Qed.

Lemma first_inactive_None n : ∀ i l,
  first_inactive n i l = None ↔ ∀ k, (i <= k < i + n)%nat → js_truthy l k = true.
Proof.
  induction n as [|n IH]; intros i l; cbn.
  - split; [intros _ k ?; lia|done].
  - destruct (js_truthy l i) eqn:E; cbn.
    + rewrite IH. split.
      * intros H k Hk. destruct (decide (k = i)) as [->|]; [done|]. apply H. lia.
      * intros H k Hk. apply H. lia.
    + split; [done|]. intros H. rewrite H in E by lia. done.
Qed.

Lemma indexOf_None pool obj : obj ∉ pool → indexOf pool obj = None.
Proof.
  intros H. unfold indexOf.
  destruct (list_find (λ r, r = obj) pool) as [[i r]|] eqn:E; [|done].
  apply list_find_Some in E as (Hl & -> & _).
  exfalso. apply H. by eapply list_elem_of_lookup_2.
Qed.

Lemma indexOf_Some pool obj i :
  indexOf pool obj = Some i → pool !! i = Some obj ∧ ∀ j, (j < i)%nat → pool !! j ≠ Some obj.
Proof.
  unfold indexOf.
  destruct (list_find (λ r, r = obj) pool) as [[i' r]|] eqn:E; [|done].
  intros [= <-]. apply list_find_Some in E as (Hl & -> & Hmin).
  split; [done|]. intros j Hj Hc. by apply (Hmin j obj).
Qed.

Lemma js_truthy_set_true (l : list bool) i : js_truthy (js_set l i true) i = true.
Proof.
  unfold js_set. destruct (decide (i < length l)%nat) as [H|H].
  - unfold js_truthy. by rewrite list_lookup_insert_eq.
  - unfold js_truthy. rewrite lookup_app_r by lia.
    rewrite lookup_app_r by (rewrite length_replicate; lia).
    rewrite length_replicate. by replace (i - length l - (i - length l))%nat with 0%nat by lia.
Qed.

Lemma count_active_push (l : list bool) : count_active (l ++ [true]) = S (count_active l).
Proof.
  unfold count_active. rewrite filter_app, length_app. cbn.
  rewrite decide_True by done. cbn. lia.
Qed.

(** What [ObjectPool.acquire] does, by cases on the flags. *)
Lemma ObjectPool_acquire_slot {T} (factory : T) heap p i :
  (i < length (ObjectPool.pool p))%nat →
  js_truthy (ObjectPool.active p) i = false →
  (∀ k, (k < i)%nat → js_truthy (ObjectPool.active p) k = true) →
  ObjectPool.acquire factory (heap, p)
  = (ObjectPool.pool p !! i,
     (heap, ObjectPool.mk (ObjectPool.pool p) (js_set (ObjectPool.active p) i true))).
Proof.
  intros Hi Hf Hk. unfold ObjectPool.acquire.
  assert (E : first_inactive (length (ObjectPool.pool p)) 0 (ObjectPool.active p) = Some i).
  { apply first_inactive_Some. split; [lia|]. split; [done|]. intros k ?. apply Hk. lia. }
  by rewrite E.
Qed.

Lemma ObjectPool_acquire_grow {T} (factory : T) heap p :
  (∀ k, (k < length (ObjectPool.pool p))%nat → js_truthy (ObjectPool.active p) k = true) →
  ObjectPool.acquire factory (heap, p)
  = (Some (length heap),
     (heap ++ [factory],
      ObjectPool.mk (ObjectPool.pool p ++ [length heap]) (ObjectPool.active p ++ [true]))).
Proof.
  intros Hk. unfold ObjectPool.acquire.
  assert (E : first_inactive (length (ObjectPool.pool p)) 0 (ObjectPool.active p) = None).
  { apply first_inactive_None. intros k ?. apply Hk. lia. }
  by rewrite E.
Qed.

Lemma ObjectPool_acquire_Some {T} (factory : T) heap p :
  ∃ obj, (ObjectPool.acquire factory (heap, p)).1 = Some obj.
Proof.
  unfold ObjectPool.acquire.
  destruct (first_inactive _ _ _) as [i|] eqn:E; cbn; [|by eexists].
  apply first_inactive_Some in E as ([_ Hi] & _).
  by apply lookup_lt_is_Some_2.
Qed.

Lemma ParticlePool_acquire_slot heap p i :
  (i < length (ParticlePool.pool p))%nat →
  js_truthy (ParticlePool.active p) i = false →
  (∀ k, (k < i)%nat → js_truthy (ParticlePool.active p) k = true) →
  ∃ r, ParticlePool.pool p !! i = Some r
       ∧ ParticlePool.acquire (heap, p)
         = (Some r,
            (alter (λ q, Particle.mk true 1 (Particle.attached q)) r heap,
             ParticlePool.mk (ParticlePool.pool p) (js_set (ParticlePool.active p) i true))).
Proof.
  intros Hi Hf Hk. unfold ParticlePool.acquire.
  assert (E : first_inactive (length (ParticlePool.pool p)) 0 (ParticlePool.active p) = Some i).
  { apply first_inactive_Some. split; [lia|]. split; [done|]. intros k ?. apply Hk. lia. }
  rewrite E. destruct (lookup_lt_is_Some_2 _ _ Hi) as [r Hr].
  exists r. by rewrite Hr.
Qed.

Lemma ParticlePool_acquire_full heap p :
  (∀ k, (k < length (ParticlePool.pool p))%nat → js_truthy (ParticlePool.active p) k = true) →
  ParticlePool.acquire (heap, p) = (None, (heap, p)).
Proof.
  intros Hk. unfold ParticlePool.acquire.
  assert (E : first_inactive (length (ParticlePool.pool p)) 0 (ParticlePool.active p) = None).
  { apply first_inactive_None. intros k ?. apply Hk. lia. }
  by rewrite E.
Qed.

(** C6, as the claim states it, fails on the particle pool: once its only
    particle is out, [acquire] answers [null] and the pool has not grown. *)
Lemma C6_particle_pool_exhausted :
  (ParticlePool.acquire full_particle_pool).1 = None
  ∧ (ParticlePool.acquire full_particle_pool).2 = full_particle_pool
  ∧ ParticlePool.getActiveCount full_particle_pool.2 = 1%nat
  ∧ length (ParticlePool.pool full_particle_pool.2) = 1%nat.
Proof. by vm_compute. Qed.

(** C6 (amended). [ObjectPool.acquire] never answers [null]: it returns the
    first inactive slot, marked active and with nothing else changed, when
    one exists; when every slot is active it appends exactly one newly
    built object, marked active, and returns it.  [ParticlePool.acquire]
    returns the first inactive slot in the same way, but on a pool whose
    slots are all active it answers [null] and leaves the pool as it was. *)
Theorem C6_acquire {T : Type} (factory : T) (heap : list T) (p : ObjectPool.t)
        (pheap : list Particle.t) (pp : ParticlePool.t) :
  (∃ obj, (ObjectPool.acquire factory (heap, p)).1 = Some obj)
  ∧ (∀ i, (i < length (ObjectPool.pool p))%nat →
          js_truthy (ObjectPool.active p) i = false →
          (∀ k, (k < i)%nat → js_truthy (ObjectPool.active p) k = true) →
          let r := ObjectPool.acquire factory (heap, p) in
          r.1 = ObjectPool.pool p !! i
          ∧ r.2.1 = heap
          ∧ ObjectPool.pool r.2.2 = ObjectPool.pool p
          ∧ ObjectPool.active r.2.2 = js_set (ObjectPool.active p) i true
          ∧ js_truthy (ObjectPool.active r.2.2) i = true)
  ∧ ((∀ k, (k < length (ObjectPool.pool p))%nat →
           js_truthy (ObjectPool.active p) k = true) →
     let r := ObjectPool.acquire factory (heap, p) in
     r.1 = Some (length heap)
     ∧ r.2.1 = heap ++ [factory]
     ∧ ObjectPool.pool r.2.2 = ObjectPool.pool p ++ [length heap]
     ∧ ObjectPool.active r.2.2 = ObjectPool.active p ++ [true]
     ∧ ObjectPool.getSize r.2.2 = S (ObjectPool.getSize p)
     ∧ ObjectPool.getActiveCount r.2.2 = S (ObjectPool.getActiveCount p))
  ∧ (∀ i, (i < length (ParticlePool.pool pp))%nat →
          js_truthy (ParticlePool.active pp) i = false →
          (∀ k, (k < i)%nat → js_truthy (ParticlePool.active pp) k = true) →
          let r := ParticlePool.acquire (pheap, pp) in
          r.1 = ParticlePool.pool pp !! i
          ∧ is_Some r.1
          ∧ ParticlePool.pool r.2.2 = ParticlePool.pool pp
          ∧ ParticlePool.active r.2.2 = js_set (ParticlePool.active pp) i true)
  ∧ ((∀ k, (k < length (ParticlePool.pool pp))%nat →
           js_truthy (ParticlePool.active pp) k = true) →
     ParticlePool.acquire (pheap, pp) = (None, (pheap, pp))).
Proof.
  split; [apply ObjectPool_acquire_Some|].
  split.
  { intros i Hi Hf Hk r. subst r.
    rewrite (ObjectPool_acquire_slot factory heap p i Hi Hf Hk). cbn.
    repeat split. apply js_truthy_set_true. }
  split.
  { intros Hk r. subst r. rewrite (ObjectPool_acquire_grow factory heap p Hk). cbn.
    repeat split.
    - unfold ObjectPool.getSize. rewrite length_app. cbn. lia.
    - unfold ObjectPool.getActiveCount. cbn. apply count_active_push. }
  split.
  { intros i Hi Hf Hk r. subst r.
    destruct (ParticlePool_acquire_slot pheap pp i Hi Hf Hk) as (q & Hq & ->). cbn.
    rewrite Hq. repeat split. by eexists. }
  apply ParticlePool_acquire_full.
Qed.

(** The triangle pool of a match: two pre-allocated projectiles are handed
    out, the third acquisition grows the pool. *)
Example ObjectPool_grows :
  let st0 := ObjectPool.create Triangle.create 2 [] in
  let '(r1, st1) := ObjectPool.acquire Triangle.create st0 in
  let '(r2, st2) := ObjectPool.acquire Triangle.create st1 in
  let '(r3, st3) := ObjectPool.acquire Triangle.create st2 in
  (r1, r2, r3) = (Some 0%nat, Some 1%nat, Some 2%nat)
  ∧ ObjectPool.getSize st3.2 = 3%nat
  ∧ ObjectPool.getActiveCount st3.2 = 3%nat.
Proof. by vm_compute. Qed.

Lemma ObjectPool_release_twice {T} (reset : T → T) obj st :
  ObjectPool.release reset obj (ObjectPool.release reset obj st)
  = ObjectPool.release reset obj st.
Proof.
  destruct st as [heap p]. unfold ObjectPool.release.
  destruct (indexOf (ObjectPool.pool p) obj) as [index|] eqn:E; [|by rewrite E].
  destruct (js_truthy (ObjectPool.active p) index) eqn:Ea; cbn [negb].
  - cbn [ObjectPool.pool ObjectPool.active]. rewrite E.
    rewrite js_truthy_set_eq by (by apply js_truthy_lt). done.
  - by rewrite E, Ea.
Qed.

Lemma ParticlePool_release_twice obj st :
  ParticlePool.release obj (ParticlePool.release obj st) = ParticlePool.release obj st.
Proof.
  destruct st as [heap p]. unfold ParticlePool.release.
  destruct (indexOf (ParticlePool.pool p) obj) as [index|] eqn:E; [|by rewrite E].
  destruct (js_truthy (ParticlePool.active p) index) eqn:Ea; cbn [negb].
  - cbn [ParticlePool.pool ParticlePool.active]. rewrite E.
    rewrite js_truthy_set_eq by (by apply js_truthy_lt). done.
  - by rewrite E, Ea.
Qed.

(** A release changes at most the flag of the released slot, to inactive. *)
Lemma ObjectPool_release_flags {T} (reset : T → T) obj heap p :
  let st := ObjectPool.release reset obj (heap, p) in
  ObjectPool.pool st.2 = ObjectPool.pool p
  ∧ (indexOf (ObjectPool.pool p) obj = None → st = (heap, p))
  ∧ ∀ index, indexOf (ObjectPool.pool p) obj = Some index →
      js_truthy (ObjectPool.active st.2) index = false
      ∧ ∀ j, j ≠ index →
          js_truthy (ObjectPool.active st.2) j = js_truthy (ObjectPool.active p) j.
Proof.
  unfold ObjectPool.release.
  destruct (indexOf (ObjectPool.pool p) obj) as [index|] eqn:E; cbn zeta.
  - destruct (js_truthy (ObjectPool.active p) index) eqn:Ea; cbn [negb fst snd].
    + split; [done|]. split; [done|]. intros ? [= <-].
      pose proof (js_truthy_lt _ _ Ea).
      split; [by apply js_truthy_set_eq|].
      intros j Hj. cbn. by apply js_truthy_set_ne.
    + split; [done|]. split; [done|]. by intros ? [= <-].
  - split; [done|]. split; [done|]. done.
Qed.

(** C7. On both pools, releasing the same item a second time changes
    nothing at all (so neither the active count nor any slot's flag), and
    releasing an object the pool does not hold changes nothing. *)
Theorem C7_release_idempotent {T : Type} (reset : T → T) (obj : ref)
        (st : list T * ObjectPool.t) (pst : list Particle.t * ParticlePool.t) :
  (let once := ObjectPool.release reset obj st in
   let twice := ObjectPool.release reset obj once in
   twice = once
   ∧ ObjectPool.getActiveCount twice.2 = ObjectPool.getActiveCount once.2
   ∧ ∀ i, js_truthy (ObjectPool.active twice.2) i = js_truthy (ObjectPool.active once.2) i)
  ∧ (obj ∉ ObjectPool.pool st.2 → ObjectPool.release reset obj st = st)
  ∧ (let once := ParticlePool.release obj pst in
     let twice := ParticlePool.release obj once in
     twice = once
     ∧ ParticlePool.getActiveCount twice.2 = ParticlePool.getActiveCount once.2
     ∧ ∀ i, js_truthy (ParticlePool.active twice.2) i
            = js_truthy (ParticlePool.active once.2) i)
  ∧ (obj ∉ ParticlePool.pool pst.2 → ParticlePool.release obj pst = pst).
Proof.
  split; [|split; [|split]].
  - cbn zeta. rewrite ObjectPool_release_twice. done.
  - intros H. destruct st as [heap p]. unfold ObjectPool.release.
    by rewrite indexOf_None.
  - cbn zeta. rewrite ParticlePool_release_twice. done.
  - intros H. destruct pst as [heap p]. unfold ParticlePool.release.
    by rewrite indexOf_None.
Qed.

(** Releasing an active projectile resets it once and frees its slot; the
    second release and the release of a foreign object are no-ops. *)
Example release_examples :
  let st0 := ObjectPool.create Triangle.create 2 [] in
  let st1 := (ObjectPool.acquire Triangle.create st0).2 in
  let st2 := ObjectPool.release Triangle.reset 0%nat st1 in
  ObjectPool.getActiveCount st1.2 = 1%nat
  ∧ ObjectPool.getActiveCount st2.2 = 0%nat
  ∧ ObjectPool.release Triangle.reset 0%nat st2 = st2
  ∧ ObjectPool.release Triangle.reset 7%nat st1 = st1.
Proof. by vm_compute. Qed.

(** ** Shaking a planet *)

Lemma alter_missing {A} (f : A → A) (l : list A) i : l !! i = None → alter f i l = l.
Proof.
  intros H. apply list_eq. intros j. destruct (decide (j = i)) as [->|Hne].
  - by rewrite list_lookup_alter_eq, H.
  - by rewrite list_lookup_alter_ne.
Qed.

Lemma fmap_alter_same {A B} (h : A → B) (g : A → A) (l : list A) i :
  (∀ x, h (g x) = h x) → h <$> alter g i l = h <$> l.
Proof.
  intros Hg. apply list_eq. intros j. rewrite !list_lookup_fmap.
  destruct (decide (j = i)) as [->|Hne].
  - rewrite list_lookup_alter_eq. destruct (l !! i); [|done]. cbn. by rewrite Hg.
  - by rewrite list_lookup_alter_ne.
Qed.

Lemma alter_insert {A} (f : A → A) (l : list A) i x :
  l !! i = Some x → alter f i l = <[i := f x]> l.
Proof.
  intros H. apply list_eq. intros j. destruct (decide (j = i)) as [->|Hne].
  - rewrite list_lookup_alter_eq, H. cbn.
    by rewrite list_lookup_insert_eq by (by eapply lookup_lt_Some).
  - by rewrite list_lookup_alter_ne, list_lookup_insert_ne.
Qed.

(** One run of [animate] writes the position of its target and nothing
    else. *)
Lemma animate_form a e ps :
  ∃ nx ny, (Shake.animate a e ps).2 = alter (Planet.set_position nx ny) (Shake.target a) ps.
Proof. unfold Shake.animate. destruct (Qltb _ _); by eexists _, _. Qed.

Lemma shake_form target intensity duration sh w :
  ∃ nx ny waiting,
    AnimationHelper.shake target intensity duration sh w
    = World.set_shakes waiting
        (World.set_planets (alter (Planet.set_position nx ny) target (World.planets w)) w).
Proof.
  unfold AnimationHelper.shake.
  destruct (World.planets w !! target) as [p|] eqn:Hp.
  - unfold Shake.animate. cbn [Shake.target Shake.originalX Shake.originalY].
    destruct (Qltb _ _); by eexists _, _, _.
  - exists 0%Q, 0%Q, (World.shakes w). rewrite alter_missing by done. by destruct w.
Qed.

Lemma shake_records target intensity duration sh w :
  planet_record <$> World.planets (AnimationHelper.shake target intensity duration sh w)
  = planet_record <$> World.planets w.
Proof.
  destruct (shake_form target intensity duration sh w) as (nx & ny & waiting & ->).
  cbn. by apply fmap_alter_same.
Qed.

Lemma shake_ships target intensity duration sh w :
  Planet.ships <$> World.planets (AnimationHelper.shake target intensity duration sh w)
  = Planet.ships <$> World.planets w.
Proof.
  destruct (shake_form target intensity duration sh w) as (nx & ny & waiting & ->).
  cbn. by apply fmap_alter_same.
Qed.

Lemma shake_others target intensity duration sh w i :
  i ≠ target →
  World.planets (AnimationHelper.shake target intensity duration sh w) !! i
  = World.planets w !! i.
Proof.
  intros Hne.
  destruct (shake_form target intensity duration sh w) as (nx & ny & waiting & ->).
  cbn. by rewrite list_lookup_alter_ne.
Qed.

Lemma shake_projectiles target intensity duration sh w :
  projectiles (AnimationHelper.shake target intensity duration sh w) = projectiles w.
Proof.
  by destruct (shake_form target intensity duration sh w) as (nx & ny & waiting & ->).
Qed.

(** While its duration lasts, [shake] moves the planet by at most half
    the intensity along each axis and waits for the next animation frame;
    when the clock has already run past the duration it leaves the planet
    where it is. *)
Lemma shake_displaced target intensity duration sh w p :
  World.planets w !! target = Some p →
  (0 <= intensity)%Q → unit_random (Shake.first sh) →
  displaced target (intensity / 2) w (AnimationHelper.shake target intensity duration sh w).
Proof.
  intros Hp Hi (Hx0 & Hx1 & Hy0 & Hy1). unfold AnimationHelper.shake. rewrite Hp.
  assert (Hhalf : (intensity / 2 == intensity * (1 # 2))%Q) by reflexivity.
  unfold Shake.animate. cbn [Shake.target Shake.originalX Shake.originalY Shake.intensity].
  destruct (Qltb _ _).
  - exists p, (Planet.x p + (Shake.randomX (Shake.first sh) - (1 # 2)) * intensity)%Q,
             (Planet.y p + (Shake.randomY (Shake.first sh) - (1 # 2)) * intensity)%Q,
             (World.shakes w
              ++ [Shake.mk target (Planet.x p) (Planet.y p) intensity duration (Shake.clock sh)]).
    split; [done|]. rewrite Hhalf.
    split; [nra|]. split; [nra|]. split; [nra|]. split; [nra|].
    by rewrite (alter_insert _ _ _ p).
  - exists p, (Planet.x p), (Planet.y p), (World.shakes w).
    split; [done|]. rewrite Hhalf.
    split; [nra|]. split; [nra|]. split; [nra|]. split; [nra|].
    rewrite (alter_insert _ _ _ p) by done. by destruct w.
Qed.

Lemma animationFrame_form reads w :
  ∃ waiting planets,
    AnimationHelper.animationFrame reads w
    = World.set_shakes waiting (World.set_planets planets w)
    ∧ planet_record <$> planets = planet_record <$> World.planets w.
Proof.
  unfold AnimationHelper.animationFrame.
  assert (H : ∀ l acc,
            planet_record <$> (foldl (AnimationHelper.frame_step reads) acc l).2
            = planet_record <$> acc.2).
  { induction l as [|a l IH]; intros acc; [done|]. cbn [foldl]. rewrite IH.
    destruct acc as [[k waiting] ps]. unfold AnimationHelper.frame_step.
    destruct (animate_form a (reads k) ps) as (nx & ny & E).
    destruct (Shake.animate a (reads k) ps) as [again ps']. cbn in *. subst ps'.
    by apply fmap_alter_same. }
  specialize (H (World.shakes w) (0%nat, [], World.planets w)).
  destruct (foldl _ _ _) as [[k waiting] ps]. by exists waiting, ps.
Qed.

(** ** Ship counts *)

Lemma removeShips_fail amount p :
  Planet.ships p < amount → Planet.removeShips amount p = (false, p).
Proof.
  intros H. unfold Planet.removeShips.
  destruct (Z.leb_spec amount (Planet.ships p)); [lia|done].
Qed.

Lemma removeShips_ok amount p :
  amount <= Planet.ships p →
  Planet.removeShips amount p = (true, Planet.set_ships (Planet.ships p - amount) p).
Proof.
  intros H. unfold Planet.removeShips.
  destruct (Z.leb_spec amount (Planet.ships p)); [done|lia].
Qed.

Lemma removeShips_nonneg amount p :
  0 <= Planet.ships p → 0 <= Planet.ships (Planet.removeShips amount p).2.
Proof.
  intros H. unfold Planet.removeShips.
  destruct (Z.leb_spec amount (Planet.ships p)); cbn; lia.
Qed.

Lemma pool_acquire_planets w : World.planets (World.pool_acquire w).2 = World.planets w.
Proof.
  unfold World.pool_acquire. by destruct (ObjectPool.acquire _ _) as [r st].
Qed.

Lemma player_launch_planets sx sy tx ty m w :
  World.planets (InputManager.launch sx sy tx ty m w).2 = World.planets w.
Proof.
  unfold InputManager.launch. pose proof (pool_acquire_planets w) as H.
  destruct (World.pool_acquire w) as [[tr|] w1]; cbn in *; done.
Qed.

Lemma ai_launch_planets sx sy tx ty m w :
  World.planets (AISystem.launch sx sy tx ty m w) = World.planets w.
Proof.
  unfold AISystem.launch. pose proof (pool_acquire_planets w) as H.
  destruct (World.pool_acquire w) as [[tr|] w1]; cbn in *; done.
Qed.

Lemma alter_removeShips_nonneg amount i ps :
  Forall (λ p, 0 <= Planet.ships p) ps →
  Forall (λ p, 0 <= Planet.ships p) (alter (λ p, (Planet.removeShips amount p).2) i ps).
Proof.
  intros H. apply Forall_alter; [done|]. intros p _. apply removeShips_nonneg.
Qed.

Lemma alter_defend_nonneg amount d i ps :
  Forall (λ p, 0 <= Planet.ships p) ps →
  Forall (λ p, 0 <= Planet.ships p)
         (alter (λ q, Planet.addDefense d (Planet.removeShips amount q).2) i ps).
Proof.
  intros H. apply Forall_alter; [done|]. intros p _ Hp. cbn.
  by apply removeShips_nonneg.
Qed.

Lemma ships_nonneg_same w w' :
  Planet.ships <$> World.planets w' = Planet.ships <$> World.planets w →
  ships_nonneg w → ships_nonneg w'.
Proof.
  unfold ships_nonneg. intros E H.
  rewrite Forall_lookup in H. apply Forall_lookup. intros i p Hp.
  assert (Hi : (Planet.ships <$> World.planets w') !! i = Some (Planet.ships p)).
  { by rewrite list_lookup_fmap, Hp. }
  rewrite E, list_lookup_fmap in Hi.
  destruct (World.planets w !! i) as [q|] eqn:Hq; [|done].
  cbn in Hi. injection Hi as <-. by apply (H i).
Qed.

Lemma shake_nonneg target intensity duration sh w :
  ships_nonneg w → ships_nonneg (AnimationHelper.shake target intensity duration sh w).
Proof. apply ships_nonneg_same, shake_ships. Qed.

Lemma player_attack_nonneg Math_sqrt sh s t w :
  ships_nonneg w → ships_nonneg (InputManager.attack Math_sqrt sh s t w).2.
Proof.
  unfold InputManager.attack. intros H.
  destruct (World.planets w !! s) as [src|]; [|done].
  destruct (World.planets w !! t) as [tgt|]; [|done].
  destruct (_ <? _); [by apply shake_nonneg|]. unfold ships_nonneg.
  rewrite player_launch_planets. cbn. by apply alter_removeShips_nonneg.
Qed.

Lemma player_attackSun_nonneg s now w :
  ships_nonneg w → ships_nonneg (InputManager.attackSun s now w).2.
Proof.
  unfold ships_nonneg, InputManager.attackSun. intros H.
  destruct (World.planets w !! s) as [src|]; [|done].
  destruct (_ <? _); [done|].
  rewrite player_launch_planets. cbn. by apply alter_removeShips_nonneg.
Qed.

Lemma handleSunClick_nonneg Math_sqrt now w :
  ships_nonneg w → ships_nonneg (InputManager.handleSunClick Math_sqrt now w).
Proof.
  intros H. unfold InputManager.handleSunClick.
  destruct (Sun.owner _); [done|].
  destruct (negb _); [done|].
  destruct (_ <? _); [done|].
  destruct (foldl _ _ _).1; [|done].
  by apply player_attackSun_nonneg.
Qed.

Lemma player_defend_nonneg sh pl w :
  ships_nonneg w → ships_nonneg (InputManager.defendPlanet sh pl w).
Proof.
  unfold InputManager.defendPlanet. intros H.
  destruct (World.planets w !! pl) as [p|]; [|done].
  destruct (_ <? _); [by apply shake_nonneg|].
  destruct (Planet.hasDefense _ _); [done|]. unfold ships_nonneg.
  cbn. by apply alter_defend_nonneg.
Qed.

Lemma ai_attackPlanet_nonneg Math_sqrt s t w :
  ships_nonneg w → ships_nonneg (AISystem.attackPlanet Math_sqrt s t w).
Proof.
  unfold ships_nonneg, AISystem.attackPlanet. intros H.
  destruct (World.planets w !! s) as [src|]; [|done].
  destruct (World.planets w !! t) as [tgt|]; [|done].
  destruct (_ <? _); [done|].
  rewrite ai_launch_planets. cbn. by apply alter_removeShips_nonneg.
Qed.

Lemma ai_attackSun_nonneg s now w :
  ships_nonneg w → ships_nonneg (AISystem.attackSun s now w).
Proof.
  unfold ships_nonneg, AISystem.attackSun. intros H.
  destruct (World.planets w !! s) as [src|]; [|done].
  destruct (negb _); [done|].
  destruct (_ <? _); [done|].
  rewrite ai_launch_planets. cbn. by apply alter_removeShips_nonneg.
Qed.

Lemma ai_defend_nonneg pl w :
  ships_nonneg w → ships_nonneg (AISystem.defendPlanet pl w).
Proof.
  unfold ships_nonneg, AISystem.defendPlanet. intros H.
  destruct (World.planets w !! pl) as [p|]; [|done].
  destruct (_ || _); [done|].
  cbn. by apply alter_defend_nonneg.
Qed.

Lemma tryAttack_nonneg Math_sqrt aiPlanets target w w' :
  ships_nonneg w → AISystem.tryAttack Math_sqrt aiPlanets target w = Some w' →
  ships_nonneg w'.
Proof.
  unfold AISystem.tryAttack. intros H.
  destruct target as [tgt|]; [|done].
  destruct (AISystem.findBestPlanetForAttack _ _ _) as [source|]; [|done].
  intros [= <-]. by apply ai_attackPlanet_nonneg.
Qed.

Lemma tryAttack_default_nonneg Math_sqrt aiPlanets target w :
  ships_nonneg w →
  ships_nonneg (default w (AISystem.tryAttack Math_sqrt aiPlanets target w)).
Proof.
  intros H. destruct (AISystem.tryAttack _ _ _ _) as [w'|] eqn:E; cbn; [|done].
  by eapply tryAttack_nonneg.
Qed.

Lemma makeDecision_nonneg Math_sqrt now rand w :
  ships_nonneg w → ships_nonneg (AISystem.makeDecision Math_sqrt now rand w).
Proof.
  intros H. unfold AISystem.makeDecision. cbn zeta.
  destruct (decide _); [done|].
  match goal with |- ships_nonneg (match ?s with _ => _ end) => destruct s end;
    [by apply ai_defend_nonneg|].
  match goal with |- ships_nonneg (match ?s with _ => _ end) => destruct s end;
    [by apply ai_attackSun_nonneg|].
  destruct (World.aiStrategy w).
  - destruct (AISystem.tryAttack _ _ _ _) as [w'|] eqn:E;
      [by eapply tryAttack_nonneg|by apply tryAttack_default_nonneg].
  - match goal with |- ships_nonneg (match ?s with _ => _ end) => destruct s eqn:E end.
    + destruct (_ <=? _)%nat; [|done]. by eapply tryAttack_nonneg.
    + destruct (decide _); by apply tryAttack_default_nonneg.
  - match goal with |- ships_nonneg (match ?s with _ => _ end) => destruct s eqn:E end.
    + destruct (_ <=? _)%nat; [|done]. by eapply tryAttack_nonneg.
    + by apply tryAttack_default_nonneg.
Qed.

Lemma generateShips_nonneg w :
  ships_nonneg w → ships_nonneg (ProductionSystem.generateShips w).
Proof.
  unfold ships_nonneg, ProductionSystem.generateShips. cbn. intros H.
  apply Forall_map. eapply Forall_impl; [exact H|].
  intros p Hp. cbn in *. destruct (decide _); [done|].
  unfold Planet.addShips, Planet.getProduction. cbn.
  destruct (Planet.type p); cbn; lia.
Qed.

Lemma request_step_nonneg Math_sqrt w r :
  ships_nonneg w → ships_nonneg (request_step Math_sqrt w r).
Proof.
  intros H. destruct r; cbn.
  - by apply player_attack_nonneg.
  - by apply player_attackSun_nonneg.
  - by apply handleSunClick_nonneg.
  - by apply player_defend_nonneg.
  - by apply ai_attackPlanet_nonneg.
  - by apply ai_attackSun_nonneg.
  - by apply ai_defend_nonneg.
  - by apply makeDecision_nonneg.
  - by apply generateShips_nonneg.
Qed.

Lemma requests_run_nonneg Math_sqrt rs : ∀ w,
  ships_nonneg w → ships_nonneg (requests_run Math_sqrt rs w).
Proof.
  induction rs as [|r rs IH]; intros w H; [done|].
  cbn. apply IH. by apply request_step_nonneg.
Qed.

(** C4. A deduction of more ships than a planet holds fails and leaves the
    planet untouched; an attack whose cost exceeds the source's ships is
    refused: it answers false and leaves the ship count of every planet
    exactly as it was, and with it the owners, the defences, the store and
    the projectiles (the refusal shakes the source planet, which writes
    its position only); and from a match in which no ship count is
    negative, no sequence of attack, defend, Sun-attack, AI-decision and
    production requests makes one negative. *)
Theorem C4_ships_never_negative (Math_sqrt : Q → Q) (w : World.t) (rs : list Request) :
  ships_nonneg w →
  (∀ (p : Planet.t) (amount : Z),
     Planet.ships p < amount → Planet.removeShips amount p = (false, p))
  ∧ (∀ sh s t src tgt,
       World.planets w !! s = Some src → World.planets w !! t = Some tgt →
       Planet.ships src
       < InputManager.calculateAttackCost Math_sqrt (Planet.x src) (Planet.y src)
           (Planet.x tgt) (Planet.y tgt) (Some src) →
       let res := InputManager.attack Math_sqrt sh s t w in
       res.1 = false
       ∧ Planet.ships <$> World.planets res.2 = Planet.ships <$> World.planets w
       ∧ planet_record <$> World.planets res.2 = planet_record <$> World.planets w
       ∧ (∀ i, i ≠ s → World.planets res.2 !! i = World.planets w !! i)
       ∧ World.defenses res.2 = World.defenses w
       ∧ World.store res.2 = World.store w
       ∧ projectiles res.2 = projectiles w)
  ∧ ships_nonneg (requests_run Math_sqrt rs w).
Proof.
  intros H. split; [intros p amount; apply removeShips_fail|]. split.
  - intros sh s t src tgt Hs Ht Hlt. cbn zeta. unfold InputManager.attack. rewrite Hs, Ht.
    destruct (Z.ltb_spec (Planet.ships src)
                (InputManager.calculateAttackCost Math_sqrt (Planet.x src) (Planet.y src)
                   (Planet.x tgt) (Planet.y tgt) (Some src))); [|lia].
    cbn [fst snd]. split; [done|]. split; [apply shake_ships|].
    split; [apply shake_records|]. split; [intros i Hi; by apply shake_others|].
    destruct (shake_form s 5 (3 # 10) sh w) as (nx & ny & waiting & ->). done.
  - by apply requests_run_nonneg.
Qed.

(** Scenario B, and a run of requests: with 4 ships and a cost of 5 the
    attack is refused and the ship counts stay 4 and 10. *)
Lemma C4_witness :
  ships_nonneg (duel 4 0)
  ∧ (InputManager.attack isqrt still_clock 0 1 (duel 4 0)).1 = false
  ∧ Planet.ships <$> World.planets (InputManager.attack isqrt still_clock 0 1 (duel 4 0)).2
    = [4; 10]
  ∧ ships_nonneg
      (requests_run isqrt
         [PlayerAttack still_clock 0 1; Produce; AIAttack 1 0; PlayerDefend still_clock 0;
          PlayerAttack still_clock 0 1; AIDecision 5000 (λ _, 0%Q); PlayerAttackSun 0 9000]
         (duel 4 0)).
Proof.
  assert (H : ships_nonneg (duel 4 0)).
  { repeat constructor; vm_compute; discriminate. }
  destruct (C4_ships_never_negative isqrt (duel 4 0)
              [PlayerAttack still_clock 0 1; Produce; AIAttack 1 0; PlayerDefend still_clock 0;
               PlayerAttack still_clock 0 1; AIDecision 5000 (λ _, 0%Q); PlayerAttackSun 0 9000]
              H)
    as (_ & Hatk & Hrun).
  split; [exact H|].
  destruct (Hatk still_clock 0%nat 1%nat _ _ eq_refl eq_refl) as (Hres & Hships & _);
    [by vm_compute|].
  split; [exact Hres|]. split; [by rewrite Hships|exact Hrun].
Defined.

Example scenario_B :
  InputManager.calculateAttackCost isqrt 0 0 0 0
    (Some (Planet.mk 0 player standard 4 0 0 None)) = 5
  ∧ Planet.removeShips 5 (Planet.mk 0 player standard 4 0 0 None)
    = (false, Planet.mk 0 player standard 4 0 0 None)
  ∧ (λ w, map Planet.ships (World.planets w))
      (requests_run isqrt
         [Produce; PlayerAttack still_clock 0 1; PlayerDefend still_clock 0] (duel 4 0))
    = [0; 12].
Proof. by vm_compute. Qed.

(** ** Combat resolution *)

(** C5. When a projectile resolves against its nearest planet, within the
    hit radius, and that planet has an active Defense and an owner that is
    neither neutral nor the projectile's, then the Defense unit becomes
    inactive and the planet's slot is emptied, and nothing else changes:
    every planet keeps its owner, ship count, type and position, no
    ownership change is scheduled, the conquest counter and the rest of the
    store, the planet-lost notifications, the Sun, the projectiles and the
    other Defense units are as before. *)
Theorem C5_defense_blocks (tr : Triangle.t) (w : World.t) (target : nat) (d2 : Q)
        (p : Planet.t) (d : ref) (dt : DefenseTriangle.t) :
  CombatSystem.closestPlanet tr (World.indexed w) = (Some target, Some d2) →
  (d2 < 50 * 50)%Q →
  World.planets w !! target = Some p →
  Planet.defenseTriangle p = Some d →
  World.defenses w !! d = Some dt →
  DefenseTriangle.isActive dt = true →
  Planet.owner p ≠ neutral →
  Planet.owner p ≠ Triangle.owner tr →
  let w' := CombatSystem.resolveAttack tr w in
  (DefenseTriangle.isActive <$> World.defenses w' !! d) = Some false
  ∧ (∀ e, e ≠ d → World.defenses w' !! e = World.defenses w !! e)
  ∧ World.planets w' = <[target := Planet.set_defense None p]> (World.planets w)
  ∧ Planet.hasDefense (World.defenses w') (Planet.set_defense None p) = false
  ∧ Planet.owner <$> World.planets w' = Planet.owner <$> World.planets w
  ∧ Planet.ships <$> World.planets w' = Planet.ships <$> World.planets w
  ∧ Planet.type <$> World.planets w' = Planet.type <$> World.planets w
  ∧ World.pendingOwner w' = World.pendingOwner w
  ∧ World.store w' = World.store w
  ∧ World.planetLostAlerts w' = World.planetLostAlerts w
  ∧ World.sun w' = World.sun w
  ∧ World.triangles w' = World.triangles w
  ∧ World.trianglePool w' = World.trianglePool w.
Proof.
  intros Hclosest Hd2 Hp Hd Hdt Hact Hneutral Howner w'.
  assert (Hw' : w' = World.set_planets
                       (<[target := Planet.set_defense None p]> (World.planets w))
                       (World.set_defenses
                          (alter DefenseTriangle.consume d (World.defenses w)) w)).
  { subst w'. unfold CombatSystem.resolveAttack. rewrite Hclosest.
    apply Qltb_lt in Hd2. rewrite Hd2, Hp.
    rewrite decide_False by done.
    unfold Planet.hasDefense, Planet.consumeDefense. rewrite Hd. cbn beta iota.
    rewrite Hdt. cbn [fmap option_fmap option_map default].
    rewrite Hact. rewrite bool_decide_eq_false_2 by done. done. }
  rewrite Hw'. cbn.
  assert (Hins : ∀ {B} (f : Planet.t → B),
             f (Planet.set_defense None p) = f p →
             f <$> <[target := Planet.set_defense None p]> (World.planets w)
             = f <$> World.planets w).
  { intros B f Hf. rewrite list_fmap_insert, Hf.
    apply list_insert_id. by rewrite list_lookup_fmap, Hp. }
  split; [by rewrite list_lookup_alter_eq, Hdt|].
  split; [intros e He; by apply list_lookup_alter_ne|].
  repeat split; by apply Hins.
Qed.

(** Scenario C: the player's projectile arrives on the AI's defended
    planet. *)
Lemma C5_witness :
  let w' := CombatSystem.resolveAttack scenario_C_triangle scenario_C_world in
  (DefenseTriangle.isActive <$> World.defenses scenario_C_world !! 0%nat) = Some true
  ∧ (DefenseTriangle.isActive <$> World.defenses w' !! 0%nat) = Some false
  ∧ Planet.owner <$> World.planets w' = [player; ai]
  ∧ Planet.ships <$> World.planets w' = [2; 5]
  ∧ World.pendingOwner w' = []
  ∧ Store.planetsConquered (World.store w') = 0
  ∧ World.planetLostAlerts w' = 0%nat.
Proof.
  pose proof (C5_defense_blocks scenario_C_triangle scenario_C_world 1%nat 0%Q
                (Planet.mk 1 ai generator 5 300 0 (Some 0%nat)) 0%nat
                (DefenseTriangle.create ai)
                eq_refl eq_refl eq_refl eq_refl eq_refl eq_refl
                ltac:(discriminate) ltac:(discriminate))
    as (H1 & _ & _ & _ & H5 & H6 & _ & H8 & H9 & H10 & _).
  cbn zeta. split; [reflexivity|]. split; [exact H1|].
  split; [rewrite H5; reflexivity|]. split; [rewrite H6; reflexivity|].
  split; [rewrite H8; reflexivity|]. split; [rewrite H9; reflexivity|].
  rewrite H10; reflexivity.
Defined.

(** Without a Defense the same arrival is a conquest: the ownership
    change is queued with the colour transition and takes effect when its
    callback runs; the ship count of the planet is not touched. *)
Example conquest_completes :
  let w := frames 3 player_projectile_arriving in
  World.pendingOwner w = [(1%nat, player)]
  ∧ Store.planetsConquered (World.store w) = 1
  ∧ Planet.owner <$> World.planets w = [player; ai]
  ∧ Planet.owner <$> World.planets (Main.runOwnerCallbacks 1 w) = [player; player]
  ∧ Planet.ships <$> World.planets (Main.runOwnerCallbacks 1 w) = [2; 10].
Proof. by vm_compute. Qed.

(** ** The Sun economy: cooldown and overcharge *)

Lemma economy_run_snoc es e s :
  economy_run (es ++ [e]) s = economy_step (economy_run es s) e.
Proof. unfold economy_run. by rewrite foldl_app. Qed.

Lemma last_attack_snoc f es e :
  last_attack f (es ++ [e])
  = match e with
    | Register o now => if decide (o = f) then Some now else last_attack f es
    | Decay _ => last_attack f es
    end.
Proof. unfold last_attack. by rewrite foldl_app. Qed.

(** The store remembers, per faction, the clock of its latest attack. *)
Lemma last_times es :
  Forall event_ok es →
  let s := economy_run es Store.initial in
  Store.lastSunAttackTime s = default 0 (last_attack player es)
  ∧ Store.lastSunAIAttackTime s = default 0 (last_attack ai es)
  ∧ (∀ f t, last_attack f es = Some t → 0 < t).
Proof.
  induction es as [|e es IH] using rev_ind; intros Hok; [done|].
  apply Forall_app in Hok as [Hes He]. rewrite Forall_singleton in He.
  destruct (IH Hes) as (IHp & IHa & IHpos). cbn zeta.
  rewrite economy_run_snoc, !last_attack_snoc.
  destruct e as [o now|delta]; cbn [economy_step].
  - cbn in He. destruct He as [Hneutral Hnow].
    destruct o; [| |done]; unfold Store.registerSunAttack; cbn.
    + split; [done|]. split; [done|]. intros f t. rewrite last_attack_snoc.
      destruct (decide (player = f)); [by intros [= <-]|apply IHpos].
    + split; [done|]. split; [done|]. intros f t. rewrite last_attack_snoc.
      destruct (decide (ai = f)); [by intros [= <-]|apply IHpos].
  - split; [done|]. split; [done|]. intros f t. rewrite last_attack_snoc. apply IHpos.
Qed.

Lemma timeSinceLastAttack_trace es f now :
  Forall event_ok es → f ≠ neutral →
  Store.timeSinceLastAttack f now (economy_run es Store.initial)
  = (λ t, (inject_Z (now - t) / 1000)%Q) <$> last_attack f es.
Proof.
  intros Hok Hf. destruct (last_times es Hok) as (Hp & Ha & Hpos).
  unfold Store.timeSinceLastAttack.
  destruct f; [| |done].
  - rewrite decide_True by done. rewrite Hp.
    destruct (last_attack player es) as [t|] eqn:E; cbn; [|done].
    pose proof (Hpos player t E). by destruct (Z.ltb_spec 0 t); [|lia].
  - rewrite decide_False by done. rewrite decide_True by done. rewrite Ha.
    destruct (last_attack ai es) as [t|] eqn:E; cbn; [|done].
    pose proof (Hpos ai t E). by destruct (Z.ltb_spec 0 t); [|lia].
Qed.

Lemma registerSunAttack_overcharge f now s :
  Store.sunOvercharge (Store.registerSunAttack f now s)
  = match Store.timeSinceLastAttack f now s with
    | Some d => if Qltb d 5
                then (Store.sunOvercharge s + GameConfig.SUN_OVERCHARGE_MULTIPLIER)%Q
                else Store.sunOvercharge s
    | None => Store.sunOvercharge s
    end.
Proof. unfold Store.registerSunAttack. by destruct (decide (f = player)). Qed.

Lemma registerSunAttack_cooldown f now s :
  f ≠ neutral →
  cooldownOf f (Store.registerSunAttack f now s) = GameConfig.SUN_ATTACK_COOLDOWN
  ∧ cooldownOf (opponent f) (Store.registerSunAttack f now s) = cooldownOf (opponent f) s.
Proof. intros Hf. by destruct f. Qed.

Lemma Qmax0_nonneg q : (0 <= Qmax 0 q)%Q.
Proof. apply Q.le_max_l. Qed.

Lemma Qdiv60 (x : Q) : (x / 60 == x * (1 # 60))%Q.
Proof. reflexivity. Qed.

(** Case analysis on every [Qmax] of the goal, then linear arithmetic. *)
Ltac qmax_cases :=
  rewrite ?Qdiv60;
  repeat match goal with
    | |- context [Qmax ?a ?b] =>
        let H := fresh "Hm" in
        let E := fresh "Em" in
        destruct (Q.max_spec a b) as [[H E]|[H E]]; rewrite E
    end;
  try lra.

Lemma overcharge_nonneg es s :
  (0 <= Store.sunOvercharge s)%Q → (0 <= Store.sunOvercharge (economy_run es s))%Q.
Proof.
  revert s. induction es as [|e es IH]; intros s Hs; [done|].
  cbn. apply IH. destruct e as [o now|delta]; cbn.
  - rewrite registerSunAttack_overcharge.
    destruct (Store.timeSinceLastAttack o now s) as [d|]; [|done].
    destruct (Qltb d 5); [|done].
    unfold GameConfig.SUN_OVERCHARGE_MULTIPLIER. lra.
  - apply Qmax0_nonneg.
Qed.

Lemma Qmax0_le a x : (0 <= a)%Q → (0 <= x)%Q → (Qmax 0 (a - x) <= a)%Q.
Proof. intros Ha Hx. qmax_cases. Qed.

(** Frames of non-negative length never raise the overcharge, and never
    take it below 0. *)
Lemma decay_frames deltas : ∀ s,
  Forall (λ d, 0 <= d)%Q deltas → (0 <= Store.sunOvercharge s)%Q →
  (0 <= Store.sunOvercharge (economy_run (map Decay deltas) s))%Q
  ∧ (Store.sunOvercharge (economy_run (map Decay deltas) s) <= Store.sunOvercharge s)%Q.
Proof.
  unfold economy_run.
  induction deltas as [|d ds IH]; intros s Hds Hs.
  - cbn [map foldl]. lra.
  - apply Forall_cons in Hds as [Hd Hds]. cbn [map foldl economy_step].
    destruct (IH (Store.updateSunCooldown d s) Hds) as [H0 Hle]; [apply Qmax0_nonneg|].
    split; [exact H0|]. eapply Qle_trans; [exact Hle|].
    cbn [Store.updateSunCooldown Store.sunOvercharge Store.set_economy].
    apply Qmax0_le; [done|].
    unfold GameConfig.SUN_OVERCHARGE_DECAY. rewrite Qdiv60. lra.
Qed.

(** C8. In any history of registered Sun attacks (by the two factions, at
    positive clock values) and frames, [registerSunAttack f] sets the
    cooldown of [f] to [SUN_ATTACK_COOLDOWN] and leaves the other
    faction's cooldown alone; it raises the shared overcharge by exactly
    [SUN_OVERCHARGE_MULTIPLIER] if and only if [f] has attacked the Sun
    before and less than 5 seconds have passed since then, and leaves it
    unchanged otherwise.  The overcharge is never negative and one frame
    never takes it below 0.  A frame of [delta] ticks lowers it by
    [SUN_OVERCHARGE_DECAY * (delta / 60)], that is by
    [SUN_OVERCHARGE_DECAY] for a frame of 60 ticks (one second), stopping
    at 0; and over any frames of non-negative length it never rises and
    never goes below 0.  The statements relate the overcharge after one
    call to the overcharge before it: what many frames add up to depends
    on the rounding of each subtraction and is not stated. *)
Theorem C8_sun_economy (es : list EconomyEvent) (f : Owner) (now : Z) (deltas : list Q) :
  Forall event_ok es → f ≠ neutral → Forall (λ d, 0 <= d)%Q deltas →
  let s := economy_run es Store.initial in
  let s' := Store.registerSunAttack f now s in
  cooldownOf f s' = GameConfig.SUN_ATTACK_COOLDOWN
  ∧ cooldownOf (opponent f) s' = cooldownOf (opponent f) s
  ∧ (rapid f es now →
     Store.sunOvercharge s'
     = (Store.sunOvercharge s + GameConfig.SUN_OVERCHARGE_MULTIPLIER)%Q)
  ∧ (¬ rapid f es now → Store.sunOvercharge s' = Store.sunOvercharge s)
  ∧ ((Store.sunOvercharge s'
      == Store.sunOvercharge s + GameConfig.SUN_OVERCHARGE_MULTIPLIER)%Q
     ↔ rapid f es now)
  ∧ (0 <= Store.sunOvercharge s)%Q
  ∧ (∀ delta, 0 <= Store.sunOvercharge (Store.updateSunCooldown delta s))%Q
  ∧ (∀ delta,
       Store.sunOvercharge (Store.updateSunCooldown delta s)
       = Qmax 0 (Store.sunOvercharge s - GameConfig.SUN_OVERCHARGE_DECAY * (delta / 60)))
  ∧ (Store.sunOvercharge (Store.updateSunCooldown 60 s)
     == Qmax 0 (Store.sunOvercharge s - GameConfig.SUN_OVERCHARGE_DECAY))%Q
  ∧ (0 <= Store.sunOvercharge (economy_run (map Decay deltas) s))%Q
  ∧ (Store.sunOvercharge (economy_run (map Decay deltas) s) <= Store.sunOvercharge s)%Q.
Proof.
  intros Hok Hf Hdeltas s s'.
  assert (Hs : (0 <= Store.sunOvercharge s)%Q) by (by apply overcharge_nonneg).
  assert (Hov : Store.sunOvercharge s'
                = match last_attack f es with
                  | Some t =>
                      if Qltb (inject_Z (now - t) / 1000) 5
                      then (Store.sunOvercharge s + GameConfig.SUN_OVERCHARGE_MULTIPLIER)%Q
                      else Store.sunOvercharge s
                  | None => Store.sunOvercharge s
                  end).
  { subst s'. rewrite registerSunAttack_overcharge. subst s.
    rewrite timeSinceLastAttack_trace by done. by destruct (last_attack f es). }
  destruct (registerSunAttack_cooldown f now s Hf) as [Hc1 Hc2].
  split; [exact Hc1|]. split; [exact Hc2|].
  assert (Hcases : (rapid f es now
                    ∧ Store.sunOvercharge s'
                      = (Store.sunOvercharge s + GameConfig.SUN_OVERCHARGE_MULTIPLIER)%Q)
                   ∨ (¬ rapid f es now ∧ Store.sunOvercharge s' = Store.sunOvercharge s)).
  { rewrite Hov. unfold rapid. destruct (last_attack f es) as [t|]; [|right; split; [tauto|reflexivity]].
    destruct (Qltb (inject_Z (now - t) / 1000) 5) eqn:E.
    - left. split; [by apply Qltb_lt|done].
    - right. split; [|done]. intros Hlt. apply Qltb_lt in Hlt. congruence. }
  split; [intros Hr; by destruct Hcases as [[_ ?]|[? _]]|].
  split; [intros Hr; by destruct Hcases as [[? _]|[_ ?]]|].
  split.
  { destruct Hcases as [[Hr E]|[Hr E]]; rewrite E.
    - split; [done|]. intros _. reflexivity.
    - split; [|done]. unfold GameConfig.SUN_OVERCHARGE_MULTIPLIER. intros Heq. lra. }
  split; [exact Hs|]. split; [intros delta; apply Qmax0_nonneg|].
  split; [done|]. split.
  { cbn [Store.updateSunCooldown Store.sunOvercharge Store.set_economy].
    assert (E : (GameConfig.SUN_OVERCHARGE_DECAY * (60 / 60)
                 == GameConfig.SUN_OVERCHARGE_DECAY)%Q) by reflexivity.
    by rewrite E. }
  by apply decay_frames.
Qed.

(** Scenario D: two Sun attacks of the player two seconds apart raise the
    overcharge from 0 to the multiplier; one second later it is 1.5, and
    ten seconds of frames bring it back to 0. *)
Lemma C8_witness :
  let es := [Register player 1000; Decay 120] in
  let s' := Store.registerSunAttack player 3000 (economy_run es Store.initial) in
  Store.sunAttackCooldown s' = 180%Q
  ∧ rapid player es 3000
  ∧ Store.sunOvercharge s' = (0 + 2)%Q
  ∧ (Store.sunOvercharge (Store.updateSunCooldown 60 s') == 3 # 2)%Q
  ∧ (Store.sunOvercharge (economy_run (map Decay [300; 300]%Q) s') <= Store.sunOvercharge s')%Q
  ∧ (Store.sunOvercharge (economy_run (map Decay [300; 300]%Q) s') == 0)%Q.
Proof.
  assert (Hok : Forall event_ok [Register player 1000; Decay 120]).
  { repeat constructor; done. }
  assert (Hok' : Forall event_ok [Register player 1000; Decay 120; Register player 3000]).
  { repeat constructor; done. }
  assert (Hd : Forall (λ d, 0 <= d)%Q [300; 300]%Q).
  { repeat constructor; by vm_compute. }
  destruct (C8_sun_economy [Register player 1000; Decay 120] player 3000
              [300; 300]%Q Hok ltac:(discriminate) Hd)
    as (H1 & _ & H3 & _).
  destruct (C8_sun_economy [Register player 1000; Decay 120; Register player 3000]
              player 9000 [300; 300]%Q Hok' ltac:(discriminate) Hd)
    as (_ & _ & _ & _ & _ & _ & _ & _ & H9 & _ & H11).
  assert (Hr : rapid player [Register player 1000; Decay 120] 3000) by (by vm_compute).
  cbn zeta. split; [exact H1|]. split; [exact Hr|]. split; [exact (H3 Hr)|].
  split; [rewrite H9; by vm_compute|]. split; [exact H11|]. by vm_compute.
Defined.

(** ** The end of the match *)

(** C9. When the countdown has reached 0 and nobody has captured the
    Sun, the win-condition check ends the match; it shows the victory
    screen exactly when the player owns strictly more planets than the AI,
    and the timer defeat otherwise, in particular on a tie. *)
Theorem C9_timer_tiebreak (w : World.t) :
  World.gameOver w = false →
  Store.sunOwner (World.store w) = None →
  Store.timer (World.store w) <= 0 →
  let r := GameManager.checkWinCondition w in
  r.1 = true
  ∧ World.gameOver r.2 = true
  ∧ (World.endScreen r.2 = Some Victory
     ↔ (GameManager.countOwned ai w < GameManager.countOwned player w)%nat)
  ∧ ((GameManager.countOwned player w <= GameManager.countOwned ai w)%nat →
     World.endScreen r.2 = Some (Defeat timer_out))
  ∧ (GameManager.countOwned player w = GameManager.countOwned ai w →
     World.endScreen r.2 = Some (Defeat timer_out)).
Proof.
  intros Hover Hsun Htimer. unfold GameManager.checkWinCondition.
  rewrite Hover, Hsun. rewrite !decide_False by done.
  destruct (Z.leb_spec (Store.timer (World.store w)) 0) as [_|]; [|lia].
  destruct (Nat.ltb_spec (GameManager.countOwned ai w) (GameManager.countOwned player w))
    as [Hlt|Hge]; cbn.
  - repeat split; try done; intros; lia.
  - repeat split; try done; intros; lia.
Qed.

(** One planet each when the countdown ends: a defeat. *)
Lemma C9_witness :
  let r := GameManager.checkWinCondition (with_timer 0 (duel 10 300)) in
  GameManager.countOwned player (with_timer 0 (duel 10 300)) = 1%nat
  ∧ GameManager.countOwned ai (with_timer 0 (duel 10 300)) = 1%nat
  ∧ r.1 = true
  ∧ World.endScreen r.2 = Some (Defeat timer_out).
Proof.
  destruct (C9_timer_tiebreak (with_timer 0 (duel 10 300)) eq_refl eq_refl)
    as (H1 & _ & _ & _ & H5); [by vm_compute|].
  cbn zeta. split; [reflexivity|]. split; [reflexivity|]. split; [exact H1|].
  apply H5. reflexivity.
Defined.

(** With one planet more than the AI the player wins on time. *)
Example timer_victory :
  let w := with_timer 0 (four_planets classic) in
  World.endScreen (GameManager.checkWinCondition w).2 = Some Victory.
Proof. by vm_compute. Qed.

(** ** The majority threshold *)

Lemma getMajorityThreshold_used mode :
  GameConfig.getMajorityThreshold mode = thresholdUsed mode.
Proof. by destruct mode. Qed.

Lemma pool_acquire_store w : World.store (World.pool_acquire w).2 = World.store w.
Proof.
  unfold World.pool_acquire. by destruct (ObjectPool.acquire _ _) as [r st].
Qed.

Lemma ai_launch_economy sx sy tx ty m w :
  sunEconomy (World.store (AISystem.launch sx sy tx ty m w)) = sunEconomy (World.store w).
Proof.
  unfold AISystem.launch. pose proof (pool_acquire_store w) as H.
  destruct (World.pool_acquire w) as [[tr|] w1]; cbn in *; by rewrite H.
Qed.

Lemma ai_attackPlanet_economy Math_sqrt s t w :
  sunEconomy (World.store (AISystem.attackPlanet Math_sqrt s t w)) = sunEconomy (World.store w).
Proof.
  unfold AISystem.attackPlanet.
  destruct (World.planets w !! s) as [src|]; [|done].
  destruct (World.planets w !! t) as [tgt|]; [|done].
  destruct (_ <? _); [done|]. by rewrite ai_launch_economy.
Qed.

Lemma ai_defend_economy pl w :
  sunEconomy (World.store (AISystem.defendPlanet pl w)) = sunEconomy (World.store w).
Proof.
  unfold AISystem.defendPlanet.
  destruct (World.planets w !! pl) as [p|]; [|done].
  by destruct (_ || _).
Qed.

Lemma tryAttack_economy Math_sqrt aiPlanets target w :
  sunEconomy (World.store (default w (AISystem.tryAttack Math_sqrt aiPlanets target w)))
  = sunEconomy (World.store w).
Proof.
  unfold AISystem.tryAttack. destruct target as [tgt|]; [|done].
  destruct (AISystem.findBestPlanetForAttack _ _ _) as [source|]; [|done].
  cbn. apply ai_attackPlanet_economy.
Qed.

Lemma tryAttack_economy_Some Math_sqrt aiPlanets target w w' :
  AISystem.tryAttack Math_sqrt aiPlanets target w = Some w' →
  sunEconomy (World.store w') = sunEconomy (World.store w).
Proof.
  intros E. pose proof (tryAttack_economy Math_sqrt aiPlanets target w) as H.
  by rewrite E in H.
Qed.

(** Below the threshold the AI's decision never registers a Sun attack. *)
Lemma makeDecision_below_threshold Math_sqrt now rand w :
  Z.of_nat (length (World.owned_by ai w))
  < thresholdUsed (Store.gameMode (World.store w)) →
  sunEconomy (World.store (AISystem.makeDecision Math_sqrt now rand w))
  = sunEconomy (World.store w).
Proof.
  intros Hlt. unfold AISystem.makeDecision. cbn zeta.
  destruct (decide _); [done|].
  match goal with |- sunEconomy (World.store (match ?s with _ => _ end)) = _ =>
    destruct s end; [apply ai_defend_economy|].
  rewrite getMajorityThreshold_used.
  destruct (Z.leb_spec (thresholdUsed (Store.gameMode (World.store w)))
              (Z.of_nat (length (World.owned_by ai w)))) as [|_]; [lia|].
  cbn [andb].
  destruct (World.aiStrategy w).
  - destruct (AISystem.tryAttack _ _ _ _) as [w'|] eqn:E;
      [by eapply tryAttack_economy_Some|apply tryAttack_economy].
  - match goal with |- sunEconomy (World.store (match ?s with _ => _ end)) = _ =>
      destruct s eqn:E end.
    + destruct (_ <=? _)%nat; [|done]. by eapply tryAttack_economy_Some.
    + destruct (decide _); apply tryAttack_economy.
  - match goal with |- sunEconomy (World.store (match ?s with _ => _ end)) = _ =>
      destruct s eqn:E end.
    + destruct (_ <=? _)%nat; [|done]. by eapply tryAttack_economy_Some.
    + apply tryAttack_economy.
Qed.

(** With four planets the player may attack the Sun in 'quick' mode only:
    in 'timeattack' the Sun is not flagged attackable and a click on it
    changes nothing, in 'quick' the click launches a projectile. *)
Example four_planets_gate :
  Sun.isAttackable (World.sun (InputManager.update (four_planets timeattack))) = false
  ∧ Sun.isAttackable (World.sun (InputManager.update (four_planets classic))) = false
  ∧ Sun.isAttackable (World.sun (InputManager.update (four_planets quick))) = true
  ∧ InputManager.handleSunClick isqrt 1000 (four_planets timeattack)
    = four_planets timeattack
  ∧ World.playerTriangles (InputManager.handleSunClick isqrt 1000 (four_planets quick))
    = [0%nat].
Proof. by vm_compute. Qed.

(** ** Projectiles and the frame loop *)

(** The projectile loop of [AISystem.update] flags an arriving projectile
    as reached and answers "splice it", and the pool is not told. *)
Lemma AI_update_drops_reached Math_sqrt delta r w tr :
  World.triangles w !! r = Some tr →
  Triangle.hasReached tr = false → Triangle.active tr = true →
  (dist2 (Triangle.x tr) (Triangle.y tr) (Triangle.targetX tr) (Triangle.targetY tr) < 25)%Q →
  let res := AISystem.update_body Math_sqrt delta r w in
  res.1 = true
  ∧ World.triangles res.2 !! r = Some (Triangle.set_reached tr)
  ∧ World.trianglePool res.2 = World.trianglePool w
  ∧ World.planets res.2 = World.planets w
  ∧ World.pendingOwner res.2 = World.pendingOwner w.
Proof.
  intros Hr Hreached Hactive Hnear. unfold AISystem.update_body. cbn.
  rewrite list_lookup_alter_eq, Hr. cbn.
  assert (E : Triangle.update Math_sqrt delta tr = Triangle.set_reached tr).
  { unfold Triangle.update. rewrite Hreached, Hactive. cbn.
    apply Qltb_lt in Hnear. unfold dist2 in Hnear. by rewrite Hnear. }
  rewrite E. done.
Qed.

(** C3 (the code departs from it). An AI projectile that comes within the
    arrival distance during [AISystem.update] is flagged reached and
    spliced from the AI's list there, before the combat system and the
    clean-up pass look at that list: two frames later it is reached, on no
    list, its pool slot is still active (it is never released) and no
    attack on the planet has been resolved.  The player's projectile in the
    mirrored position, which only [updateTriangles] advances, is resolved
    and released in the frame in which it arrives. *)
Theorem C3_ai_projectile_leaks :
  let w := frames 2 ai_projectile_arriving in
  World.aiTriangles ai_projectile_arriving = [0%nat]
  ∧ projectile_status ai_projectile_arriving = (Some (false, true), true, 1%nat)
  ∧ World.aiTriangles w = [] ∧ World.playerTriangles w = []
  ∧ projectile_status w = (Some (true, true), true, 1%nat)
  ∧ World.pendingOwner w = []
  ∧ projectile_status (frames 3 ai_projectile_arriving) = (Some (true, true), true, 1%nat)
  ∧ (let w' := frames 3 player_projectile_arriving in
     World.playerTriangles w' = []
     ∧ projectile_status w' = (Some (true, false), false, 0%nat)
     ∧ World.pendingOwner w' = [(1%nat, player)]).
Proof. by vm_compute. Qed.

(** *** The frame boundary

    The part of the projectile discipline that does hold: whatever the
    earlier phases did, the clean-up passes that end a frame leave no
    reached projectile on either list. *)

Lemma pool_release_triangles r w :
  World.triangles (World.pool_release r w) = World.triangles w
  ∨ World.triangles (World.pool_release r w) = alter Triangle.reset r (World.triangles w).
Proof.
  unfold World.pool_release, ObjectPool.release. cbn.
  destruct (indexOf _ _); [|by left].
  destruct (negb _); [by left|by right].
Qed.

Lemma pool_release_lists r w :
  World.playerTriangles (World.pool_release r w) = World.playerTriangles w
  ∧ World.aiTriangles (World.pool_release r w) = World.aiTriangles w.
Proof. done. Qed.

(** A clean-up step touches projectile [r] only, and only when it is
    reached; a projectile that is not reached stays as it is. *)
Lemma cleanup_body_unreached r w x :
  (∀ t, World.triangles w !! x = Some t → Triangle.hasReached t = false) →
  ∀ t, World.triangles (Main.cleanup_body r w).2 !! x = Some t →
       Triangle.hasReached t = false.
Proof.
  intros Hx t. unfold Main.cleanup_body.
  destruct (World.triangles w !! r) as [tr|] eqn:Er; [|apply Hx].
  destruct (Triangle.hasReached tr) eqn:Ereached; [|apply Hx].
  cbn [snd]. destruct (decide (x = r)) as [->|Hne].
  - specialize (Hx tr Er). congruence.
  - destruct (pool_release_triangles r
                (World.set_triangles
                   (alter (Triangle.set_onStage false) r (World.triangles w)) w)) as [E|E];
      rewrite E; cbn; rewrite ?list_lookup_alter_ne by done; apply Hx.
Qed.

Lemma cleanup_body_kept r w :
  (Main.cleanup_body r w).1 = false →
  (Main.cleanup_body r w).2 = w
  ∧ ∀ t, World.triangles w !! r = Some t → Triangle.hasReached t = false.
Proof.
  unfold Main.cleanup_body.
  destruct (World.triangles w !! r) as [tr|] eqn:Er; [|done].
  destruct (Triangle.hasReached tr) eqn:Ereached; [done|].
  intros _. split; [done|]. by intros t [= <-].
Qed.

Lemma cleanup_body_lists r w :
  World.playerTriangles (Main.cleanup_body r w).2 = World.playerTriangles w
  ∧ World.aiTriangles (Main.cleanup_body r w).2 = World.aiTriangles w.
Proof.
  unfold Main.cleanup_body.
  destruct (World.triangles w !! r) as [tr|]; [|done].
  by destruct (Triangle.hasReached tr).
Qed.

Lemma cleanup_loop l : ∀ w,
  let res := loop_down Main.cleanup_body l w in
  none_reached res.1 res.2
  ∧ (∀ x, (∀ t, World.triangles w !! x = Some t → Triangle.hasReached t = false) →
          ∀ t, World.triangles res.2 !! x = Some t → Triangle.hasReached t = false)
  ∧ World.playerTriangles res.2 = World.playerTriangles w
  ∧ World.aiTriangles res.2 = World.aiTriangles w.
Proof.
  induction l as [|r rest IH]; intros w; cbn.
  - split; [by intros r t Hr%elem_of_nil|]. done.
  - specialize (IH w). cbn zeta in IH.
    destruct (loop_down Main.cleanup_body rest w) as [rest' w1].
    destruct IH as (Hclean & Hkeep & Hp & Ha). cbn [fst snd] in *.
    pose proof (cleanup_body_unreached r w1) as Hstep.
    pose proof (cleanup_body_kept r w1) as Hkept.
    pose proof (cleanup_body_lists r w1) as [Hp2 Ha2].
    destruct (Main.cleanup_body r w1) as [remove w2]. cbn [fst snd] in *.
    split; [|split; [|split; congruence]].
    + intros x t Hx. apply Hstep.
      destruct remove.
      * intros t'. by apply Hclean.
      * destruct (Hkept eq_refl) as [-> Hr].
        apply elem_of_cons in Hx as [->|Hx]; [exact Hr|].
        intros t'. by apply Hclean.
    + intros x Hx. apply Hstep. by apply Hkeep.
Qed.

Lemma cleanup_passes w :
  let w' := Main.cleanupReachedTriangles false (Main.cleanupReachedTriangles true w) in
  none_reached (World.playerTriangles w') w' ∧ none_reached (World.aiTriangles w') w'.
Proof.
  unfold Main.cleanupReachedTriangles.
  pose proof (cleanup_loop (World.playerTriangles w) w) as H1. cbn zeta in H1.
  destruct (loop_down Main.cleanup_body (World.playerTriangles w) w) as [keptP w1].
  destruct H1 as (Hclean1 & _ & _ & Ha1). cbn [fst snd] in *.
  pose proof (cleanup_loop (World.aiTriangles (World.set_playerTriangles keptP w1))
                (World.set_playerTriangles keptP w1)) as H2. cbn zeta in H2.
  destruct (loop_down Main.cleanup_body
              (World.aiTriangles (World.set_playerTriangles keptP w1))
              (World.set_playerTriangles keptP w1)) as [keptA w2].
  destruct H2 as (Hclean2 & Hkeep2 & Hp2 & _). cbn [fst snd] in *.
  split.
  - intros r t Hr. cbn in Hr. rewrite Hp2 in Hr. cbn in Hr.
    cbn [World.triangles World.set_aiTriangles]. apply Hkeep2.
    intros t'. by apply Hclean1.
  - intros r t Hr. cbn in Hr. cbn [World.triangles World.set_aiTriangles].
    by apply Hclean2.
Qed.

(** Every frame of a running match ends with no reached projectile on the
    player's or on the AI's list. *)
Theorem frame_boundary_clean (Math_sqrt : Q → Q) (delta : Q) (now : Z)
        (rand : nat → Q) (w : World.t) :
  (GameManager.checkWinCondition w).1 = false →
  let w' := Main.tick Math_sqrt delta now rand w in
  none_reached (World.playerTriangles w') w' ∧ none_reached (World.aiTriangles w') w'.
Proof.
  intros Hplaying. unfold Main.tick.
  destruct (GameManager.checkWinCondition w) as [over w0]. cbn in Hplaying. subst over.
  destruct (Sun.update _) as [s g]. apply cleanup_passes.
Qed.

(** The frame in which the player's projectile arrives. *)
Lemma frame_boundary_clean_witness :
  let w' := Main.tick isqrt 1 0 (λ _, 0%Q) (frames 2 player_projectile_arriving) in
  World.playerTriangles (frames 2 player_projectile_arriving) = [0%nat]
  ∧ World.playerTriangles w' = []
  ∧ none_reached (World.playerTriangles w') w' ∧ none_reached (World.aiTriangles w') w'.
Proof.
  split; [by vm_compute|]. split; [by vm_compute|].
  apply (frame_boundary_clean isqrt 1 0 (λ _, 0%Q) (frames 2 player_projectile_arriving)).
  by vm_compute.
Defined.

(** * Further properties of the code *)

(** ** The object pool: construction, hand-out, return, clearing *)

Lemma create_loop_spec {T} (factory : T) size : ∀ heap p,
  ObjectPool.create_loop factory size (heap, p)
  = (heap ++ replicate size factory,
     ObjectPool.mk (ObjectPool.pool p ++ seq (length heap) size)
                   (ObjectPool.active p ++ replicate size false)).
Proof.
  induction size as [|k IH]; intros heap p; cbn [ObjectPool.create_loop].
  - cbn. rewrite !app_nil_r. by destruct p.
  - rewrite IH. cbn [ObjectPool.pool ObjectPool.active].
    rewrite length_app. cbn [length]. rewrite Nat.add_1_r.
    rewrite <- !app_assoc. done.
Qed.

Lemma count_active_replicate_false n : count_active (replicate n false) = 0%nat.
Proof.
  unfold count_active. induction n as [|n IH]; [done|].
  cbn. by rewrite decide_False.
Qed.

Lemma count_active_app l k : count_active (l ++ k) = (count_active l + count_active k)%nat.
Proof. unfold count_active. by rewrite filter_app, length_app. Qed.

Lemma count_active_insert (l : list bool) (i : nat) (b b' : bool) :
  l !! i = Some b →
  (count_active (<[i:=b']> l) + (if b then 1 else 0)
   = count_active l + (if b' then 1 else 0))%nat.
Proof.
  revert i. induction l as [|x l IH]; intros i Hi; [done|].
  destruct i as [|i]; cbn in Hi.
  - injection Hi as ->. unfold count_active. cbn.
    destruct b, b'; repeat case_decide; try congruence; cbn; lia.
  - specialize (IH i Hi). unfold count_active in *. cbn.
    destruct x; repeat case_decide; try congruence; cbn; [f_equal|]; exact IH.
Qed.

Lemma js_truthy_lookup (l : list bool) i b :
  l !! i = Some b → js_truthy l i = b.
Proof. unfold js_truthy. by intros ->. Qed.

Lemma js_falsy_lookup (l : list bool) i :
  (i < length l)%nat → js_truthy l i = false → l !! i = Some false.
Proof.
  intros Hi. unfold js_truthy. destruct (lookup_lt_is_Some_2 l i Hi) as [b ->].
  cbn. by intros ->.
Qed.

Lemma js_set_insert (l : list bool) i v :
  (i < length l)%nat → js_set l i v = <[i:=v]> l.
Proof. intros H. unfold js_set. by rewrite decide_True. Qed.

(** X2. The constructor builds exactly [size] slots, all inactive, over
    [size] freshly built, pairwise distinct objects appended to the store,
    and leaves the objects that were already there alone. *)
Theorem ObjectPool_create_fresh {T : Type} (factory : T) (size : nat) (heap : list T) :
  let st := ObjectPool.create factory size heap in
  pool_wf st
  ∧ ObjectPool.getSize st.2 = size
  ∧ ObjectPool.getActiveCount st.2 = 0%nat
  ∧ st.1 = heap ++ replicate size factory
  ∧ ObjectPool.pool st.2 = seq (length heap) size
  ∧ (∀ r, ¬ in_use st.2 r).
Proof.
  unfold ObjectPool.create. rewrite create_loop_spec. cbn.
  split; [|split; [|split; [|split; [done|split; [done|]]]]].
  - unfold pool_wf. cbn. rewrite length_replicate, length_seq.
    split; [done|]. split; [apply NoDup_seq|].
    apply Forall_forall. intros r Hr%elem_of_seq.
    rewrite length_app, length_replicate. lia.
  - unfold ObjectPool.getSize. cbn. apply length_seq.
  - apply count_active_replicate_false.
  - intros r (i & _ & Hi). cbn in Hi. unfold js_truthy in Hi.
    destruct (replicate size false !! i) as [b|] eqn:E; [|done].
    apply lookup_replicate in E as [-> _]. done.
Qed.

Lemma in_use_unique {T} (st : list T * ObjectPool.t) i r :
  pool_wf st → ObjectPool.pool st.2 !! i = Some r →
  in_use st.2 r ↔ js_truthy (ObjectPool.active st.2) i = true.
Proof.
  intros (_ & Hnd & _) Hi. split.
  - intros (j & Hj & Ht). by rewrite (NoDup_lookup _ i j r Hnd Hi Hj).
  - intros Ht. by exists i.
Qed.

Lemma acquire_wf_slot {T} (factory : T) (heap : list T) p i r :
  pool_wf (heap, p) →
  first_inactive (length (ObjectPool.pool p)) 0 (ObjectPool.active p) = Some i →
  ObjectPool.pool p !! i = Some r →
  let p' := ObjectPool.mk (ObjectPool.pool p) (js_set (ObjectPool.active p) i true) in
  ¬ in_use p r
  ∧ in_use p' r
  ∧ (∀ r', r' ≠ r → (in_use p' r' ↔ in_use p r'))
  ∧ ObjectPool.getActiveCount p' = S (ObjectPool.getActiveCount p)
  ∧ pool_wf (heap, p').
Proof.
  intros Hwf Hfirst Hr p'. pose proof Hwf as (Hlen & Hnd & Hheap). cbn in *.
  apply first_inactive_Some in Hfirst as ([_ Hi] & Hfalse & _). cbn in Hi.
  assert (Hia : (i < length (ObjectPool.active p))%nat) by lia.
  split; [|split; [|split; [|split]]].
  - rewrite (in_use_unique (heap, p) i r Hwf Hr). cbn. by rewrite Hfalse.
  - exists i. split; [done|]. apply js_truthy_set_true.
  - intros r' Hne. split; intros (j & Hj & Ht); exists j; (split; [done|]);
      assert (i ≠ j) by (intros ->; cbn in *; congruence); cbn in *.
    + by rewrite js_truthy_set_ne in Ht.
    + by rewrite js_truthy_set_ne.
  - unfold ObjectPool.getActiveCount. cbn. rewrite js_set_insert by done.
    pose proof (count_active_insert (ObjectPool.active p) i false true
                  (js_falsy_lookup _ _ Hia Hfalse)) as Hc. cbn in Hc.
    unfold count_active in *. lia.
  - unfold pool_wf. cbn. by rewrite js_set_length.
Qed.

Lemma acquire_wf_grow {T} (factory : T) (heap : list T) p :
  pool_wf (heap, p) →
  first_inactive (length (ObjectPool.pool p)) 0 (ObjectPool.active p) = None →
  let r := length heap in
  let p' := ObjectPool.mk (ObjectPool.pool p ++ [r]) (ObjectPool.active p ++ [true]) in
  ¬ in_use p r
  ∧ in_use p' r
  ∧ (∀ r', r' ≠ r → (in_use p' r' ↔ in_use p r'))
  ∧ ObjectPool.getActiveCount p' = S (ObjectPool.getActiveCount p)
  ∧ pool_wf (heap ++ [factory], p').
Proof.
  intros Hwf Hfirst r p'. pose proof Hwf as (Hlen & Hnd & Hheap). cbn in *.
  assert (Hfresh : r ∉ ObjectPool.pool p).
  { intros Hin. rewrite Forall_forall in Hheap. specialize (Hheap r Hin). subst r. lia. }
  split; [|split; [|split; [|split]]].
  - intros (j & Hj & _). apply Hfresh. by eapply list_elem_of_lookup_2.
  - exists (length (ObjectPool.pool p)). cbn. split.
    + by rewrite lookup_app_r, Nat.sub_diag.
    + unfold js_truthy. rewrite <- Hlen. by rewrite lookup_app_r, Nat.sub_diag.
  - intros r' Hne. split; intros (j & Hj & Ht); cbn in *.
    + destruct (decide (j < length (ObjectPool.pool p))%nat) as [Hlt|Hge].
      * exists j. rewrite lookup_app_l in Hj by done.
        unfold js_truthy in *. rewrite lookup_app_l in Ht by lia. done.
      * rewrite lookup_app_r in Hj by lia.
        destruct (j - length (ObjectPool.pool p))%nat; cbn in Hj; [congruence|done].
    + pose proof (lookup_lt_Some _ _ _ Hj) as Hlt. exists j. subst p'. cbn.
      rewrite lookup_app_l by done. split; [done|].
      unfold js_truthy in *. by rewrite lookup_app_l by lia.
  - unfold ObjectPool.getActiveCount. cbn. apply count_active_push.
  - unfold pool_wf. cbn. rewrite !length_app. cbn. split; [lia|]. split.
    + apply NoDup_app. split; [done|]. split; [|apply NoDup_singleton].
      intros x Hx Hx'%list_elem_of_singleton. by subst.
    + apply Forall_app. split.
      * eapply Forall_impl; [exact Hheap|]. intros x Hx. cbn in *. lia.
      * apply Forall_singleton. subst r. lia.
Qed.

Lemma acquire_wf {T : Type} (factory : T) (st : list T * ObjectPool.t) :
  pool_wf st →
  let res := ObjectPool.acquire factory st in
  ∃ r, res.1 = Some r
       ∧ ¬ in_use st.2 r
       ∧ in_use res.2.2 r
       ∧ (∀ r', r' ≠ r → (in_use res.2.2 r' ↔ in_use st.2 r'))
       ∧ ObjectPool.getActiveCount res.2.2 = S (ObjectPool.getActiveCount st.2)
       ∧ pool_wf res.2
       ∧ (∀ x, (x < length st.1)%nat → res.2.1 !! x = st.1 !! x).
Proof.
  destruct st as [heap p]. intros Hwf. unfold ObjectPool.acquire. cbn [fst snd].
  destruct (first_inactive _ _ _) as [i|] eqn:Hfirst.
  - pose proof Hfirst as ([_ Hi] & _)%first_inactive_Some. cbn in Hi.
    destruct (lookup_lt_is_Some_2 _ _ Hi) as [r Hr].
    exists r. rewrite Hr. cbn [fst snd].
    destruct (acquire_wf_slot factory heap p i r Hwf Hfirst Hr) as (H1 & H2 & H3 & H4 & H5).
    repeat (split; [done|]). done.
  - exists (length heap). cbn [fst snd].
    destruct (acquire_wf_grow factory heap p Hwf Hfirst) as (H1 & H2 & H3 & H4 & H5).
    repeat (split; [done|]). intros x Hx. by rewrite lookup_app_l.
Qed.


(** X3. On a well-formed pool, [acquire] hands out an object that was not
    in use, marks exactly that object in use, raises the active count by
    one, keeps the pool well formed and does not touch the objects already
    in the store. *)
Theorem ObjectPool_acquire_exclusive {T : Type} (factory : T) (st : list T * ObjectPool.t) :
  pool_wf st →
  let res := ObjectPool.acquire factory st in
  ∃ r, res.1 = Some r
       ∧ ¬ in_use st.2 r
       ∧ in_use res.2.2 r
       ∧ (∀ r', r' ≠ r → (in_use res.2.2 r' ↔ in_use st.2 r'))
       ∧ ObjectPool.getActiveCount res.2.2 = S (ObjectPool.getActiveCount st.2)
       ∧ pool_wf res.2
       ∧ (∀ x, (x < length st.1)%nat → res.2.1 !! x = st.1 !! x).
Proof. apply acquire_wf. Qed.

(** Two projectiles acquired in a row from the pool of a match are
    different objects. *)
Lemma ObjectPool_acquire_exclusive_witness :
  let st0 := ObjectPool.create Triangle.create 2 [] in
  let st1 := (ObjectPool.acquire Triangle.create st0).2 in
  pool_wf st1
  ∧ ∃ r, (ObjectPool.acquire Triangle.create st1).1 = Some r ∧ ¬ in_use st1.2 r.
Proof.
  assert (Hwf : pool_wf (ObjectPool.acquire Triangle.create
                           (ObjectPool.create Triangle.create 2 [])).2).
  { unfold pool_wf. cbn. split; [done|]. split.
    - apply (NoDup_seq 0 2).
    - repeat constructor. }
  cbn zeta. split; [exact Hwf|].
  destruct (ObjectPool_acquire_exclusive Triangle.create _ Hwf) as (r & Hr & Hfree & _).
  exists r. by split.
Defined.

Lemma indexOf_lookup pool r i :
  NoDup pool → pool !! i = Some r → indexOf pool r = Some i.
Proof.
  intros Hnd Hi. unfold indexOf.
  destruct (list_find (λ x, x = r) pool) as [[j x]|] eqn:E; cbn.
  - apply list_find_Some in E as (Hj & -> & _).
    by rewrite (NoDup_lookup _ i j r Hnd Hi Hj).
  - apply list_find_None in E. rewrite Forall_forall in E.
    exfalso. apply (E r); [by eapply list_elem_of_lookup_2|done].
Qed.

Lemma release_wf_active {T} (reset : T → T) (heap : list T) p r :
  pool_wf (heap, p) → in_use p r →
  let st' := ObjectPool.release reset r (heap, p) in
  st'.1 = alter reset r heap
  ∧ ObjectPool.pool st'.2 = ObjectPool.pool p
  ∧ ¬ in_use st'.2 r
  ∧ (∀ r', r' ≠ r → (in_use st'.2 r' ↔ in_use p r'))
  ∧ S (ObjectPool.getActiveCount st'.2) = ObjectPool.getActiveCount p
  ∧ pool_wf st'.
Proof.
  intros Hwf (i & Hi & Ht). cbn zeta.
  pose proof Hwf as (Hlen & Hnd & Hheap). cbn in Hlen, Hnd, Hheap.
  pose proof (js_truthy_lt _ _ Ht) as Hia.
  assert (Hst : ObjectPool.release reset r (heap, p)
                = (alter reset r heap,
                   ObjectPool.mk (ObjectPool.pool p)
                                 (js_set (ObjectPool.active p) i false))).
  { unfold ObjectPool.release. by rewrite (indexOf_lookup _ r i Hnd Hi), Ht. }
  rewrite Hst. cbn [fst snd ObjectPool.pool ObjectPool.active].
  assert (Hwf' : pool_wf (alter reset r heap,
                          ObjectPool.mk (ObjectPool.pool p)
                                        (js_set (ObjectPool.active p) i false))).
  { unfold pool_wf. cbn. rewrite js_set_length by done. rewrite length_alter. done. }
  split; [done|]. split; [done|]. split; [|split; [|split; [|done]]].
  - rewrite (in_use_unique _ i r Hwf' Hi). cbn. by rewrite js_truthy_set_eq.
  - intros r' Hne. split; intros (j & Hj & Htj); exists j; (split; [done|]);
      assert (i ≠ j) by (intros ->; cbn in *; congruence); cbn in *.
    + by rewrite js_truthy_set_ne in Htj.
    + by rewrite js_truthy_set_ne.
  - unfold ObjectPool.getActiveCount. cbn. rewrite js_set_insert by done.
    assert (Hl : ObjectPool.active p !! i = Some true).
    { unfold js_truthy in Ht. by destruct (ObjectPool.active p !! i) as [[]|]. }
    pose proof (count_active_insert (ObjectPool.active p) i true false Hl) as Hc.
    cbn in Hc. unfold count_active in *. lia.
Qed.

(** X4. On a well-formed pool, releasing an object that is in use resets
    that object (and no other), takes exactly it out of use, lowers the
    active count by one and keeps the pool well formed. *)
Theorem ObjectPool_release_active {T : Type} (reset : T → T)
        (st : list T * ObjectPool.t) (r : ref) :
  pool_wf st → in_use st.2 r →
  let st' := ObjectPool.release reset r st in
  st'.1 = alter reset r st.1
  ∧ ObjectPool.pool st'.2 = ObjectPool.pool st.2
  ∧ ¬ in_use st'.2 r
  ∧ (∀ r', r' ≠ r → (in_use st'.2 r' ↔ in_use st.2 r'))
  ∧ S (ObjectPool.getActiveCount st'.2) = ObjectPool.getActiveCount st.2
  ∧ pool_wf st'.
Proof. destruct st as [heap p]. apply release_wf_active. Qed.

(** The first projectile of a match is handed out and given back. *)
Lemma ObjectPool_release_active_witness :
  let st1 := (ObjectPool.acquire Triangle.create (ObjectPool.create Triangle.create 2 [])).2 in
  let st2 := ObjectPool.release Triangle.reset 0%nat st1 in
  in_use st1.2 0%nat ∧ ¬ in_use st2.2 0%nat
  ∧ ObjectPool.getActiveCount st1.2 = 1%nat ∧ ObjectPool.getActiveCount st2.2 = 0%nat.
Proof.
  assert (Hwf : pool_wf (ObjectPool.acquire Triangle.create
                           (ObjectPool.create Triangle.create 2 [])).2).
  { unfold pool_wf. cbn. split; [done|]. split.
    - apply (NoDup_seq 0 2).
    - repeat constructor. }
  assert (Huse : in_use (ObjectPool.acquire Triangle.create
                           (ObjectPool.create Triangle.create 2 [])).2.2 0%nat).
  { by exists 0%nat. }
  destruct (ObjectPool_release_active Triangle.reset _ 0%nat Hwf Huse)
    as (_ & _ & Hfree & _ & Hcount & _).
  cbn zeta. split; [exact Huse|]. split; [exact Hfree|]. split; [reflexivity|].
  reflexivity.
Defined.

(** X5. Round trip on a well-formed pool: releasing the object that
    [acquire] has just handed out restores the set of objects in use and
    the active count; the object itself comes back reset, the others
    untouched. *)
Theorem ObjectPool_acquire_release {T : Type} (factory : T) (reset : T → T)
        (st : list T * ObjectPool.t) :
  pool_wf st →
  let res := ObjectPool.acquire factory st in
  ∃ r, res.1 = Some r
       ∧ let st' := ObjectPool.release reset r res.2 in
         (∀ r', in_use st'.2 r' ↔ in_use st.2 r')
         ∧ ObjectPool.getActiveCount st'.2 = ObjectPool.getActiveCount st.2
         ∧ pool_wf st'
         ∧ (∀ x, x ≠ r → (x < length st.1)%nat → st'.1 !! x = st.1 !! x).
Proof.
  intros Hwf res.
  pose proof (acquire_wf factory st Hwf) as Hacq. cbn zeta in Hacq. fold res in Hacq.
  destruct Hacq as (r & Hr & Hfree & Huse & Hothers & Hcount & Hwf1 & Hheap).
  exists r. split; [done|]. intros st'.
  destruct res as [o [heap1 p1]]. cbn [fst snd] in *.
  destruct (release_wf_active reset heap1 p1 r Hwf1 Huse)
    as (Hh & _ & Hfree' & Hothers' & Hcount' & Hwf').
  fold st' in Hh, Hfree', Hothers', Hcount', Hwf'.
  split; [|split; [lia|split; [done|]]].
  - intros r'. destruct (decide (r' = r)) as [->|Hne]; [tauto|].
    rewrite Hothers' by done. by apply Hothers.
  - intros x Hne Hx. rewrite Hh. rewrite list_lookup_alter_ne by done. by apply Hheap.
Qed.

Lemma ObjectPool_acquire_release_witness :
  let st := ObjectPool.create Triangle.create 2 [] in
  pool_wf st
  ∧ ∃ r, (ObjectPool.acquire Triangle.create st).1 = Some r
         ∧ ObjectPool.getActiveCount
             (ObjectPool.release Triangle.reset r (ObjectPool.acquire Triangle.create st).2).2
           = 0%nat.
Proof.
  assert (Hwf : pool_wf (ObjectPool.create Triangle.create 2 [])).
  { unfold pool_wf. cbn. split; [done|]. split.
    - apply (NoDup_seq 0 2).
    - repeat constructor. }
  cbn zeta. split; [exact Hwf|].
  destruct (ObjectPool_acquire_release Triangle.create Triangle.reset _ Hwf)
    as (r & Hr & _ & Hcount & _).
  exists r. split; [exact Hr|]. rewrite Hcount. reflexivity.
Defined.

Lemma count_active_zero (l : list bool) :
  (∀ j, js_truthy l j = false) → count_active l = 0%nat.
Proof.
  intros H. unfold count_active. induction l as [|b l IH]; [done|].
  pose proof (H 0%nat) as H0. cbn in H0. subst b. cbn.
  rewrite decide_False by done. apply IH. intros j. apply (H (S j)).
Qed.

Lemma js_truthy_set_false (l : list bool) i j :
  (i < length l)%nat →
  js_truthy (js_set l i false) j = if decide (j = i) then false else js_truthy l j.
Proof.
  intros Hi. destruct (decide (j = i)) as [->|Hne].
  - by apply js_truthy_set_eq.
  - by apply js_truthy_set_ne.
Qed.

Lemma ObjectPool_clear_loop_length {T} (reset : T → T) n : ∀ i st,
  length (ObjectPool.clear_loop reset n i st).1 = length st.1.
Proof.
  induction n as [|n IH]; intros i [heap p]; cbn [ObjectPool.clear_loop]; [done|].
  rewrite IH. destruct (js_truthy (ObjectPool.active p) i); [|done].
  cbn. destruct (ObjectPool.pool p !! i); [|done]. by rewrite length_alter.
Qed.

(** The clearing loop, from index [i] on: the flags from [i] on are
    cleared, the earlier ones kept, and an object is reset exactly when
    it sits in an active slot at or after [i]. *)
Lemma ObjectPool_clear_loop {T} (reset : T → T) n : ∀ i heap p,
  length (ObjectPool.active p) = length (ObjectPool.pool p) →
  NoDup (ObjectPool.pool p) →
  (i + n = length (ObjectPool.active p))%nat →
  let st' := ObjectPool.clear_loop reset n i (heap, p) in
  ObjectPool.pool st'.2 = ObjectPool.pool p
  ∧ length (ObjectPool.active st'.2) = length (ObjectPool.active p)
  ∧ (∀ j, js_truthy (ObjectPool.active st'.2) j
          = if decide (i ≤ j)%nat then false else js_truthy (ObjectPool.active p) j)
  ∧ (∀ r j, (i ≤ j)%nat → ObjectPool.pool p !! j = Some r →
            js_truthy (ObjectPool.active p) j = true →
            st'.1 !! r = reset <$> heap !! r)
  ∧ (∀ r, (∀ j, (i ≤ j)%nat → ObjectPool.pool p !! j = Some r →
                js_truthy (ObjectPool.active p) j = false) →
          st'.1 !! r = heap !! r).
Proof.
  induction n as [|n IH]; intros i heap p Hlen Hnd Hin; cbn [ObjectPool.clear_loop].
  - cbn. split; [done|]. split; [done|]. split; [|split].
    + intros j. case_decide; [|done].
      unfold js_truthy. by rewrite lookup_ge_None_2 by lia.
    + intros r j Hj _ Ht. apply js_truthy_lt in Ht. lia.
    + done.
  - destruct (js_truthy (ObjectPool.active p) i) eqn:Ei.
    + assert (Hia : (i < length (ObjectPool.active p))%nat) by lia.
      destruct (lookup_lt_is_Some_2 (ObjectPool.pool p) i ltac:(lia)) as [r0 Hr0].
      rewrite Hr0.
      specialize (IH (S i) (alter reset r0 heap)
                    (ObjectPool.mk (ObjectPool.pool p) (js_set (ObjectPool.active p) i false))).
      cbn [ObjectPool.pool ObjectPool.active] in IH.
      rewrite js_set_length in IH by done.
      destruct (IH Hlen Hnd ltac:(lia)) as (Hp & Hl & Hflags & Hobj & Hkeep).
      split; [done|]. split; [done|]. split; [|split].
      * intros j. rewrite Hflags. rewrite js_truthy_set_false by done.
        repeat case_decide; try done; lia.
      * intros r j Hj Hpj Ht.
        destruct (decide (j = i)) as [->|Hne].
        -- assert (r = r0) as -> by congruence.
           rewrite Hkeep; [by rewrite list_lookup_alter_eq|].
           intros j' Hj' Hpj' .
           pose proof (NoDup_lookup _ i j' r0 Hnd Hr0 Hpj'). lia.
        -- assert (r ≠ r0).
           { intros ->. pose proof (NoDup_lookup _ i j r0 Hnd Hr0 Hpj). lia. }
           rewrite (Hobj r j); [by rewrite list_lookup_alter_ne|lia|done|].
           rewrite js_truthy_set_false by done. by rewrite decide_False.
      * intros r Hall.
        assert (r ≠ r0).
        { intros ->. specialize (Hall i ltac:(lia) Hr0). congruence. }
        rewrite Hkeep; [by rewrite list_lookup_alter_ne|].
        intros j Hj Hpj. rewrite js_truthy_set_false by done.
        case_decide; [done|]. apply Hall; [lia|done].
    + specialize (IH (S i) heap p Hlen Hnd ltac:(lia)).
      destruct IH as (Hp & Hl & Hflags & Hobj & Hkeep).
      split; [done|]. split; [done|]. split; [|split].
      * intros j. rewrite Hflags.
        destruct (decide (j = i)) as [->|Hne];
          repeat case_decide; try done; try lia.
      * intros r j Hj Hpj Ht.
        assert (j ≠ i) by (intros ->; congruence).
        apply (Hobj r j); [lia|done|done].
      * intros r Hall. apply Hkeep. intros j Hj. apply Hall. lia.
Qed.

(** X6 — [ObjectPool.clear]: over a well-formed pool, clearing leaves
    the pooled objects in place,
    leaves no slot active (the active count is 0), resets every object
    that was in use and touches no other object. *)
Theorem ObjectPool_clear_all {T} (reset : T → T) (st : list T * ObjectPool.t) :
  pool_wf st →
  let st' := ObjectPool.clear reset st in
  ObjectPool.pool st'.2 = ObjectPool.pool st.2
  ∧ ObjectPool.getActiveCount st'.2 = 0%nat
  ∧ (∀ r, ¬ in_use st'.2 r)
  ∧ (∀ r, in_use st.2 r → st'.1 !! r = reset <$> st.1 !! r)
  ∧ (∀ r, ¬ in_use st.2 r → st'.1 !! r = st.1 !! r)
  ∧ pool_wf st'.
Proof.
  destruct st as [heap p]. intros (Hlen & Hnd & Hb). cbn [fst snd] in *.
  cbn zeta. unfold ObjectPool.clear.
  pose proof (ObjectPool_clear_loop reset (length (ObjectPool.active p)) 0 heap p
                Hlen Hnd ltac:(lia)) as H.
  cbn zeta in H. destruct H as (Hp & Hl & Hflags & Hobj & Hkeep).
  assert (Hoff : ∀ j, js_truthy
     (ObjectPool.active (ObjectPool.clear_loop reset (length (ObjectPool.active p)) 0 (heap, p)).2) j = false).
  { intros j. rewrite Hflags. rewrite decide_True by lia. done. }
  split; [done|]. split.
  { unfold ObjectPool.getActiveCount. by apply count_active_zero. }
  split.
  { intros r (j & _ & Ht). rewrite Hoff in Ht. done. }
  split.
  { intros r (j & Hpj & Ht). apply (Hobj r j); [lia|done|done]. }
  split.
  { intros r Hnot. apply Hkeep. intros j _ Hpj.
    destruct (js_truthy (ObjectPool.active p) j) eqn:E; [|done].
    exfalso. apply Hnot. by exists j. }
  unfold pool_wf. cbn [fst snd]. rewrite Hp, Hl. split; [done|]. split; [done|].
  eapply Forall_impl; [exact Hb|]. intros r Hr. cbn beta in *.
  by rewrite ObjectPool_clear_loop_length.
Qed.

(** A pool of two projectiles with one lent out, cleared. *)
Lemma ObjectPool_clear_all_witness :
  let st := (ObjectPool.acquire Triangle.create
               (ObjectPool.create Triangle.create 2 [])).2 in
  pool_wf st
  ∧ ObjectPool.getActiveCount st.2 = 1%nat
  ∧ ObjectPool.getActiveCount (ObjectPool.clear Triangle.reset st).2 = 0%nat.
Proof.
  assert (Hwf : pool_wf (ObjectPool.acquire Triangle.create
                           (ObjectPool.create Triangle.create 2 [])).2).
  { unfold pool_wf. cbn. split; [done|]. split.
    - apply (NoDup_seq 0 2).
    - repeat constructor. }
  cbn zeta. split; [exact Hwf|]. split; [reflexivity|].
  exact (proj1 (proj2 (ObjectPool_clear_all Triangle.reset _ Hwf))).
Defined.

(** ** The projectile *)

Lemma Triangle_update_idle Math_sqrt delta tr :
  Triangle.hasReached tr = true ∨ Triangle.active tr = false →
  Triangle.update Math_sqrt delta tr = tr.
Proof. unfold Triangle.update. by intros [-> | ->]; rewrite ?orb_true_r. Qed.

Lemma flight_idle Math_sqrt deltas tr :
  Triangle.hasReached tr = true ∨ Triangle.active tr = false →
  flight Math_sqrt deltas tr = tr.
Proof.
  intros H. unfold flight. induction deltas as [|d ds IH]; [done|].
  cbn [foldl]. by rewrite Triangle_update_idle.
Qed.

Lemma Triangle_update_plan Math_sqrt delta tr :
  flight_plan (Triangle.update Math_sqrt delta tr) = flight_plan tr.
Proof.
  unfold Triangle.update.
  destruct (Triangle.hasReached tr || negb (Triangle.active tr)); [done|].
  by destruct (Qltb _ _).
Qed.

(** X7 — [Triangle.update] over any number of frames: it never writes the
    target, the speed, the owner or the pool flag; a projectile that has
    reached its target, or was reset for the pool, does not change any
    more; and a projectile in flight is flagged as arrived only at a
    position less than 5 pixels from its target, where it then stays. *)
Theorem Triangle_flight (Math_sqrt : Q → Q) (deltas : list Q) (tr : Triangle.t) :
  let tr' := flight Math_sqrt deltas tr in
  flight_plan tr' = flight_plan tr
  ∧ (Triangle.hasReached tr = true ∨ Triangle.active tr = false → tr' = tr)
  ∧ flight Math_sqrt deltas (Triangle.reset tr) = Triangle.reset tr
  ∧ (Triangle.hasReached tr = false → Triangle.hasReached tr' = true →
     (dist2 (Triangle.x tr') (Triangle.y tr')
            (Triangle.targetX tr) (Triangle.targetY tr) < 25)%Q).
Proof.
  cbn zeta. split; [|split; [|split]].
  - revert tr. unfold flight. induction deltas as [|d ds IH]; intros tr; [done|].
    cbn [foldl]. rewrite IH. apply Triangle_update_plan.
  - apply flight_idle.
  - apply flight_idle. by left.
  - revert tr. induction deltas as [|d ds IH]; intros tr Hfly Hend.
    + cbn in Hend. congruence.
    + unfold flight in *. cbn [foldl] in *.
      destruct (Triangle.hasReached (Triangle.update Math_sqrt d tr)) eqn:Hstep.
      * fold (flight Math_sqrt ds (Triangle.update Math_sqrt d tr)).
        rewrite flight_idle by (by left).
        unfold Triangle.update in *. rewrite Hfly in *. cbn [orb] in *.
        destruct (negb (Triangle.active tr)); [congruence|].
        destruct (Qltb _ _) eqn:Hnear; [|cbn in Hstep; congruence].
        apply Qltb_lt in Hnear. exact Hnear.
      * pose proof (Triangle_update_plan Math_sqrt d tr) as Hplan.
        injection Hplan as Htx Hty _ _ _ _ _ _. rewrite <- Htx, <- Hty.
        by apply IH.
Qed.

(** ** Launching projectiles *)

Lemma pool_acquire_eq w :
  World.pool_acquire w
  = ((ObjectPool.acquire Triangle.create (World.triangles w, World.trianglePool w)).1,
     World.set_pool
       (ObjectPool.acquire Triangle.create (World.triangles w, World.trianglePool w)).2 w).
Proof. unfold World.pool_acquire. by destruct (ObjectPool.acquire _ _). Qed.

Lemma init_launched o sx sy tx ty mult r (heap : list Triangle.t) w :
  (r < length heap)%nat →
  World.triangles w = alter (Triangle.init sx sy tx ty o mult) r heap →
  launched o sx sy tx ty mult r w.
Proof.
  intros Hr Hw. destruct (lookup_lt_is_Some_2 heap r Hr) as [t0 Ht0].
  exists (Triangle.init sx sy tx ty o mult t0). rewrite Hw.
  rewrite list_lookup_alter_eq, Ht0. done.
Qed.

(** What both [launch] functions do to the pool and the store of
    projectiles, [side] telling which list receives the projectile. *)
Lemma launch_acquire w :
  pool_wf (World.triangles w, World.trianglePool w) →
  ∃ r heap p,
    ObjectPool.acquire Triangle.create (World.triangles w, World.trianglePool w)
    = (Some r, (heap, p))
    ∧ (r < length heap)%nat
    ∧ ¬ in_use (World.trianglePool w) r
    ∧ in_use p r
    ∧ (∀ r', r' ≠ r → in_use p r' ↔ in_use (World.trianglePool w) r')
    ∧ pool_wf (heap, p)
    ∧ (∀ x, (x < length (World.triangles w))%nat → heap !! x = World.triangles w !! x).
Proof.
  intros Hwf.
  pose proof (acquire_wf Triangle.create _ Hwf) as H. cbn zeta in H.
  destruct (ObjectPool.acquire _ _) as [o [heap p]]. cbn [fst snd] in H.
  destruct H as (r & -> & Hfree & Huse & Hoth & _ & Hwf' & Hold).
  exists r, heap, p. split; [done|].
  split.
  { destruct Huse as (i & Hi & _). destruct Hwf' as (_ & _ & Hb). cbn in Hb.
    rewrite Forall_forall in Hb. apply Hb. by eapply list_elem_of_lookup_2. }
  done.
Qed.

Lemma player_launch_eq sx sy tx ty mult w r heap p :
  ObjectPool.acquire Triangle.create (World.triangles w, World.trianglePool w)
  = (Some r, (heap, p)) →
  InputManager.launch sx sy tx ty mult w
  = (true,
     World.set_store (Store.incrementAttacks (World.store w))
       (World.set_playerTriangles (World.playerTriangles w ++ [r])
          (World.set_pool (alter (Triangle.init sx sy tx ty player mult) r heap, p) w))).
Proof.
  intros E. unfold InputManager.launch. rewrite pool_acquire_eq, E. done.
Qed.

Lemma ai_launch_eq sx sy tx ty mult w r heap p :
  ObjectPool.acquire Triangle.create (World.triangles w, World.trianglePool w)
  = (Some r, (heap, p)) →
  AISystem.launch sx sy tx ty mult w
  = World.set_store (Store.incrementAttacks (World.store w))
      (World.set_aiTriangles (World.aiTriangles w ++ [r])
         (World.set_pool (alter (Triangle.init sx sy tx ty ai mult) r heap, p) w)).
Proof.
  intros E. unfold AISystem.launch. rewrite pool_acquire_eq, E. done.
Qed.

(** X8 — [InputManager.attack]: with a well-formed projectile pool, an
    attack between two planets of the match succeeds exactly when the
    source holds at least the attack cost.  A successful attack takes
    exactly the cost from the source and touches no other planet, counts
    one attack, and puts exactly one projectile, not in use before, on
    the player's list, flying from the source to the target at the
    launcher's speed bonus if the source is a launcher, at factor 1
    otherwise.  A refused attack takes no ship and launches nothing, but
    it is not without effect: it shakes the source planet, which moves
    its position by up to 2.5 pixels along each axis; nothing else in the
    match changes, apart from the shake that waits for its next animation
    frame. *)
Theorem InputManager_attack_outcome (Math_sqrt : Q → Q) (sh : Shake.Call)
    (source target : nat) (src tgt : Planet.t) (w : World.t) :
  pool_wf (World.triangles w, World.trianglePool w) →
  World.planets w !! source = Some src →
  World.planets w !! target = Some tgt →
  let cost := InputManager.calculateAttackCost Math_sqrt
                (Planet.x src) (Planet.y src) (Planet.x tgt) (Planet.y tgt) (Some src) in
  let res := InputManager.attack Math_sqrt sh source target w in
  (res.1 = true ↔ cost <= Planet.ships src)
  ∧ (res.1 = false →
     (unit_random (Shake.first sh) → displaced source (5 / 2) w res.2)
     ∧ planet_record <$> World.planets res.2 = planet_record <$> World.planets w
     ∧ projectiles res.2 = projectiles w
     ∧ World.store res.2 = World.store w
     ∧ (inject_Z (Shake.now (Shake.first sh) - Shake.clock sh) / 1000 < 3 # 10 →
        Planet.x <$> World.planets res.2 !! source
        = Some (Planet.x src + (Shake.randomX (Shake.first sh) - (1 # 2)) * 5)
        ∧ Planet.y <$> World.planets res.2 !! source
          = Some (Planet.y src + (Shake.randomY (Shake.first sh) - (1 # 2)) * 5)
        ∧ World.shakes res.2
          = World.shakes w
            ++ [Shake.mk source (Planet.x src) (Planet.y src) 5 (3 # 10) (Shake.clock sh)])%Q)
  ∧ (res.1 = true →
     World.planets res.2
     = <[source := Planet.set_ships (Planet.ships src - cost) src]> (World.planets w)
     ∧ Store.attacksLaunched (World.store res.2)
       = Store.attacksLaunched (World.store w) + 1
     ∧ World.aiTriangles res.2 = World.aiTriangles w
     ∧ World.shakes res.2 = World.shakes w
     ∧ ∃ r, World.playerTriangles res.2 = World.playerTriangles w ++ [r]
            ∧ ¬ in_use (World.trianglePool w) r
            ∧ in_use (World.trianglePool res.2) r
            ∧ launched player (Planet.x src) (Planet.y src) (Planet.x tgt) (Planet.y tgt)
                       (if decide (Planet.type src = launcher) then 3 # 2 else 1)%Q
                       r res.2).
Proof.
  intros Hwf Hs Ht cost res. subst res. unfold InputManager.attack.
  rewrite Hs, Ht. fold cost.
  destruct (Z.ltb_spec (Planet.ships src) cost) as [Hlt|Hge]; cbn [fst snd].
  { split; [split; [done|lia]|]. split; [|done]. intros _.
    split; [intros Hrand; by apply (shake_displaced source 5 (3 # 10) sh w src)|].
    split; [apply shake_records|]. split; [apply shake_projectiles|].
    split; [by destruct (shake_form source 5 (3 # 10) sh w) as (nx & ny & waiting & ->)|].
    intros Hlast. apply Qltb_lt in Hlast.
    unfold AnimationHelper.shake, Shake.animate. rewrite Hs.
    cbn [Shake.startTime Shake.duration Shake.target Shake.originalX Shake.originalY
         Shake.intensity].
    rewrite Hlast. cbn [World.planets World.set_planets World.set_shakes World.shakes].
    rewrite list_lookup_alter_eq, Hs. done. }
  set (w1 := World.set_planets _ w).
  destruct (launch_acquire w1 Hwf) as (r & heap & p & E & Hr & Hfree & Huse & _).
  rewrite (player_launch_eq _ _ _ _ _ w1 r heap p E). cbn [fst snd].
  split; [done|]. split; [done|]. intros _.
  split.
  { cbn -[Planet.removeShips].
    apply list_eq. intros i. destruct (decide (i = source)) as [->|Hne].
    - rewrite list_lookup_alter_eq, Hs. cbn -[Planet.removeShips].
      rewrite list_lookup_insert_eq; [|by eapply lookup_lt_Some].
      by rewrite removeShips_ok by lia.
    - by rewrite list_lookup_alter_ne, list_lookup_insert_ne. }
  split; [done|]. split; [done|]. split; [done|].
  exists r. split; [done|]. split; [done|]. split; [done|].
  eapply init_launched; [exact Hr|]. cbn.
  destruct (decide (Planet.type src = launcher)); done.
Qed.

Lemma duel_pool_wf n tx :
  pool_wf (World.triangles (duel n tx), World.trianglePool (duel n tx)).
Proof.
  unfold pool_wf. cbn. split; [done|]. split.
  - apply (NoDup_seq 0 2).
  - repeat constructor.
Qed.

(** Scenario B's attack: with 10 ships and a target 300 pixels away the
    attack costs 8 and succeeds; with 4 ships it is refused and the
    source planet is shaken from (0, 0) to (-2.5, -2.5). *)
Lemma InputManager_attack_outcome_witness :
  (InputManager.attack isqrt still_clock 0 1 (duel 10 300)).1 = true
  ∧ Planet.ships <$> World.planets (InputManager.attack isqrt still_clock 0 1 (duel 10 300)).2
    = [2; 10]
  ∧ (InputManager.attack isqrt still_clock 0 1 (duel 4 300)).1 = false
  ∧ Planet.x <$> World.planets (InputManager.attack isqrt still_clock 0 1 (duel 4 300)).2
               !! 0%nat
    = Some (0 + (0 - (1 # 2)) * 5)%Q.
Proof.
  destruct (InputManager_attack_outcome isqrt still_clock 0 1 _ _ (duel 10 300)
              (duel_pool_wf 10 300) eq_refl eq_refl)
    as (Hiff & _ & Hok).
  assert (Hgo : (InputManager.attack isqrt still_clock 0 1 (duel 10 300)).1 = true).
  { apply Hiff. by vm_compute. }
  split; [exact Hgo|].
  destruct (Hok Hgo) as (Hpl & _). rewrite Hpl. split; [by vm_compute|].
  destruct (InputManager_attack_outcome isqrt still_clock 0 1 _ _ (duel 4 300)
              (duel_pool_wf 4 300) eq_refl eq_refl)
    as (Hiff' & Hno & _).
  assert (Hstop : (InputManager.attack isqrt still_clock 0 1 (duel 4 300)).1 = false).
  { apply not_true_is_false. intros Hyes. apply Hiff' in Hyes. by vm_compute in Hyes. }
  split; [exact Hstop|].
  destruct (Hno Hstop) as (_ & _ & _ & _ & Hpos).
  destruct Hpos as (Hx & _); [by vm_compute|]. exact Hx.
Defined.

(** ** Defending a planet *)

Lemma hasDefense_fresh (ds : list DefenseTriangle.t) o q :
  Planet.hasDefense (ds ++ [DefenseTriangle.create o]) (Planet.addDefense (length ds) q)
  = true.
Proof.
  unfold Planet.hasDefense. cbn. by rewrite lookup_app_r, Nat.sub_diag.
Qed.

Lemma shake_defenses target intensity duration sh w :
  World.defenses (AnimationHelper.shake target intensity duration sh w) = World.defenses w.
Proof.
  by destruct (shake_form target intensity duration sh w) as (nx & ny & waiting & ->).
Qed.

(** While the duration lasts, what [shake] writes. *)
Lemma shake_running target intensity duration sh w p :
  World.planets w !! target = Some p →
  (inject_Z (Shake.now (Shake.first sh) - Shake.clock sh) / 1000 < duration)%Q →
  AnimationHelper.shake target intensity duration sh w
  = World.set_shakes
      (World.shakes w
       ++ [Shake.mk target (Planet.x p) (Planet.y p) intensity duration (Shake.clock sh)])
      (World.set_planets
         (<[target := Planet.set_position
              (Planet.x p + (Shake.randomX (Shake.first sh) - (1 # 2)) * intensity)%Q
              (Planet.y p + (Shake.randomY (Shake.first sh) - (1 # 2)) * intensity)%Q p]>
            (World.planets w)) w).
Proof.
  intros Hp Hlast. apply Qltb_lt in Hlast.
  unfold AnimationHelper.shake, Shake.animate. rewrite Hp.
  cbn [Shake.startTime Shake.duration Shake.target Shake.originalX Shake.originalY
       Shake.intensity].
  rewrite Hlast. by rewrite (alter_insert _ _ _ p).
Qed.

(** A planet after a request that was refused or found it defended: the
    request, repeated, takes no ship and builds no defence. *)
Lemma player_defend_again sh planet w p :
  World.planets w !! planet = Some p →
  Planet.ships p < GameConfig.ATTACK_COST_BASE
  ∨ Planet.hasDefense (World.defenses w) p = true →
  Planet.ships <$> World.planets (InputManager.defendPlanet sh planet w)
  = Planet.ships <$> World.planets w
  ∧ World.defenses (InputManager.defendPlanet sh planet w) = World.defenses w.
Proof.
  intros Hp Hcase. unfold InputManager.defendPlanet. rewrite Hp.
  destruct (Z.ltb_spec (Planet.ships p) GameConfig.ATTACK_COST_BASE) as [Hlt|Hge].
  - split; [apply shake_ships|apply shake_defenses].
  - destruct Hcase as [Hlt|Hdef]; [lia|]. by rewrite Hdef.
Qed.

(** X9 — [defendPlanet] of the player's and of the AI's side: a planet
    that holds at least [ATTACK_COST_BASE] ships and has no active defence
    pays exactly that many ships and has an active defence afterwards; in
    every other case no planet loses a ship or changes hands and no
    defence is built.  No other planet and no existing defence unit is
    touched, and the same request made again right away takes no ship and
    builds no defence, so a planet never pays for a second defence while
    the first is active.  The AI's function changes nothing at all when it
    does not pay, and is idempotent.  The player's function changes
    nothing when the planet is defended and holds the ships, and is
    idempotent on a planet that holds twice the cost; but a request
    refused for lack of ships shakes the planet: its position moves by up
    to 2.5 pixels along each axis. *)
Theorem defendPlanet_once (sh sh' : Shake.Call) (planet : nat) (w : World.t) :
  let paying (p : Planet.t) :=
    (GameConfig.ATTACK_COST_BASE <=? Planet.ships p)
    && negb (Planet.hasDefense (World.defenses w) p) in
  Forall (λ f : Shake.Call → World.t → World.t,
    (∀ i, i ≠ planet → World.planets (f sh w) !! i = World.planets w !! i)
    ∧ (∀ d x, World.defenses w !! d = Some x → World.defenses (f sh w) !! d = Some x)
    ∧ match World.planets w !! planet with
      | Some p =>
          if paying p
          then ∃ p', World.planets (f sh w) !! planet = Some p'
                     ∧ Planet.ships p' = Planet.ships p - GameConfig.ATTACK_COST_BASE
                     ∧ Planet.owner p' = Planet.owner p
                     ∧ Planet.hasDefense (World.defenses (f sh w)) p' = true
          else planet_record <$> World.planets (f sh w) = planet_record <$> World.planets w
               ∧ World.defenses (f sh w) = World.defenses w
      | None => f sh w = w
      end
    ∧ Planet.ships <$> World.planets (f sh' (f sh w))
      = Planet.ships <$> World.planets (f sh w)
    ∧ World.defenses (f sh' (f sh w)) = World.defenses (f sh w))
    [λ s, InputManager.defendPlanet s planet; λ _, AISystem.defendPlanet planet]
  ∧ AISystem.defendPlanet planet (AISystem.defendPlanet planet w)
    = AISystem.defendPlanet planet w
  ∧ (∀ p, World.planets w !! planet = Some p → paying p = false →
          AISystem.defendPlanet planet w = w)
  ∧ (∀ p, World.planets w !! planet = Some p →
          (GameConfig.ATTACK_COST_BASE <= Planet.ships p →
           Planet.hasDefense (World.defenses w) p = true →
           InputManager.defendPlanet sh planet w = w)
          ∧ (Planet.ships p < GameConfig.ATTACK_COST_BASE →
             (unit_random (Shake.first sh) →
              displaced planet (5 / 2) w (InputManager.defendPlanet sh planet w))
             ∧ ((inject_Z (Shake.now (Shake.first sh) - Shake.clock sh) / 1000 < 3 # 10)%Q →
                Planet.x <$> World.planets (InputManager.defendPlanet sh planet w) !! planet
                = Some (Planet.x p + (Shake.randomX (Shake.first sh) - (1 # 2)) * 5)%Q
                ∧ Planet.y <$> World.planets (InputManager.defendPlanet sh planet w) !! planet
                  = Some (Planet.y p + (Shake.randomY (Shake.first sh) - (1 # 2)) * 5)%Q))
          ∧ (2 * GameConfig.ATTACK_COST_BASE <= Planet.ships p →
             InputManager.defendPlanet sh' planet (InputManager.defendPlanet sh planet w)
             = InputManager.defendPlanet sh planet w)).
Proof.
  cbn zeta.
  assert (Hai : AISystem.defendPlanet planet (AISystem.defendPlanet planet w)
                = AISystem.defendPlanet planet w
                ∧ (∀ p, World.planets w !! planet = Some p →
                        (GameConfig.ATTACK_COST_BASE <=? Planet.ships p)
                        && negb (Planet.hasDefense (World.defenses w) p) = false →
                        AISystem.defendPlanet planet w = w)).
  { unfold AISystem.defendPlanet.
    destruct (World.planets w !! planet) as [p|] eqn:Hp; [|by rewrite Hp].
    unfold GameConfig.ATTACK_COST_BASE.
    destruct (Planet.hasDefense (World.defenses w) p) eqn:Hd.
    { cbn [orb]. rewrite Hp, Hd. done. }
    cbn [orb]. destruct (Z.ltb_spec (Planet.ships p) 5) as [Hlt|Hge].
    { rewrite Hp, Hd. cbn [orb]. by destruct (Z.ltb_spec (Planet.ships p) 5); [|lia]. }
    split.
    - cbn -[Planet.removeShips Planet.hasDefense Planet.addDefense].
      rewrite list_lookup_alter_eq, Hp.
      cbn -[Planet.removeShips Planet.hasDefense Planet.addDefense].
      by rewrite hasDefense_fresh.
    - intros q [= <-]. rewrite Hd. cbn [negb]. rewrite andb_true_r.
      destruct (Z.leb_spec 5 (Planet.ships p)); [done|lia]. }
  split; [|split; [apply Hai|split; [apply Hai|]]].
  - repeat apply Forall_cons_2; [| |apply Forall_nil_2].
    + destruct (World.planets w !! planet) as [p|] eqn:Hp.
      2:{ unfold InputManager.defendPlanet. rewrite Hp. cbn beta. rewrite Hp. done. }
      unfold GameConfig.ATTACK_COST_BASE.
      destruct (Z.leb_spec 5 (Planet.ships p)) as [Hge|Hlt]; cbn [andb].
      2:{ destruct (player_defend_again sh planet w p Hp) as [Hsh Hdf]; [by left|].
          assert (E : InputManager.defendPlanet sh planet w
                      = AnimationHelper.shake planet 5 (3 # 10) sh w).
          { unfold InputManager.defendPlanet. rewrite Hp.
            by destruct (Z.ltb_spec (Planet.ships p) GameConfig.ATTACK_COST_BASE);
              [|unfold GameConfig.ATTACK_COST_BASE in *; lia]. }
          split; [intros i Hi; rewrite E; by apply shake_others|].
          split; [intros d x Hx; by rewrite Hdf|].
          split; [split; [rewrite E; apply shake_records|done]|].
          assert (Hrec : (planet_record <$> World.planets (InputManager.defendPlanet sh planet w))
                         !! planet = Some (planet_record p)).
          { rewrite E, shake_records, list_lookup_fmap, Hp. done. }
          rewrite list_lookup_fmap in Hrec.
          destruct (World.planets (InputManager.defendPlanet sh planet w) !! planet)
            as [p2|] eqn:Hp2; [|done].
          cbn in Hrec. injection Hrec as _ _ _ Hships _.
          apply (player_defend_again sh' planet _ p2 Hp2). left.
          unfold GameConfig.ATTACK_COST_BASE. lia. }
      destruct (Planet.hasDefense (World.defenses w) p) eqn:Hd; cbn [negb].
      { assert (E : InputManager.defendPlanet sh planet w = w).
        { unfold InputManager.defendPlanet. rewrite Hp, Hd.
          by destruct (Z.ltb_spec (Planet.ships p) GameConfig.ATTACK_COST_BASE);
            [unfold GameConfig.ATTACK_COST_BASE in *; lia|]. }
        rewrite E. split; [done|]. split; [done|]. split; [done|].
        apply (player_defend_again sh' planet w p Hp). by right. }
      assert (E : InputManager.defendPlanet sh planet w
                  = World.set_inputDefenses
                      (World.inputDefenses w ++ [length (World.defenses w)])
                      (World.set_planets
                         (alter (λ q, Planet.addDefense (length (World.defenses w))
                                        (Planet.removeShips 5 q).2)
                                planet (World.planets w))
                         (World.set_defenses
                            (World.defenses w ++ [DefenseTriangle.create player]) w))).
      { unfold InputManager.defendPlanet. rewrite Hp, Hd.
        by destruct (Z.ltb_spec (Planet.ships p) GameConfig.ATTACK_COST_BASE);
          [unfold GameConfig.ATTACK_COST_BASE in *; lia|]. }
      rewrite E. split; [|split; [|split]].
      * intros i Hne. cbn -[Planet.removeShips]. by rewrite list_lookup_alter_ne.
      * intros d x Hx. cbn. by rewrite lookup_app_l by (by eapply lookup_lt_Some).
      * eexists. cbn -[Planet.removeShips Planet.hasDefense Planet.addDefense].
        rewrite list_lookup_alter_eq, Hp.
        cbn -[Planet.removeShips Planet.hasDefense Planet.addDefense].
        split; [done|]. rewrite hasDefense_fresh, removeShips_ok by lia. done.
      * eapply (player_defend_again sh' planet).
        -- cbn -[Planet.removeShips Planet.hasDefense Planet.addDefense].
           rewrite list_lookup_alter_eq, Hp. done.
        -- right. cbn -[Planet.removeShips Planet.hasDefense Planet.addDefense].
           apply hasDefense_fresh.
    + destruct Hai as [Hidem Hno]. cbn beta. rewrite Hidem.
      split; [|split; [|split; [|done]]].
      * intros i Hne. unfold AISystem.defendPlanet.
        destruct (World.planets w !! planet) as [p|]; [|done].
        destruct (_ || _); [done|].
        cbn -[Planet.removeShips]. by rewrite list_lookup_alter_ne.
      * intros d x Hx. unfold AISystem.defendPlanet.
        destruct (World.planets w !! planet) as [p|]; [|done].
        destruct (_ || _); [done|].
        cbn. by rewrite lookup_app_l by (by eapply lookup_lt_Some).
      * destruct (World.planets w !! planet) as [p|] eqn:Hp.
        2:{ unfold AISystem.defendPlanet. by rewrite Hp. }
        destruct ((GameConfig.ATTACK_COST_BASE <=? Planet.ships p)
                  && negb (Planet.hasDefense (World.defenses w) p)) eqn:Hpay.
        2:{ by rewrite (Hno p). }
        apply andb_true_iff in Hpay as [Hge Hd]. apply Z.leb_le in Hge.
        apply negb_true_iff in Hd.
        unfold AISystem.defendPlanet. rewrite Hp, Hd. cbn [orb].
        destruct (Z.ltb_spec (Planet.ships p) GameConfig.ATTACK_COST_BASE); [lia|].
        eexists. cbn -[Planet.removeShips Planet.hasDefense Planet.addDefense].
        rewrite list_lookup_alter_eq, Hp.
        cbn -[Planet.removeShips Planet.hasDefense Planet.addDefense].
        split; [done|]. rewrite hasDefense_fresh, removeShips_ok by lia. done.
  - intros p Hp.
    assert (Hkeep : ∀ s v q, World.planets v !! planet = Some q →
              GameConfig.ATTACK_COST_BASE <= Planet.ships q →
              Planet.hasDefense (World.defenses v) q = true →
              InputManager.defendPlanet s planet v = v).
    { intros s v q Hq Hge Hd. unfold InputManager.defendPlanet. rewrite Hq, Hd.
      by destruct (Z.ltb_spec (Planet.ships q) GameConfig.ATTACK_COST_BASE); [lia|]. }
    split; [by apply Hkeep|]. split.
    + intros Hlt.
      assert (E : InputManager.defendPlanet sh planet w
                  = AnimationHelper.shake planet 5 (3 # 10) sh w).
      { unfold InputManager.defendPlanet. rewrite Hp.
        by destruct (Z.ltb_spec (Planet.ships p) GameConfig.ATTACK_COST_BASE); [|lia]. }
      rewrite E. split.
      * intros Hrand. by apply (shake_displaced planet 5 (3 # 10) sh w p).
      * intros Hlast. rewrite (shake_running planet 5 (3 # 10) sh w p) by done.
        cbn [World.planets World.set_planets World.set_shakes].
        rewrite list_lookup_insert_eq by (by eapply lookup_lt_Some). done.
    + unfold GameConfig.ATTACK_COST_BASE. intros Hrich.
      destruct (Planet.hasDefense (World.defenses w) p) eqn:Hd.
      { rewrite (Hkeep sh w p) by (done || unfold GameConfig.ATTACK_COST_BASE; lia).
        apply (Hkeep sh' w p); [done| |done]. unfold GameConfig.ATTACK_COST_BASE. lia. }
      assert (E : InputManager.defendPlanet sh planet w
                  = World.set_inputDefenses
                      (World.inputDefenses w ++ [length (World.defenses w)])
                      (World.set_planets
                         (alter (λ q, Planet.addDefense (length (World.defenses w))
                                        (Planet.removeShips 5 q).2)
                                planet (World.planets w))
                         (World.set_defenses
                            (World.defenses w ++ [DefenseTriangle.create player]) w))).
      { unfold InputManager.defendPlanet. rewrite Hp, Hd.
        by destruct (Z.ltb_spec (Planet.ships p) GameConfig.ATTACK_COST_BASE);
          [unfold GameConfig.ATTACK_COST_BASE in *; lia|]. }
      rewrite E.
      apply (Hkeep sh' _ (Planet.addDefense (length (World.defenses w))
                            (Planet.removeShips 5 p).2)).
      * cbn -[Planet.removeShips Planet.hasDefense Planet.addDefense].
        by rewrite list_lookup_alter_eq, Hp.
      * rewrite removeShips_ok by lia. cbn. unfold GameConfig.ATTACK_COST_BASE. lia.
      * cbn -[Planet.removeShips Planet.hasDefense Planet.addDefense].
        apply hasDefense_fresh.
Qed.

(** A planet of 4 ships, asked twice to defend itself while the first
    shake lasts: it keeps its ships, builds no defence, and ends 5
    pixels from where it started, the second shake having taken the
    shaken position for the original one. *)
Example defend_refused_twice :
  let w := InputManager.defendPlanet still_clock 0
             (InputManager.defendPlanet still_clock 0 (duel 4 300)) in
  (λ p, (Planet.ships p, Planet.x p, Planet.y p)) <$> World.planets w !! 0%nat
  = Some (4, (0 + (0 - (1 # 2)) * 5 + (0 - (1 # 2)) * 5)%Q,
          (0 + (0 - (1 # 2)) * 5 + (0 - (1 # 2)) * 5)%Q)
  ∧ World.defenses w = []
  ∧ length (World.shakes w) = 2%nat.
Proof. by vm_compute. Qed.

(** One refused request is undone when its shake runs out: an animation
    frame 300 ms later puts the planet back.  Two refused requests whose
    shakes overlap are not: the first closure puts the planet back where
    it was, the second, which runs after it, where the first shake had
    moved it, and there the planet stays. *)
Example overlapping_shakes_stay :
  let late := λ _ : nat, {| Shake.now := 300; Shake.randomX := 0; Shake.randomY := 0 |} in
  let once := InputManager.defendPlanet still_clock 0 (duel 4 300) in
  let twice := InputManager.defendPlanet still_clock 0 once in
  World.planets (AnimationHelper.animationFrame late once) = World.planets (duel 4 300)
  ∧ World.shakes (AnimationHelper.animationFrame late once) = []
  ∧ (λ p, (Planet.x p, Planet.y p))
      <$> World.planets (AnimationHelper.animationFrame late twice) !! 0%nat
    = Some ((0 + (0 - (1 # 2)) * 5)%Q, (0 + (0 - (1 # 2)) * 5)%Q)
  ∧ World.shakes (AnimationHelper.animationFrame late twice) = [].
Proof. by vm_compute. Qed.

(** ** Resolving an arrival *)

Lemma closestPlanet_snoc tr l a :
  CombatSystem.closestPlanet tr (l ++ [a])
  = (if lt_inf (planet_dist2 tr a.2) (CombatSystem.closestPlanet tr l).2
     then (Some a.1, Some (planet_dist2 tr a.2))
     else CombatSystem.closestPlanet tr l).
Proof. unfold CombatSystem.closestPlanet. by rewrite foldl_app. Qed.

Lemma closestPlanet_argmin tr (l : list (nat * Planet.t)) :
  match CombatSystem.closestPlanet tr l with
  | (Some i, Some d) =>
      ∃ k p, l !! k = Some (i, p) ∧ d = planet_dist2 tr p
             ∧ (∀ k' ip, l !! k' = Some ip → (d <= planet_dist2 tr ip.2)%Q)
             ∧ (∀ k' ip, l !! k' = Some ip → (k' < k)%nat → (d < planet_dist2 tr ip.2)%Q)
  | (None, None) => l = []
  | _ => False
  end.
Proof.
  induction l as [|a l IH] using rev_ind; [done|].
  rewrite closestPlanet_snoc.
  destruct (CombatSystem.closestPlanet tr l) as [[i|] [d|]]; try done.
  - destruct IH as (k & p & Hk & -> & Hmin & Hfirst). cbn [snd lt_inf].
    pose proof (lookup_lt_Some _ _ _ Hk) as Hklt.
    destruct (Qltb (planet_dist2 tr a.2) (planet_dist2 tr p)) eqn:E.
    + apply Qltb_lt in E. exists (length l), a.2. split.
      { rewrite lookup_app_r, Nat.sub_diag by lia. by destruct a. }
      split; [done|]. split.
      * intros k' ip Hk'. destruct (decide (k' < length l)%nat) as [Hlt|Hge].
        -- rewrite lookup_app_l in Hk' by done. specialize (Hmin _ _ Hk'). lra.
        -- rewrite lookup_app_r in Hk' by lia.
           destruct (k' - length l)%nat; cbn in Hk'; [|done].
           injection Hk' as <-. lra.
      * intros k' ip Hk' Hlt. rewrite lookup_app_l in Hk' by done.
        specialize (Hmin _ _ Hk'). lra.
    + assert (Hge : (planet_dist2 tr p <= planet_dist2 tr a.2)%Q).
      { apply Qnot_lt_le. intros Hlt. apply Qltb_lt in Hlt. congruence. }
      exists k, p. split; [by rewrite lookup_app_l|]. split; [done|]. split.
      * intros k' ip Hk'. destruct (decide (k' < length l)%nat) as [Hlt|Hnlt].
        -- rewrite lookup_app_l in Hk' by done. by eapply Hmin.
        -- rewrite lookup_app_r in Hk' by lia.
           destruct (k' - length l)%nat; cbn in Hk'; [|done].
           by injection Hk' as <-.
      * intros k' ip Hk' Hlt. rewrite lookup_app_l in Hk' by lia. by eapply Hfirst.
  - subst l. cbn. exists 0%nat, a.2. split; [by destruct a|]. split; [done|]. split.
    + intros [|k'] ip Hk'; cbn in Hk'; [|done]. injection Hk' as <-. lra.
    + intros k' ip _ Hlt. lia.
Qed.

Lemma indexed_lookup w k i p :
  World.indexed w !! k = Some (i, p) ↔ i = k ∧ World.planets w !! k = Some p.
Proof.
  unfold World.indexed. rewrite lookup_zip_with_Some. split.
  - intros (x & y & [= <- <-] & Hx & Hy). apply lookup_seq in Hx as [-> _]. done.
  - intros [-> Hp]. exists k, p. split; [done|]. split; [|done].
    apply lookup_seq. split; [done|]. by eapply lookup_lt_Some.
Qed.

(** X10 — the target search of [CombatSystem.resolveAttack]: over the
    planets of the match it answers nothing exactly when there is no
    planet; otherwise it answers a planet of the match together with its
    squared distance to the projectile, no planet is nearer, and every
    planet before it in the array is strictly farther (the first of the
    nearest planets wins). *)
Theorem closestPlanet_nearest (tr : Triangle.t) (w : World.t) :
  match CombatSystem.closestPlanet tr (World.indexed w) with
  | (Some i, Some d) =>
      ∃ p, World.planets w !! i = Some p ∧ d = planet_dist2 tr p
           ∧ (∀ j q, World.planets w !! j = Some q → (d <= planet_dist2 tr q)%Q)
           ∧ (∀ j q, World.planets w !! j = Some q → (j < i)%nat →
                     (d < planet_dist2 tr q)%Q)
  | (None, None) => World.planets w = []
  | _ => False
  end.
Proof.
  pose proof (closestPlanet_argmin tr (World.indexed w)) as H.
  destruct (CombatSystem.closestPlanet tr (World.indexed w)) as [[i|] [d|]]; try done.
  - destruct H as (k & p & Hk & -> & Hmin & Hfirst).
    apply indexed_lookup in Hk as [-> Hp].
    exists p. split; [done|]. split; [done|]. split.
    + intros j q Hq. apply (Hmin j (j, q)). by apply indexed_lookup.
    + intros j q Hq Hlt. apply (Hfirst j (j, q)); [|done]. by apply indexed_lookup.
  - unfold World.indexed in H. destruct (World.planets w); [done|]. cbn in H. done.
Qed.

Lemma store_set_game_id s :
  Store.set_game (Store.timer s) (Store.captureTime s) (Store.attacksLaunched s)
                 (Store.planetsConquered s) s = s.
Proof. by destruct s. Qed.

Lemma resolveAttack_conquest_eq tr w target d2 p :
  CombatSystem.closestPlanet tr (World.indexed w) = (Some target, Some d2) →
  (d2 < 50 * 50)%Q →
  World.planets w !! target = Some p →
  Planet.owner p ≠ Triangle.owner tr →
  Planet.hasDefense (World.defenses w) p = false ∨ Planet.owner p = neutral →
  CombatSystem.resolveAttack tr w = conquest_recorded tr target (Planet.owner p) w.
Proof.
  intros Hclosest Hd2 Hp Hown Hdef.
  unfold CombatSystem.resolveAttack. rewrite Hclosest.
  apply Qltb_lt in Hd2. rewrite Hd2, Hp. rewrite decide_False by done.
  assert (Planet.hasDefense (World.defenses w) p
          && negb (bool_decide (Planet.owner p = neutral)) = false) as ->.
  { destruct Hdef as [-> | ->]; [done|]. by rewrite andb_false_r. }
  unfold conquest_recorded. destruct w as [st ? ? ? ? ? ? ? ? ? ? ? ? ? ? ?].
  cbn. destruct (decide (Triangle.owner tr = player));
    destruct (decide (Planet.owner p = player)); cbn;
    rewrite ?Z.add_0_r, ?Nat.add_0_r, ?Nat.add_1_r; try done.
  - by destruct st.
  - by destruct st.
Qed.

Lemma callbacks_ships (cs : list (nat * Owner)) : ∀ ps : list Planet.t,
  Planet.ships <$> foldl (λ (ps : list Planet.t) (c : nat * Owner),
                            alter (Planet.setOwner c.2) c.1 ps) ps cs
  = Planet.ships <$> ps.
Proof.
  induction cs as [|c cs IH]; intros ps; [done|]. cbn [foldl]. rewrite IH.
  apply list_eq. intros i. rewrite !list_lookup_fmap.
  destruct (decide (i = c.1)) as [->|Hne].
  - rewrite list_lookup_alter_eq. by destruct (ps !! c.1).
  - by rewrite list_lookup_alter_ne.
Qed.

(** X11 — a conquest, from the arrival to the change of owner.  When a
    projectile resolves against its nearest planet, within the hit
    radius, owned by somebody else and either undefended or neutral,
    [resolveAttack] changes no planet and no defence: it queues the
    change of owner, counts a conquest if the attacker is the player and
    notifies a lost planet if the old owner is the player.  Once the
    queued callbacks have run the planet belongs to the attacker and
    every planet holds the ships it held.  Until they run the planet
    still has its old owner, so a second arrival of the same projectile
    kind records the same conquest a second time. *)
Theorem resolveAttack_conquest (tr : Triangle.t) (w : World.t) (target : nat) (d2 : Q)
    (p : Planet.t) :
  CombatSystem.closestPlanet tr (World.indexed w) = (Some target, Some d2) →
  (d2 < 50 * 50)%Q →
  World.planets w !! target = Some p →
  Planet.owner p ≠ Triangle.owner tr →
  Planet.hasDefense (World.defenses w) p = false ∨ Planet.owner p = neutral →
  let w' := CombatSystem.resolveAttack tr w in
  let settled := Main.runOwnerCallbacks (length (World.pendingOwner w')) w' in
  let gain := if decide (Triangle.owner tr = player) then 1 else 0 in
  World.planets w' = World.planets w
  ∧ World.defenses w' = World.defenses w
  ∧ World.pendingOwner w' = World.pendingOwner w ++ [(target, Triangle.owner tr)]
  ∧ Store.planetsConquered (World.store w')
    = Store.planetsConquered (World.store w) + gain
  ∧ World.planetLostAlerts w'
    = (World.planetLostAlerts w + if decide (Planet.owner p = player) then 1 else 0)%nat
  ∧ Planet.owner <$> World.planets settled !! target = Some (Triangle.owner tr)
  ∧ Planet.ships <$> World.planets settled = Planet.ships <$> World.planets w
  ∧ World.pendingOwner settled = []
  ∧ Store.planetsConquered (World.store (CombatSystem.resolveAttack tr w'))
    = Store.planetsConquered (World.store w) + 2 * gain.
Proof.
  intros Hclosest Hd2 Hp Hown Hdef. cbn zeta.
  rewrite (resolveAttack_conquest_eq tr w target d2 p) by done.
  assert (Hpl : World.planets (conquest_recorded tr target (Planet.owner p) w)
                = World.planets w) by done.
  split; [done|]. split; [done|]. split; [done|]. split; [done|]. split; [done|].
  split; [|split; [|split]].
  - unfold Main.runOwnerCallbacks. cbn [World.planets World.set_pendingOwner World.set_planets].
    rewrite firstn_all. rewrite Hpl.
    change (World.pendingOwner (conquest_recorded tr target (Planet.owner p) w))
      with (World.pendingOwner w ++ [(target, Triangle.owner tr)]).
    rewrite foldl_app. cbn [foldl fst snd].
    rewrite list_lookup_alter_eq.
    assert (Hlen : (target < length (foldl
               (λ ps (c : nat * Owner), alter (Planet.setOwner c.2) c.1 ps)
               (World.planets w) (World.pendingOwner w)))%nat).
    { rewrite <- (length_fmap Planet.ships), callbacks_ships, length_fmap.
      by eapply lookup_lt_Some. }
    destruct (lookup_lt_is_Some_2 _ _ Hlen) as [q ->]. done.
  - unfold Main.runOwnerCallbacks. cbn [World.planets World.set_pendingOwner World.set_planets].
    rewrite firstn_all, callbacks_ships. by rewrite Hpl.
  - unfold Main.runOwnerCallbacks. cbn [World.pendingOwner World.set_pendingOwner World.set_planets].
    apply drop_all.
  - rewrite (resolveAttack_conquest_eq tr _ target d2 p); [|done..].
    cbn. lia.
Qed.

(** The player's projectile lands on the AI's undefended planet. *)
Lemma resolveAttack_conquest_witness :
  let w' := CombatSystem.resolveAttack landed_on_ai_planet (duel 10 300) in
  Planet.owner <$> World.planets w' = [player; ai]
  ∧ World.pendingOwner w' = [(1%nat, player)]
  ∧ Planet.owner <$> World.planets (Main.runOwnerCallbacks 1 w') !! 1%nat = Some player.
Proof.
  destruct (resolveAttack_conquest landed_on_ai_planet (duel 10 300) 1 0
              (Planet.mk 1 ai generator 10 300 0 None))
    as (H1 & _ & H3 & _ & _ & H6 & _); [by vm_compute..|by left|].
  cbn zeta. rewrite H1. split; [done|]. split; [exact H3|].
  rewrite H3 in H6. exact H6.
Defined.

(** ** The Sun cooldown *)

Lemma economy_frames_owner deltas : ∀ s,
  Store.sunOwner (economy_run (map Decay deltas) s) = Store.sunOwner s.
Proof.
  unfold economy_run. induction deltas as [|d ds IH]; intros s; [done|].
  cbn [map foldl economy_step]. by rewrite IH.
Qed.

Lemma updateSunCooldown_cooldown f d s :
  cooldownOf f (Store.updateSunCooldown d s) = Qmax 0 (cooldownOf f s - d).
Proof. unfold cooldownOf. by destruct (decide (f = player)). Qed.

Lemma canAttackSun_cooldown f s :
  Store.canAttackSun f s = true ↔ Store.sunOwner s = None ∧ (cooldownOf f s <= 0)%Q.
Proof.
  unfold Store.canAttackSun, cooldownOf. destruct (Store.sunOwner s) as [o|].
  - split; [done|]. by intros [? _].
  - destruct (decide (f = player)); rewrite <- Qleb_le; unfold Qleb; tauto.
Qed.

(** Over frames of non-negative length a cooldown stays between 0 and
    what it was, and a cooldown that has run out stays run out. *)
Lemma cooldown_frames f deltas : ∀ s,
  Forall (λ d, 0 <= d)%Q deltas →
  ((0 <= cooldownOf f s)%Q →
   (0 <= cooldownOf f (economy_run (map Decay deltas) s))%Q
   ∧ (cooldownOf f (economy_run (map Decay deltas) s) <= cooldownOf f s)%Q)
  ∧ ((cooldownOf f s <= 0)%Q →
     (cooldownOf f (economy_run (map Decay deltas) s) <= 0)%Q).
Proof.
  unfold economy_run.
  induction deltas as [|d ds IH]; intros s Hds.
  - cbn [map foldl]. split; intros; lra.
  - apply Forall_cons in Hds as [Hd Hds]. cbn [map foldl economy_step].
    destruct (IH (Store.updateSunCooldown d s) Hds) as [IH1 IH2].
    rewrite updateSunCooldown_cooldown in IH1, IH2. split.
    + intros Hs. destruct IH1 as [H0 Hle]; [apply Qmax0_nonneg|].
      split; [exact H0|]. eapply Qle_trans; [exact Hle|]. by apply Qmax0_le.
    + intros Hs. apply IH2. qmax_cases.
Qed.

Lemma inject_Z_sub (a b : Z) : inject_Z (a - b) = (inject_Z a - inject_Z b)%Q.
Proof. unfold Z.sub. by rewrite inject_Z_plus, inject_Z_opp. Qed.

(** On frames of whole ticks the cooldown is what is left of it after
    the ticks elapsed. *)
Lemma cooldown_whole f ticks : ∀ (c : Z) s,
  Forall (λ z, 0 <= z) ticks → 0 <= c → (cooldownOf f s == inject_Z c)%Q →
  (cooldownOf f (economy_run (map Decay (whole_frames ticks)) s)
   == inject_Z (Z.max 0 (c - Zsum ticks)))%Q.
Proof.
  unfold economy_run, whole_frames.
  induction ticks as [|z zs IH]; intros c s Hzs Hc Hs.
  - cbn [fmap list_fmap map foldl Zsum foldr]. rewrite Hs.
    by rewrite Z.sub_0_r, Z.max_r.
  - apply Forall_cons in Hzs as [Hz Hzs]. cbn [fmap list_fmap map foldl economy_step].
    rewrite (IH (Z.max 0 (c - z))); [|done|lia|].
    + cbn [Zsum foldr]. fold (Zsum zs).
      assert (Hsum : 0 <= Zsum zs).
      { clear -Hzs. induction Hzs as [|y ys Hy _ IHy]; cbn; [lia|]. fold (Zsum ys). lia. }
      assert (E : Z.max 0 (Z.max 0 (c - z) - Zsum zs) = Z.max 0 (c - (z + Zsum zs))) by lia.
      by rewrite E.
    + rewrite updateSunCooldown_cooldown, Hs.
      destruct (Z.max_spec 0 (c - z)) as [[Hlt E]|[Hge E]]; rewrite E.
      * rewrite Q.max_r; [by rewrite inject_Z_sub|].
        rewrite <- inject_Z_sub. change 0%Q with (inject_Z 0).
        rewrite <- Zle_Qle. lia.
      * rewrite Q.max_l; [reflexivity|].
        rewrite <- inject_Z_sub. change 0%Q with (inject_Z 0).
        rewrite <- Zle_Qle. lia.
Qed.

(** X12 — the Sun cooldown as a gate.  [canAttackSun] answers true for a
    faction exactly when nobody owns the Sun and the faction's cooldown
    has run out.  Registering a Sun attack sets the faction's cooldown to
    [SUN_ATTACK_COOLDOWN], which closes the gate; each frame then takes
    its length off the cooldown, stopping at 0; over frames of
    non-negative length the cooldown never rises and never goes below 0,
    and a gate that is open stays open.  On frames of whole ticks (one
    tick per frame at a steady 60 frames per second) the cooldown is what
    is left of [SUN_ATTACK_COOLDOWN] after the ticks elapsed, so the gate
    reopens exactly when [SUN_ATTACK_COOLDOWN] ticks have elapsed.  Once
    the Sun has an owner [canAttackSun] answers false whatever happens to
    the economy. *)
Theorem sun_cooldown_gate (f : Owner) (now : Z) (s : Store.t) (deltas : list Q)
    (ticks : list Z) :
  f ≠ neutral →
  Forall (λ d, 0 <= d)%Q deltas →
  Forall (λ z, 0 <= z) ticks →
  let s0 := Store.registerSunAttack f now s in
  (∀ v, Store.canAttackSun f v = true
        ↔ Store.sunOwner v = None ∧ (cooldownOf f v <= 0)%Q)
  ∧ cooldownOf f s0 = GameConfig.SUN_ATTACK_COOLDOWN
  ∧ Store.canAttackSun f s0 = false
  ∧ (∀ d v, cooldownOf f (Store.updateSunCooldown d v) = Qmax 0 (cooldownOf f v - d))
  ∧ ((0 <= cooldownOf f (economy_run (map Decay deltas) s0))%Q
     ∧ (cooldownOf f (economy_run (map Decay deltas) s0) <= GameConfig.SUN_ATTACK_COOLDOWN)%Q)
  ∧ (∀ v, Store.canAttackSun f v = true →
          Store.canAttackSun f (economy_run (map Decay deltas) v) = true)
  ∧ (cooldownOf f (economy_run (map Decay (whole_frames ticks)) s0)
     == inject_Z (Z.max 0 (180 - Zsum ticks)))%Q
  ∧ (Store.sunOwner s = None →
     (Store.canAttackSun f (economy_run (map Decay (whole_frames ticks)) s0) = true
      ↔ 180 <= Zsum ticks))
  ∧ (∀ es o g, Store.sunOwner s = Some o → Store.canAttackSun g (economy_run es s) = false).
Proof.
  intros Hf Hds Hzs s0.
  destruct (registerSunAttack_cooldown f now s Hf) as [Hreg _]. fold s0 in Hreg.
  assert (Hwhole : (cooldownOf f (economy_run (map Decay (whole_frames ticks)) s0)
                    == inject_Z (Z.max 0 (180 - Zsum ticks)))%Q).
  { apply cooldown_whole; [done|lia|by rewrite Hreg]. }
  split; [apply canAttackSun_cooldown|]. split; [exact Hreg|]. split.
  { apply not_true_is_false. intros Hopen. apply canAttackSun_cooldown in Hopen as [_ Hle].
    rewrite Hreg in Hle. by vm_compute in Hle. }
  split; [apply updateSunCooldown_cooldown|]. split.
  { destruct (cooldown_frames f deltas s0 Hds) as [Hrange _].
    rewrite Hreg in Hrange. apply Hrange. by vm_compute. }
  split.
  { intros v Hopen. apply canAttackSun_cooldown in Hopen as [Hown Hle].
    apply canAttackSun_cooldown. rewrite economy_frames_owner. split; [done|].
    by apply (cooldown_frames f deltas v Hds). }
  split; [exact Hwhole|]. split.
  - intros Ho. rewrite canAttackSun_cooldown, economy_frames_owner, Hwhole.
    assert (Hown : Store.sunOwner s0 = None).
    { subst s0. unfold Store.registerSunAttack. by destruct (decide (f = player)). }
    change 0%Q with (inject_Z 0). rewrite <- Zle_Qle.
    split; [intros [_ H]; lia|]. intros H. split; [done|lia].
  - intros es o g Ho.
    assert (Hkeep : Store.sunOwner (economy_run es s) = Some o).
    { clear -Ho. revert s Ho. unfold economy_run.
      induction es as [|e es IH]; intros s Ho; [done|].
      cbn [foldl]. apply IH. destruct e as [o' now'|d]; cbn; [|done].
      unfold Store.registerSunAttack. by destruct (decide (o' = player)). }
    unfold Store.canAttackSun. by rewrite Hkeep.
Qed.

(** The player attacks the Sun; 179 ticks later the gate is closed, one
    tick later it is open. *)
Lemma sun_cooldown_gate_witness :
  let s := Store.registerSunAttack player 1000 Store.initial in
  Store.canAttackSun player s = false
  ∧ Store.canAttackSun player (economy_run (map Decay (whole_frames [100; 79])) s) = false
  ∧ Store.canAttackSun player (economy_run (map Decay (whole_frames [100; 79; 1])) s) = true.
Proof.
  cbn zeta. split; [|split].
  - destruct (sun_cooldown_gate player 1000 Store.initial [] [])
      as (_ & _ & Hshut & _); [done|constructor|constructor|exact Hshut].
  - destruct (sun_cooldown_gate player 1000 Store.initial [] [100; 79])
      as (_ & _ & _ & _ & _ & _ & _ & Hgate & _);
      [done|constructor|repeat constructor; lia|].
    apply not_true_is_false. intros Hopen. apply (Hgate eq_refl) in Hopen.
    by vm_compute in Hopen.
  - destruct (sun_cooldown_gate player 1000 Store.initial [] [100; 79; 1])
      as (_ & _ & _ & _ & _ & _ & _ & Hgate & _);
      [done|constructor|repeat constructor; lia|].
    apply (Hgate eq_refl). by vm_compute.
Defined.

(** ** The end of the match, continued *)

Lemma checkWinCondition_over w :
  World.gameOver w = true → GameManager.checkWinCondition w = (true, w).
Proof. intros H. unfold GameManager.checkWinCondition. by rewrite H. Qed.

Lemma checkWinCondition_sets_over w :
  (GameManager.checkWinCondition w).1 = true →
  World.gameOver (GameManager.checkWinCondition w).2 = true.
Proof.
  unfold GameManager.checkWinCondition.
  destruct (World.gameOver w) eqn:Hover; [done|].
  destruct (decide (Store.sunOwner (World.store w) = Some player)).
  { by destruct (Store.gameMode (World.store w)), (Store.timeAttackMode (World.store w)). }
  destruct (decide (Store.sunOwner (World.store w) = Some ai)); [done|].
  destruct (Store.timer (World.store w) <=? 0); [|done].
  by destruct (_ <? _)%nat.
Qed.

Lemma tick_over Math_sqrt delta now rand w :
  World.gameOver w = true → Main.tick Math_sqrt delta now rand w = w.
Proof. intros H. unfold Main.tick. by rewrite checkWinCondition_over. Qed.

(** X13 — the end of a match is final.  [checkWinCondition] answers
    false, and changes nothing, exactly when the match is not over, the
    Sun belongs to neither faction and the countdown is above 0.  When
    it answers true the match is over from then on: every later check
    answers true without touching anything, so the end screen decided
    first is never replaced, and every later frame of the game loop
    leaves the whole match as it is. *)
Theorem match_end_final (Math_sqrt : Q → Q) (w : World.t) :
  let r := GameManager.checkWinCondition w in
  (r.1 = false ↔ World.gameOver w = false
                 ∧ Store.sunOwner (World.store w) ≠ Some player
                 ∧ Store.sunOwner (World.store w) ≠ Some ai
                 ∧ 0 < Store.timer (World.store w))
  ∧ (r.1 = false → r.2 = w)
  ∧ (r.1 = true →
     World.gameOver r.2 = true
     ∧ GameManager.checkWinCondition r.2 = (true, r.2)
     ∧ ∀ frames : list (Q * Z * (nat → Q)),
         foldl (λ v '(delta, now, rand), Main.tick Math_sqrt delta now rand v) r.2 frames
         = r.2).
Proof.
  cbn zeta. split; [|split].
  - unfold GameManager.checkWinCondition.
    destruct (World.gameOver w) eqn:Hover; [cbn; split; [done|by intros [? _]]|].
    destruct (decide (Store.sunOwner (World.store w) = Some player)).
    { cbn. split; [done|]. by intros (_ & ? & _). }
    destruct (decide (Store.sunOwner (World.store w) = Some ai)).
    { cbn. split; [done|]. by intros (_ & _ & ? & _). }
    destruct (Z.leb_spec (Store.timer (World.store w)) 0).
    { destruct (_ <? _)%nat; cbn; (split; [done|]); intros (_ & _ & _ & ?); lia. }
    cbn. split; [|done]. intros _. done.
  - unfold GameManager.checkWinCondition.
    destruct (World.gameOver w) eqn:Hover; [done|].
    destruct (decide (Store.sunOwner (World.store w) = Some player)); [done|].
    destruct (decide (Store.sunOwner (World.store w) = Some ai)); [done|].
    destruct (Store.timer (World.store w) <=? 0); [|done].
    by destruct (_ <? _)%nat.
  - intros Htrue. pose proof (checkWinCondition_sets_over w Htrue) as Hover.
    split; [done|]. split; [by apply checkWinCondition_over|].
    intros frames. induction frames as [|[[delta now] rand] frames IH]; [done|].
    cbn [foldl]. by rewrite tick_over.
Qed.

(** ** The start of a match and the countdown *)

(** X14 — the store at the start of a match.  Whatever the store held
    before, after the play button and [initGame] the mode is the selected
    one (classic when time attack was selected without a limit), the
    countdown is the duration of that mode (the chosen limit in time
    attack), the Sun has full HP and no owner, both factions may attack
    it at the base cost, and the statistics are 0.  [reset] and
    [resetGame] are the same function; neither writes [captureTime],
    which survives from the previous match; and [resetGame] alone sets
    the countdown of a time-attack match to the classic duration, the
    chosen limit being restored by the [setGameMode] call of [initGame]. *)
Theorem match_start_store (mode : GameMode) (ta : option TimeAttackMode) (s : Store.t) :
  let s' := initGame_store (playButton_pointerup mode ta s) in
  Store.gameMode s'
  = match mode, ta with timeattack, None => classic | _, _ => mode end
  ∧ Store.timer s'
    = match mode, ta with
      | quick, _ => GameConfig.duration GameConfig.QUICK
      | timeattack, Some m => GameConfig.TIME_ATTACK_MODES m
      | _, _ => GameConfig.duration GameConfig.CLASSIC
      end
  ∧ (Store.sunHP s', Store.sunOwner s') = (GameConfig.SUN_MAX_HP, None)
  ∧ sunEconomy s' = sunEconomy Store.initial
  ∧ (∀ o, Store.canAttackSun o s' = true)
  ∧ Store.getSunAttackCost s' = GameConfig.ATTACK_COST_BASE
  ∧ (Store.attacksLaunched s', Store.planetsConquered s') = (0, 0)
  ∧ Store.captureTime s' = Store.captureTime s
  ∧ Store.reset s = Store.resetGame s
  ∧ (∀ m, Store.timer (Store.resetGame (playButton_pointerup timeattack (Some m) s))
          = GameConfig.duration GameConfig.CLASSIC).
Proof.
  cbn zeta. unfold initGame_store, playButton_pointerup.
  split; [by destruct mode, ta|]. split; [by destruct mode, ta|].
  split; [by destruct mode, ta|]. split; [by destruct mode, ta|].
  split; [intros o; by destruct mode, ta, o|].
  split; [by destruct mode, ta|]. split; [by destruct mode, ta|].
  split; [by destruct mode, ta|]. split; [done|]. done.
Qed.

Lemma decrementTimer_iter n : ∀ s,
  0 <= Store.timer s →
  Nat.iter n Store.decrementTimer s
  = Store.set_game (Z.max 0 (Store.timer s - Z.of_nat n)) (Store.captureTime s)
                   (Store.attacksLaunched s) (Store.planetsConquered s) s.
Proof.
  induction n as [|n IH]; intros s Hs.
  - cbn. rewrite Z.sub_0_r, Z.max_r by done. by destruct s.
  - rewrite Nat.iter_succ, IH by done. destruct s.
    unfold Store.decrementTimer, Store.set_game.
    cbn -[Z.max Z.of_nat] in *. f_equal. lia.
Qed.

(** X15 — the countdown.  From a countdown that is not negative, [n]
    firings of the one-second timer leave [max 0 (timer - n)] on the
    clock, never a negative number, and write nothing else in the store.
    In a match that is not over and whose Sun nobody has captured, the
    win-condition check then ends the match exactly when [n] has reached
    the countdown the match started with. *)
Theorem countdown_timeout (n : nat) (w : World.t) :
  0 <= Store.timer (World.store w) →
  World.gameOver w = false →
  Store.sunOwner (World.store w) = None →
  let w' := after_seconds n w in
  Store.timer (World.store w') = Z.max 0 (Store.timer (World.store w) - Z.of_nat n)
  ∧ 0 <= Store.timer (World.store w')
  ∧ World.store w'
    = Store.set_game (Store.timer (World.store w')) (Store.captureTime (World.store w))
        (Store.attacksLaunched (World.store w)) (Store.planetsConquered (World.store w))
        (World.store w)
  ∧ ((GameManager.checkWinCondition w').1 = true
     ↔ Store.timer (World.store w) <= Z.of_nat n).
Proof.
  intros Htimer Hover Hsun. cbn zeta. unfold after_seconds.
  cbn [World.store World.set_store]. rewrite decrementTimer_iter by done.
  cbn [Store.timer Store.set_game].
  split; [done|]. split; [lia|]. split; [done|].
  unfold GameManager.checkWinCondition.
  cbn [World.gameOver World.set_store World.store Store.sunOwner Store.timer Store.set_game].
  rewrite Hover, Hsun. rewrite !decide_False by done.
  destruct (Z.leb_spec (Z.max 0 (Store.timer (World.store w) - Z.of_nat n)) 0) as [Hle|Hgt].
  - destruct (_ <? _)%nat; cbn; (split; [lia|done]).
  - cbn. split; [done|lia].
Qed.

(** A quick match of one planet each: running at 59 seconds, lost on
    time at 60. *)
Lemma countdown_timeout_witness :
  let w := World.set_store (initGame_store (playButton_pointerup quick None Store.initial))
                           (duel 10 300) in
  (GameManager.checkWinCondition (after_seconds 59 w)).1 = false
  ∧ (GameManager.checkWinCondition (after_seconds 60 w)).1 = true.
Proof.
  cbn zeta. split.
  - destruct (countdown_timeout 59
                (World.set_store (initGame_store (playButton_pointerup quick None Store.initial))
                                 (duel 10 300)))
      as (_ & _ & _ & Hiff); [by vm_compute|done|done|].
    apply not_true_is_false. intros Hend. apply Hiff in Hend. by vm_compute in Hend.
  - destruct (countdown_timeout 60
                (World.set_store (initGame_store (playButton_pointerup quick None Store.initial))
                                 (duel 10 300)))
      as (_ & _ & _ & Hiff); [by vm_compute|done|done|].
    apply Hiff. by vm_compute.
Defined.

(** ** Production *)

Lemma produced_0 p : produced 0 p = p.
Proof.
  unfold produced. destruct (decide _); [done|].
  change (Z.of_nat 0) with 0. rewrite Z.mul_0_l, Z.add_0_r. by destruct p.
Qed.

Lemma produced_S k p :
  produced k (if decide (Planet.owner p = neutral) then p
              else Planet.addShips (Planet.getProduction p) p)
  = produced (S k) p.
Proof.
  unfold produced. destruct (decide (Planet.owner p = neutral)) as [Hn|Hn].
  - by rewrite decide_True.
  - change (Planet.owner (Planet.addShips (Planet.getProduction p) p))
      with (Planet.owner p).
    rewrite decide_False by done.
    change (Planet.getProduction (Planet.addShips (Planet.getProduction p) p))
      with (Planet.getProduction p).
    generalize (Planet.getProduction p) as g. intros g.
    destruct p. unfold Planet.addShips, Planet.set_ships.
    cbn [Planet.id Planet.owner Planet.type Planet.ships Planet.x Planet.y
         Planet.defenseTriangle].
    f_equal. lia.
Qed.

Lemma production_generateShips w :
  World.planets (ProductionSystem.generateShips w) = produced 1 <$> World.planets w.
Proof.
  unfold ProductionSystem.generateShips. cbn. apply list_fmap_ext. intros _ p _.
  rewrite <- produced_S. by rewrite produced_0.
Qed.

(** Any frames: at most one firing per frame, and the accumulator stays
    in [[0, 60)] when it starts there and every frame is shorter than 60
    ticks. *)
Lemma production_run_spec deltas : ∀ w,
  ∃ k : nat,
    (k ≤ length deltas)%nat
    ∧ World.planets (production_run deltas w) = produced k <$> World.planets w
    ∧ ((0 <= World.accumulator w)%Q ∧ (World.accumulator w < 60)%Q →
       Forall (λ d, 0 <= d ∧ d < 60)%Q deltas →
       (0 <= World.accumulator (production_run deltas w))%Q
       ∧ (World.accumulator (production_run deltas w) < 60)%Q).
Proof.
  unfold production_run.
  induction deltas as [|d ds IH]; intros w.
  - exists 0%nat. cbn [foldl length]. split; [done|].
    split; [|done]. rewrite <- (list_fmap_id (World.planets w)) at 1.
    apply list_fmap_ext. intros _ p _. by rewrite produced_0.
  - cbn [foldl]. destruct (IH (ProductionSystem.update d w)) as (k & Hk & Hpl & Hb).
    unfold ProductionSystem.update in *.
    cbn [World.accumulator World.set_accumulator] in *.
    cbn [length].
    destruct (Qleb 60 (World.accumulator w + d)) eqn:Hfire.
    + apply Qleb_le in Hfire. exists (S k). split; [lia|].
      split.
      { rewrite Hpl. cbn [World.planets ProductionSystem.generateShips World.set_planets
                          World.set_accumulator].
        rewrite <- list_fmap_compose. apply list_fmap_ext. intros _ p _.
        apply produced_S. }
      intros [H0 H60] Hds. apply Forall_cons in Hds as [[Hd0 Hd60] Hds].
      apply Hb; [|done].
      cbn [World.accumulator ProductionSystem.generateShips World.set_planets
           World.set_accumulator]. split; lra.
    + assert (Hno : (World.accumulator w + d < 60)%Q).
      { apply Qnot_le_lt. intros Hle. apply Qleb_le in Hle. congruence. }
      exists k. split; [lia|]. split; [done|].
      intros [H0 H60] Hds. apply Forall_cons in Hds as [[Hd0 Hd60] Hds].
      apply Hb; [|done]. cbn [World.accumulator World.set_accumulator]. split; lra.
Qed.

Lemma production_update_eq d w :
  ProductionSystem.update d w
  = if Qleb 60 (World.accumulator w + d)
    then ProductionSystem.generateShips
           (World.set_accumulator (World.accumulator w + d - 60)%Q
              (World.set_accumulator (World.accumulator w + d)%Q w))
    else World.set_accumulator (World.accumulator w + d)%Q w.
Proof. done. Qed.

(** Frames of whole ticks, from a whole accumulator: the number of
    firings and the accumulator are the quotient and the remainder of the
    elapsed ticks by 60. *)
Lemma production_whole ticks : ∀ (a : Z) w,
  Forall (λ z, 0 <= z < 60) ticks → 0 <= a < 60 →
  (World.accumulator w == inject_Z a)%Q →
  World.planets (production_run (whole_frames ticks) w)
  = produced (Z.to_nat ((a + Zsum ticks) / 60)) <$> World.planets w
  ∧ (World.accumulator (production_run (whole_frames ticks) w)
     == inject_Z ((a + Zsum ticks) mod 60))%Q.
Proof.
  unfold production_run, whole_frames.
  induction ticks as [|z zs IH]; intros a w Hzs Ha Hw.
  - cbn [fmap list_fmap foldl Zsum foldr]. rewrite Z.add_0_r.
    rewrite Z.div_small, Z.mod_small by done. split; [|done].
    rewrite <- (list_fmap_id (World.planets w)) at 1.
    apply list_fmap_ext. intros _ p _. by rewrite produced_0.
  - apply Forall_cons in Hzs as [Hz Hzs]. cbn [fmap list_fmap foldl Zsum foldr].
    fold (Zsum zs).
    assert (Hsum : 0 <= Zsum zs).
    { clear -Hzs. induction Hzs as [|y ys Hy _ IHy]; cbn; [lia|]. fold (Zsum ys). lia. }
    rewrite (production_update_eq (inject_Z z) w).
    assert (Hacc : (World.accumulator w + inject_Z z == inject_Z (a + z))%Q).
    { by rewrite Hw, inject_Z_plus. }
    destruct (Qleb 60 (World.accumulator w + inject_Z z)) eqn:Hfire.
    + apply Qleb_le in Hfire. rewrite Hacc in Hfire.
      change 60%Q with (inject_Z 60) in Hfire. rewrite <- Zle_Qle in Hfire.
      destruct (IH (a + z - 60)
                  (ProductionSystem.generateShips
                     (World.set_accumulator (World.accumulator w + inject_Z z - 60)%Q
                        (World.set_accumulator (World.accumulator w + inject_Z z)%Q w))))
        as [Hpl Hrest]; [done|lia| |].
      { cbn [World.accumulator ProductionSystem.generateShips World.set_planets
             World.set_accumulator].
        rewrite Hacc, inject_Z_sub. reflexivity. }
      assert (Eq : (a + (z + Zsum zs)) / 60 = (a + z - 60 + Zsum zs) / 60 + 1).
      { replace (a + (z + Zsum zs)) with (a + z - 60 + Zsum zs + 1 * 60) by lia.
        by rewrite Z.div_add. }
      assert (Em : (a + (z + Zsum zs)) mod 60 = (a + z - 60 + Zsum zs) mod 60).
      { replace (a + (z + Zsum zs)) with (a + z - 60 + Zsum zs + 1 * 60) by lia.
        by rewrite Z.mod_add. }
      rewrite Eq, Em. split; [|exact Hrest].
      rewrite Hpl. cbn [World.planets ProductionSystem.generateShips World.set_planets
                        World.set_accumulator].
      rewrite <- list_fmap_compose.
      assert (Hq : 0 <= (a + z - 60 + Zsum zs) / 60) by (apply Z.div_pos; lia).
      rewrite Z2Nat.inj_add, Nat.add_1_r by lia.
      apply list_fmap_ext. intros _ p _. apply produced_S.
    + assert (Hno : (World.accumulator w + inject_Z z < 60)%Q).
      { apply Qnot_le_lt. intros Hle. apply Qleb_le in Hle. congruence. }
      rewrite Hacc in Hno. change 60%Q with (inject_Z 60) in Hno.
      rewrite <- Zlt_Qlt in Hno.
      destruct (IH (a + z) (World.set_accumulator (World.accumulator w + inject_Z z)%Q w))
        as [Hpl Hrest]; [done|lia|exact Hacc|].
      replace (a + (z + Zsum zs)) with (a + z + Zsum zs) by lia.
      split; [exact Hpl|exact Hrest].
Qed.

(** X16 — production over frames.  A frame fires the production system
    exactly when the accumulator plus the frame delta reaches 60 ticks; a
    firing takes 60 ticks off the accumulator and gives every planet that
    is not neutral its production, once, however long the frame was.
    So over any frames the system fires at most once per frame, and
    after [k] firings every planet that is not neutral holds [k] times
    its production more than before while neutral planets hold what they
    held.  When the accumulator starts in [[0, 60)] and every frame is
    shorter than 60 ticks, it stays in [[0, 60)].  On frames of whole
    ticks (one tick per frame at a steady 60 frames per second) the
    number of firings and the accumulator are the quotient and the
    remainder by 60 of the ticks accumulated. *)
Theorem production_over_frames (deltas : list Q) (ticks : list Z) (a : Z) (w : World.t) :
  (∀ d v,
     let v' := ProductionSystem.update d v in
     ((60 <= World.accumulator v + d)%Q →
      World.planets v' = produced 1 <$> World.planets v
      ∧ World.accumulator v' = (World.accumulator v + d - 60)%Q)
     ∧ ((World.accumulator v + d < 60)%Q →
        World.planets v' = World.planets v
        ∧ World.accumulator v' = (World.accumulator v + d)%Q))
  ∧ (∃ k : nat,
       (k ≤ length deltas)%nat
       ∧ World.planets (production_run deltas w) = produced k <$> World.planets w)
  ∧ ((0 <= World.accumulator w)%Q ∧ (World.accumulator w < 60)%Q →
     Forall (λ d, 0 <= d ∧ d < 60)%Q deltas →
     (0 <= World.accumulator (production_run deltas w))%Q
     ∧ (World.accumulator (production_run deltas w) < 60)%Q)
  ∧ (Forall (λ z, 0 <= z < 60) ticks → 0 <= a < 60 →
     (World.accumulator w == inject_Z a)%Q →
     World.planets (production_run (whole_frames ticks) w)
     = produced (Z.to_nat ((a + Zsum ticks) / 60)) <$> World.planets w
     ∧ (World.accumulator (production_run (whole_frames ticks) w)
        == inject_Z ((a + Zsum ticks) mod 60))%Q).
Proof.
  split; [|split; [|split]].
  - intros d v. cbn zeta. unfold ProductionSystem.update.
    cbn [World.accumulator World.set_accumulator]. split.
    + intros Hfire. apply Qleb_le in Hfire. rewrite Hfire.
      split; [|done]. by rewrite production_generateShips.
    + intros Hno. destruct (Qleb 60 (World.accumulator v + d)) eqn:E; [|done].
      apply Qleb_le in E. lra.
  - destruct (production_run_spec deltas w) as (k & Hk & Hpl & _). by exists k.
  - destruct (production_run_spec deltas w) as (k & _ & _ & Hb). exact Hb.
  - apply production_whole.
Qed.

(** Two seconds of frames of 40 ticks: the player's standard planet and
    the AI's generator of [duel]. *)
Example production_two_seconds :
  Planet.ships <$> World.planets (production_run (whole_frames [40; 40; 40]) (duel 10 300))
  = [12; 14]
  ∧ (World.accumulator (production_run (whole_frames [40; 40; 40]%Z) (duel 10 300)) == 0)%Q.
Proof. by vm_compute. Qed.

(** ** Whose ships a decision spends *)

Lemma spends_only_refl o w : spends_only o w w.
Proof. by split. Qed.

Lemma spends_only_alter o w w' src (f : Planet.t → Planet.t) :
  World.planets w' = alter f src (World.planets w) →
  (∀ q, Planet.owner (f q) = Planet.owner q) →
  (∀ p, World.planets w !! src = Some p → Planet.owner p = o) →
  spends_only o w w'.
Proof.
  intros Hpl Hf Hsrc. split; rewrite Hpl.
  - apply list_eq. intros i. rewrite !list_lookup_fmap.
    destruct (decide (i = src)) as [->|Hne].
    + rewrite list_lookup_alter_eq. destruct (World.planets w !! src); [|done].
      cbn. by rewrite Hf.
    + by rewrite list_lookup_alter_ne.
  - intros i p Hp Ho. destruct (decide (i = src)) as [->|Hne].
    + by specialize (Hsrc p Hp).
    + by rewrite list_lookup_alter_ne.
Qed.

Lemma owned_by_lookup o w i p :
  (i, p) ∈ World.owned_by o w → World.planets w !! i = Some p ∧ Planet.owner p = o.
Proof.
  unfold World.owned_by. rewrite list_elem_of_filter. intros [Ho Hin].
  apply list_elem_of_lookup in Hin as [k Hk].
  apply indexed_lookup in Hk as [-> Hp]. done.
Qed.

(** The searches keep either the running answer or the index of the
    planet at hand, so what they answer is the index of a candidate. *)
Lemma fold_pick {A B : Type} (f : option nat * B → nat * A → option nat * B)
    (l : list (nat * A)) :
  (∀ acc ip, f acc ip = acc ∨ (f acc ip).1 = Some ip.1) →
  ∀ acc i, (foldl f acc l).1 = Some i → acc.1 = Some i ∨ ∃ a, (i, a) ∈ l.
Proof.
  intros Hf. induction l as [|ip l IH]; intros acc i; cbn [foldl]; [by left|].
  intros H. apply IH in H as [H|[a Ha]].
  - destruct (Hf acc ip) as [E|E].
    + rewrite E in H. by left.
    + rewrite E in H. injection H as <-. right. exists ip.2.
      destruct ip; cbn. apply list_elem_of_here.
  - right. exists a. by apply list_elem_of_further.
Qed.

Lemma findBestPlanetForAttack_candidate Math_sqrt sources target i :
  AISystem.findBestPlanetForAttack Math_sqrt sources target = Some i →
  ∃ p, (i, p) ∈ sources.
Proof.
  unfold AISystem.findBestPlanetForAttack. cbn zeta. intros H.
  apply fold_pick in H as [H|H]; [done|done|].
  intros acc ip. destruct (_ <=? _); [|by left]. destruct (Qltb _ _); [by right|by left].
Qed.

Lemma findStrategicPlanetToDefend_candidate Math_sqrt aiPlanets w i :
  AISystem.findStrategicPlanetToDefend Math_sqrt aiPlanets w = Some i →
  ∃ p, (i, p) ∈ aiPlanets.
Proof.
  unfold AISystem.findStrategicPlanetToDefend. cbn zeta. intros H.
  apply fold_pick in H as [H|H]; [done|done|].
  intros acc ip. destruct (Planet.hasDefense _ _); [by left|].
  destruct (Qltb _ _); [by right|by left].
Qed.

Lemma findBestPlanetForSunAttack_candidate Math_sqrt aiPlanets w i :
  AISystem.findBestPlanetForSunAttack Math_sqrt aiPlanets w = Some i →
  ∃ p, (i, p) ∈ aiPlanets.
Proof.
  unfold AISystem.findBestPlanetForSunAttack. cbn zeta. intros H.
  apply fold_pick in H as [H|H]; [done|done|].
  intros acc ip. destruct (_ <=? _); [|by left]. destruct (lt_inf _ _); [by right|by left].
Qed.

Lemma ai_attackPlanet_spends Math_sqrt s t w :
  (∀ p, World.planets w !! s = Some p → Planet.owner p = ai) →
  spends_only ai w (AISystem.attackPlanet Math_sqrt s t w).
Proof.
  intros Hs. unfold AISystem.attackPlanet.
  destruct (World.planets w !! s) as [src|] eqn:Hsrc; [|apply spends_only_refl].
  destruct (World.planets w !! t) as [tgt|]; [|apply spends_only_refl].
  destruct (_ <? _); [apply spends_only_refl|].
  eapply spends_only_alter; [by rewrite ai_launch_planets| |].
  - intros q. unfold Planet.removeShips. by destruct (_ <=? _).
  - intros p. rewrite Hsrc. intros [= <-]. by apply Hs.
Qed.

Lemma ai_attackSun_spends s now w :
  (∀ p, World.planets w !! s = Some p → Planet.owner p = ai) →
  spends_only ai w (AISystem.attackSun s now w).
Proof.
  intros Hs. unfold AISystem.attackSun.
  destruct (World.planets w !! s) as [src|] eqn:Hsrc; [|apply spends_only_refl].
  destruct (negb _); [apply spends_only_refl|].
  destruct (_ <? _); [apply spends_only_refl|].
  eapply spends_only_alter; [by rewrite ai_launch_planets| |].
  - intros q. unfold Planet.removeShips. by destruct (_ <=? _).
  - intros p. rewrite Hsrc. intros [= <-]. by apply Hs.
Qed.

Lemma ai_defend_spends pl w :
  (∀ p, World.planets w !! pl = Some p → Planet.owner p = ai) →
  spends_only ai w (AISystem.defendPlanet pl w).
Proof.
  intros Hs. unfold AISystem.defendPlanet.
  destruct (World.planets w !! pl) as [p0|] eqn:Hp; [|apply spends_only_refl].
  destruct (_ || _); [apply spends_only_refl|].
  eapply spends_only_alter; [done| |].
  - intros q. unfold Planet.removeShips. by destruct (_ <=? _).
  - intros p. rewrite Hp. intros [= <-]. by apply Hs.
Qed.

Lemma tryAttack_spends Math_sqrt target w w' :
  AISystem.tryAttack Math_sqrt (World.owned_by ai w) target w = Some w' →
  spends_only ai w w'.
Proof.
  unfold AISystem.tryAttack. destruct target as [tgt|]; [|done].
  destruct (AISystem.findBestPlanetForAttack _ _ _) as [source|] eqn:E; [|done].
  intros [= <-]. apply ai_attackPlanet_spends. intros p Hp.
  apply findBestPlanetForAttack_candidate in E as [q Hq].
  apply owned_by_lookup in Hq as [Hq Ho]. congruence.
Qed.

Lemma tryAttack_default_spends Math_sqrt target w :
  spends_only ai w
    (default w (AISystem.tryAttack Math_sqrt (World.owned_by ai w) target w)).
Proof.
  destruct (AISystem.tryAttack _ _ _ _) as [w'|] eqn:E; cbn;
    [by eapply tryAttack_spends|apply spends_only_refl].
Qed.

Lemma makeDecision_spends Math_sqrt now rand w :
  spends_only ai w (AISystem.makeDecision Math_sqrt now rand w).
Proof.
  unfold AISystem.makeDecision. cbn zeta.
  destruct (decide _); [apply spends_only_refl|].
  match goal with |- spends_only _ _ (match ?s with _ => _ end) =>
    destruct s as [sp|] eqn:Hsp end.
  { apply ai_defend_spends. intros p Hp.
    match type of Hsp with (if ?c then _ else _) = _ => destruct c end; [|done].
    destruct (AISystem.findStrategicPlanetToDefend _ _ _) as [sp'|] eqn:F; [|done].
    apply findStrategicPlanetToDefend_candidate in F as [q Hq].
    apply owned_by_lookup in Hq as [Hq Ho].
    rewrite Hq in Hsp.
    match type of Hsp with (if ?c then _ else _) = _ => destruct c end; [|done].
    injection Hsp as <-. congruence. }
  match goal with |- spends_only _ _ (match ?s with _ => _ end) =>
    destruct s as [bp|] eqn:Hbp end.
  { apply ai_attackSun_spends. intros p Hp.
    match type of Hbp with (if ?c then _ else _) = _ => destruct c end; [|done].
    apply findBestPlanetForSunAttack_candidate in Hbp as [q Hq].
    apply owned_by_lookup in Hq as [Hq Ho]. congruence. }
  clear Hsp Hbp. destruct (World.aiStrategy w).
  - destruct (AISystem.tryAttack _ _ _ _) as [w'|] eqn:E;
      [by eapply tryAttack_spends|apply tryAttack_default_spends].
  - match goal with |- spends_only _ _ (match ?s with _ => _ end) => destruct s eqn:E end.
    + match type of E with (if ?c then _ else _) = _ => destruct c end; [|done].
      by eapply tryAttack_spends.
    + destruct (decide _); apply tryAttack_default_spends.
  - match goal with |- spends_only _ _ (match ?s with _ => _ end) => destruct s eqn:E end.
    + match type of E with (if ?c then _ else _) = _ => destruct c end; [|done].
      by eapply tryAttack_spends.
    + apply tryAttack_default_spends.
Qed.

Lemma handleSunClick_spends Math_sqrt now w :
  spends_only player w (InputManager.handleSunClick Math_sqrt now w).
Proof.
  unfold InputManager.handleSunClick.
  destruct (Sun.owner _); [apply spends_only_refl|].
  destruct (negb _); [apply spends_only_refl|].
  destruct (_ <? _); [apply spends_only_refl|]. cbn zeta.
  match goal with |- spends_only _ _ (match ?s with _ => _ end) =>
    destruct s as [bp|] eqn:Hbp end; [|apply spends_only_refl].
  apply fold_pick in Hbp as [Hbp|[q Hq]]; [done| |].
  2:{ intros acc ip. destruct (_ && _); [by right|by left]. }
  apply owned_by_lookup in Hq as [Hq Ho].
  unfold InputManager.attackSun. rewrite Hq.
  destruct (_ <? _); [apply spends_only_refl|].
  eapply spends_only_alter; [by rewrite player_launch_planets| |].
  - intros p. unfold Planet.removeShips. by destruct (_ <=? _).
  - intros p. rewrite Hq. by intros [= <-].
Qed.

(** X17 — whose ships a decision spends.  A whole decision of the AI
    ([makeDecision], whatever the strategy, the clock and the random
    draws) changes the owner of no planet and leaves every planet that is
    not the AI's exactly as it was; a click on the Sun does the same for
    the player: it changes no owner and touches only planets of the
    player. *)
Theorem decisions_spend_own_ships (Math_sqrt : Q → Q) (now : Z) (rand : nat → Q)
    (w : World.t) :
  spends_only ai w (AISystem.makeDecision Math_sqrt now rand w)
  ∧ spends_only player w (InputManager.handleSunClick Math_sqrt now w).
Proof. split; [apply makeDecision_spends|apply handleSunClick_spends]. Qed.

(** ** Projectiles in flight and the pool *)

Lemma flying_same L w w' :
  World.trianglePool w' = World.trianglePool w →
  length (World.triangles w') = length (World.triangles w) →
  flying L w → flying L w'.
Proof.
  intros Hp Hl (Hwf & Hnd & Huse). unfold flying, pool_wf in *. cbn [fst snd] in *.
  rewrite Hp, Hl. done.
Qed.

Lemma flights_wf_projectiles w w' :
  projectiles w' = projectiles w → flights_wf w → flights_wf w'.
Proof.
  unfold projectiles. intros [= Ht Hp Hpl Hai]. unfold flights_wf, flights.
  rewrite Hpl, Hai. apply flying_same; [done|by rewrite Ht].
Qed.

Lemma flying_drop pre (r : ref) post w :
  flying (pre ++ r :: post) w → flying (pre ++ post) w.
Proof.
  intros (Hwf & Hnd & Huse). split; [done|]. split.
  - rewrite <- Permutation_middle in Hnd. by apply NoDup_cons in Hnd as [_ Hnd].
  - intros x Hx. apply Huse. rewrite <- Permutation_middle.
    by apply list_elem_of_further.
Qed.

Lemma flying_release pre (r : ref) post w :
  flying (pre ++ r :: post) w → flying (pre ++ post) (World.pool_release r w).
Proof.
  intros (Hwf & Hnd & Huse).
  assert (Hr : in_use (World.trianglePool w) r).
  { apply Huse. rewrite <- Permutation_middle. apply list_elem_of_here. }
  destruct (release_wf_active Triangle.reset _ _ r Hwf Hr) as (_ & _ & _ & Hoth & _ & Hwf').
  rewrite <- Permutation_middle in Hnd. apply NoDup_cons in Hnd as [Hnotin Hnd].
  unfold World.pool_release. split.
  { by destruct (ObjectPool.release _ _ _). }
  split; [done|]. intros x Hx.
  assert (x ≠ r) by (by intros ->).
  cbn [World.trianglePool World.set_pool]. apply Hoth; [done|].
  apply Huse. rewrite <- Permutation_middle. by apply list_elem_of_further.
Qed.

Lemma loop_down_flying (body : ref → World.t → bool * World.t) :
  (∀ pre r post w,
     flying (pre ++ r :: post) w →
     flying (pre ++ (if (body r w).1 then [] else [r]) ++ post) (body r w).2) →
  ∀ l pre post w,
    flying (pre ++ l ++ post) w →
    flying (pre ++ (loop_down body l w).1 ++ post) (loop_down body l w).2.
Proof.
  intros Hbody. induction l as [|r rest IH]; intros pre post w H; [done|].
  cbn [loop_down].
  specialize (IH (pre ++ [r]) post w).
  rewrite <- !(assoc_L (++)) in IH. specialize (IH H).
  destruct (loop_down body rest w) as [rest' w1]. cbn [fst snd] in IH.
  specialize (Hbody pre r (rest' ++ post) w1 IH).
  destruct (body r w1) as [[|] w2]; cbn [fst snd] in *; done.
Qed.

Lemma loop_down_field {A : Type} (f : World.t → A)
    (body : ref → World.t → bool * World.t) :
  (∀ r w, f (body r w).2 = f w) →
  ∀ l w, f (loop_down body l w).2 = f w.
Proof.
  intros Hbody. induction l as [|r rest IH]; intros w; [done|].
  cbn [loop_down]. specialize (IH w).
  destruct (loop_down body rest w) as [rest' w1]. cbn [snd] in IH.
  specialize (Hbody r w1). destruct (body r w1) as [b w2]. cbn [snd] in *.
  congruence.
Qed.

Lemma loop_down_keeps (body : ref → World.t → bool * World.t) :
  (∀ r w, (body r w).1 = false) → ∀ l w, (loop_down body l w).1 = l.
Proof.
  intros Hbody. induction l as [|r rest IH]; intros w; [done|].
  cbn [loop_down]. specialize (IH w).
  destruct (loop_down body rest w) as [rest' w1]. cbn [fst] in IH.
  specialize (Hbody r w1). destruct (body r w1) as [b w2]. cbn [fst] in *.
  by subst.
Qed.

(** *** Launches *)

Lemma flying_acquired L L' w w' r heap p (f : Triangle.t → Triangle.t) :
  flying L w →
  ObjectPool.acquire Triangle.create (World.triangles w, World.trianglePool w)
  = (Some r, (heap, p)) →
  World.triangles w' = alter f r heap →
  World.trianglePool w' = p →
  L' ≡ₚ r :: L →
  flying L' w'.
Proof.
  intros (Hwf & Hnd & Huse) E Ht Hp HL.
  pose proof (acquire_wf Triangle.create _ Hwf) as H. cbn zeta in H.
  rewrite E in H. cbn [fst snd] in H.
  destruct H as (r0 & [= <-] & Hfree & Hin & Hoth & _ & Hwf' & _).
  unfold flying. rewrite Ht, Hp, HL. split.
  { unfold pool_wf in *. cbn [fst snd] in *. by rewrite length_alter. }
  split.
  - apply NoDup_cons. split; [|done]. intros Hr. by apply Hfree, Huse.
  - intros x Hx. rewrite ?HL in Hx. apply elem_of_cons in Hx as [->|Hx]; [done|].
    apply Hoth; [|by apply Huse]. intros ->. by apply Hfree, Huse.
Qed.

Lemma player_launch_flights sx sy tx ty mult w :
  flights_wf w → flights_wf (InputManager.launch sx sy tx ty mult w).2.
Proof.
  intros H. pose proof H as (Hwf & _).
  destruct (launch_acquire w Hwf) as (r & heap & p & E & _).
  rewrite (player_launch_eq _ _ _ _ _ w r heap p E). cbn [snd].
  eapply (flying_acquired (flights w)); [exact H|exact E|done|done|].
  unfold flights. cbn. rewrite <- (assoc_L (++)). cbn.
  by rewrite <- Permutation_middle.
Qed.

Lemma ai_launch_flights sx sy tx ty mult w :
  flights_wf w → flights_wf (AISystem.launch sx sy tx ty mult w).
Proof.
  intros H. pose proof H as (Hwf & _).
  destruct (launch_acquire w Hwf) as (r & heap & p & E & _).
  rewrite (ai_launch_eq _ _ _ _ _ w r heap p E).
  eapply (flying_acquired (flights w)); [exact H|exact E|done|done|].
  unfold flights. cbn. rewrite (assoc_L (++)).
  by rewrite <- Permutation_cons_append.
Qed.

Lemma set_planets_flights ps w : flights_wf w → flights_wf (World.set_planets ps w).
Proof. by apply flights_wf_projectiles. Qed.

Lemma set_store_flights s w : flights_wf w → flights_wf (World.set_store s w).
Proof. by apply flights_wf_projectiles. Qed.

Lemma shake_flights target intensity duration sh w :
  flights_wf w → flights_wf (AnimationHelper.shake target intensity duration sh w).
Proof. apply flights_wf_projectiles, shake_projectiles. Qed.

Lemma player_attack_flights Math_sqrt sh s t w :
  flights_wf w → flights_wf (InputManager.attack Math_sqrt sh s t w).2.
Proof.
  intros H. unfold InputManager.attack.
  destruct (World.planets w !! s) as [src|]; [|done].
  destruct (World.planets w !! t) as [tgt|]; [|done].
  destruct (_ <? _); [by apply shake_flights|].
  by apply player_launch_flights, set_planets_flights.
Qed.

Lemma player_attackSun_flights s now w :
  flights_wf w → flights_wf (InputManager.attackSun s now w).2.
Proof.
  intros H. unfold InputManager.attackSun.
  destruct (World.planets w !! s) as [src|]; [|done].
  destruct (_ <? _); [done|].
  by apply player_launch_flights, set_planets_flights, set_store_flights.
Qed.

Lemma handleSunClick_flights Math_sqrt now w :
  flights_wf w → flights_wf (InputManager.handleSunClick Math_sqrt now w).
Proof.
  intros H. unfold InputManager.handleSunClick.
  destruct (Sun.owner _); [done|].
  destruct (negb _); [done|].
  destruct (_ <? _); [done|].
  destruct (foldl _ _ _).1; [|done].
  by apply player_attackSun_flights.
Qed.

Lemma player_defend_flights sh pl w :
  flights_wf w → flights_wf (InputManager.defendPlanet sh pl w).
Proof.
  intros H. unfold InputManager.defendPlanet.
  destruct (World.planets w !! pl) as [p|]; [|done].
  destruct (_ <? _); [by apply shake_flights|].
  destruct (Planet.hasDefense _ _); [done|].
  revert H. by apply flights_wf_projectiles.
Qed.

Lemma ai_attackPlanet_flights Math_sqrt s t w :
  flights_wf w → flights_wf (AISystem.attackPlanet Math_sqrt s t w).
Proof.
  intros H. unfold AISystem.attackPlanet.
  destruct (World.planets w !! s) as [src|]; [|done].
  destruct (World.planets w !! t) as [tgt|]; [|done].
  destruct (_ <? _); [done|].
  by apply ai_launch_flights, set_planets_flights.
Qed.

Lemma ai_attackSun_flights s now w :
  flights_wf w → flights_wf (AISystem.attackSun s now w).
Proof.
  intros H. unfold AISystem.attackSun.
  destruct (World.planets w !! s) as [src|]; [|done].
  destruct (negb _); [done|].
  destruct (_ <? _); [done|].
  by apply ai_launch_flights, set_planets_flights, set_store_flights.
Qed.

Lemma ai_defend_flights pl w :
  flights_wf w → flights_wf (AISystem.defendPlanet pl w).
Proof.
  intros H. unfold AISystem.defendPlanet.
  destruct (World.planets w !! pl) as [p|]; [|done].
  destruct (_ || _); [done|].
  revert H. by apply flights_wf_projectiles.
Qed.

Lemma tryAttack_flights Math_sqrt aiPlanets target w w' :
  flights_wf w → AISystem.tryAttack Math_sqrt aiPlanets target w = Some w' →
  flights_wf w'.
Proof.
  unfold AISystem.tryAttack. intros H.
  destruct target as [tgt|]; [|done].
  destruct (AISystem.findBestPlanetForAttack _ _ _) as [source|]; [|done].
  intros [= <-]. by apply ai_attackPlanet_flights.
Qed.

Lemma tryAttack_default_flights Math_sqrt aiPlanets target w :
  flights_wf w →
  flights_wf (default w (AISystem.tryAttack Math_sqrt aiPlanets target w)).
Proof.
  intros H. destruct (AISystem.tryAttack _ _ _ _) as [w'|] eqn:E; cbn; [|done].
  by eapply tryAttack_flights.
Qed.

Lemma makeDecision_flights Math_sqrt now rand w :
  flights_wf w → flights_wf (AISystem.makeDecision Math_sqrt now rand w).
Proof.
  intros H. unfold AISystem.makeDecision. cbn zeta.
  destruct (decide _); [done|].
  match goal with |- flights_wf (match ?s with _ => _ end) => destruct s end;
    [by apply ai_defend_flights|].
  match goal with |- flights_wf (match ?s with _ => _ end) => destruct s end;
    [by apply ai_attackSun_flights|].
  destruct (World.aiStrategy w).
  - destruct (AISystem.tryAttack _ _ _ _) as [w'|] eqn:E;
      [by eapply tryAttack_flights|by apply tryAttack_default_flights].
  - match goal with |- flights_wf (match ?s with _ => _ end) => destruct s eqn:E end.
    + match type of E with (if ?c then _ else _) = _ => destruct c end; [|done].
      by eapply tryAttack_flights.
    + destruct (decide _); by apply tryAttack_default_flights.
  - match goal with |- flights_wf (match ?s with _ => _ end) => destruct s eqn:E end.
    + match type of E with (if ?c then _ else _) = _ => destruct c end; [|done].
      by eapply tryAttack_flights.
    + by apply tryAttack_default_flights.
Qed.

Lemma request_step_flights Math_sqrt w r :
  flights_wf w → flights_wf (request_step Math_sqrt w r).
Proof.
  intros H. destruct r; cbn [request_step].
  - by apply player_attack_flights.
  - by apply player_attackSun_flights.
  - by apply handleSunClick_flights.
  - by apply player_defend_flights.
  - by apply ai_attackPlanet_flights.
  - by apply ai_attackSun_flights.
  - by apply ai_defend_flights.
  - by apply makeDecision_flights.
  - revert H. by apply flights_wf_projectiles.
Qed.

(** *** Frames *)

Lemma flying_alter L (f : Triangle.t → Triangle.t) r w :
  flying L w → flying L (World.set_triangles (alter f r (World.triangles w)) w).
Proof. apply flying_same; [done|]. cbn. by rewrite length_alter. Qed.

Lemma resolveSunAttack_projectiles tr w :
  projectiles (CombatSystem.resolveSunAttack tr w) = projectiles w.
Proof.
  unfold CombatSystem.resolveSunAttack.
  by destruct (Sun.takeDamage _ _) as [b [s g]].
Qed.

Lemma resolveAttack_projectiles tr w :
  projectiles (CombatSystem.resolveAttack tr w) = projectiles w.
Proof.
  unfold CombatSystem.resolveAttack.
  destruct (CombatSystem.closestPlanet _ _) as [[target|] [d|]]; try done.
  destruct (Qltb _ _); [|done].
  destruct (World.planets w !! target) as [p|]; [|done].
  destruct (decide _); [done|].
  destruct (_ && _).
  - by destruct (Planet.consumeDefense _ _).
  - by destruct (decide _), (decide _).
Qed.

Lemma flying_projectiles L w w' :
  projectiles w' = projectiles w → flying L w → flying L w'.
Proof.
  unfold projectiles. intros [= Ht Hp _ _]. apply flying_same; [done|by rewrite Ht].
Qed.

Lemma ai_update_body_flying Math_sqrt delta pre r post w :
  flying (pre ++ r :: post) w →
  flying (pre ++ (if (AISystem.update_body Math_sqrt delta r w).1 then [] else [r]) ++ post)
         (AISystem.update_body Math_sqrt delta r w).2.
Proof.
  intros H. unfold AISystem.update_body. cbn [fst snd].
  apply (flying_alter _ (Triangle.update Math_sqrt delta) r) in H.
  destruct (default false _); [by apply flying_drop in H|done].
Qed.

Lemma updateTriangles_body_false Math_sqrt delta r w :
  (Main.updateTriangles_body Math_sqrt delta r w).1 = false.
Proof.
  unfold Main.updateTriangles_body.
  destruct (World.triangles w !! r) as [tr|]; [|done]. by destruct (Triangle.hasReached tr).
Qed.

Lemma updateTriangles_body_flying Math_sqrt delta L r w :
  flying L w → flying L (Main.updateTriangles_body Math_sqrt delta r w).2.
Proof.
  intros H. unfold Main.updateTriangles_body.
  destruct (World.triangles w !! r) as [tr|]; [|done].
  destruct (Triangle.hasReached tr); [done|]. by apply flying_alter.
Qed.

Lemma combat_body_flying pre r post w :
  flying (pre ++ r :: post) w →
  flying (pre ++ (if (CombatSystem.update_body r w).1 then [] else [r]) ++ post)
         (CombatSystem.update_body r w).2.
Proof.
  intros H. unfold CombatSystem.update_body.
  destruct (World.triangles w !! r) as [tr|]; [|done].
  destruct (Triangle.hasReached tr); [|done]. cbn [fst snd app].
  apply flying_release. apply flying_alter.
  destruct (CombatSystem.checkSunHit tr w).
  - revert H. apply flying_projectiles, resolveSunAttack_projectiles.
  - revert H. apply flying_projectiles, resolveAttack_projectiles.
Qed.

Lemma cleanup_body_flying pre r post w :
  flying (pre ++ r :: post) w →
  flying (pre ++ (if (Main.cleanup_body r w).1 then [] else [r]) ++ post)
         (Main.cleanup_body r w).2.
Proof.
  intros H. unfold Main.cleanup_body.
  destruct (World.triangles w !! r) as [tr|]; [|done].
  destruct (Triangle.hasReached tr); [|done]. cbn [fst snd app].
  by apply flying_release, flying_alter.
Qed.

Lemma ai_update_body_lists Math_sqrt delta r w :
  flight_lists (AISystem.update_body Math_sqrt delta r w).2 = flight_lists w.
Proof. done. Qed.

Lemma updateTriangles_body_lists Math_sqrt delta r w :
  flight_lists (Main.updateTriangles_body Math_sqrt delta r w).2 = flight_lists w.
Proof.
  unfold Main.updateTriangles_body.
  destruct (World.triangles w !! r) as [tr|]; [|done]. by destruct (Triangle.hasReached tr).
Qed.

Lemma combat_body_lists r w :
  flight_lists (CombatSystem.update_body r w).2 = flight_lists w.
Proof.
  unfold CombatSystem.update_body.
  destruct (World.triangles w !! r) as [tr|]; [|done].
  destruct (Triangle.hasReached tr); [|done]. cbn [snd].
  unfold flight_lists. cbn.
  destruct (CombatSystem.checkSunHit tr w).
  - by injection (resolveSunAttack_projectiles tr w) as _ _ -> ->.
  - by injection (resolveAttack_projectiles tr w) as _ _ -> ->.
Qed.

Lemma cleanup_body_flight_lists r w :
  flight_lists (Main.cleanup_body r w).2 = flight_lists w.
Proof.
  unfold Main.cleanup_body.
  destruct (World.triangles w !! r) as [tr|]; [|done].
  by destruct (Triangle.hasReached tr).
Qed.

(** A loop over the AI's list, the player's list standing before it. *)
Lemma ai_loop_flights (body : ref → World.t → bool * World.t) w :
  (∀ pre r post v,
     flying (pre ++ r :: post) v →
     flying (pre ++ (if (body r v).1 then [] else [r]) ++ post) (body r v).2) →
  (∀ r v, flight_lists (body r v).2 = flight_lists v) →
  flights_wf w →
  flights_wf (World.set_aiTriangles (loop_down body (World.aiTriangles w) w).1
                                    (loop_down body (World.aiTriangles w) w).2).
Proof.
  intros Hbody Hlists H. unfold flights_wf, flights in *.
  pose proof (loop_down_field flight_lists body Hlists (World.aiTriangles w) w) as Hl.
  injection Hl as Hpl _.
  pose proof (loop_down_flying body Hbody (World.aiTriangles w)
                (World.playerTriangles w) [] w) as Hloop.
  rewrite !app_nil_r in Hloop. specialize (Hloop H).
  cbn [World.playerTriangles World.aiTriangles World.set_aiTriangles].
  rewrite Hpl. revert Hloop. by apply flying_same.
Qed.

(** A loop over the player's list, the AI's list standing after it. *)
Lemma player_loop_flights (body : ref → World.t → bool * World.t) w :
  (∀ pre r post v,
     flying (pre ++ r :: post) v →
     flying (pre ++ (if (body r v).1 then [] else [r]) ++ post) (body r v).2) →
  (∀ r v, flight_lists (body r v).2 = flight_lists v) →
  flights_wf w →
  flights_wf (World.set_playerTriangles (loop_down body (World.playerTriangles w) w).1
                                        (loop_down body (World.playerTriangles w) w).2).
Proof.
  intros Hbody Hlists H. unfold flights_wf, flights in *.
  pose proof (loop_down_field flight_lists body Hlists (World.playerTriangles w) w) as Hl.
  injection Hl as _ Hai.
  pose proof (loop_down_flying body Hbody (World.playerTriangles w)
                [] (World.aiTriangles w) w H) as Hloop.
  cbn [app] in Hloop.
  cbn [World.playerTriangles World.aiTriangles World.set_playerTriangles].
  rewrite Hai. revert Hloop. by apply flying_same.
Qed.

Lemma AISystem_update_flights Math_sqrt delta now rand w :
  flights_wf w → flights_wf (AISystem.update Math_sqrt delta now rand w).
Proof.
  intros H. unfold AISystem.update. cbn zeta.
  set (w2 := if Qleb 60 _ then _ else _).
  assert (H2 : flights_wf w2).
  { subst w2. destruct (Qleb 60 _).
    - apply makeDecision_flights. revert H. by apply flights_wf_projectiles.
    - revert H. by apply flights_wf_projectiles. }
  pose proof (ai_loop_flights (AISystem.update_body Math_sqrt delta) w2
                (ai_update_body_flying Math_sqrt delta)
                (ai_update_body_lists Math_sqrt delta) H2) as Hloop.
  by destruct (loop_down _ _ _).
Qed.

Lemma updateTriangles_flights Math_sqrt side delta w :
  flights_wf w → flights_wf (Main.updateTriangles Math_sqrt side delta w).
Proof.
  intros H. unfold Main.updateTriangles.
  set (body := Main.updateTriangles_body Math_sqrt delta).
  assert (Hbody : ∀ pre r post v,
             flying (pre ++ r :: post) v →
             flying (pre ++ (if (body r v).1 then [] else [r]) ++ post) (body r v).2).
  { intros pre r post v Hv. subst body. rewrite updateTriangles_body_false.
    by apply updateTriangles_body_flying. }
  assert (Hlists : ∀ r v, flight_lists (body r v).2 = flight_lists v).
  { intros. apply updateTriangles_body_lists. }
  assert (Hkeep : ∀ l v, (loop_down body l v).1 = l).
  { apply loop_down_keeps. intros. apply updateTriangles_body_false. }
  destruct side.
  - pose proof (player_loop_flights body w Hbody Hlists H) as Hloop.
    rewrite Hkeep in Hloop. revert Hloop. apply flights_wf_projectiles.
    unfold projectiles. cbn.
    pose proof (loop_down_field flight_lists body Hlists (World.playerTriangles w) w) as Hl.
    injection Hl as -> ->. done.
  - pose proof (ai_loop_flights body w Hbody Hlists H) as Hloop.
    rewrite Hkeep in Hloop. revert Hloop. apply flights_wf_projectiles.
    unfold projectiles. cbn.
    pose proof (loop_down_field flight_lists body Hlists (World.aiTriangles w) w) as Hl.
    injection Hl as -> ->. done.
Qed.

Lemma CombatSystem_update_flights w :
  flights_wf w → flights_wf (CombatSystem.update w).
Proof.
  intros H. unfold CombatSystem.update.
  pose proof (player_loop_flights CombatSystem.update_body w
                combat_body_flying combat_body_lists H) as H1.
  destruct (loop_down CombatSystem.update_body (World.playerTriangles w) w) as [keptP w1].
  cbn [fst snd] in H1.
  pose proof (ai_loop_flights CombatSystem.update_body _
                combat_body_flying combat_body_lists H1) as H2.
  by destruct (loop_down CombatSystem.update_body _ _) as [keptA w3].
Qed.

Lemma cleanupReachedTriangles_flights side w :
  flights_wf w → flights_wf (Main.cleanupReachedTriangles side w).
Proof.
  intros H. unfold Main.cleanupReachedTriangles. destruct side.
  - pose proof (player_loop_flights Main.cleanup_body w
                  cleanup_body_flying cleanup_body_flight_lists H) as H1.
    by destruct (loop_down Main.cleanup_body _ _).
  - pose proof (ai_loop_flights Main.cleanup_body w
                  cleanup_body_flying cleanup_body_flight_lists H) as H1.
    by destruct (loop_down Main.cleanup_body _ _).
Qed.

Lemma checkWinCondition_projectiles w :
  projectiles (GameManager.checkWinCondition w).2 = projectiles w.
Proof.
  unfold GameManager.checkWinCondition.
  destruct (World.gameOver w); [done|].
  destruct (decide _).
  { by destruct (Store.gameMode (World.store w)), (Store.timeAttackMode (World.store w)). }
  destruct (decide _); [done|].
  destruct (_ <=? _); [|done]. by destruct (_ <? _)%nat.
Qed.

Lemma tick_flights Math_sqrt delta now rand w :
  flights_wf w → flights_wf (Main.tick Math_sqrt delta now rand w).
Proof.
  intros H. unfold Main.tick.
  pose proof (checkWinCondition_projectiles w) as Hc.
  destruct (GameManager.checkWinCondition w) as [over w0]. cbn [snd] in Hc.
  assert (H0 : flights_wf w0) by (by apply (flights_wf_projectiles w)).
  destruct over; [done|]. cbn zeta.
  apply cleanupReachedTriangles_flights, cleanupReachedTriangles_flights,
        CombatSystem_update_flights, updateTriangles_flights, updateTriangles_flights.
  assert (H5 : ∀ v, flights_wf v → flights_wf (InputManager.update v)).
  { intros v. by apply flights_wf_projectiles. }
  apply H5, AISystem_update_flights.
  revert H0. apply flights_wf_projectiles.
  unfold ProductionSystem.update. cbn.
  by destruct (Qleb 60 _).
Qed.

Lemma play_flights Math_sqrt steps : ∀ w,
  flights_wf w → flights_wf (play Math_sqrt steps w).
Proof.
  unfold play. induction steps as [|s steps IH]; intros w H; [done|].
  cbn [foldl]. apply IH. destruct s as [r|delta now rand|k|reads]; cbn [step].
  - by apply request_step_flights.
  - by apply tick_flights.
  - revert H. by apply flights_wf_projectiles.
  - revert H. apply flights_wf_projectiles.
    by destruct (animationFrame_form reads w) as (waiting & planets & -> & _).
Qed.

(** X18 — projectiles in flight and the pool.  Start from a match whose
    projectile pool is well formed and whose projectiles in flight are
    pairwise distinct pool objects marked in use (a new match, with no
    projectile in flight, is one).  Then after any sequence of requests
    of the player and of the AI, frames of the game loop, completed
    colour transitions and animation frames of shaken planets the same
    holds: no projectile object is on the
    lists twice or on both lists, every projectile in flight is marked
    in use in the pool, and the projectile the pool would hand out next
    is none of those in flight. *)
Theorem flights_never_shared (Math_sqrt : Q → Q) (steps : list Step) (w : World.t) :
  flights_wf w →
  let w' := play Math_sqrt steps w in
  pool_wf (World.triangles w', World.trianglePool w')
  ∧ NoDup (World.playerTriangles w' ++ World.aiTriangles w')
  ∧ (∀ r, r ∈ World.playerTriangles w' ++ World.aiTriangles w' →
          in_use (World.trianglePool w') r)
  ∧ ∃ r, (World.pool_acquire w').1 = Some r
         ∧ r ∉ World.playerTriangles w' ++ World.aiTriangles w'.
Proof.
  intros H. cbn zeta.
  destruct (play_flights Math_sqrt steps w H) as (Hwf & Hnd & Huse).
  split; [done|]. split; [done|]. split; [done|].
  destruct (launch_acquire _ Hwf) as (r & heap & p & E & _ & Hfree & _).
  exists r. rewrite pool_acquire_eq, E. split; [done|].
  intros Hin. by apply Hfree, Huse.
Qed.

Lemma duel_flights_wf n tx : flights_wf (duel n tx).
Proof.
  split; [apply duel_pool_wf|]. split; [apply NoDup_nil_2|].
  intros r Hr. cbn in Hr. by apply elem_of_nil in Hr.
Qed.

(** Both sides attack, three frames pass, the player attacks again. *)
Lemma flights_never_shared_witness :
  let w' := play isqrt [Req (PlayerAttack still_clock 0 1); Req (AIAttack 1 0);
                        Frame 1 0 (λ _, 0%Q); Frame 1 0 (λ _, 0%Q);
                        Req (PlayerAttack still_clock 0 1)] (duel 30 300) in
  flights_wf (duel 30 300)
  ∧ NoDup (World.playerTriangles w' ++ World.aiTriangles w')
  ∧ length (World.playerTriangles w' ++ World.aiTriangles w') = 3%nat.
Proof.
  cbn zeta. split; [apply duel_flights_wf|]. split.
  - exact (proj1 (proj2 (flights_never_shared isqrt _ _ (duel_flights_wf 30 300)))).
  - by vm_compute.
Defined.

(** ** Clicks on planets *)

Lemma fold_pick_sat {A B : Type} (P : nat * A → Prop)
    (f : option nat * B → nat * A → option nat * B) (l : list (nat * A)) :
  (∀ acc ip, f acc ip = acc ∨ ((f acc ip).1 = Some ip.1 ∧ P ip)) →
  ∀ acc i, (foldl f acc l).1 = Some i → acc.1 = Some i ∨ ∃ a, (i, a) ∈ l ∧ P (i, a).
Proof.
  intros Hf. induction l as [|ip l IH]; intros acc i; cbn [foldl]; [by left|].
  intros H. apply IH in H as [H|(a & Ha & HP)].
  - destruct (Hf acc ip) as [E|[E HP]].
    + rewrite E in H. by left.
    + rewrite E in H. injection H as <-. right. exists ip.2.
      destruct ip; cbn in *. split; [apply list_elem_of_here|done].
  - right. exists a. split; [by apply list_elem_of_further|done].
Qed.

Lemma findBestPlayerPlanetForAttack_sound Math_sqrt target w i :
  InputManager.findBestPlayerPlanetForAttack Math_sqrt target w = Some i →
  ∃ src, World.planets w !! i = Some src ∧ Planet.owner src = player
         ∧ can_afford Math_sqrt target (i, src).
Proof.
  unfold InputManager.findBestPlayerPlanetForAttack. cbn zeta. intros H.
  apply (fold_pick_sat (can_afford Math_sqrt target)) in H as [H|(src & Hin & Hok)]; [done| |].
  - exists src. apply owned_by_lookup in Hin as [Hp Ho]. done.
  - intros acc ip. unfold can_afford.
    destruct (Z.leb_spec
                (InputManager.calculateAttackCost Math_sqrt (Planet.x ip.2) (Planet.y ip.2)
                   (Planet.x target) (Planet.y target) (Some ip.2))
                (Planet.ships ip.2)); [|by left].
    destruct (lt_inf _ _); [by right|by left].
Qed.

Lemma findBestPlayerPlanetForAttack_complete Math_sqrt target w :
  InputManager.findBestPlayerPlanetForAttack Math_sqrt target w = None →
  ∀ ip, ip ∈ World.owned_by player w → ¬ can_afford Math_sqrt target ip.
Proof.
  unfold InputManager.findBestPlayerPlanetForAttack. cbn zeta.
  generalize (World.owned_by player w). intros l.
  assert (Hgen : ∀ acc : option nat * option Q,
             (acc.2 = None → acc.1 = None) → (acc.1 = None → acc.2 = None) →
             (foldl (λ (acc : option nat * option Q) (ip : nat * Planet.t),
                if InputManager.calculateAttackCost Math_sqrt (Planet.x ip.2) (Planet.y ip.2)
                     (Planet.x target) (Planet.y target) (Some ip.2) <=? Planet.ships ip.2
                then
                  if lt_inf (Math_sqrt (dist2 (Planet.x target) (Planet.y target)
                                              (Planet.x ip.2) (Planet.y ip.2)) * (1 # 2)
                             + inject_Z (InputManager.calculateAttackCost Math_sqrt
                                           (Planet.x ip.2) (Planet.y ip.2)
                                           (Planet.x target) (Planet.y target) (Some ip.2)))%Q
                            acc.2
                  then (Some ip.1, Some (Math_sqrt (dist2 (Planet.x target) (Planet.y target)
                                              (Planet.x ip.2) (Planet.y ip.2)) * (1 # 2)
                             + inject_Z (InputManager.calculateAttackCost Math_sqrt
                                           (Planet.x ip.2) (Planet.y ip.2)
                                           (Planet.x target) (Planet.y target) (Some ip.2)))%Q)
                  else acc
                else acc) acc l).1 = None →
             acc.1 = None ∧ ∀ ip, ip ∈ l → ¬ can_afford Math_sqrt target ip).
  { induction l as [|a l IH]; intros acc H1 H2; cbn [foldl].
    - intros H. split; [done|]. intros ip Hin. by apply elem_of_nil in Hin.
    - intros H. apply IH in H.
      + destruct H as [Hacc Hl].
        destruct (Z.leb_spec
                    (InputManager.calculateAttackCost Math_sqrt (Planet.x a.2) (Planet.y a.2)
                       (Planet.x target) (Planet.y target) (Some a.2))
                    (Planet.ships a.2)) as [Hle|Hgt].
        * destruct (lt_inf _ acc.2) eqn:Elt; [done|].
          specialize (H2 Hacc). rewrite H2 in Elt. done.
        * split; [done|]. intros ip [->|Hin]%elem_of_cons; [|by apply Hl].
          unfold can_afford. lia.
      + destruct (_ <=? _); [|done]. by destruct (lt_inf _ _).
      + destruct (_ <=? _); [|done]. by destruct (lt_inf _ _). }
  intros H. by apply (Hgen (None, None)) in H as [_ H].
Qed.

Lemma acquire_some_eq w :
  ∃ r heap p,
    ObjectPool.acquire Triangle.create (World.triangles w, World.trianglePool w)
    = (Some r, (heap, p)).
Proof.
  destruct (ObjectPool_acquire_Some Triangle.create (World.triangles w)
              (World.trianglePool w)) as [r Hr].
  destruct (ObjectPool.acquire _ _) as [o [heap p]]. cbn in Hr. subst. by eauto.
Qed.

Lemma alter_removeShips_insert cost source src (ps : list Planet.t) :
  ps !! source = Some src → cost <= Planet.ships src →
  alter (λ p, (Planet.removeShips cost p).2) source ps
  = <[source := Planet.set_ships (Planet.ships src - cost) src]> ps.
Proof.
  intros Hs Hle. apply list_eq. intros i. destruct (decide (i = source)) as [->|Hne].
  - rewrite list_lookup_alter_eq, Hs. cbn -[Planet.removeShips].
    rewrite list_lookup_insert_eq; [|by eapply lookup_lt_Some].
    by rewrite removeShips_ok.
  - by rewrite list_lookup_alter_ne, list_lookup_insert_ne.
Qed.

(** X19 — a click on a planet of the match.  The click is remembered
    (time and planet).  On a planet of the player nothing happens to the
    match, except on a double click (the same planet, less than 300 ms
    after the last click), which asks to defend the planet; if the planet
    holds fewer than [ATTACK_COST_BASE] ships the request is refused and
    the planet is shaken, which moves its position by up to 2.5 pixels
    along each axis and changes nothing else.  On any other planet an
    attack is launched exactly when some planet of the player holds the
    ships the attack would cost it; the attack then starts from a planet
    of the player that can afford it, takes exactly the cost from it,
    puts one projectile on the player's list, clears the selection and
    adds 2, not 1, to [attacksLaunched]; otherwise the match is
    unchanged.  Which planet is selected has no influence on what happens
    to the match. *)
Theorem handlePlanetClick_outcome (Math_sqrt : Q → Q) (now : Z) (sh : Shake.Call)
    (planet : nat) (p : Planet.t) (c : PlanetClick.t) (w : World.t) :
  World.planets w !! planet = Some p →
  let res := PlanetClick.handlePlanetClick Math_sqrt now sh planet (c, w) in
  let isDoubleClick :=
    (now - PlanetClick.lastClickTime c <? 300)
    && bool_decide (PlanetClick.lastClickedPlanet c = Some planet) in
  (PlanetClick.lastClickTime res.1 = now
   ∧ PlanetClick.lastClickedPlanet res.1 = Some planet)
  ∧ (Planet.owner p = player →
     res.2 = (if isDoubleClick then InputManager.defendPlanet sh planet w else w)
     ∧ (isDoubleClick = true → Planet.ships p < GameConfig.ATTACK_COST_BASE →
        planet_record <$> World.planets res.2 = planet_record <$> World.planets w
        ∧ (unit_random (Shake.first sh) → displaced planet (5 / 2) w res.2)))
  ∧ (Planet.owner p ≠ player →
     ((∀ ip, ip ∈ World.owned_by player w → ¬ can_afford Math_sqrt p ip) → res.2 = w)
     ∧ ((∃ ip, ip ∈ World.owned_by player w ∧ can_afford Math_sqrt p ip) →
        ∃ source src r,
          World.planets w !! source = Some src
          ∧ Planet.owner src = player
          ∧ can_afford Math_sqrt p (source, src)
          ∧ World.planets res.2
            = <[source := Planet.set_ships
                  (Planet.ships src
                   - InputManager.calculateAttackCost Math_sqrt (Planet.x src) (Planet.y src)
                       (Planet.x p) (Planet.y p) (Some src)) src]> (World.planets w)
          ∧ World.playerTriangles res.2 = World.playerTriangles w ++ [r]
          ∧ Store.attacksLaunched (World.store res.2)
            = Store.attacksLaunched (World.store w) + 2
          ∧ PlanetClick.selectedPlanet res.1 = None))
  ∧ (∀ sel, (PlanetClick.handlePlanetClick Math_sqrt now sh planet
               (PlanetClick.mk (PlanetClick.lastClickTime c)
                               (PlanetClick.lastClickedPlanet c) sel, w)).2 = res.2).
Proof.
  intros Hp. cbn zeta. unfold PlanetClick.handlePlanetClick. rewrite Hp.
  cbn [PlanetClick.lastClickTime PlanetClick.lastClickedPlanet PlanetClick.selectedPlanet].
  set (dbl := (now - PlanetClick.lastClickTime c <? 300)
              && bool_decide (PlanetClick.lastClickedPlanet c = Some planet)).
  destruct (decide (Planet.owner p = player)) as [Ho|Ho].
  - rewrite !(bool_decide_eq_true_2 _ Ho). rewrite !andb_true_r.
    destruct dbl; cbn [fst snd].
    + split; [done|]. split; [|done]. intros _. split; [done|]. intros _ Hlt.
      assert (E : InputManager.defendPlanet sh planet w
                  = AnimationHelper.shake planet 5 (3 # 10) sh w).
      { unfold InputManager.defendPlanet. rewrite Hp.
        by destruct (Z.ltb_spec (Planet.ships p) GameConfig.ATTACK_COST_BASE); [|lia]. }
      rewrite E. split; [apply shake_records|].
      intros Hrand. by apply (shake_displaced planet 5 (3 # 10) sh w p).
    + split; [by destruct (bool_decide _)|].
      split; [intros _; split; [by destruct (bool_decide _)|done]|].
      split; [done|]. intros sel. by destruct (bool_decide _), (bool_decide _).
  - rewrite !(bool_decide_eq_false_2 _ Ho). rewrite !andb_false_r.
    destruct (InputManager.findBestPlayerPlanetForAttack Math_sqrt p w) as [source|] eqn:Hfind.
    + apply findBestPlayerPlanetForAttack_sound in Hfind as (src & Hsrc & Hown & Hcan).
      unfold can_afford in Hcan. cbn [fst snd] in Hcan.
      unfold InputManager.attack. rewrite Hsrc, Hp.
      destruct (Z.ltb_spec (Planet.ships src)
                  (InputManager.calculateAttackCost Math_sqrt (Planet.x src) (Planet.y src)
                     (Planet.x p) (Planet.y p) (Some src))) as [Hlt|_]; [lia|].
      set (w1 := World.set_planets _ w).
      destruct (acquire_some_eq w1) as (r & heap & pl & E).
      rewrite (player_launch_eq _ _ _ _ _ w1 r heap pl E).
      cbn [fst snd PlanetClick.lastClickTime PlanetClick.lastClickedPlanet
           PlanetClick.selectedPlanet].
      split; [done|]. split; [done|]. split; [|done].
      intros _. split.
      { intros Hnone. exfalso. apply (Hnone (source, src)); [|done].
        unfold World.owned_by. apply list_elem_of_filter. split; [done|].
        apply list_elem_of_lookup. exists source. by apply indexed_lookup. }
      intros _. exists source, src, r.
      split; [done|]. split; [done|]. split; [done|]. split.
      { cbn -[Planet.removeShips]. by apply alter_removeShips_insert. }
      split; [done|]. split; [|done]. cbn. lia.
    + cbn [fst snd PlanetClick.lastClickTime PlanetClick.lastClickedPlanet].
      split; [done|]. split; [done|]. split; [|done].
      intros _. split; [done|]. intros (ip & Hin & Hcan). exfalso.
      by apply (findBestPlayerPlanetForAttack_complete Math_sqrt p w Hfind ip).
Qed.

(** The very first click of a match, on the AI's planet: the player's
    planet attacks, and two attacks are counted. *)
Lemma handlePlanetClick_outcome_witness :
  let res := PlanetClick.handlePlanetClick isqrt 1000 still_clock 1
               (PlanetClick.initial, duel 10 300) in
  Planet.ships <$> World.planets res.2 = [2; 10]
  ∧ Store.attacksLaunched (World.store res.2) = 2.
Proof.
  destruct (handlePlanetClick_outcome isqrt 1000 still_clock 1 _ PlanetClick.initial
              (duel 10 300) eq_refl)
    as (_ & _ & Hatk & _).
  destruct Hatk as [_ Hatk]; [done|].
  destruct Hatk as (source & src & r & Hs & Ho & Hc & Hpl & _ & Hn & _).
  { exists (0%nat, Planet.mk 0 player standard 10 0 0 None).
    split; [vm_compute; apply list_elem_of_here|by vm_compute]. }
  cbn zeta. split; [by vm_compute|]. rewrite Hn. done.
Defined.

(** Three clicks in a row on the player's own planet, which holds 4
    ships: the second and the third are double clicks, both are refused,
    and the planet ends 5 pixels from where it was. *)
Example triple_click_displaces :
  let click t st := PlanetClick.handlePlanetClick isqrt t still_clock 0 st in
  let res := click 1200 (click 1100 (click 1000 (PlanetClick.initial, duel 4 300))) in
  (λ q, (Planet.ships q, Planet.x q)) <$> World.planets res.2 !! 0%nat
  = Some (4, (0 + (0 - (1 # 2)) * 5 + (0 - (1 # 2)) * 5)%Q).
Proof. by vm_compute. Qed.

(** ** Easing and interpolation *)

Lemma cube_mono (s t : Q) : (0 <= s)%Q → (s <= t)%Q → (s * s * s <= t * t * t)%Q.
Proof.
  intros Hs Hst.
  assert (H : (0 <= (t - s) * (t * t + t * s + s * s))%Q).
  { apply Qmult_le_0_compat; [lra|]. nra. }
  lra.
Qed.

Lemma cube_unit (t : Q) : (0 <= t)%Q → (t <= 1)%Q → (0 <= t * t * t)%Q ∧ (t * t * t <= 1)%Q.
Proof.
  intros H0 H1. pose proof (cube_mono 0 t). pose proof (cube_mono t 1). lra.
Qed.

Lemma Qltb_ge a b : Qltb a b = false → (b <= a)%Q.
Proof.
  intros H. apply Qnot_lt_le. intros Hlt. apply Qltb_lt in Hlt. congruence.
Qed.

Lemma Qdiv2 (x : Q) : (x / 2 == x * (1 # 2))%Q.
Proof. reflexivity. Qed.

(** Case analysis on the comparisons of the goal. *)
Ltac qltb_cases :=
  repeat match goal with
    | |- context [Qltb ?a ?b] =>
        let E := fresh "E" in
        destruct (Qltb a b) eqn:E; [apply Qltb_lt in E|apply Qltb_ge in E]
    end.

Lemma easeIn_range t : (0 <= t)%Q → (t <= 1)%Q →
  (0 <= AnimationMath.easeIn t)%Q ∧ (AnimationMath.easeIn t <= 1)%Q.
Proof. apply cube_unit. Qed.

Lemma easeOut_range t : (0 <= t)%Q → (t <= 1)%Q →
  (0 <= AnimationMath.easeOut t)%Q ∧ (AnimationMath.easeOut t <= 1)%Q.
Proof.
  intros H0 H1. unfold AnimationMath.easeOut, AnimationMath.pow3.
  pose proof (cube_unit (1 - t)). lra.
Qed.

Lemma easeInOut_range t : (0 <= t)%Q → (t <= 1)%Q →
  (0 <= AnimationMath.easeInOut t)%Q ∧ (AnimationMath.easeInOut t <= 1)%Q.
Proof.
  intros H0 H1. unfold AnimationMath.easeInOut, AnimationMath.pow3. qltb_cases.
  - pose proof (cube_mono 0 t). pose proof (cube_mono t (1 # 2)). lra.
  - rewrite Qdiv2. pose proof (cube_unit (-2 * t + 2)). lra.
Qed.

Lemma easeBounce_range t : (0 <= t)%Q → (t <= 1)%Q →
  (0 <= AnimationMath.easeBounce t)%Q ∧ (AnimationMath.easeBounce t <= 1)%Q.
Proof.
  intros H0 H1. unfold AnimationMath.easeBounce. cbn zeta.
  change (1 / (11 # 4))%Q with (4 # 11)%Q.
  change (2 / (11 # 4))%Q with (8 # 11)%Q.
  change ((5 # 2) / (11 # 4))%Q with (20 # 22)%Q.
  change ((3 # 2) / (11 # 4))%Q with (12 # 22)%Q.
  change ((9 # 4) / (11 # 4))%Q with (36 # 44)%Q.
  change ((21 # 8) / (11 # 4))%Q with (84 # 88)%Q.
  qltb_cases; split; nra.
Qed.

Lemma easeInOut_mono s t : (0 <= s)%Q → (s <= t)%Q → (t <= 1)%Q →
  (AnimationMath.easeInOut s <= AnimationMath.easeInOut t)%Q.
Proof.
  intros H0 Hst H1. unfold AnimationMath.easeInOut, AnimationMath.pow3. qltb_cases.
  - pose proof (cube_mono s t). lra.
  - rewrite Qdiv2. pose proof (cube_mono 0 s). pose proof (cube_mono s (1 # 2)).
    pose proof (cube_unit (-2 * t + 2)). lra.
  - lra.
  - rewrite !Qdiv2. pose proof (cube_mono (-2 * t + 2) (-2 * s + 2)). lra.
Qed.

(** X20 — the easing curves on the unit interval.  For a progress
    between 0 and 1, [easeIn], [easeOut], [easeInOut] and [easeBounce]
    answer a value between 0 and 1; each starts at 0 and ends at 1;
    [easeIn], [easeOut] and [easeInOut] never decrease; [easeOut] is
    [easeIn] read backwards, and [easeInOut] is symmetric about the
    middle of the interval. *)
Theorem easing_unit_interval (s t : Q) :
  (0 <= s)%Q → (s <= t)%Q → (t <= 1)%Q →
  Forall (λ f : Q → Q,
            (0 <= f t)%Q ∧ (f t <= 1)%Q ∧ (f 0 == 0)%Q ∧ (f 1 == 1)%Q)
         [AnimationMath.easeIn; AnimationMath.easeOut; AnimationMath.easeInOut;
          AnimationMath.easeBounce]
  ∧ Forall (λ f : Q → Q, (f s <= f t)%Q)
           [AnimationMath.easeIn; AnimationMath.easeOut; AnimationMath.easeInOut]
  ∧ (AnimationMath.easeOut t == 1 - AnimationMath.easeIn (1 - t))%Q
  ∧ (AnimationMath.easeInOut (1 - t) == 1 - AnimationMath.easeInOut t)%Q.
Proof.
  intros H0 Hst H1. assert (Ht : (0 <= t)%Q) by lra.
  split; [|split; [|split]].
  - repeat apply Forall_cons_2; [| | | |apply Forall_nil_2].
    + destruct (easeIn_range t Ht H1). by repeat split.
    + destruct (easeOut_range t Ht H1). by repeat split.
    + destruct (easeInOut_range t Ht H1). by repeat split.
    + destruct (easeBounce_range t Ht H1). by repeat split.
  - repeat apply Forall_cons_2; [| | |apply Forall_nil_2].
    + by apply cube_mono.
    + unfold AnimationMath.easeOut, AnimationMath.pow3.
      pose proof (cube_mono (1 - t) (1 - s)). lra.
    + by apply easeInOut_mono.
  - reflexivity.
  - unfold AnimationMath.easeInOut, AnimationMath.pow3. qltb_cases; rewrite ?Qdiv2.
    + lra.
    + ring.
    + ring.
    + assert (t == 1 # 2)%Q as -> by lra. reflexivity.
Qed.

(** Halfway: the four curves at progress 1/2. *)
Lemma easing_unit_interval_witness :
  (AnimationMath.easeIn (1 # 2) == 1 # 8)%Q
  ∧ (AnimationMath.easeOut (1 # 2) == 7 # 8)%Q
  ∧ (AnimationMath.easeInOut (1 # 2) == 1 # 2)%Q
  ∧ (AnimationMath.easeBounce (1 # 2) == 49 # 64)%Q
  ∧ (0 <= AnimationMath.easeBounce (1 # 2))%Q.
Proof.
  destruct (easing_unit_interval (1 # 4) (1 # 2)) as (Hr & _); [by vm_compute..|].
  apply Forall_cons in Hr as [_ Hr]. apply Forall_cons in Hr as [_ Hr].
  apply Forall_cons in Hr as [_ Hr]. apply Forall_cons in Hr as [(Hb & _) _].
  repeat split; try reflexivity. exact Hb.
Defined.
(** X21 — [lerp] and [clamp].  [lerp] starts at [a]: it answers [a] at
    progress 0, and whenever [b] is [a].  When the progress grows it moves
    from [a] towards [b] and never back: for [a <= b] and progresses
    [0 <= s <= t] it answers values with [a <= lerp s <= lerp t], and the
    mirror image holds for [b <= a].  (That it ends exactly at [b], and
    that it does not overshoot [b], is true of the formula but not of its
    evaluation in floating point, and is not stated.)  [clamp] never
    answers more than [max]; when [min <= max] it answers a value of
    [[min, max]], leaves a value of that interval as it is and is
    idempotent; when the bounds are crossed it answers [max]. *)
Theorem lerp_clamp (a b s t value lo hi : Q) :
  (AnimationMath.lerp a b 0 == a)%Q
  ∧ (AnimationMath.lerp a a t == a)%Q
  ∧ ((a <= b)%Q → (0 <= s)%Q → (s <= t)%Q →
     (a <= AnimationMath.lerp a b s)%Q
     ∧ (AnimationMath.lerp a b s <= AnimationMath.lerp a b t)%Q)
  ∧ ((b <= a)%Q → (0 <= s)%Q → (s <= t)%Q →
     (AnimationMath.lerp a b t <= AnimationMath.lerp a b s)%Q
     ∧ (AnimationMath.lerp a b s <= a)%Q)
  ∧ (AnimationMath.clamp value lo hi <= hi)%Q
  ∧ ((lo <= hi)%Q →
     (lo <= AnimationMath.clamp value lo hi)%Q
     ∧ ((lo <= value)%Q → (value <= hi)%Q → (AnimationMath.clamp value lo hi == value)%Q)
     ∧ (AnimationMath.clamp (AnimationMath.clamp value lo hi) lo hi
        == AnimationMath.clamp value lo hi)%Q)
  ∧ ((hi < lo)%Q → (AnimationMath.clamp value lo hi == hi)%Q).
Proof.
  unfold AnimationMath.lerp, AnimationMath.clamp.
  split; [ring|]. split; [ring|]. split; [intros Hab H0 Hst; split; nra|].
  split; [intros Hab H0 Hst; split; nra|].
  split; [apply Q.le_min_r|].
  split.
  - intros Hlh.
    assert (Hc : (lo <= Qmin (Qmax value lo) hi)%Q ∧ (Qmin (Qmax value lo) hi <= hi)%Q).
    { split; [|apply Q.le_min_r].
      apply Q.min_glb; [apply Q.le_max_r|done]. }
    split; [apply Hc|]. split.
    + intros Hl Hh. rewrite Q.max_l by done. by rewrite Q.min_l.
    + destruct Hc as [Hc1 Hc2].
      rewrite (Q.max_l (Qmin (Qmax value lo) hi) lo) by done.
      by rewrite Q.min_l.
  - intros Hcross. apply Q.min_r.
    apply Qle_trans with lo; [lra|apply Q.le_max_r].
Qed.

Lemma js_rem_360 (a : Q) :
  ∃ k : Z,
    (AnimationMath.js_rem a 360 == a - 360 * inject_Z k)%Q
    ∧ (-360 < AnimationMath.js_rem a 360)%Q
    ∧ (AnimationMath.js_rem a 360 < 360)%Q
    ∧ ((-360 < a)%Q → (a < 360)%Q → (AnimationMath.js_rem a 360 == a)%Q).
Proof.
  unfold AnimationMath.js_rem, AnimationMath.Qtrunc.
  assert (Hd : (a / 360 == a * (1 # 360))%Q) by reflexivity.
  set (x := (a / 360)%Q) in *.
  pose proof (Qfloor_le x) as Hf1. pose proof (Qlt_floor x) as Hf2.
  pose proof (Qle_ceiling x) as Hc1. pose proof (Qceiling_lt x) as Hc2.
  rewrite inject_Z_plus in Hf2. unfold Z.sub in Hc2.
  rewrite inject_Z_plus, inject_Z_opp in Hc2.
  change (inject_Z 1) with 1%Q in *. clearbody x.
  destruct (Qltb x 0) eqn:E.
  - apply Qltb_lt in E.
    exists (Qceiling x). split; [reflexivity|].
    split; [lra|]. split; [lra|]. intros Hlo Hhi.
    assert (Hz : Qceiling x = 0).
    { apply Z.le_antisymm.
      - apply Z.lt_succ_r. rewrite Zlt_Qlt. unfold Z.succ. rewrite inject_Z_plus.
        change (inject_Z 1) with 1%Q. change (inject_Z 0) with 0%Q. lra.
      - apply Z.lt_pred_le. rewrite Zlt_Qlt. unfold Z.pred. rewrite inject_Z_plus.
        change (inject_Z (-1)) with (-1)%Q. change (inject_Z 0) with 0%Q. lra. }
    rewrite Hz. change (inject_Z 0) with 0%Q. lra.
  - apply Qltb_ge in E.
    exists (Qfloor x). split; [reflexivity|].
    split; [lra|]. split; [lra|]. intros Hlo Hhi.
    assert (Hz : Qfloor x = 0).
    { apply Z.le_antisymm.
      - apply Z.lt_succ_r. rewrite Zlt_Qlt. unfold Z.succ. rewrite inject_Z_plus.
        change (inject_Z 1) with 1%Q. change (inject_Z 0) with 0%Q. lra.
      - apply Z.lt_pred_le. rewrite Zlt_Qlt. unfold Z.pred. rewrite inject_Z_plus.
        change (inject_Z (-1)) with (-1)%Q. change (inject_Z 0) with 0%Q. lra. }
    rewrite Hz. change (inject_Z 0) with 0%Q. lra.
Qed.

(** X22 — [lerpAngle].  The result is the normalised current angle plus
    [t] times a turn; the turn leads from the current angle to the
    target up to whole revolutions and is always less than a full
    revolution.  When the target lies in [[-180, 180]], as the angles
    [Math.atan2] gives do, the turn is the shortest one, between -180
    and 180 degrees.  For other targets it can be longer: from -350 to
    350 degrees the function turns by 340 degrees, not by -20. *)
Theorem lerpAngle_turn (current target t : Q) :
  (AnimationMath.lerpAngle current target t
   == AnimationMath.js_rem current 360 + turn current target * t)%Q
  ∧ (∃ k : Z, (turn current target == target - current + 360 * inject_Z k)%Q)
  ∧ ((-360 < turn current target)%Q ∧ (turn current target < 360)%Q)
  ∧ ((-180 <= target)%Q → (target <= 180)%Q →
     (-180 <= turn current target)%Q ∧ (turn current target <= 180)%Q)
  ∧ (turn (-350) 350 == 340)%Q.
Proof.
  assert (Hex : (turn (-350) 350 == 340)%Q) by (by vm_compute).
  enough (H : (AnimationMath.lerpAngle current target t
               == AnimationMath.js_rem current 360 + turn current target * t)%Q
              ∧ (∃ k : Z, (turn current target == target - current + 360 * inject_Z k)%Q)
              ∧ ((-360 < turn current target)%Q ∧ (turn current target < 360)%Q)
              ∧ ((-180 <= target)%Q → (target <= 180)%Q →
                 (-180 <= turn current target)%Q ∧ (turn current target <= 180)%Q)).
  { destruct H as (H1 & H2 & H3 & H4). done. }
  clear Hex.
  destruct (js_rem_360 current) as (kc & Hc & Hc1 & Hc2 & _).
  destruct (js_rem_360 target) as (kt & Ht & Ht1 & Ht2 & Htid).
  unfold turn, AnimationMath.lerpAngle. cbn zeta.
  set (c := AnimationMath.js_rem current 360) in *.
  set (g := AnimationMath.js_rem target 360) in *. clearbody c g.
  destruct (Qltb 180 (g - c)) eqn:E1; [apply Qltb_lt in E1|apply Qltb_ge in E1].
  - destruct (Qltb (g - c - 360) (-180)) eqn:E2;
      [apply Qltb_lt in E2; lra|apply Qltb_ge in E2].
    split; [ring|]. split.
    { exists (kc - kt - 1)%Z. unfold Z.sub. rewrite !inject_Z_plus, !inject_Z_opp.
      change (inject_Z 1) with 1%Q. lra. }
    split; [split; lra|].
    intros Hlo Hhi. specialize (Htid ltac:(lra) ltac:(lra)). split; lra.
  - destruct (Qltb (g - c) (-180)) eqn:E2;
      [apply Qltb_lt in E2|apply Qltb_ge in E2].
    + split; [ring|]. split.
      { exists (kc - kt + 1)%Z. unfold Z.sub. rewrite !inject_Z_plus, !inject_Z_opp.
        change (inject_Z 1) with 1%Q. lra. }
      split; [split; lra|].
      intros Hlo Hhi. specialize (Htid ltac:(lra) ltac:(lra)). split; lra.
    + split; [ring|]. split.
      { exists (kc - kt)%Z. unfold Z.sub. rewrite !inject_Z_plus, !inject_Z_opp. lra. }
      split; [split; lra|].
      intros Hlo Hhi. split; lra.
Qed.

(** ** When the AI may rush the Sun *)

Lemma makeDecision_no_rush Math_sqrt now rand w :
  (GameConfig.getMajorityThreshold (Store.gameMode (World.store w))
     <=? Z.of_nat (length (World.owned_by ai w)))
  && bool_decide (Sun.owner (World.sun w) = None)
  && Sun.isAttackable (World.sun w) = false →
  sunEconomy (World.store (AISystem.makeDecision Math_sqrt now rand w))
  = sunEconomy (World.store w).
Proof.
  intros Hg. unfold AISystem.makeDecision. cbn zeta.
  destruct (decide _); [done|].
  match goal with |- sunEconomy (World.store (match ?s with _ => _ end)) = _ =>
    destruct s end; [apply ai_defend_economy|].
  rewrite Hg. clear Hg.
  destruct (World.aiStrategy w).
  - destruct (AISystem.tryAttack _ _ _ _) as [w'|] eqn:E;
      [by eapply tryAttack_economy_Some|apply tryAttack_economy].
  - match goal with |- sunEconomy (World.store (match ?s with _ => _ end)) = _ =>
      destruct s eqn:E end.
    + match type of E with (if ?c then _ else _) = _ => destruct c end; [|done].
      by eapply tryAttack_economy_Some.
    + destruct (decide _); apply tryAttack_economy.
  - match goal with |- sunEconomy (World.store (match ?s with _ => _ end)) = _ =>
      destruct s eqn:E end.
    + match type of E with (if ?c then _ else _) = _ => destruct c end; [|done].
      by eapply tryAttack_economy_Some.
    + apply tryAttack_economy.
Qed.

Lemma filter_disjoint_length {A : Type} (P Q : A → Prop)
    `{∀ x, Decision (P x)} `{∀ x, Decision (Q x)} (l : list A) :
  (∀ x, P x → Q x → False) →
  (length (filter P l) + length (filter Q l) ≤ length l)%nat.
Proof.
  intros Hd. induction l as [|x l IH]; [done|].
  rewrite !filter_cons. destruct (decide (P x)), (decide (Q x)); cbn; try lia.
  exfalso. by eapply Hd.
Qed.

Lemma owned_by_two_sides w :
  (length (World.owned_by ai w) + length (World.owned_by player w)
   ≤ length (World.planets w))%nat.
Proof.
  unfold World.owned_by.
  etransitivity; [apply filter_disjoint_length; intros x; congruence|].
  unfold World.indexed. rewrite length_zip_with, length_seq. lia.
Qed.

(** X23 — when the AI may rush the Sun.  A decision of the AI registers
    a Sun attack only if the AI holds the majority threshold of planets,
    the Sun has no owner and the Sun's [isAttackable] flag is set.  That
    flag is written by [InputManager.update] alone, from the number of
    planets of the player.  So a decision taken on the planets
    [InputManager.update] has just seen registers a Sun attack only if
    the player and the AI both hold the threshold; in a match with fewer
    planets than twice the threshold (8 planets against 5 in the classic
    and time-attack modes) it never does. *)
Theorem AI_sun_rush_gate (Math_sqrt : Q → Q) (now : Z) (rand : nat → Q) (v : World.t) :
  let threshold := GameConfig.getMajorityThreshold (Store.gameMode (World.store v)) in
  let w := InputManager.update v in
  (∀ u : World.t,
     sunEconomy (World.store (AISystem.makeDecision Math_sqrt now rand u))
     ≠ sunEconomy (World.store u) →
     GameConfig.getMajorityThreshold (Store.gameMode (World.store u))
       <= Z.of_nat (length (World.owned_by ai u))
     ∧ Sun.owner (World.sun u) = None
     ∧ Sun.isAttackable (World.sun u) = true)
  ∧ (Sun.isAttackable (World.sun w) = true
     ↔ threshold <= Z.of_nat (length (World.owned_by player v)))
  ∧ (sunEconomy (World.store (AISystem.makeDecision Math_sqrt now rand w))
     ≠ sunEconomy (World.store w) →
     threshold <= Z.of_nat (length (World.owned_by ai v))
     ∧ threshold <= Z.of_nat (length (World.owned_by player v)))
  ∧ (Z.of_nat (length (World.planets v)) < 2 * threshold →
     sunEconomy (World.store (AISystem.makeDecision Math_sqrt now rand w))
     = sunEconomy (World.store w)).
Proof.
  cbn zeta.
  assert (Hgate : ∀ u : World.t,
     sunEconomy (World.store (AISystem.makeDecision Math_sqrt now rand u))
     ≠ sunEconomy (World.store u) →
     GameConfig.getMajorityThreshold (Store.gameMode (World.store u))
       <= Z.of_nat (length (World.owned_by ai u))
     ∧ Sun.owner (World.sun u) = None
     ∧ Sun.isAttackable (World.sun u) = true).
  { intros u Hne.
    destruct ((GameConfig.getMajorityThreshold (Store.gameMode (World.store u))
                 <=? Z.of_nat (length (World.owned_by ai u)))
              && bool_decide (Sun.owner (World.sun u) = None)
              && Sun.isAttackable (World.sun u)) eqn:Hg.
    - apply andb_true_iff in Hg as [Hg Hatt]. apply andb_true_iff in Hg as [Hth Hown].
      apply Z.leb_le in Hth. apply bool_decide_eq_true_1 in Hown. done.
    - exfalso. apply Hne. by apply makeDecision_no_rush. }
  assert (Hflag : Sun.isAttackable (World.sun (InputManager.update v)) = true
                  ↔ GameConfig.getMajorityThreshold (Store.gameMode (World.store v))
                    <= Z.of_nat (length (World.owned_by player v))).
  { unfold InputManager.update. cbn. apply Z.leb_le. }
  assert (Hboth : sunEconomy (World.store
                    (AISystem.makeDecision Math_sqrt now rand (InputManager.update v)))
                  ≠ sunEconomy (World.store (InputManager.update v)) →
                  GameConfig.getMajorityThreshold (Store.gameMode (World.store v))
                    <= Z.of_nat (length (World.owned_by ai v))
                  ∧ GameConfig.getMajorityThreshold (Store.gameMode (World.store v))
                    <= Z.of_nat (length (World.owned_by player v))).
  { intros Hne. destruct (Hgate _ Hne) as (Hai & _ & Hatt).
    split; [exact Hai|]. by apply Hflag. }
  split; [exact Hgate|]. split; [exact Hflag|]. split; [exact Hboth|].
  intros Hfew. apply makeDecision_no_rush.
  destruct ((GameConfig.getMajorityThreshold
               (Store.gameMode (World.store (InputManager.update v)))
               <=? Z.of_nat (length (World.owned_by ai (InputManager.update v))))
            && bool_decide (Sun.owner (World.sun (InputManager.update v)) = None)
            && Sun.isAttackable (World.sun (InputManager.update v))) eqn:Hg; [|done].
  exfalso.
  apply andb_true_iff in Hg as [Hg Hatt]. apply andb_true_iff in Hg as [Hth _].
  apply Z.leb_le in Hth. apply Hflag in Hatt.
  change (World.owned_by ai (InputManager.update v)) with (World.owned_by ai v) in Hth.
  change (World.store (InputManager.update v)) with (World.store v) in Hth.
  pose proof (owned_by_two_sides v). lia.
Qed.

(** In a classic match of 8 planets of which the AI holds 5 and has the
    ships, a decision taken after [InputManager.update] does not attack
    the Sun. *)
Example classic_AI_never_rushes :
  let v := World.mk Store.initial (Sun.create 500 500)
             (Planet.mk 0 player standard 20 100 100 None
              :: Planet.mk 1 player standard 20 900 100 None
              :: Planet.mk 2 player standard 20 100 900 None
              :: map (λ i, Planet.mk i ai standard 20 500 (inject_Z (Z.of_nat i) * 100) None)
                     (seq 3 5))
             [] [] (ObjectPool.mk [] []) [] [] [] 0 aggressive 0 [] 0 false None [] in
  let w := InputManager.update v in
  length (World.owned_by ai w) = 5%nat
  ∧ Store.canAttackSun ai (World.store w) = true
  ∧ sunEconomy (World.store (AISystem.makeDecision isqrt 1000 (λ _, 0%Q) w))
    = sunEconomy (World.store w).
Proof. by vm_compute. Qed.

(** ** A projectile arriving at the Sun *)

Lemma resolveAttack_sun tr w :
  World.sun (CombatSystem.resolveAttack tr w) = World.sun w
  ∧ Store.sunHP (World.store (CombatSystem.resolveAttack tr w)) = Store.sunHP (World.store w)
  ∧ Store.sunOwner (World.store (CombatSystem.resolveAttack tr w))
    = Store.sunOwner (World.store w).
Proof.
  unfold CombatSystem.resolveAttack.
  destruct (CombatSystem.closestPlanet _ _) as [[target|] [d|]]; try done.
  destruct (Qltb _ _); [|done].
  destruct (World.planets w !! target) as [p|]; [|done].
  destruct (decide _); [done|].
  destruct (_ && _).
  - by destruct (Planet.consumeDefense _ _).
  - by destruct (decide _), (decide _).
Qed.

(** X24 — a projectile arriving at the Sun.  An arrived projectile hits
    the Sun exactly when the Sun has no owner and the projectile is less
    than [SUN_HIT_THRESHOLD] pixels from its centre, whatever it was
    aimed at.  A hit is one [takeDamage] in the name of the projectile's
    owner and nothing else: no planet, no defence and no pending change
    of owner is touched, even with a planet within reach.  Without a
    hit the projectile is resolved against the planets, and the Sun, its
    HP and its owner in the store stay as they are.  Either way the
    projectile leaves the list. *)
Theorem sun_hit_resolution (r : ref) (tr : Triangle.t) (w : World.t) :
  World.triangles w !! r = Some tr →
  Triangle.hasReached tr = true →
  let res := CombatSystem.update_body r w in
  let hit := CombatSystem.checkSunHit tr w in
  res.1 = true
  ∧ (hit = true
     ↔ Sun.owner (World.sun w) = None
       ∧ (dist2 (Triangle.x tr) (Triangle.y tr) (Sun.x (World.sun w)) (Sun.y (World.sun w))
          < GameConfig.SUN_HIT_THRESHOLD * GameConfig.SUN_HIT_THRESHOLD)%Q)
  ∧ (hit = true →
     (World.sun res.2, World.store res.2)
     = (Sun.takeDamage (Triangle.owner tr) (World.sun w, World.store w)).2
     ∧ World.planets res.2 = World.planets w
     ∧ World.defenses res.2 = World.defenses w
     ∧ World.pendingOwner res.2 = World.pendingOwner w)
  ∧ (hit = false →
     World.sun res.2 = World.sun w
     ∧ Store.sunHP (World.store res.2) = Store.sunHP (World.store w)
     ∧ Store.sunOwner (World.store res.2) = Store.sunOwner (World.store w)).
Proof.
  intros Hr Hreached. cbn zeta. unfold CombatSystem.update_body. rewrite Hr, Hreached.
  cbn [fst snd]. split; [done|]. split.
  { unfold CombatSystem.checkSunHit. destruct (Sun.owner (World.sun w)) as [o|].
    - split; [done|]. by intros [? _].
    - rewrite Qltb_lt. split; [by intros ?|by intros [_ ?]]. }
  split.
  - intros Hhit. rewrite Hhit.
    unfold CombatSystem.resolveSunAttack.
    by destruct (Sun.takeDamage _ _) as [b [s g]].
  - intros Hhit. rewrite Hhit. apply resolveAttack_sun.
Qed.

(** The player's projectile arrives 50 pixels from the Sun: HP 3 -> 2,
    the planets keep their ships and owners. *)
Lemma sun_hit_resolution_witness :
  let res := CombatSystem.update_body 0 landed_on_sun in
  CombatSystem.checkSunHit (arrived (Triangle.init 0 0 500 450 player 1 Triangle.create))
                           landed_on_sun = true
  ∧ Sun.hp (World.sun res.2) = 2
  ∧ World.planets res.2 = World.planets landed_on_sun.
Proof.
  destruct (sun_hit_resolution 0 _ landed_on_sun eq_refl eq_refl) as (_ & _ & Hhit & _).
  assert (Hh : CombatSystem.checkSunHit
                 (arrived (Triangle.init 0 0 500 450 player 1 Triangle.create))
                 landed_on_sun = true) by (by vm_compute).
  destruct (Hhit Hh) as (Hsun & Hpl & _).
  cbn zeta. split; [exact Hh|]. split; [|exact Hpl].
  apply (f_equal fst) in Hsun. cbn [fst] in Hsun. rewrite Hsun. by vm_compute.
Defined.

(** ** A click on the Sun *)

Lemma guarded_argmin {A : Type} (ok : nat * A → bool) (m : nat * A → Q)
    (l : list (nat * A)) :
  match foldl (λ (acc : option nat * option Q) (ip : nat * A),
                 if ok ip && lt_inf (m ip) acc.2 then (Some ip.1, Some (m ip)) else acc)
              (None, None) l with
  | (Some i, Some d) =>
      ∃ a, (i, a) ∈ l ∧ ok (i, a) = true ∧ d = m (i, a)
           ∧ ∀ ip, ip ∈ l → ok ip = true → (d <= m ip)%Q
  | (None, None) => ∀ ip, ip ∈ l → ok ip = false
  | _ => False
  end.
Proof.
  induction l as [|a l IH] using rev_ind.
  { cbn. intros ip Hin. by apply elem_of_nil in Hin. }
  rewrite foldl_app. cbn [foldl].
  destruct (foldl _ _ l) as [[i|] [d|]]; try done; cbn [snd lt_inf].
  - destruct IH as (b & Hb & Hok & -> & Hmin).
    destruct (ok a) eqn:Ea; cbn [andb].
    + destruct (Qltb (m a) (m (i, b))) eqn:E.
      * apply Qltb_lt in E. exists a.2. destruct a as [ai aa]. cbn [fst snd].
        split; [apply elem_of_app; right; apply list_elem_of_singleton; done|].
        split; [done|]. split; [done|].
        intros ip [Hin|Hin%list_elem_of_singleton]%elem_of_app Hip; [|subst; lra].
        specialize (Hmin ip Hin Hip). lra.
      * apply Qltb_ge in E. exists b.
        split; [apply elem_of_app; by left|]. split; [done|]. split; [done|].
        intros ip [Hin|Hin%list_elem_of_singleton]%elem_of_app Hip; [by apply Hmin|by subst].
    + exists b. split; [apply elem_of_app; by left|]. split; [done|]. split; [done|].
      intros ip [Hin|Hin%list_elem_of_singleton]%elem_of_app Hip; [by apply Hmin|subst; congruence].
  - destruct (ok a) eqn:Ea; cbn [andb].
    + exists a.2. destruct a as [ai aa]. cbn [fst snd].
      split; [apply elem_of_app; right; apply list_elem_of_singleton; done|].
      split; [done|]. split; [done|].
      intros ip [Hin|Hin%list_elem_of_singleton]%elem_of_app Hip; [|subst; lra].
      specialize (IH ip Hin). congruence.
    + intros ip [Hin|Hin%list_elem_of_singleton]%elem_of_app; [by apply IH|by subst].
Qed.

(** What a click on the Sun does, case by case. *)
Lemma handleSunClick_acts (Math_sqrt : Q → Q) (now : Z) (w : World.t) :
  let cost := Store.getSunAttackCost (World.store w) in
  let w' := InputManager.handleSunClick Math_sqrt now w in
  (¬ sun_click_ready w → w' = w)
  ∧ (sun_click_ready w →
     ∃ source src r,
       World.planets w !! source = Some src
       ∧ Planet.owner src = player
       ∧ cost <= Planet.ships src
       ∧ (∀ ip, ip ∈ World.owned_by player w → cost <= Planet.ships ip.2 →
                (sun_distance Math_sqrt w src <= sun_distance Math_sqrt w ip.2)%Q)
       ∧ World.planets w'
         = <[source := Planet.set_ships (Planet.ships src - cost) src]> (World.planets w)
       ∧ World.store w'
         = Store.incrementAttacks (Store.registerSunAttack player now (World.store w))
       ∧ World.playerTriangles w' = World.playerTriangles w ++ [r]
       ∧ World.aiTriangles w' = World.aiTriangles w).
Proof.
  cbn zeta. unfold InputManager.handleSunClick, sun_click_ready.
  destruct (Sun.owner (World.sun w)) as [o|] eqn:Hown.
  { split; [done|]. by intros [? _]. }
  destruct (Store.canAttackSun player (World.store w)) eqn:Hcan; cbn [negb].
  2:{ split; [done|]. by intros (_ & ? & _). }
  destruct (Z.ltb_spec (Z.of_nat (length (World.owned_by player w)))
              (GameConfig.getMajorityThreshold (Store.gameMode (World.store w))))
    as [Hlt|Hge].
  { split; [done|]. intros (_ & _ & ? & _). lia. }
  cbn zeta.
  pose proof (guarded_argmin
                (λ ip : nat * Planet.t,
                   Store.getSunAttackCost (World.store w) <=? Planet.ships ip.2)
                (λ ip : nat * Planet.t, sun_distance Math_sqrt w ip.2)
                (World.owned_by player w)) as Harg.
  unfold sun_distance in Harg at 1 2. cbn beta in Harg.
  destruct (foldl _ _ (World.owned_by player w)) as [[source|] [d|]]; try done;
    cbn [fst].
  - destruct Harg as (src & Hin & Hok & -> & Hmin).
    apply Z.leb_le in Hok. cbn [snd] in Hok.
    apply owned_by_lookup in Hin as [Hsrc Hosrc].
    split.
    { intros Hnot. exfalso. apply Hnot. repeat split; try done.
      exists (source, src). split; [|done].
      unfold World.owned_by. apply list_elem_of_filter. split; [done|].
      apply list_elem_of_lookup. exists source. by apply indexed_lookup. }
    intros _. unfold InputManager.attackSun. rewrite Hsrc.
    destruct (Z.ltb_spec (Planet.ships src) (Store.getSunAttackCost (World.store w)));
      [lia|].
    set (w2 := World.set_planets _ _).
    destruct (acquire_some_eq w2) as (r & heap & p & E).
    rewrite (player_launch_eq _ _ _ _ _ w2 r heap p E). cbn [snd].
    exists source, src, r. split; [done|]. split; [done|]. split; [done|].
    split.
    { intros ip Hip Hcost. apply (Hmin ip Hip). by apply Z.leb_le. }
    split.
    { cbn -[Planet.removeShips]. by apply alter_removeShips_insert. }
    done.
  - split; [done|]. intros (_ & _ & _ & ip & Hin & Hcost).
    specialize (Harg ip Hin). cbn beta in Harg. apply Z.leb_gt in Harg. lia.
Qed.

(** X25 — a click on the Sun.  The click does something exactly when the
    Sun entity has no owner, [canAttackSun] allows the player, the
    player holds the majority threshold of planets and one of them holds
    the Sun attack cost; otherwise the match is unchanged.  When it
    acts, the attack starts from a planet of the player that can pay
    and that no paying planet of the player beats in distance to the
    Sun; exactly the cost, computed before the attack is registered, is
    taken from it; the store registers one Sun attack of the player at
    the clock value of the click and counts one attack; and one
    projectile joins the player's list. *)
Theorem handleSunClick_outcome (Math_sqrt : Q → Q) (now : Z) (w : World.t) :
  let cost := Store.getSunAttackCost (World.store w) in
  let w' := InputManager.handleSunClick Math_sqrt now w in
  (¬ sun_click_ready w → w' = w)
  ∧ (sun_click_ready w →
     ∃ source src r,
       World.planets w !! source = Some src
       ∧ Planet.owner src = player
       ∧ cost <= Planet.ships src
       ∧ (∀ ip, ip ∈ World.owned_by player w → cost <= Planet.ships ip.2 →
                (sun_distance Math_sqrt w src <= sun_distance Math_sqrt w ip.2)%Q)
       ∧ World.planets w'
         = <[source := Planet.set_ships (Planet.ships src - cost) src]> (World.planets w)
       ∧ World.store w'
         = Store.incrementAttacks (Store.registerSunAttack player now (World.store w))
       ∧ World.playerTriangles w' = World.playerTriangles w ++ [r]
       ∧ World.aiTriangles w' = World.aiTriangles w).
Proof. apply handleSunClick_acts. Qed.

(** In a quick match the player holds four planets with 20 ships each:
    the click takes the base cost from the first of the nearest. *)
Lemma handleSunClick_outcome_witness :
  sun_click_ready (four_planets quick)
  ∧ Planet.ships <$> World.planets (InputManager.handleSunClick isqrt 1000 (four_planets quick))
    = [15; 20; 20; 20; 20].
Proof.
  assert (Hready : sun_click_ready (four_planets quick)).
  { split; [done|]. split; [done|]. split; [by vm_compute|].
    exists (0%nat, Planet.mk 0 player standard 20 300 500 None).
    split; [vm_compute; apply list_elem_of_here|by vm_compute]. }
  split; [exact Hready|].
  destruct (handleSunClick_outcome isqrt 1000 (four_planets quick)) as [_ Hact].
  destruct (Hact Hready) as (source & src & r & _). by vm_compute.
Defined.

(** ** One projectile through one frame *)

Lemma alter_fixed {A : Type} (g : A → A) (r : nat) (l : list A) :
  (∀ t, l !! r = Some t → g t = t) → alter g r l = l.
Proof.
  intros H. apply list_eq. intros i. destruct (decide (i = r)) as [->|Hne].
  - rewrite list_lookup_alter_eq. destruct (l !! r) as [t|] eqn:E; [|done].
    cbn. by rewrite H.
  - by rewrite list_lookup_alter_ne.
Qed.

(** A loop whose body rewrites the projectile it is called on by [g] and
    removes it when [c] holds of it: over a list of distinct projectiles
    every listed projectile is rewritten once, the others are not
    touched, and the projectiles that stay are those [c] refuses. *)
Lemma loop_down_pointwise (body : ref → World.t → bool * World.t)
    (g : Triangle.t → Triangle.t) (c : option Triangle.t → bool) :
  (∀ pre r post v,
     flying (pre ++ r :: post) v →
     flying (pre ++ (if (body r v).1 then [] else [r]) ++ post) (body r v).2) →
  (∀ pre r post v,
     flying (pre ++ r :: post) v →
     World.triangles (body r v).2 = alter g r (World.triangles v)
     ∧ (body r v).1 = c (World.triangles v !! r)) →
  ∀ l pre post w,
    flying (pre ++ l ++ post) w →
    (∀ x, World.triangles (loop_down body l w).2 !! x
          = if decide (x ∈ l) then g <$> World.triangles w !! x
            else World.triangles w !! x)
    ∧ (loop_down body l w).1
      = filter (λ r, c (World.triangles w !! r) = false) l.
Proof.
  intros Hfly Hspec. induction l as [|r rest IH]; intros pre post w H.
  { cbn. split; [|done]. intros x. rewrite decide_False; [done|]. apply not_elem_of_nil. }
  cbn [loop_down].
  assert (Hrest : flying ((pre ++ [r]) ++ rest ++ post) w).
  { by rewrite <- (assoc_L (++)). }
  pose proof (loop_down_flying body Hfly rest (pre ++ [r]) post w Hrest) as Hfl1.
  destruct (IH (pre ++ [r]) post w Hrest) as [IHt IHl].
  destruct (loop_down body rest w) as [rest' w1]. cbn [fst snd] in *.
  rewrite <- (assoc_L (++)) in Hfl1. cbn [app] in Hfl1.
  destruct (Hspec pre r (rest' ++ post) w1 Hfl1) as [Ht Hb].
  assert (Hnotin : r ∉ rest).
  { destruct H as (_ & Hnd & _). apply NoDup_app in Hnd as (_ & _ & Hnd).
    cbn in Hnd. apply NoDup_cons in Hnd as [Hr _]. intros Hin. apply Hr.
    apply elem_of_app. by left. }
  assert (Hsame : World.triangles w1 !! r = World.triangles w !! r).
  { rewrite IHt. by rewrite decide_False. }
  rewrite Hsame in Hb.
  destruct (body r w1) as [b w2]. cbn [fst snd] in *. split.
  - intros x. rewrite Ht. destruct (decide (x = r)) as [->|Hne].
    + rewrite list_lookup_alter_eq, Hsame.
      rewrite decide_True; [done|]. apply list_elem_of_here.
    + rewrite list_lookup_alter_ne by done. rewrite IHt.
      destruct (decide (x ∈ rest)) as [Hin|Hnin].
      * rewrite decide_True; [done|]. by apply list_elem_of_further.
      * rewrite decide_False; [done|]. intros [->|Hin]%elem_of_cons; done.
  - rewrite filter_cons. subst b rest'.
    destruct (c (World.triangles w !! r)).
    + by rewrite decide_False.
    + by rewrite decide_True.
Qed.

Lemma ai_update_body_spec Math_sqrt delta r v :
  World.triangles (AISystem.update_body Math_sqrt delta r v).2
  = alter (Triangle.update Math_sqrt delta) r (World.triangles v)
  ∧ (AISystem.update_body Math_sqrt delta r v).1
    = arrived_at (Triangle.update Math_sqrt delta <$> World.triangles v !! r).
Proof.
  unfold AISystem.update_body, arrived_at. cbn. by rewrite list_lookup_alter_eq.
Qed.

Lemma updateTriangles_body_spec Math_sqrt delta r v :
  World.triangles (Main.updateTriangles_body Math_sqrt delta r v).2
  = alter (advanced Math_sqrt delta) r (World.triangles v).
Proof.
  unfold Main.updateTriangles_body.
  destruct (World.triangles v !! r) as [tr|] eqn:E; cbn [snd].
  - destruct (Triangle.hasReached tr) eqn:Hre; cbn [snd].
    + symmetry. apply alter_fixed. intros t Ht. unfold advanced.
      assert (t = tr) as -> by congruence. by rewrite Hre.
    + cbn. apply list_eq. intros i. destruct (decide (i = r)) as [->|Hne].
      * rewrite !list_lookup_alter_eq, E. cbn. unfold advanced. by rewrite Hre.
      * by rewrite !list_lookup_alter_ne.
  - symmetry. apply alter_fixed. intros t Ht. congruence.
Qed.

Lemma release_in_use r w :
  pool_wf (World.triangles w, World.trianglePool w) →
  in_use (World.trianglePool w) r →
  World.triangles (World.pool_release r w) = alter Triangle.reset r (World.triangles w).
Proof.
  intros Hwf Huse.
  destruct (release_wf_active Triangle.reset _ _ r Hwf Huse) as (Hh & _).
  unfold World.pool_release. by destruct (ObjectPool.release _ _ _).
Qed.

Lemma flying_here pre (r : ref) post v :
  flying (pre ++ r :: post) v →
  pool_wf (World.triangles v, World.trianglePool v) ∧ in_use (World.trianglePool v) r.
Proof.
  intros (Hwf & _ & Huse). split; [done|]. apply Huse.
  apply elem_of_app. right. apply list_elem_of_here.
Qed.

Lemma retire_alter r (l : list Triangle.t) tr :
  l !! r = Some tr → Triangle.hasReached tr = true →
  alter Triangle.reset r (alter (Triangle.set_onStage false) r l) = alter retired r l.
Proof.
  intros E Hre. apply list_eq. intros i. destruct (decide (i = r)) as [->|Hne].
  - rewrite !list_lookup_alter_eq, E. cbn. unfold retired. by rewrite Hre.
  - by rewrite !list_lookup_alter_ne.
Qed.

Lemma retire_fixed r (l : list Triangle.t) :
  (∀ tr, l !! r = Some tr → Triangle.hasReached tr = false) → alter retired r l = l.
Proof.
  intros H. apply alter_fixed. intros t Ht. unfold retired. by rewrite (H t Ht).
Qed.

Lemma combat_body_spec pre r post v :
  flying (pre ++ r :: post) v →
  World.triangles (CombatSystem.update_body r v).2 = alter retired r (World.triangles v)
  ∧ (CombatSystem.update_body r v).1 = arrived_at (World.triangles v !! r).
Proof.
  intros H. unfold CombatSystem.update_body, arrived_at.
  destruct (World.triangles v !! r) as [tr|] eqn:E; cbn [fst snd fmap option_fmap option_map default].
  2:{ split; [|done]. symmetry. apply retire_fixed. intros t Ht. congruence. }
  destruct (Triangle.hasReached tr) eqn:Hre; cbn [fst snd].
  2:{ split; [|done]. symmetry. apply retire_fixed. intros t Ht. congruence. }
  split; [|done].
  set (v1 := if CombatSystem.checkSunHit tr v then _ else _).
  assert (Hv1 : projectiles v1 = projectiles v).
  { subst v1. destruct (CombatSystem.checkSunHit tr v);
      [apply resolveSunAttack_projectiles|apply resolveAttack_projectiles]. }
  assert (Hf1 : flying (pre ++ r :: post) v1) by (by apply (flying_projectiles _ v)).
  injection Hv1 as Ht1 _ _ _.
  apply (flying_alter _ (Triangle.set_onStage false) r) in Hf1.
  destruct (flying_here _ _ _ _ Hf1) as [Hwf Huse].
  rewrite (release_in_use r _ Hwf Huse).
  cbn [World.triangles World.set_triangles World.set_pool fst]. rewrite Ht1.
  by apply (retire_alter r _ tr).
Qed.

Lemma cleanup_body_spec pre r post v :
  flying (pre ++ r :: post) v →
  World.triangles (Main.cleanup_body r v).2 = alter retired r (World.triangles v)
  ∧ (Main.cleanup_body r v).1 = arrived_at (World.triangles v !! r).
Proof.
  intros H. unfold Main.cleanup_body, arrived_at.
  destruct (World.triangles v !! r) as [tr|] eqn:E; cbn [fst snd fmap option_fmap option_map default].
  2:{ split; [|done]. symmetry. apply retire_fixed. intros t Ht. congruence. }
  destruct (Triangle.hasReached tr) eqn:Hre; cbn [fst snd].
  2:{ split; [|done]. symmetry. apply retire_fixed. intros t Ht. congruence. }
  split; [|done].
  pose proof (flying_alter _ (Triangle.set_onStage false) r _ H) as Hf1.
  destruct (flying_here _ _ _ _ Hf1) as [Hwf Huse].
  rewrite (release_in_use r _ Hwf Huse).
  cbn [World.triangles World.set_triangles World.set_pool fst].
  by apply (retire_alter r _ tr).
Qed.

Lemma retired_idem t : retired (retired t) = retired t.
Proof. unfold retired. by destruct (Triangle.hasReached t) eqn:E; cbn; rewrite ?E. Qed.

Lemma flights_disjoint w r :
  flights_wf w → r ∈ World.aiTriangles w → r ∉ World.playerTriangles w.
Proof.
  intros (_ & Hnd & _) Hai Hpl. apply NoDup_app in Hnd as (_ & Hd & _).
  by apply (Hd r).
Qed.

Lemma AISystem_update_idle Math_sqrt delta now rand w :
  flights_wf w →
  Qleb 60 (World.decisionTimer w + delta) = false →
  let w' := AISystem.update Math_sqrt delta now rand w in
  (∀ x, World.triangles w' !! x
        = if decide (x ∈ World.aiTriangles w)
          then Triangle.update Math_sqrt delta <$> World.triangles w !! x
          else World.triangles w !! x)
  ∧ World.aiTriangles w'
    = filter (λ r, arrived_at (Triangle.update Math_sqrt delta <$> World.triangles w !! r)
                   = false) (World.aiTriangles w)
  ∧ World.playerTriangles w' = World.playerTriangles w.
Proof.
  intros H Hno. cbn zeta. unfold AISystem.update.
  cbn [World.decisionTimer World.set_decisionTimer]. rewrite Hno.
  set (w1 := World.set_decisionTimer _ w).
  assert (H1 : flying (World.playerTriangles w ++ World.aiTriangles w ++ []) w1).
  { rewrite app_nil_r. revert H. by apply flying_same. }
  destruct (loop_down_pointwise (AISystem.update_body Math_sqrt delta)
              (Triangle.update Math_sqrt delta)
              (λ o, arrived_at (Triangle.update Math_sqrt delta <$> o))
              (ai_update_body_flying Math_sqrt delta)
              (λ pre r post v _, ai_update_body_spec Math_sqrt delta r v)
              (World.aiTriangles w) (World.playerTriangles w) [] w1 H1) as [Ht Hl].
  pose proof (loop_down_field flight_lists _ (ai_update_body_lists Math_sqrt delta)
                (World.aiTriangles w) w1) as Hf.
  change (World.aiTriangles w1) with (World.aiTriangles w).
  destruct (loop_down _ (World.aiTriangles w) w1) as [kept w3]. cbn [fst snd] in *.
  injection Hf as Hpl _. done.
Qed.

Lemma updateTriangles_pointwise Math_sqrt side delta w :
  flights_wf w →
  let w' := Main.updateTriangles Math_sqrt side delta w in
  (∀ x, World.triangles w' !! x
        = if decide (x ∈ if side then World.playerTriangles w else World.aiTriangles w)
          then advanced Math_sqrt delta <$> World.triangles w !! x
          else World.triangles w !! x)
  ∧ flight_lists w' = flight_lists w.
Proof.
  intros H. cbn zeta. unfold Main.updateTriangles.
  set (body := Main.updateTriangles_body Math_sqrt delta).
  assert (Hfly : ∀ pre r post v,
             flying (pre ++ r :: post) v →
             flying (pre ++ (if (body r v).1 then [] else [r]) ++ post) (body r v).2).
  { intros pre r post v Hv. subst body. rewrite updateTriangles_body_false.
    by apply updateTriangles_body_flying. }
  assert (Hspec : ∀ pre r post v,
             flying (pre ++ r :: post) v →
             World.triangles (body r v).2
             = alter (advanced Math_sqrt delta) r (World.triangles v)
             ∧ (body r v).1 = (λ _ : option Triangle.t, false) (World.triangles v !! r)).
  { intros pre r post v _. split; [apply updateTriangles_body_spec|].
    apply updateTriangles_body_false. }
  split.
  - destruct side.
    + apply (loop_down_pointwise body _ _ Hfly Hspec (World.playerTriangles w)
               [] (World.aiTriangles w) w). exact H.
    + apply (loop_down_pointwise body _ _ Hfly Hspec (World.aiTriangles w)
               (World.playerTriangles w) [] w).
      destruct H as (? & ? & ?). unfold flights in *. by rewrite app_nil_r.
  - apply loop_down_field. intros. apply updateTriangles_body_lists.
Qed.

Lemma CombatSystem_update_pointwise w :
  flights_wf w →
  let w' := CombatSystem.update w in
  (∀ x, World.triangles w' !! x
        = if decide (x ∈ flights w) then retired <$> World.triangles w !! x
          else World.triangles w !! x)
  ∧ World.playerTriangles w' ⊆ World.playerTriangles w
  ∧ World.aiTriangles w' ⊆ World.aiTriangles w.
Proof.
  intros H. cbn zeta. unfold CombatSystem.update.
  pose proof (player_loop_flights CombatSystem.update_body w
                combat_body_flying combat_body_lists H) as H1.
  destruct (loop_down_pointwise CombatSystem.update_body retired arrived_at
              combat_body_flying combat_body_spec
              (World.playerTriangles w) [] (World.aiTriangles w) w H) as [Ht1 Hl1].
  pose proof (loop_down_field flight_lists _ combat_body_lists
                (World.playerTriangles w) w) as Hf1.
  destruct (loop_down CombatSystem.update_body (World.playerTriangles w) w) as [keptP w1].
  cbn [fst snd] in *. injection Hf1 as _ Hai1.
  set (w2 := World.set_playerTriangles keptP w1) in *.
  assert (H2 : flying (World.playerTriangles w2 ++ World.aiTriangles w2 ++ []) w2).
  { rewrite app_nil_r. exact H1. }
  destruct (loop_down_pointwise CombatSystem.update_body retired arrived_at
              combat_body_flying combat_body_spec
              (World.aiTriangles w2) (World.playerTriangles w2) [] w2 H2) as [Ht2 Hl2].
  pose proof (loop_down_field flight_lists _ combat_body_lists
                (World.aiTriangles w2) w2) as Hf2.
  destruct (loop_down CombatSystem.update_body (World.aiTriangles w2) w2) as [keptA w3].
  cbn [fst snd] in *. injection Hf2 as Hpl2 _.
  change (World.playerTriangles w2) with keptP in Hpl2.
  change (World.aiTriangles w2) with (World.aiTriangles w1) in *. rewrite Hai1 in *.
  change (World.triangles w2) with (World.triangles w1) in *.
  split; [|split].
  - intros x. cbn [World.triangles World.set_aiTriangles]. rewrite Ht2, Ht1.
    unfold flights.
    destruct (decide (x ∈ World.aiTriangles w)) as [Ha|Ha].
    + rewrite decide_False by (by apply flights_disjoint).
      rewrite decide_True; [done|]. apply elem_of_app. by right.
    + destruct (decide (x ∈ World.playerTriangles w)) as [Hp|Hp].
      * rewrite decide_True; [done|]. apply elem_of_app. by left.
      * rewrite decide_False; [done|]. intros [?|?]%elem_of_app; done.
  - cbn. rewrite Hpl2. subst keptP. intros x Hx%list_elem_of_filter. apply Hx.
  - cbn. subst keptA. intros x Hx%list_elem_of_filter. apply Hx.
Qed.

Lemma cleanupReachedTriangles_pointwise side w :
  flights_wf w →
  let w' := Main.cleanupReachedTriangles side w in
  (∀ x, World.triangles w' !! x
        = if decide (x ∈ if side then World.playerTriangles w else World.aiTriangles w)
          then retired <$> World.triangles w !! x
          else World.triangles w !! x)
  ∧ World.playerTriangles w' ⊆ World.playerTriangles w
  ∧ World.aiTriangles w' ⊆ World.aiTriangles w.
Proof.
  intros H. cbn zeta. unfold Main.cleanupReachedTriangles. destruct side.
  - destruct (loop_down_pointwise Main.cleanup_body retired arrived_at
                cleanup_body_flying cleanup_body_spec
                (World.playerTriangles w) [] (World.aiTriangles w) w H) as [Ht Hl].
    pose proof (loop_down_field flight_lists _ cleanup_body_flight_lists
                  (World.playerTriangles w) w) as Hf.
    destruct (loop_down Main.cleanup_body (World.playerTriangles w) w) as [kept w1].
    cbn [fst snd] in *. injection Hf as _ Hai. split; [|split].
    + intros x. cbn. by rewrite Ht.
    + cbn. subst kept. intros x Hx%list_elem_of_filter. apply Hx.
    + cbn. by rewrite Hai.
  - assert (H' : flying (World.playerTriangles w ++ World.aiTriangles w ++ []) w).
    { by rewrite app_nil_r. }
    destruct (loop_down_pointwise Main.cleanup_body retired arrived_at
                cleanup_body_flying cleanup_body_spec
                (World.aiTriangles w) (World.playerTriangles w) [] w H') as [Ht Hl].
    pose proof (loop_down_field flight_lists _ cleanup_body_flight_lists
                  (World.aiTriangles w) w) as Hf.
    destruct (loop_down Main.cleanup_body (World.aiTriangles w) w) as [kept w1].
    cbn [fst snd] in *. injection Hf as Hpl _. split; [|split].
    + intros x. cbn. by rewrite Ht.
    + cbn. by rewrite Hpl.
    + cbn. subst kept. intros x Hx%list_elem_of_filter. apply Hx.
Qed.

Lemma checkWinCondition_running w :
  (GameManager.checkWinCondition w).1 = false →
  GameManager.checkWinCondition w = (false, w).
Proof.
  unfold GameManager.checkWinCondition.
  destruct (World.gameOver w); [done|].
  destruct (decide _); [done|]. destruct (decide _); [done|].
  destruct (_ <=? _); [|done]. by destruct (_ <? _)%nat.
Qed.

Lemma tick_running Math_sqrt delta now rand w :
  (GameManager.checkWinCondition w).1 = false →
  Main.tick Math_sqrt delta now rand w
  = Main.cleanupReachedTriangles false
      (Main.cleanupReachedTriangles true
         (CombatSystem.update
            (Main.updateTriangles Math_sqrt false delta
               (Main.updateTriangles Math_sqrt true delta
                  (InputManager.update
                     (AISystem.update Math_sqrt delta now rand (pre_frame delta w))))))).
Proof.
  intros Hrun. unfold Main.tick, pre_frame.
  rewrite (checkWinCondition_running w Hrun).
  by destruct (Sun.update _).
Qed.

Lemma pre_frame_projectiles delta w :
  projectiles (pre_frame delta w) = projectiles w
  ∧ World.decisionTimer (pre_frame delta w) = World.decisionTimer w.
Proof.
  unfold pre_frame, Sun.update, ProductionSystem.update. cbn.
  by destruct (Qleb 60 _).
Qed.

(** X26 — one projectile through one frame of a running match in which
    the AI takes no decision.  A projectile of the player that is in
    flight is advanced once, by [updateTriangles]; a projectile of the
    AI is advanced twice, first by [AISystem.update] and then by
    [updateTriangles], so it covers two steps per frame.  A projectile
    that has arrived after its last advance is resolved, taken off the
    stage and reset for the pool in the same frame; but an AI projectile
    that arrives in the first of its two advances has left the AI's list
    before combat runs, and stays as it is: arrived, still active, never
    reset. *)
Theorem projectile_frame (Math_sqrt : Q → Q) (delta : Q) (now : Z) (rand : nat → Q)
    (w : World.t) (r : ref) (tr : Triangle.t) :
  flights_wf w →
  (GameManager.checkWinCondition w).1 = false →
  Qleb 60 (World.decisionTimer w + delta) = false →
  World.triangles w !! r = Some tr →
  Triangle.hasReached tr = false →
  let w' := Main.tick Math_sqrt delta now rand w in
  (r ∈ World.playerTriangles w →
   World.triangles w' !! r
   = Some (retired (Triangle.update Math_sqrt delta (Triangle.set_onStage true tr))))
  ∧ (r ∈ World.aiTriangles w →
     let t1 := Triangle.update Math_sqrt delta tr in
     World.triangles w' !! r
     = Some (if Triangle.hasReached t1 then t1
             else retired (Triangle.update Math_sqrt delta (Triangle.set_onStage true t1)))).
Proof.
  intros H Hrun Hno Hr Hfly. cbn zeta. rewrite (tick_running _ _ _ _ _ Hrun).
  destruct (pre_frame_projectiles delta w) as [Hp0 Hd0].
  set (v0 := pre_frame delta w) in *. clearbody v0.
  assert (F0 : flights_wf v0) by (by apply (flights_wf_projectiles w)).
  unfold projectiles in Hp0. injection Hp0 as Ht0 _ Hpl0 Hai0.
  rewrite <- Hd0 in Hno.
  destruct (AISystem_update_idle Math_sqrt delta now rand v0 F0 Hno) as (Ht1 & Hai1 & Hpl1).
  pose proof (AISystem_update_flights Math_sqrt delta now rand v0 F0) as F1.
  set (v1 := AISystem.update Math_sqrt delta now rand v0) in *. clearbody v1.
  assert (F2 : flights_wf (InputManager.update v1)) by (by apply (flights_wf_projectiles v1)).
  assert (Ht2 : World.triangles (InputManager.update v1) = World.triangles v1) by done.
  assert (Hpl2 : World.playerTriangles (InputManager.update v1) = World.playerTriangles v1)
    by done.
  assert (Hai2 : World.aiTriangles (InputManager.update v1) = World.aiTriangles v1) by done.
  set (v2 := InputManager.update v1) in *. clearbody v2.
  destruct (updateTriangles_pointwise Math_sqrt true delta v2 F2) as (Ht3 & Hl3).
  pose proof (updateTriangles_flights Math_sqrt true delta v2 F2) as F3.
  set (v3 := Main.updateTriangles Math_sqrt true delta v2) in *. clearbody v3.
  unfold flight_lists in Hl3. injection Hl3 as Hpl3 Hai3.
  destruct (updateTriangles_pointwise Math_sqrt false delta v3 F3) as (Ht4 & Hl4).
  pose proof (updateTriangles_flights Math_sqrt false delta v3 F3) as F4.
  set (v4 := Main.updateTriangles Math_sqrt false delta v3) in *. clearbody v4.
  unfold flight_lists in Hl4. injection Hl4 as Hpl4 Hai4.
  destruct (CombatSystem_update_pointwise v4 F4) as (Ht5 & Hpl5 & Hai5).
  pose proof (CombatSystem_update_flights v4 F4) as F5.
  set (v5 := CombatSystem.update v4) in *. clearbody v5.
  destruct (cleanupReachedTriangles_pointwise true v5 F5) as (Ht6 & Hpl6 & Hai6).
  pose proof (cleanupReachedTriangles_flights true v5 F5) as F6.
  set (v6 := Main.cleanupReachedTriangles true v5) in *. clearbody v6.
  destruct (cleanupReachedTriangles_pointwise false v6 F6) as (Ht7 & Hpl7 & Hai7).
  set (v7 := Main.cleanupReachedTriangles false v6) in *. clearbody v7.
  cbn beta iota in *.
  assert (Hclean : ∀ a, World.triangles v5 !! r = Some (retired a) →
                        World.triangles v7 !! r = Some (retired a)).
  { intros a Ha. rewrite Ht7, Ht6, Ha. cbn. rewrite retired_idem.
    by destruct (decide _), (decide _); cbn; rewrite ?retired_idem. }
  split.
  - intros Hin.
    assert (Hnai : r ∉ World.aiTriangles w).
    { intros Hai. by apply (flights_disjoint w r H Hai). }
    assert (E1 : World.triangles v1 !! r = Some tr).
    { rewrite Ht1, Hai0, decide_False by done. by rewrite Ht0. }
    assert (E3 : World.triangles v3 !! r
                 = Some (Triangle.update Math_sqrt delta (Triangle.set_onStage true tr))).
    { rewrite Ht3, Hpl2, Hpl1, Hpl0, decide_True by done. rewrite Ht2, E1. cbn.
      unfold advanced. by rewrite Hfly. }
    assert (Hnai3 : r ∉ World.aiTriangles v3).
    { rewrite Hai3, Hai2, Hai1, Hai0. intros Hx%list_elem_of_filter. by destruct Hx. }
    assert (E4 : World.triangles v4 !! r
                 = Some (Triangle.update Math_sqrt delta (Triangle.set_onStage true tr))).
    { rewrite Ht4, decide_False by done. done. }
    apply Hclean. rewrite Ht5, E4. rewrite decide_True; [done|].
    unfold flights. apply elem_of_app. left. by rewrite Hpl4, Hpl3, Hpl2, Hpl1, Hpl0.
  - intros Hin.
    assert (Hnpl : r ∉ World.playerTriangles w) by (by apply flights_disjoint).
    assert (E1 : World.triangles v1 !! r = Some (Triangle.update Math_sqrt delta tr)).
    { rewrite Ht1, Hai0, decide_True by done. by rewrite Ht0, Hr. }
    assert (E3 : World.triangles v3 !! r = Some (Triangle.update Math_sqrt delta tr)).
    { rewrite Ht3, Hpl2, Hpl1, Hpl0, decide_False by done. by rewrite Ht2. }
    destruct (Triangle.hasReached (Triangle.update Math_sqrt delta tr)) eqn:Hre1.
    + assert (Hnai1 : r ∉ World.aiTriangles v1).
      { rewrite Hai1, Hai0. intros [Hx _]%list_elem_of_filter.
        rewrite Ht0, Hr in Hx. unfold arrived_at in Hx. cbn in Hx. congruence. }
      assert (E4 : World.triangles v4 !! r = Some (Triangle.update Math_sqrt delta tr)).
      { rewrite Ht4, Hai3, Hai2, decide_False by done. done. }
      assert (Hn4 : r ∉ flights v4).
      { unfold flights. rewrite Hpl4, Hpl3, Hpl2, Hpl1, Hpl0, Hai4, Hai3, Hai2.
        intros [?|?]%elem_of_app; done. }
      assert (E5 : World.triangles v5 !! r = Some (Triangle.update Math_sqrt delta tr)).
      { rewrite Ht5, decide_False by done. done. }
      assert (Hn5 : (r ∉ World.playerTriangles v5) ∧ (r ∉ World.aiTriangles v5)).
      { split; intros Hx.
        - apply Hpl5 in Hx. apply Hn4. unfold flights. apply elem_of_app. by left.
        - apply Hai5 in Hx. apply Hn4. unfold flights. apply elem_of_app. by right. }
      destruct Hn5 as [Hnp5 Hna5].
      rewrite Ht7, Ht6. rewrite decide_False by (intros Hx; by apply Hai6 in Hx).
      by rewrite decide_False.
    + assert (Hai1' : r ∈ World.aiTriangles v1).
      { rewrite Hai1, Hai0. apply list_elem_of_filter. split; [|done].
        rewrite Ht0, Hr. unfold arrived_at. cbn. done. }
      assert (E4 : World.triangles v4 !! r
                   = Some (Triangle.update Math_sqrt delta
                             (Triangle.set_onStage true (Triangle.update Math_sqrt delta tr)))).
      { rewrite Ht4, Hai3, Hai2, decide_True by done. rewrite E3. cbn.
        unfold advanced. by rewrite Hre1. }
      apply Hclean. rewrite Ht5, E4. rewrite decide_True; [done|].
      unfold flights. apply elem_of_app. right. by rewrite Hai4, Hai3, Hai2.
Qed.

Lemma ai_projectile_arriving_wf : flights_wf ai_projectile_arriving.
Proof.
  unfold ai_projectile_arriving, in_flight_at, flights_wf.
  apply flying_alter.
  apply (request_step_flights isqrt (duel 10 300) (AIAttack 1 0)), duel_flights_wf.
Qed.

(** The AI's projectile 9 pixels from its target: after one frame it has
    been advanced twice. *)
Lemma projectile_frame_witness :
  ∃ tr, World.triangles ai_projectile_arriving !! 0%nat = Some tr
        ∧ Triangle.hasReached (Triangle.update isqrt 1 tr) = false
        ∧ World.triangles (Main.tick isqrt 1 0 (λ _, 0%Q) ai_projectile_arriving) !! 0%nat
          = Some (retired (Triangle.update isqrt 1
                             (Triangle.set_onStage true (Triangle.update isqrt 1 tr)))).
Proof.
  destruct (World.triangles ai_projectile_arriving !! 0%nat) as [tr|] eqn:E;
    [|by vm_compute in E].
  exists tr. split; [done|].
  assert (Hfly : Triangle.hasReached tr = false).
  { vm_compute in E. by injection E as <-. }
  assert (H1 : Triangle.hasReached (Triangle.update isqrt 1 tr) = false).
  { vm_compute in E. injection E as <-. by vm_compute. }
  split; [exact H1|].
  destruct (projectile_frame isqrt 1 0 (λ _, 0%Q) ai_projectile_arriving 0 tr
              ai_projectile_arriving_wf) as [_ Hai]; [by vm_compute|by vm_compute|done|done|].
  cbn zeta in Hai. rewrite H1 in Hai. apply Hai.
  vm_compute. apply list_elem_of_here.
Defined.

(** ** The majority threshold at work *)

Lemma foldl_pointwise {A B : Type} (f g : A → B → A) (l : list B) :
  (∀ a b, f a b = g a b) → ∀ a, foldl f a l = foldl g a l.
Proof.
  intros H. induction l as [|b l IH]; intros a; [done|]. cbn. by rewrite H, IH.
Qed.

(** The AI's search for a planet to attack the Sun from finds one as soon
    as one of its planets holds the cost. *)
Lemma findBestPlanetForSunAttack_finds Math_sqrt (l : list (nat * Planet.t)) w :
  (∃ ip, ip ∈ l ∧ Store.getSunAttackCost (World.store w) <= Planet.ships ip.2) →
  ∃ i a, AISystem.findBestPlanetForSunAttack Math_sqrt l w = Some i
         ∧ (i, a) ∈ l
         ∧ Store.getSunAttackCost (World.store w) <= Planet.ships a.
Proof.
  intros (ip & Hin & Hcost). unfold AISystem.findBestPlanetForSunAttack. cbn zeta.
  rewrite (foldl_pointwise _
             (λ (acc : option nat * option Q) (ip : nat * Planet.t),
                if (Store.getSunAttackCost (World.store w) <=? Planet.ships ip.2)
                   && lt_inf (sun_distance Math_sqrt w ip.2) acc.2
                then (Some ip.1, Some (sun_distance Math_sqrt w ip.2)) else acc)).
  2:{ intros acc jp. unfold sun_distance. by destruct (_ <=? _), (lt_inf _ _). }
  pose proof (guarded_argmin
                (λ ip : nat * Planet.t,
                   Store.getSunAttackCost (World.store w) <=? Planet.ships ip.2)
                (λ ip : nat * Planet.t, sun_distance Math_sqrt w ip.2) l) as Harg.
  cbn beta in Harg.
  destruct (foldl _ _ l) as [[i|] [d|]]; try done.
  - destruct Harg as (a & Ha & Hok & _). apply Z.leb_le in Hok.
    exists i, a. done.
  - specialize (Harg ip Hin). cbn beta in Harg. apply Z.leb_gt in Harg. lia.
Qed.

(** A decision of the AI that does not defend (the strategy is aggressive,
    or the player holds fewer than 4 planets) attacks the Sun as soon as
    the AI holds the threshold, the Sun is flagged attackable and the
    attack is possible. *)
Lemma makeDecision_rush Math_sqrt now rand w :
  sun_attack_possible ai w →
  Sun.isAttackable (World.sun w) = true →
  World.aiStrategy w = aggressive ∨ (length (World.owned_by player w) < 4)%nat →
  GameConfig.getMajorityThreshold (Store.gameMode (World.store w))
  <= Z.of_nat (length (World.owned_by ai w)) →
  World.store (AISystem.makeDecision Math_sqrt now rand w)
  = Store.incrementAttacks (Store.registerSunAttack ai now (World.store w))
  ∧ ∃ r, World.aiTriangles (AISystem.makeDecision Math_sqrt now rand w)
         = World.aiTriangles w ++ [r].
Proof.
  intros (Hown & Hcan & Hpay) Hflag Hcalm Hth.
  destruct (findBestPlanetForSunAttack_finds Math_sqrt (World.owned_by ai w) w Hpay)
    as (best & src & Hbest & Hin & Hcost).
  unfold AISystem.makeDecision. cbn zeta.
  destruct (decide (length (World.owned_by ai w) = 0%nat)) as [Hnone|_].
  { apply nil_length_inv in Hnone. rewrite Hnone in Hin. by apply elem_of_nil in Hin. }
  assert (Hskip : (4 <=? length (World.owned_by player w))%nat
                  && negb (bool_decide (World.aiStrategy w = aggressive)) = false).
  { destruct Hcalm as [Hagg|Hfew].
    - rewrite (bool_decide_eq_true_2 _ Hagg). apply andb_false_r.
    - destruct (Nat.leb_spec 4 (length (World.owned_by player w))); [lia|done]. }
  rewrite Hskip. apply Z.leb_le in Hth. rewrite Hth, Hown, Hflag, Hbest.
  rewrite bool_decide_eq_true_2 by done. cbn [andb].
  apply owned_by_lookup in Hin as [Hsrc _].
  unfold AISystem.attackSun. rewrite Hsrc, Hcan. cbn [negb].
  destruct (Z.ltb_spec (Planet.ships src) (Store.getSunAttackCost (World.store w))); [lia|].
  set (w2 := World.set_planets _ _).
  destruct (acquire_some_eq w2) as (r & heap & p & E).
  rewrite (ai_launch_eq _ _ _ _ _ w2 r heap p E). split; [done|]. by exists r.
Qed.

(** C10. [getMajorityThreshold] answers 5 for 'classic' and 'timeattack'
    and 4 for 'quick' only, so in 'timeattack' it differs from the 4
    declared in [GAME_MODES.TIME_ATTACK]; and this is the threshold each of
    its four callers applies, neither more nor less.  [InputManager.update]
    flags the Sun attackable exactly when the player owns that many
    planets.  A click on the Sun below the threshold does nothing, and
    with the threshold reached it attacks as soon as an attack is
    possible.  A decision of the AI below the threshold registers no Sun
    attack, and with the threshold reached a decision that does not
    defend attacks the Sun as soon as the Sun is flagged and an attack is
    possible.  [UIManager.update] tells the player about a Sun attack of
    their own exactly when nobody owns the Sun and the player holds the
    threshold, and warns that the AI can attack exactly when nobody owns
    the Sun, the player is below the threshold and the AI holds it. *)
Theorem C10_majority_threshold :
  (∀ mode, GameConfig.getMajorityThreshold mode = thresholdUsed mode)
  ∧ (∀ mode, GameConfig.getMajorityThreshold mode = 4 ↔ mode = quick)
  ∧ GameConfig.majorityThreshold GameConfig.TIME_ATTACK = 4
  ∧ GameConfig.getMajorityThreshold timeattack
    ≠ GameConfig.majorityThreshold GameConfig.TIME_ATTACK
  ∧ (∀ w, Sun.isAttackable (World.sun (InputManager.update w))
          = (thresholdUsed (Store.gameMode (World.store w))
             <=? Z.of_nat (length (World.owned_by player w))))
  ∧ (∀ Math_sqrt now w,
       Z.of_nat (length (World.owned_by player w))
       < thresholdUsed (Store.gameMode (World.store w)) →
       InputManager.handleSunClick Math_sqrt now w = w)
  ∧ (∀ Math_sqrt now w,
       sun_attack_possible player w →
       thresholdUsed (Store.gameMode (World.store w))
       <= Z.of_nat (length (World.owned_by player w)) →
       World.store (InputManager.handleSunClick Math_sqrt now w)
       = Store.incrementAttacks (Store.registerSunAttack player now (World.store w))
       ∧ ∃ r, World.playerTriangles (InputManager.handleSunClick Math_sqrt now w)
              = World.playerTriangles w ++ [r])
  ∧ (∀ Math_sqrt now rand w,
       Z.of_nat (length (World.owned_by ai w))
       < thresholdUsed (Store.gameMode (World.store w)) →
       sunEconomy (World.store (AISystem.makeDecision Math_sqrt now rand w))
       = sunEconomy (World.store w))
  ∧ (∀ Math_sqrt now rand w,
       sun_attack_possible ai w →
       Sun.isAttackable (World.sun w) = true →
       World.aiStrategy w = aggressive ∨ (length (World.owned_by player w) < 4)%nat →
       thresholdUsed (Store.gameMode (World.store w))
       <= Z.of_nat (length (World.owned_by ai w)) →
       World.store (AISystem.makeDecision Math_sqrt now rand w)
       = Store.incrementAttacks (Store.registerSunAttack ai now (World.store w))
       ∧ ∃ r, World.aiTriangles (AISystem.makeDecision Math_sqrt now rand w)
              = World.aiTriangles w ++ [r])
  ∧ (∀ w,
       (about_player_attack (UIManager.contextMessage w) = true
        ↔ Store.sunOwner (World.store w) = None
          ∧ thresholdUsed (Store.gameMode (World.store w))
            <= Z.of_nat (GameManager.countOwned player w))
       ∧ (UIManager.contextMessage w = UIManager.AICanAttack
          ↔ Store.sunOwner (World.store w) = None
            ∧ Z.of_nat (GameManager.countOwned player w)
              < thresholdUsed (Store.gameMode (World.store w))
            ∧ thresholdUsed (Store.gameMode (World.store w))
              <= Z.of_nat (GameManager.countOwned ai w))).
Proof.
  split; [apply getMajorityThreshold_used|].
  split; [by intros []|].
  split; [done|]. split; [done|].
  split.
  { intros w. unfold InputManager.update. cbn.
    by rewrite getMajorityThreshold_used. }
  split.
  { intros Math_sqrt now w Hlt. unfold InputManager.handleSunClick.
    destruct (Sun.owner _); [done|].
    destruct (negb _); [done|].
    rewrite getMajorityThreshold_used.
    by destruct (Z.ltb_spec (Z.of_nat (length (World.owned_by player w)))
                   (thresholdUsed (Store.gameMode (World.store w)))); [|lia]. }
  split.
  { intros Math_sqrt now w (Hown & Hcan & Hpay) Hth.
    destruct (handleSunClick_acts Math_sqrt now w) as [_ Hact].
    destruct Hact as (source & src & r & _ & _ & _ & _ & _ & Hst & Htr & _).
    { split; [done|]. split; [done|]. split; [|done].
      by rewrite getMajorityThreshold_used. }
    split; [exact Hst|]. by exists r. }
  split; [apply makeDecision_below_threshold|].
  split.
  { intros Math_sqrt now rand w Hposs Hflag Hcalm Hth.
    apply makeDecision_rush; try done. by rewrite getMajorityThreshold_used. }
  intros w. unfold UIManager.contextMessage, GameManager.countOwned. cbn zeta.
  rewrite getMajorityThreshold_used.
  set (th := thresholdUsed (Store.gameMode (World.store w))).
  set (np := Z.of_nat (length (filter (λ p, Planet.owner p = player) (World.planets w)))).
  set (na := Z.of_nat (length (filter (λ p, Planet.owner p = ai) (World.planets w)))).
  destruct (Store.sunOwner (World.store w)) as [o|] eqn:Ho.
  { rewrite bool_decide_eq_false_2 by done. rewrite !andb_false_r.
    destruct (_ && _); cbn; (split; split; [done|by intros [? _]|done|by intros [? _]]). }
  rewrite bool_decide_eq_true_2 by done. rewrite !andb_true_r.
  destruct (Z.leb_spec th np) as [Hp|Hp].
  { destruct (0 <? _); cbn; (split; split; [done|done|done|intros (_ & ? & _); lia]). }
  destruct (Z.leb_spec th na) as [Ha|Ha].
  { cbn. split; split; [done|intros [_ ?]; lia|done|done]. }
  destruct (_ && _); cbn;
    (split; split; [done|intros [_ ?]; lia|done|intros (_ & _ & ?); lia]).
Qed.

(** A quick match in which the player holds exactly the four planets of
    the threshold: the click attacks the Sun, and the message invites to.
    With the sides exchanged and the Sun flagged attackable, the AI's
    decision attacks the Sun from its four planets, and the message warns
    of it. *)
Example threshold_reached :
  let mirrored :=
    World.set_sun (Sun.setAttackable true (World.sun (four_planets quick)))
      (World.set_planets
         (map (λ p, Planet.setOwner (opponent (Planet.owner p)) p)
              (World.planets (four_planets quick)))
         (four_planets quick)) in
  Store.attacksLaunched
    (World.store (InputManager.handleSunClick isqrt 1000 (four_planets quick))) = 1
  ∧ UIManager.contextMessage (four_planets quick) = UIManager.AttackTheSun
  ∧ UIManager.contextMessage (four_planets classic) = UIManager.Hidden
  ∧ Store.sunAIAttackCooldown
      (World.store (AISystem.makeDecision isqrt 1000 (λ _, 0%Q) mirrored)) = 180%Q
  ∧ length (World.aiTriangles (AISystem.makeDecision isqrt 1000 (λ _, 0%Q) mirrored)) = 1%nat
  ∧ UIManager.contextMessage mirrored = UIManager.AICanAttack.
Proof. by vm_compute. Qed.
